(** * Classic graph generators (networkx/generators/classic.py)

    A shallow embedding of the generators of [classic.py] together with the
    parts of the graph container and of [networkx.utils] that they call.
    The container is a mutable Python object: graph objects live in a heap
    and the generators run in a state-and-exception monad over that heap,
    so that clearing and refilling a caller-supplied [create_using]
    container is visible in the final heap. *)

From Stdlib Require Import String Ascii ZArith List Bool Arith Lia.
From Stdlib Require Import DecimalString Permutation Sorted FinFun.
Import ListNotations.
Local Open Scope Z_scope.

(* ================================================================== *)
(** * Python values used as node identifiers *)

(** Node identifiers are hashable Python values.  The generators of this
    module only ever build integers and tuples (grid coordinates), so the
    embedding restricts identifiers to those two shapes. *)
#[warnings="-register-all"]
Inductive node : Type :=
| NInt (z : Z)
| NTup (items : list node).

Fixpoint node_eqb (a b : node) {struct a} : bool :=
  match a, b with
  | NInt x, NInt y => Z.eqb x y
  | NTup xs, NTup ys =>
      (fix all2 (xs ys : list node) {struct xs} : bool :=
         match xs, ys with
         | [], [] => true
         | x :: xs', y :: ys' => node_eqb x y && all2 xs' ys'
         | _, _ => false
         end) xs ys
  | _, _ => false
  end.

(** An argument that is "an int or an iterable container of nodes"
    (the [n] of [complete_graph], [cycle_graph], ...). *)
Inductive NodeSpec : Type :=
| Count (n : Z)
| Explicit (nodes : list node).

Definition isinstance_int (n : NodeSpec) : bool :=
  match n with Count _ => true | Explicit _ => false end.

(** Python's [range(a, b)] as a list. *)
Definition range (a b : Z) : list Z :=
  map (fun k => a + Z.of_nat k) (seq 0 (Z.to_nat (b - a))).

Definition int_nodes (l : list Z) : list node := map NInt l.

(** Python's [len]. *)
Definition len {A : Type} (l : list A) : Z := Z.of_nat (length l).

(** ** Rendering of values by [str], [%s] and [%d] *)

Definition str_int (z : Z) : string := NilZero.string_of_int (Z.to_int z).

Fixpoint join (sep : string) (l : list string) : string :=
  match l with
  | [] => EmptyString
  | x :: t =>
      match t with
      | [] => x
      | _ :: _ => (x ++ sep ++ join sep t)%string
      end
  end.

Fixpoint repr_node (v : node) : string :=
  match v with
  | NInt z => str_int z
  | NTup xs =>
      ("(" ++ join ", " (map repr_node xs)
           ++ match xs with [_] => ",)" | _ => ")" end)%string
  end.

Definition repr_list (l : list string) : string :=
  ("[" ++ join ", " l ++ "]")%string.

Definition str_spec (n : NodeSpec) : string :=
  match n with
  | Count k => str_int k
  | Explicit l => repr_list (map repr_node l)
  end.

(* ================================================================== *)
(** * networkx.utils *)

(** Modelled from the spec: [networkx.utils.nodes_or_number] is not part of
    the source file.  Section 4.1: an integer [n] resolves to
    [(n, [0, 1, ..., n-1])], an iterable to [(original, ordered sequence)],
    order preserved and nothing deduplicated. *)
Definition nodes_or_number (n : NodeSpec) : NodeSpec * list node :=
  match n with
  | Count k => (n, int_nodes (range 0 k))
  | Explicit l => (n, l)
  end.

(** Modelled from the spec: [networkx.utils.pairwise], the sequence of
    consecutive-element pairs [(x0,x1),(x1,x2),...]. *)
Definition pairwise {A : Type} (l : list A) : list (A * A) :=
  combine l (tl l).

(** Modelled from the spec: [networkx.utils.accumulate], the running totals
    of a sequence. *)
Fixpoint accumulate_from (acc : Z) (l : list Z) : list Z :=
  match l with
  | [] => []
  | x :: t => (acc + x) :: accumulate_from (acc + x) t
  end.

Definition accumulate (l : list Z) : list Z := accumulate_from 0 l.

(** Modelled from the spec: [itertools.combinations(l, 2)] and
    [itertools.permutations(l, 2)], in the order the library yields them
    (by position, not by value). *)
Fixpoint combinations2 {A : Type} (l : list A) : list (A * A) :=
  match l with
  | [] => []
  | x :: t => map (pair x) t ++ combinations2 t
  end.

Fixpoint picks {A : Type} (l : list A) : list (A * list A) :=
  match l with
  | [] => []
  | x :: t => (x, t) :: map (fun p => (fst p, x :: snd p)) (picks t)
  end.

Definition permutations2 {A : Type} (l : list A) : list (A * A) :=
  flat_map (fun p => map (pair (fst p)) (snd p)) (picks l).

(** [itertools.product(l1, l2)]. *)
Definition product {A B : Type} (l1 : list A) (l2 : list B) : list (A * B) :=
  flat_map (fun x => map (pair x) l2) l1.

(* ================================================================== *)
(** * The graph container *)

Definition attrs := list (string * Z).

(** Modelled from the spec: the container class ([nx.Graph], [nx.DiGraph],
    [nx.MultiGraph], [nx.MultiDiGraph]) is not part of the source file.
    Section 1 gives its interface: [add_node(s)], [add_edge(s)], [clear],
    [is_directed], [is_multigraph], [copy].  A container is its capability
    pair, its [name], its nodes with their attribute dictionaries in
    insertion order, and its edges in insertion order. *)
Record Graph : Type := mkGraph {
  directed : bool;
  multigraph : bool;
  name : string;
  node_data : list (node * attrs);
  edge_list : list (node * node)
  }.

Module Gr.

Definition blank (d m : bool) : Graph := mkGraph d m EmptyString [] [].

Definition clear (G : Graph) : Graph :=
  mkGraph (directed G) (multigraph G) EmptyString [] [].

Definition set_name (s : string) (G : Graph) : Graph :=
  mkGraph (directed G) (multigraph G) s (node_data G) (edge_list G).

Definition nodes (G : Graph) : list node := map fst (node_data G).

Definition has_node (G : Graph) (v : node) : bool :=
  existsb (node_eqb v) (nodes G).

(** [dict.update] on an attribute dictionary. *)
Definition attrs_update (old new : attrs) : attrs :=
  filter (fun kv => negb (existsb (fun kv' => String.eqb (fst kv') (fst kv)) new)) old
  ++ new.

Fixpoint put_node (v : node) (a : attrs) (l : list (node * attrs))
  : list (node * attrs) :=
  match l with
  | [] => [(v, a)]
  | (w, b) :: t =>
      if node_eqb v w then (w, attrs_update b a) :: t
      else (w, b) :: put_node v a t
  end.

Definition add_node (v : node) (a : attrs) (G : Graph) : Graph :=
  mkGraph (directed G) (multigraph G) (name G)
          (put_node v a (node_data G)) (edge_list G).

Definition add_nodes_from (vs : list node) (a : attrs) (G : Graph) : Graph :=
  fold_left (fun g v => add_node v a g) vs G.

(** Does the stored edge [e] join [u] to [v]?  An undirected container
    does not distinguish the two orientations. *)
Definition joins (d : bool) (u v : node) (e : node * node) : bool :=
  (node_eqb u (fst e) && node_eqb v (snd e))
  || (negb d && node_eqb v (fst e) && node_eqb u (snd e)).

Definition has_edge (G : Graph) (u v : node) : bool :=
  existsb (joins (directed G) u v) (edge_list G).

(** [add_edge] adds missing endpoints, then the edge; a simple container
    keeps one edge per pair, a multigraph accumulates parallel edges. *)
Definition add_edge (u v : node) (G : Graph) : Graph :=
  let G1 := add_node v [] (add_node u [] G) in
  if multigraph G || negb (has_edge G u v)
  then mkGraph (directed G1) (multigraph G1) (name G1) (node_data G1)
               (edge_list G1 ++ [(u, v)])
  else G1.

Definition add_edges_from (es : list (node * node)) (G : Graph) : Graph :=
  fold_left (fun g e => add_edge (fst e) (snd e) g) es G.

Definition number_of_nodes (G : Graph) : nat := length (node_data G).

Definition number_of_edges (G : Graph) : nat := length (edge_list G).

Definition hits (v : node) (e : node * node) : nat :=
  ((if node_eqb v (fst e) then 1 else 0)
   + (if node_eqb v (snd e) then 1 else 0))%nat.

(** Number of edge ends at [v] (a self-loop counts twice; for a directed
    container this is in-degree plus out-degree). *)
Definition degree (G : Graph) (v : node) : nat :=
  fold_right (fun e k => (hits v e + k)%nat) 0%nat (edge_list G).

(** Neighbours of [v] in the order their edges were inserted, and the
    edge view [G.edges()]: each edge once, reported from the endpoint
    that comes first in node order (from its source, when directed). *)
Definition neighbors (G : Graph) (v : node) : list node :=
  flat_map (fun e =>
              if node_eqb v (fst e) then [snd e]
              else if negb (directed G) && node_eqb v (snd e) then [fst e]
              else []) (edge_list G).

Fixpoint edges_from (G : Graph) (seen todo : list node) : list (node * node) :=
  match todo with
  | [] => []
  | v :: rest =>
      map (pair v)
          (filter (fun w => directed G || negb (existsb (node_eqb w) seen))
                  (neighbors G v))
      ++ edges_from G (v :: seen) rest
  end.

Definition edges (G : Graph) : list (node * node) :=
  edges_from G [] (nodes G).

End Gr.

(* ================================================================== *)
(** * The heap of graph objects and the generator monad *)

Inductive exn : Type :=
| NetworkXError (msg : string)
| IndexError
| TypeError.

Inductive result (A : Type) : Type :=
| Ok (a : A)
| Raise (e : exn).

Arguments Ok {A} a.
Arguments Raise {A} e.

Definition loc := nat.
Definition heap := list Graph.

Definition M (A : Type) : Type := heap -> heap * result A.

Definition ret {A : Type} (a : A) : M A := fun h => (h, Ok a).

Definition raise {A : Type} (e : exn) : M A := fun h => (h, Raise e).

Definition bind {A B : Type} (m : M A) (k : A -> M B) : M B :=
  fun h =>
    match m h with
    | (h', Ok a) => k a h'
    | (h', Raise e) => (h', Raise e)
    end.

Notation "x <- m ;; k" := (bind m (fun x => k))
  (at level 61, m at next level, right associativity).
Notation "m ;; k" := (bind m (fun _ => k))
  (at level 61, right associativity).

Definition fetch (h : heap) (l : loc) : Graph := nth l h (Gr.blank false false).

Fixpoint store (h : heap) (l : loc) (g : Graph) : heap :=
  match h, l with
  | [], _ => []
  | _ :: t, O => g :: t
  | x :: t, S l' => x :: store t l' g
  end.

Definition alloc (g : Graph) : M loc := fun h => (h ++ [g], Ok (length h)).

Definition read {A : Type} (G : loc) (f : Graph -> A) : M A :=
  fun h => (h, Ok (f (fetch h G))).

Definition update (G : loc) (f : Graph -> Graph) : M unit :=
  fun h => (store h G (f (fetch h G)), Ok tt).

(** Indexing a Python list; [nodes[-1]] is [item_last]. *)
Definition item {A : Type} (l : list A) (i : nat) : M A :=
  match nth_error l i with
  | Some x => ret x
  | None => raise IndexError
  end.

Definition item_last {A : Type} (l : list A) : M A :=
  match rev l with
  | x :: _ => ret x
  | [] => raise IndexError
  end.

(** Method calls on a graph object. *)
Definition new_Graph : M loc := alloc (Gr.blank false false).
Definition is_directed (G : loc) : M bool := read G directed.
Definition is_multigraph (G : loc) : M bool := read G multigraph.
Definition clear (G : loc) : M unit := update G Gr.clear.
Definition set_name (G : loc) (s : string) : M unit := update G (Gr.set_name s).
Definition add_nodes_from (G : loc) (vs : list node) : M unit :=
  update G (Gr.add_nodes_from vs []).
Definition add_edge (G : loc) (u v : node) : M unit := update G (Gr.add_edge u v).
Definition add_edges_from (G : loc) (es : list (node * node)) : M unit :=
  update G (Gr.add_edges_from es).
Definition len_graph (G : loc) : M Z :=
  read G (fun g => Z.of_nat (Gr.number_of_nodes g)).
Definition edges (G : loc) : M (list (node * node)) := read G Gr.edges.

Definition add_nodes_from_attr (G : loc) (vs : list node) (a : attrs) : M unit :=
  update G (Gr.add_nodes_from vs a).
Definition copy (G : loc) : M loc := g <- read G (fun g => g) ;; alloc g.

Definition when (b : bool) (m : M unit) : M unit := if b then m else ret tt.

(** A [for] loop over a list, and one that threads a local variable. *)
Fixpoint for_ {A : Type} (l : list A) (body : A -> M unit) : M unit :=
  match l with
  | [] => ret tt
  | x :: t => body x ;; for_ t body
  end.

Fixpoint for_acc {A S : Type} (l : list A) (s : S) (body : A -> S -> M S) : M S :=
  match l with
  | [] => ret s
  | x :: t => s' <- body x s ;; for_acc t s' body
  end.

Fixpoint enumerate_from {A : Type} (i : Z) (l : list A) : list (Z * A) :=
  match l with
  | [] => []
  | x :: t => (i, x) :: enumerate_from (i + 1) t
  end.

Definition enumerate {A : Type} (l : list A) : list (Z * A) := enumerate_from 0 l.

Definition int_edges (l : list (Z * Z)) : list (node * node) :=
  map (fun e => (NInt (fst e), NInt (snd e))) l.

(** Modelled from the spec: [networkx.utils.flatten] is not part of the
    source file; it turns a nested tuple label such as [(1, (2, (3, 1)))]
    into the flat tuple of its leaves and leaves other values alone. *)
Fixpoint leaves (v : node) : list node :=
  match v with
  | NInt _ => [v]
  | NTup xs => flat_map leaves xs
  end.

Definition flatten (v : node) : node :=
  match v with
  | NInt _ => v
  | NTup xs => NTup (flat_map leaves xs)
  end.

(** Modelled from the spec: [nx.cartesian_product] and [nx.relabel_nodes]
    are not part of the source file.  The product has the pairs [(u, x)] as
    nodes, an edge [(u, x) - (v, x)] for each edge [u - v] of the first
    factor and an edge [(x, u) - (x, v)] for each edge [u - v] of the
    second; relabelling builds a new container of the same variant with
    every label mapped. *)
Definition Gr_cartesian_product (G H : Graph) : Graph :=
  let tup u x := NTup [u; x] in
  Gr.set_name ("Cartesian product(" ++ name G ++ "," ++ name H ++ ")")%string
    (Gr.add_edges_from
       (flat_map (fun x => map (fun e => (tup x (fst e), tup x (snd e)))
                               (Gr.edges H)) (Gr.nodes G))
       (Gr.add_edges_from
          (flat_map (fun e => map (fun x => (tup (fst e) x, tup (snd e) x))
                                  (Gr.nodes H)) (Gr.edges G))
          (Gr.add_nodes_from (map (fun p => tup (fst p) (snd p))
                                  (product (Gr.nodes G) (Gr.nodes H))) []
             (Gr.blank (directed G) (multigraph G || multigraph H))))).

Definition Gr_relabel_nodes (G : Graph) (mapping : node -> node) : Graph :=
  Gr.add_nodes_from (map mapping (Gr.nodes G)) []
    (Gr.add_edges_from
       (map (fun e => (mapping (fst e), mapping (snd e))) (Gr.edges G))
       (Gr.set_name ("(" ++ name G ++ ")")%string
                    (Gr.blank (directed G) (multigraph G)))).

Definition cartesian_product (G H : loc) : M loc :=
  g <- read G (fun g => g) ;;
  h <- read H (fun g => g) ;;
  alloc (Gr_cartesian_product g h).

Definition relabel_nodes (G : loc) (mapping : node -> node) : M loc :=
  g <- read G (fun g => g) ;;
  alloc (Gr_relabel_nodes g mapping).

(* ================================================================== *)
(** * The generators *)

Section Generators.

Local Open Scope string_scope.

Definition empty_graph (n : NodeSpec) (create_using : option loc) : M loc :=
  G <- match create_using with
       | None => new_Graph
       | Some G => clear G ;; ret G
       end ;;
  let '(n_name, nodes) := nodes_or_number n in
  set_name G ("empty_graph(" ++ str_spec n_name ++ ")") ;;
  add_nodes_from G nodes ;;
  ret G.

Definition complete_graph (n : NodeSpec) (create_using : option loc) : M loc :=
  let '(n_name, nodes) := nodes_or_number n in
  G <- empty_graph n_name create_using ;;
  set_name G ("complete_graph(" ++ str_spec n_name ++ ")") ;;
  when (1 <? len nodes)%Z
       (d <- is_directed G ;;
        add_edges_from G (if d then permutations2 nodes
                          else combinations2 nodes)) ;;
  ret G.

Definition cycle_graph (n : NodeSpec) (create_using : option loc) : M loc :=
  let '(n_orig, nodes) := nodes_or_number n in
  G <- empty_graph (Explicit nodes) create_using ;;
  set_name G ("cycle_graph(" ++ str_spec n_orig ++ ")") ;;
  add_edges_from G (pairwise nodes) ;;
  last <- item_last nodes ;;
  first <- item nodes 0 ;;
  add_edge G last first ;;
  ret G.

Definition path_graph (n : NodeSpec) (create_using : option loc) : M loc :=
  let '(n_name, nodes) := nodes_or_number n in
  G <- empty_graph (Explicit nodes) create_using ;;
  set_name G ("path_graph(" ++ str_spec n_name ++ ")") ;;
  add_edges_from G (pairwise nodes) ;;
  ret G.

Definition star_graph (n : NodeSpec) (create_using : option loc) : M loc :=
  let '(n_name, nodes) := nodes_or_number n in
  let nodes := match n_name with
               | Count k => (nodes ++ [NInt k])%list
               | Explicit _ => nodes
               end in
  first <- item nodes 0 ;;
  G <- empty_graph (Explicit nodes) create_using ;;
  d <- is_directed G ;;
  (if d then raise (NetworkXError "Directed Graph not supported")
   else ret tt) ;;
  add_edges_from G (map (pair first) (tl nodes)) ;;
  set_name G ("star_graph(" ++ str_spec n_name ++ ")") ;;
  ret G.


(** The test [create_using is not None and create_using.is_directed()]
    that opens [barbell_graph], [ladder_graph] and [lollipop_graph]. *)
Definition reject_directed (create_using : option loc) : M unit :=
  match create_using with
  | None => ret tt
  | Some G =>
      d <- is_directed G ;;
      if d then raise (NetworkXError "Directed Graph not supported")
      else ret tt
  end.

(** ** Trees *)

(** The inner [for i in range(r)] of [_tree_edges]: [next] is the
    position of the iterator over [range(n)]. *)
Fixpoint tree_children (iters : nat) (n next source : Z) (parents : list Z)
  : Z * list Z * list (Z * Z) :=
  match iters with
  | O => (next, parents, [])
  | S k =>
      if (next <? n)%Z then
        let '(nx, ps, es) :=
          tree_children k n (next + 1) source (parents ++ [next])%list in
        (nx, ps, (source, next) :: es)
      else (next, parents, [])
  end.

(** The [while parents] loop; every pass pops one of at most [n] ids. *)
Fixpoint tree_loop (fuel : nat) (n r next : Z) (parents : list Z)
  : list (Z * Z) :=
  match fuel with
  | O => []
  | S f =>
      match parents with
      | [] => []
      | source :: rest =>
          let '(nx, ps, es) := tree_children (Z.to_nat r) n next source rest in
          (es ++ tree_loop f n r nx ps)%list
      end
  end.

(** An exhausted [next(nodes)] on the first line ends the generator
    without an edge. *)
Definition _tree_edges (n r : Z) : list (Z * Z) :=
  if (0 <? n)%Z then tree_loop (Z.to_nat n) n r 1 [0%Z] else [].

Definition full_rary_tree (r n : Z) (create_using : option loc) : M loc :=
  G <- empty_graph (Count n) create_using ;;
  add_edges_from G (int_edges (_tree_edges n r)) ;;
  ret G.

Definition balanced_tree (r h : Z) (create_using : option loc) : M loc :=
  let n := if (r =? 1)%Z then (h + 1)%Z
           else ((1 - r ^ (h + 1)) / (1 - r))%Z in
  full_rary_tree r n create_using.

(** ** Bells, ladders and circulants *)

Definition barbell_graph (m1 m2 : Z) (create_using : option loc) : M loc :=
  reject_directed create_using ;;
  (if (m1 <? 2)%Z
   then raise (NetworkXError "Invalid graph description, m1 should be >=2")
   else ret tt) ;;
  (if (m2 <? 0)%Z
   then raise (NetworkXError "Invalid graph description, m2 should be >=0")
   else ret tt) ;;
  G <- complete_graph (Count m1) create_using ;;
  set_name G ("barbell_graph(" ++ str_int m1 ++ "," ++ str_int m2 ++ ")") ;;
  add_nodes_from G (int_nodes (range m1 (m1 + m2 - 1))) ;;
  when (1 <? m2)%Z
       (add_edges_from G (int_edges (pairwise (range m1 (m1 + m2))))) ;;
  add_edges_from G
    (int_edges (flat_map (fun u => map (pair u) (range (u + 1) (2 * m1 + m2)))
                         (range (m1 + m2) (2 * m1 + m2)))) ;;
  add_edge G (NInt (m1 - 1)) (NInt m1) ;;
  when (0 <? m2)%Z (add_edge G (NInt (m1 + m2 - 1)) (NInt (m1 + m2))) ;;
  ret G.

Definition ladder_graph (n : Z) (create_using : option loc) : M loc :=
  reject_directed create_using ;;
  G <- empty_graph (Count (2 * n)) create_using ;;
  set_name G ("ladder_graph_(" ++ str_int n ++ ")") ;;
  add_edges_from G (int_edges (pairwise (range 0 n))) ;;
  add_edges_from G (int_edges (pairwise (range n (2 * n)))) ;;
  add_edges_from G (int_edges (map (fun v => (v, v + n)%Z) (range 0 n))) ;;
  ret G.

Definition circular_ladder_graph (n : Z) (create_using : option loc) : M loc :=
  G <- ladder_graph n create_using ;;
  set_name G ("circular_ladder_graph(" ++ str_int n ++ ")") ;;
  add_edge G (NInt 0) (NInt (n - 1)) ;;
  add_edge G (NInt n) (NInt (2 * n - 1)) ;;
  ret G.

Definition circulant_graph (n : Z) (offsets : list Z)
           (create_using : option loc) : M loc :=
  G <- empty_graph (Count n) create_using ;;
  set_name G ("circulant_graph(" ++ str_int n ++ ", ["
                ++ join ", " (map str_int offsets) ++ "])") ;;
  for_ (range 0 n) (fun i =>
    for_ offsets (fun j =>
      add_edge G (NInt i) (NInt ((i - j) mod n)) ;;
      add_edge G (NInt i) (NInt ((i + j) mod n)))) ;;
  ret G.

Definition dorogovtsev_goltsev_mendes_graph (n : Z)
           (create_using : option loc) : M loc :=
  match create_using with
  | None => ret tt
  | Some C =>
      d <- is_directed C ;;
      (if d then raise (NetworkXError "Directed Graph not supported")
       else ret tt) ;;
      m <- is_multigraph C ;;
      (if m then raise (NetworkXError "Multigraph not supported")
       else ret tt)
  end ;;
  G <- empty_graph (Count 0) create_using ;;
  set_name G "Dorogovtsev-Goltsev-Mendes Graph" ;;
  add_edge G (NInt 0) (NInt 1) ;;
  if (n =? 0)%Z then ret G
  else
    for_acc (range 1 (n + 1)) 2%Z (fun _ new_node =>
      last_generation_edges <- edges G ;;
      for_acc last_generation_edges new_node (fun e new_node =>
        add_edge G (NInt new_node) (fst e) ;;
        add_edge G (NInt new_node) (snd e) ;;
        ret (new_node + 1)%Z)) ;;
    ret G.

(** ** Grids *)

Definition tuple2 (i j : node) : node := NTup [i; j].

(** [str] of the pair [(n_name, nodes)] that the decorator puts in place
    of an argument. *)
Definition str_resolved (n : NodeSpec) : string :=
  let '(n_name, nodes) := nodes_or_number n in
  "(" ++ str_spec n_name ++ ", " ++ repr_list (map repr_node nodes) ++ ")".

Definition grid_2d_graph (m n : NodeSpec) (periodic : bool)
           (create_using : option loc) : M loc :=
  G <- empty_graph (Count 0) create_using ;;
  let '(row_name, rows) := nodes_or_number m in
  let '(col_name, columns) := nodes_or_number n in
  set_name G ("grid_2d_graph(" ++ str_spec row_name ++ ", "
                ++ str_spec col_name ++ ")") ;;
  add_nodes_from G (flat_map (fun i => map (fun j => tuple2 i j) columns) rows) ;;
  add_edges_from G
    (flat_map (fun p => map (fun j => (tuple2 (snd p) j, tuple2 (fst p) j))
                            columns) (pairwise rows)) ;;
  add_edges_from G
    (flat_map (fun i => map (fun p => (tuple2 i (snd p), tuple2 i (fst p)))
                            (pairwise columns)) rows) ;;
  d <- is_directed G ;;
  when d
    (add_edges_from G
       (flat_map (fun p => map (fun j => (tuple2 (fst p) j, tuple2 (snd p) j))
                               columns) (pairwise rows)) ;;
     add_edges_from G
       (flat_map (fun i => map (fun p => (tuple2 i (fst p), tuple2 i (snd p)))
                               (pairwise columns)) rows)) ;;
  when periodic
    (when (2 <? len columns)%Z
       (f <- item columns 0 ;;
        l <- item_last columns ;;
        add_edges_from G (map (fun i => (tuple2 i f, tuple2 i l)) rows) ;;
        d <- is_directed G ;;
        when d (add_edges_from G (map (fun i => (tuple2 i l, tuple2 i f)) rows))) ;;
     when (2 <? len rows)%Z
       (f <- item rows 0 ;;
        l <- item_last rows ;;
        add_edges_from G (map (fun j => (tuple2 f j, tuple2 l j)) columns) ;;
        d <- is_directed G ;;
        when d (add_edges_from G (map (fun j => (tuple2 l j, tuple2 f j)) columns))) ;;
     set_name G ("periodic_grid_2d_graph(" ++ str_resolved m ++ ","
                   ++ str_resolved n ++ ")")) ;;
  ret G.

(** [grid_graph] pops the dimensions from the end of the list; the loop
    below runs over the remaining ones in that order. *)
Definition grid_graph (dim : list NodeSpec) (periodic : bool) : M loc :=
  let dlabel := repr_list (map str_spec dim) in
  match rev dim with
  | [] =>
      G <- empty_graph (Count 0) None ;;
      set_name G ("grid_graph(" ++ repr_list (map str_spec dim) ++ ")") ;;
      ret G
  | current_dim :: rest =>
      let func := if periodic then cycle_graph else path_graph in
      G <- func current_dim None ;;
      G <- for_acc rest G (fun current_dim G =>
             Gold <- copy G ;;
             Gnew <- func current_dim None ;;
             cartesian_product Gnew Gold) ;;
      H <- relabel_nodes G flatten ;;
      set_name H ("grid_graph(" ++ dlabel ++ ")") ;;
      ret H
  end.

Definition hypercube_graph (n : Z) : M loc :=
  let dim := repeat (Count 2) (Z.to_nat n) in
  G <- grid_graph dim false ;;
  set_name G ("hypercube_graph_(" ++ str_int n ++ ")") ;;
  ret G.

(** ** Lollipop, null, trivial, wheel *)

(** [len(m_nodes) + i] for a node [i]: defined on integers only. *)
Definition int_plus (k : Z) (v : node) : M node :=
  match v with
  | NInt z => ret (NInt (k + z))
  | NTup _ => raise TypeError
  end.

Fixpoint map_M {A B : Type} (f : A -> M B) (l : list A) : M (list B) :=
  match l with
  | [] => ret []
  | x :: t => y <- f x ;; ys <- map_M f t ;; ret (y :: ys)
  end.

Definition lollipop_graph (m n : NodeSpec) (create_using : option loc)
  : M loc :=
  let '(m, m_nodes) := nodes_or_number m in
  let '(n, n_nodes) := nodes_or_number n in
  let M_ := len m_nodes in
  let N_ := len n_nodes in
  n_nodes <- (if isinstance_int m then map_M (int_plus (len m_nodes)) n_nodes
              else ret n_nodes) ;;
  reject_directed create_using ;;
  (if (M_ <? 2)%Z
   then raise (NetworkXError "Invalid graph description, m should be >=2")
   else ret tt) ;;
  (if (N_ <? 0)%Z
   then raise (NetworkXError "Invalid graph description, n should be >=0")
   else ret tt) ;;
  G <- complete_graph (Explicit m_nodes) create_using ;;
  add_nodes_from G n_nodes ;;
  when (1 <? N_)%Z (add_edges_from G (pairwise n_nodes)) ;;
  when ((0 <? M_)%Z && (0 <? N_)%Z)
       (u <- item_last m_nodes ;;
        v <- item n_nodes 0 ;;
        add_edge G u v) ;;
  set_name G ("lollipop_graph(" ++ str_spec m ++ ", " ++ str_spec n ++ ")") ;;
  ret G.

Definition null_graph (create_using : option loc) : M loc :=
  G <- empty_graph (Count 0) create_using ;;
  set_name G "null_graph()" ;;
  ret G.

Definition trivial_graph (create_using : option loc) : M loc :=
  G <- empty_graph (Count 1) create_using ;;
  set_name G "trivial_graph()" ;;
  ret G.

Definition wheel_graph (n : NodeSpec) (create_using : option loc) : M loc :=
  let '(n_name, nodes) := nodes_or_number n in
  match n_name with
  | Count 0 =>
      G <- empty_graph (Count 0) create_using ;;
      set_name G "wheel_graph(0)" ;;
      ret G
  | _ =>
      G <- star_graph (Explicit nodes) create_using ;;
      set_name G ("wheel_graph(" ++ str_spec n_name ++ ")") ;;
      k <- len_graph G ;;
      when (2 <? k)%Z
           (add_edges_from G (pairwise (tl nodes)) ;;
            last <- item_last nodes ;;
            second <- item nodes 1 ;;
            add_edge G last second) ;;
      ret G
  end.

(** ** Multipartite graphs *)

Fixpoint all_counts (bs : list NodeSpec) : option (list Z) :=
  match bs with
  | [] => Some []
  | Count k :: t =>
      match all_counts t with Some ks => Some (k :: ks) | None => None end
  | Explicit _ :: _ => None
  end.

Definition block_items (b : NodeSpec) : list node :=
  match b with Explicit l => l | Count _ => [] end.

Definition str_tuple (l : list string) : string :=
  "(" ++ join ", " l ++ match l with [_] => ",)" | _ => ")" end.

Definition complete_multipartite_graph (block_sizes : list NodeSpec) : M loc :=
  G <- new_Graph ;;
  set_name G ("complete_multiparite_graph"
                ++ str_tuple (map str_spec block_sizes)) ;;
  match block_sizes with
  | [] => ret G
  | _ :: _ =>
      (* the sums fail with TypeError as soon as one block is an iterable *)
      let blocks :=
        match all_counts block_sizes with
        | Some sizes =>
            map (fun se => Explicit (int_nodes (range (fst se) (snd se))))
                (pairwise (accumulate (0%Z :: sizes)))
        | None => block_sizes
        end in
      for_ (enumerate blocks) (fun ib =>
        match snd ib with
        | Explicit block => add_nodes_from_attr G block [("block", fst ib)]
        | Count _ =>
            raise (NetworkXError "Arguments must be all ints or all iterables")
        end) ;;
      for_ (combinations2 blocks) (fun bb =>
        add_edges_from G (product (block_items (fst bb)) (block_items (snd bb)))) ;;
      ret G
  end.

Definition turan_graph (n r : Z) : M loc :=
  (if negb ((1 <=? r)%Z && (r <=? n)%Z)
   then raise (NetworkXError "Must satisfy 1 <= r <= n")
   else ret tt) ;;
  let partitions :=
    (repeat (n / r)%Z (Z.to_nat (r - n mod r))
     ++ repeat (n / r + 1)%Z (Z.to_nat (n mod r)))%list in
  G <- complete_multipartite_graph (map Count partitions) ;;
  set_name G ("turan_graph(" ++ str_int n ++ "," ++ str_int r ++ ")") ;;
  ret G.

End Generators.

(* ================================================================== *)
(** * The public call surface *)

(** One constructor per public generator, carrying its positional
    arguments. *)
Inductive call : Type :=
| Call_full_rary_tree (r n : Z)
| Call_balanced_tree (r h : Z)
| Call_barbell_graph (m1 m2 : Z)
| Call_complete_graph (n : NodeSpec)
| Call_circular_ladder_graph (n : Z)
| Call_circulant_graph (n : Z) (offsets : list Z)
| Call_cycle_graph (n : NodeSpec)
| Call_dorogovtsev_goltsev_mendes_graph (n : Z)
| Call_empty_graph (n : NodeSpec)
| Call_grid_2d_graph (m n : NodeSpec) (periodic : bool)
| Call_grid_graph (dim : list NodeSpec) (periodic : bool)
| Call_hypercube_graph (n : Z)
| Call_ladder_graph (n : Z)
| Call_lollipop_graph (m n : NodeSpec)
| Call_null_graph
| Call_path_graph (n : NodeSpec)
| Call_star_graph (n : NodeSpec)
| Call_trivial_graph
| Call_turan_graph (n r : Z)
| Call_wheel_graph (n : NodeSpec)
| Call_complete_multipartite_graph (block_sizes : list NodeSpec).

(** Does the [def] of the generator have a [create_using] parameter? *)
Definition takes_create_using (c : call) : bool :=
  match c with
  | Call_grid_graph _ _ | Call_hypercube_graph _
  | Call_turan_graph _ _ | Call_complete_multipartite_graph _ => false
  | _ => true
  end.

(** The call [f(args)] or [f(args, create_using=G)].  Passing
    [create_using] to a function whose [def] has no such parameter is
    rejected with [TypeError] before the body runs. *)
Definition invoke (c : call) (create_using : option loc) : M loc :=
  match c with
  | Call_full_rary_tree r n => full_rary_tree r n create_using
  | Call_balanced_tree r h => balanced_tree r h create_using
  | Call_barbell_graph m1 m2 => barbell_graph m1 m2 create_using
  | Call_complete_graph n => complete_graph n create_using
  | Call_circular_ladder_graph n => circular_ladder_graph n create_using
  | Call_circulant_graph n offsets => circulant_graph n offsets create_using
  | Call_cycle_graph n => cycle_graph n create_using
  | Call_dorogovtsev_goltsev_mendes_graph n =>
      dorogovtsev_goltsev_mendes_graph n create_using
  | Call_empty_graph n => empty_graph n create_using
  | Call_grid_2d_graph m n periodic => grid_2d_graph m n periodic create_using
  | Call_ladder_graph n => ladder_graph n create_using
  | Call_lollipop_graph m n => lollipop_graph m n create_using
  | Call_null_graph => null_graph create_using
  | Call_path_graph n => path_graph n create_using
  | Call_star_graph n => star_graph n create_using
  | Call_trivial_graph => trivial_graph create_using
  | Call_wheel_graph n => wheel_graph n create_using
  | Call_grid_graph dim periodic =>
      match create_using with
      | None => grid_graph dim periodic
      | Some _ => raise TypeError
      end
  | Call_hypercube_graph n =>
      match create_using with
      | None => hypercube_graph n
      | Some _ => raise TypeError
      end
  | Call_turan_graph n r =>
      match create_using with
      | None => turan_graph n r
      | Some _ => raise TypeError
      end
  | Call_complete_multipartite_graph block_sizes =>
      match create_using with
      | None => complete_multipartite_graph block_sizes
      | Some _ => raise TypeError
      end
  end.

(* ================================================================== *)
(** * Notions used to state and prove the properties *)

Definition endpoints (es : list (node * node)) : list node :=
  flat_map (fun e => [fst e; snd e]) es.

(** [addable d E es]: added one after the other to a simple container
    whose edges are [E], none of [es] meets an edge already stored. *)
Fixpoint addable (d : bool) (E es : list (node * node)) : Prop :=
  match es with
  | [] => True
  | e :: t =>
      ~ In (fst e, snd e) E
      /\ (d = false -> ~ In (snd e, fst e) E)
      /\ addable d (E ++ [(fst e, snd e)]) t
  end.

(** A list of edges no two of which join the same pair of nodes. *)
Definition simple_edges (L : list (node * node)) : Prop :=
  NoDup L /\ forall u v, In (u, v) L -> ~ In (v, u) L.

(** Integer edges that all point upwards. *)
Definition ascending (e : node * node) : Prop :=
  match e with
  | (NInt a, NInt b) => a < b
  | _ => False
  end.

Definition cnt {A : Type} (P : A -> bool) (l : list A) : nat :=
  length (filter P l).

(** The caller's view of a call with [create_using]: the container, when
    one is supplied, is an object of the heap; [target] is the object the
    generator works on, [start] its state once [empty_graph] has cleared
    it, [place] the heap in which that object holds a given graph. *)
Definition valid (create_using : option loc) (h : heap) : Prop :=
  match create_using with
  | None => True
  | Some l => (l < length h)%nat
  end.

Definition target (create_using : option loc) (h : heap) : loc :=
  match create_using with
  | None => length h
  | Some l => l
  end.

Definition start (create_using : option loc) (h : heap) : Graph :=
  match create_using with
  | None => Gr.blank false false
  | Some l => Gr.clear (fetch h l)
  end.

Definition place (create_using : option loc) (h : heap) (g : Graph) : heap :=
  match create_using with
  | None => h ++ [g]
  | Some l => store h l g
  end.

(** The container is absent or undirected. *)
Definition undirected (create_using : option loc) (h : heap) : Prop :=
  match create_using with
  | None => True
  | Some l => directed (fetch h l) = false
  end.

(** Containers that already hold a node and a self-loop, used as
    caller-supplied [create_using] objects in the examples. *)
Definition old_digraph : Graph :=
  mkGraph true false "old" [(NInt 7, [])] [(NInt 7, NInt 7)].

Definition old_graph : Graph :=
  mkGraph false false "old" [(NInt 7, [])] [(NInt 7, NInt 7)].

(** Two graphs have the same edge set: the same pairs of nodes are joined. *)
Definition same_edge_set (G H : Graph) : Prop :=
  forall u v, Gr.has_edge G u v = Gr.has_edge H u v.

(** Every stored edge of [G] joins two nodes that [H] joins as well. *)
Definition edges_included (G H : Graph) : bool :=
  forallb (fun e => Gr.has_edge H (fst e) (snd e)) (edge_list G).

(** The graph that [complete_graph(n)] leaves in its container. *)
Definition complete_state (n : Z) (create_using : option loc) (h : heap) : Graph :=
  let g1 := Gr.set_name ("complete_graph(" ++ str_int n ++ ")")%string
              (Gr.add_nodes_from (int_nodes (range 0 n)) []
                 (Gr.set_name ("empty_graph(" ++ str_int n ++ ")")%string
                    (start create_using h))) in
  if 1 <? len (int_nodes (range 0 n))
  then Gr.add_edges_from
         (if directed g1 then permutations2 (int_nodes (range 0 n))
          else combinations2 (int_nodes (range 0 n))) g1
  else g1.

(** The spokes of [star_graph(n)]. *)
Definition spokes (n : Z) : list (node * node) :=
  map (pair (NInt 0)) (int_nodes (range 1 (n + 1))).

(** The edges of the right bell of [barbell_graph(m1, m2)]. *)
Definition right_bell (m1 m2 : Z) : list (node * node) :=
  int_edges (flat_map (fun u => map (pair u) (range (u + 1) (2 * m1 + m2)))
                      (range (m1 + m2) (2 * m1 + m2))).

(** The graph that [barbell_graph(m1, m2)] leaves in its container. *)
Definition barbell_state (m1 m2 : Z) (create_using : option loc) (h : heap)
  : Graph :=
  let g1 := Gr.add_nodes_from (int_nodes (range m1 (m1 + m2 - 1))) []
              (Gr.set_name
                 ("barbell_graph(" ++ str_int m1 ++ "," ++ str_int m2 ++ ")")%string
                 (complete_state m1 create_using h)) in
  let g2 := if 1 <? m2
            then Gr.add_edges_from (int_edges (pairwise (range m1 (m1 + m2)))) g1
            else g1 in
  let g3 := Gr.add_edge (NInt (m1 - 1)) (NInt m1)
              (Gr.add_edges_from (right_bell m1 m2) g2) in
  if 0 <? m2 then Gr.add_edge (NInt (m1 + m2 - 1)) (NInt (m1 + m2)) g3 else g3.

(** ** Multipartite graphs *)

Definition sum (l : list Z) : Z := fold_right Z.add 0 l.

Definition sum_squares (l : list Z) : Z := fold_right (fun x k => x * x + k) 0 l.

(** The integer blocks [range(start, end)] cut by the running totals. *)
Definition blocks_from (acc : Z) (sizes : list Z) : list (list Z) :=
  map (fun se => range (fst se) (snd se))
      (pairwise (acc :: accumulate_from acc sizes)).

(** All pairs made of a member of a block and a member of a later block. *)
Definition cross {A : Type} (Bs : list (list A)) : list (A * A) :=
  flat_map (fun p => product (fst p) (snd p)) (combinations2 Bs).

(** The block sizes that [turan_graph(n, r)] passes on. *)
Definition turan_partitions (n r : Z) : list Z :=
  repeat (n / r) (Z.to_nat (r - n mod r))
  ++ repeat (n / r + 1) (Z.to_nat (n mod r)).

(** The graph that [complete_multipartite_graph] builds from
    integer block sizes. *)
Definition multipartite_state (sizes : list Z) : Graph :=
  let blocks := map (fun B => Explicit (int_nodes B)) (blocks_from 0 sizes) in
  fold_left
    (fun g bb =>
       Gr.add_edges_from (product (block_items (fst bb)) (block_items (snd bb))) g)
    (combinations2 blocks)
    (fold_left
       (fun g ib => Gr.add_nodes_from (block_items (snd ib)) [("block"%string, fst ib)] g)
       (enumerate blocks)
       (Gr.set_name
          ("complete_multiparite_graph"
             ++ str_tuple (map str_spec (map Count sizes)))%string
          (Gr.blank false false))).

(** ** The 2d grid in integer coordinates *)

Definition cell (i j : Z) : node := tuple2 (NInt i) (NInt j).

Definition grid_edge (e : (Z * Z) * (Z * Z)) : node * node :=
  (cell (fst (fst e)) (snd (fst e)), cell (fst (snd e)) (snd (snd e))).

(** The four families of edges of [grid_2d_graph(m, n)]: between
    consecutive rows, between consecutive columns, and the two wraps. *)
Definition lattice_rows (m n : Z) : list ((Z * Z) * (Z * Z)) :=
  map (fun p => ((fst p + 1, snd p), (fst p, snd p)))
      (product (range 0 (m - 1)) (range 0 n)).

Definition lattice_cols (m n : Z) : list ((Z * Z) * (Z * Z)) :=
  map (fun p => ((fst p, snd p + 1), (fst p, snd p)))
      (product (range 0 m) (range 0 (n - 1))).

Definition wrap_cols (m n : Z) : list ((Z * Z) * (Z * Z)) :=
  map (fun i => ((i, 0), (i, n - 1))) (range 0 m).

Definition wrap_rows (m n : Z) : list ((Z * Z) * (Z * Z)) :=
  map (fun j => ((0, j), (m - 1, j))) (range 0 n).

Definition grid_edges (m n : Z) (periodic : bool) : list ((Z * Z) * (Z * Z)) :=
  lattice_rows m n ++ lattice_cols m n
  ++ (if periodic && (2 <? n) then wrap_cols m n else [])
  ++ (if periodic && (2 <? m) then wrap_rows m n else []).

(** The graph that [grid_2d_graph(m, n, periodic)] leaves in an undirected
    container. *)
Definition grid_state (m n : Z) (periodic : bool) (create_using : option loc)
           (h : heap) : Graph :=
  let rows := int_nodes (range 0 m) in
  let columns := int_nodes (range 0 n) in
  let g0 := Gr.add_nodes_from (flat_map (fun i => map (fun j => tuple2 i j) columns) rows) []
              (Gr.set_name
                 ("grid_2d_graph(" ++ str_int m ++ ", " ++ str_int n ++ ")")%string
                 (Gr.add_nodes_from [] []
                    (Gr.set_name "empty_graph(0)"%string (start create_using h)))) in
  let g1 := Gr.add_edges_from
              (flat_map (fun i => map (fun p => (tuple2 i (snd p), tuple2 i (fst p)))
                                      (pairwise columns)) rows)
              (Gr.add_edges_from
                 (flat_map (fun p => map (fun j => (tuple2 (snd p) j, tuple2 (fst p) j))
                                         columns) (pairwise rows)) g0) in
  if periodic then
    let g2 := if 2 <? len columns
              then Gr.add_edges_from
                     (map (fun i => (tuple2 i (NInt 0), tuple2 i (NInt (n - 1)))) rows) g1
              else g1 in
    let g3 := if 2 <? len rows
              then Gr.add_edges_from
                     (map (fun j => (tuple2 (NInt 0) j, tuple2 (NInt (m - 1)) j)) columns) g2
              else g2 in
    Gr.set_name ("periodic_grid_2d_graph(" ++ str_resolved (Count m) ++ ","
                   ++ str_resolved (Count n) ++ ")")%string g3
  else g1.

(** The coordinate difference between the two ends of a grid edge, and
    the indicator of [a <= i < b]. *)
Definition diff (e : (Z * Z) * (Z * Z)) : Z * Z :=
  (fst (fst e) - fst (snd e), snd (fst e) - snd (snd e)).

Definition ind (a b i : Z) : nat :=
  if (a <=? i) && (i <? b) then 1%nat else 0%nat.

(** Both ends of a grid edge lie in the [m] by [n] grid. *)
Definition inside (m n : Z) (e : (Z * Z) * (Z * Z)) : Prop :=
  (0 <= fst (fst e) < m /\ 0 <= snd (fst e) < n)
  /\ (0 <= fst (snd e) < m /\ 0 <= snd (snd e) < n).

(** The coordinate differences that occur in [grid_2d_graph(m, n)]. *)
Definition allowed (m n : Z) (d : Z * Z) : Prop :=
  d = (1, 0) \/ d = (0, 1)
  \/ (2 < n /\ d = (0, - (n - 1))) \/ (2 < m /\ d = (- (m - 1), 0)).

(** The degree that the lattice gives to the node [(i, j)]: one for each of
    the four neighbours that exist. *)
Definition lattice_degree (m n i j : Z) : nat :=
  ((if (0 <? i)%Z then 1 else 0) + (if (i <? m - 1)%Z then 1 else 0)
   + (if (0 <? j)%Z then 1 else 0) + (if (j <? n - 1)%Z then 1 else 0))%nat.

(** The degree that the wrap edges of a dimension of length [len] add to
    a node whose coordinate in that dimension is [x]. *)
Definition wrap_degree (periodic : bool) (len x : Z) : nat :=
  if periodic && (2 <? len)
  then ((if (x =? 0)%Z then 1 else 0) + (if (x =? len - 1)%Z then 1 else 0))%nat
  else 0%nat.

(** ** Assertions on the heap *)

(** [hoare P m Q]: when [m] is run in a heap that satisfies [P] and returns
    [a], the final heap satisfies [Q a]. *)
Definition hoare {A : Type} (P : heap -> Prop) (m : M A) (Q : A -> heap -> Prop)
  : Prop :=
  forall h h' a, P h -> m h = (h', Ok a) -> Q a h'.

(** The heap in which a generator starts to work: the caller's heap, with
    one more object when no container was supplied. *)
Definition base (create_using : option loc) (h : heap) : heap :=
  match create_using with
  | None => h ++ [Gr.blank false false]
  | Some _ => h
  end.

(** [holds G hb s h]: the heap [h] differs from [hb] in the object [G] only,
    whose variant is unchanged and whose name is [s]. *)
Definition holds (G : loc) (hb : heap) (s : string) (h : heap) : Prop :=
  length h = length hb
  /\ (G < length hb)%nat
  /\ (forall l, l <> G -> fetch h l = fetch hb l)
  /\ directed (fetch h G) = directed (fetch hb G)
  /\ multigraph (fetch h G) = multigraph (fetch hb G)
  /\ name (fetch h G) = s.

(** An operation of the container that keeps its variant and its name. *)
Definition pres (f : Graph -> Graph) : Prop :=
  forall g, directed (f g) = directed g
            /\ multigraph (f g) = multigraph g
            /\ name (f g) = name g.

(** What a generator with a [create_using] parameter promises on return. *)
Definition gen_spec (create_using : option loc) (h0 : heap) (s : string)
           (m : M loc) : Prop :=
  hoare (fun h => h = h0) m
        (fun G h => G = target create_using h0
                    /\ holds G (base create_using h0) s h).

(** [extends h0 h]: the objects of [h0] are unchanged in [h] and every
    object allocated since is an undirected simple graph. *)
Definition extends (h0 h : heap) : Prop :=
  (length h0 <= length h)%nat
  /\ (forall l, (l < length h0)%nat -> fetch h l = fetch h0 l)
  /\ (forall l, (length h0 <= l < length h)%nat ->
                directed (fetch h l) = false /\ multigraph (fetch h l) = false).

(** [G] was allocated after the heap [h0]. *)
Definition fresh (h0 h : heap) (G : loc) : Prop :=
  (length h0 <= G < length h)%nat.

(** The heap in which the container [l] has been cleared beforehand. *)
Definition cleared (l : loc) (h : heap) : heap :=
  store h l (Gr.clear (fetch h l)).

(** [steady l m]: [m] leaves the heap alone and gives the same outcome
    whether or not the container [l] was cleared beforehand. *)
Definition steady {A : Type} (l : loc) (m : M A) : Prop :=
  forall h, exists r, m h = (h, r) /\ m (cleared l h) = (cleared l h, r).

(** [resets l m]: clearing the container [l] beforehand changes nothing. *)
Definition resets {A : Type} (l : loc) (m : M A) : Prop :=
  forall h, m (cleared l h) = m h.

(** [cleared_ok l m]: a run of [m] that returns, returns the same value in
    the same heap when the container [l] was cleared beforehand. *)
Definition cleared_ok {A : Type} (l : loc) (m : M A) : Prop :=
  forall h h' a, m h = (h', Ok a) -> m (cleared l h) = (h', Ok a).

(** ** Labels *)

(** The label format of the specification:
    ["<family_name>(<param1>, <param2>, ...)"]. *)
Definition spec_label (family : string) (params : list string) : string :=
  (family ++ "(" ++ join ", " params ++ ")")%string.

(** The label that each generator gives to the graph it returns.  The
    generators listed first follow the format of the specification; the
    others have a format of their own.  No entry is given for the two tree
    generators, for the periodic 2d grid and for
    [complete_multipartite_graph]. *)
Definition label (c : call) : option string :=
  match c with
  | Call_complete_graph n => Some (spec_label "complete_graph" [str_spec n])
  | Call_cycle_graph n => Some (spec_label "cycle_graph" [str_spec n])
  | Call_path_graph n => Some (spec_label "path_graph" [str_spec n])
  | Call_star_graph n => Some (spec_label "star_graph" [str_spec n])
  | Call_wheel_graph n => Some (spec_label "wheel_graph" [str_spec n])
  | Call_empty_graph n => Some (spec_label "empty_graph" [str_spec n])
  | Call_null_graph => Some (spec_label "null_graph" [])
  | Call_trivial_graph => Some (spec_label "trivial_graph" [])
  | Call_circular_ladder_graph n =>
      Some (spec_label "circular_ladder_graph" [str_int n])
  | Call_circulant_graph n offsets =>
      Some (spec_label "circulant_graph"
                       [str_int n; repr_list (map str_int offsets)])
  | Call_lollipop_graph m n =>
      Some (spec_label "lollipop_graph" [str_spec m; str_spec n])
  | Call_grid_graph dim _ =>
      Some (spec_label "grid_graph" [repr_list (map str_spec dim)])
  | Call_grid_2d_graph m n false =>
      Some (spec_label "grid_2d_graph" [str_spec m; str_spec n])
  | Call_ladder_graph n => Some ("ladder_graph_(" ++ str_int n ++ ")")%string
  | Call_hypercube_graph n => Some ("hypercube_graph_(" ++ str_int n ++ ")")%string
  | Call_dorogovtsev_goltsev_mendes_graph _ =>
      Some "Dorogovtsev-Goltsev-Mendes Graph"%string
  | Call_barbell_graph m1 m2 =>
      Some ("barbell_graph(" ++ str_int m1 ++ "," ++ str_int m2 ++ ")")%string
  | Call_turan_graph n r =>
      Some ("turan_graph(" ++ str_int n ++ "," ++ str_int r ++ ")")%string
  | Call_grid_2d_graph _ _ true => None
  | Call_full_rary_tree _ _ => None
  | Call_balanced_tree _ _ => None
  | Call_complete_multipartite_graph _ => None
  end.

(** The name that the source gives to the graph, generator by generator. *)
Definition code_name (c : call) : string :=
  match c with
  | Call_full_rary_tree r n => "empty_graph(" ++ str_int n ++ ")"
  | Call_balanced_tree r h =>
      "empty_graph("
        ++ str_int (if (r =? 1)%Z then (h + 1)%Z
                    else ((1 - r ^ (h + 1)) / (1 - r))%Z)
        ++ ")"
  | Call_barbell_graph m1 m2 =>
      "barbell_graph(" ++ str_int m1 ++ "," ++ str_int m2 ++ ")"
  | Call_complete_graph n => "complete_graph(" ++ str_spec n ++ ")"
  | Call_circular_ladder_graph n => "circular_ladder_graph(" ++ str_int n ++ ")"
  | Call_circulant_graph n offsets =>
      "circulant_graph(" ++ str_int n ++ ", ["
        ++ join ", " (map str_int offsets) ++ "])"
  | Call_cycle_graph n => "cycle_graph(" ++ str_spec n ++ ")"
  | Call_dorogovtsev_goltsev_mendes_graph _ => "Dorogovtsev-Goltsev-Mendes Graph"
  | Call_empty_graph n => "empty_graph(" ++ str_spec n ++ ")"
  | Call_grid_2d_graph m n periodic =>
      if periodic
      then "periodic_grid_2d_graph(" ++ str_resolved m ++ ","
             ++ str_resolved n ++ ")"
      else "grid_2d_graph(" ++ str_spec m ++ ", " ++ str_spec n ++ ")"
  | Call_grid_graph dim _ => "grid_graph(" ++ repr_list (map str_spec dim) ++ ")"
  | Call_hypercube_graph n => "hypercube_graph_(" ++ str_int n ++ ")"
  | Call_ladder_graph n => "ladder_graph_(" ++ str_int n ++ ")"
  | Call_lollipop_graph m n =>
      "lollipop_graph(" ++ str_spec m ++ ", " ++ str_spec n ++ ")"
  | Call_null_graph => "null_graph()"
  | Call_path_graph n => "path_graph(" ++ str_spec n ++ ")"
  | Call_star_graph n => "star_graph(" ++ str_spec n ++ ")"
  | Call_trivial_graph => "trivial_graph()"
  | Call_turan_graph n r => "turan_graph(" ++ str_int n ++ "," ++ str_int r ++ ")"
  | Call_wheel_graph n => "wheel_graph(" ++ str_spec n ++ ")"
  | Call_complete_multipartite_graph bs =>
      "complete_multiparite_graph" ++ str_tuple (map str_spec bs)
  end%string.

(** What the caller observes after a call that returned [G] in heap [h']. *)
Definition observed (c : call) (create_using : option loc) (h h' : heap)
           (G : loc) : Prop :=
  match create_using with
  | Some l =>
      takes_create_using c = true
      /\ G = l /\ length h' = length h
      /\ (forall l', l' <> l -> fetch h' l' = fetch h l')
      /\ directed (fetch h' l) = directed (fetch h l)
      /\ multigraph (fetch h' l) = multigraph (fetch h l)
      /\ invoke c create_using (cleared l h) = (h', Ok G)
  | None =>
      fresh h h' G
      /\ (forall l', (l' < length h)%nat -> fetch h' l' = fetch h l')
      /\ directed (fetch h' G) = false /\ multigraph (fetch h' G) = false
  end.

(** ** Edge lists in integer coordinates *)

(** The edges of [ladder_graph(n)]: the two rails, then the rungs. *)
Definition ladder_edges (n : Z) : list (Z * Z) :=
  map (fun k => (k, k + 1)) (range 0 (n - 1))
  ++ map (fun k => (k, k + 1)) (range n (2 * n - 1))
  ++ map (fun v => (v, v + n)) (range 0 n).

(** The edges of [wheel_graph(n)]: the spokes from the hub [0], the rim
    [1 - 2 - ... - (n-1)] and the edge that closes the rim. *)
Definition wheel_edges (n : Z) : list (Z * Z) :=
  map (pair 0) (range 1 n)
  ++ map (fun k => (k, k + 1)) (range 1 (n - 1))
  ++ [(n - 1, 1)].

(** The edges of [lollipop_graph(m, n)]: the complete graph on [0..m-1],
    the path [m - ... - (m+n-1)] and, when the path is not empty, the edge
    that joins them. *)
Definition lollipop_edges (m n : Z) : list (Z * Z) :=
  combinations2 (range 0 m)
  ++ map (fun k => (k, k + 1)) (range m (m + n - 1))
  ++ (if 0 <? n then [(m - 1, m)] else []).

(** The edges of [barbell_graph(m1, m2)]: the left bell, the path, the
    right bell and the edges that connect them. *)
Definition barbell_edges (m1 m2 : Z) : list (Z * Z) :=
  combinations2 (range 0 m1)
  ++ map (fun k => (k, k + 1)) (range m1 (m1 + m2 - 1))
  ++ combinations2 (range (m1 + m2) (2 * m1 + m2))
  ++ [(m1 - 1, m1)]
  ++ (if 0 <? m2 then [(m1 + m2 - 1, m1 + m2)] else []).

(** The edges that [circulant_graph(n, offsets)] asks for, in the order of
    its two loops. *)
Definition circulant_edges (n : Z) (offsets : list Z) : list (Z * Z) :=
  flat_map (fun i => flat_map (fun j => [(i, (i - j) mod n); (i, (i + j) mod n)])
                              offsets)
           (range 0 n).

(** ** Blocks of a multipartite graph *)

(** The position of the block that holds the integer [a] when
    [complete_multipartite_graph] is given the integer block sizes [sizes]
    ([acc] nodes and [i] blocks come before the blocks of [sizes]). *)
Fixpoint block_index (acc i : Z) (sizes : list Z) (a : Z) : option Z :=
  match sizes with
  | [] => None
  | s :: t =>
      if (acc <=? a) && (a <? acc + s) then Some i
      else block_index (acc + s) (i + 1) t a
  end.

(** The node attribute [G.node[v][key]]. *)
Definition node_attr (G : Graph) (v : node) (key : string) : option Z :=
  match find (fun p => node_eqb v (fst p)) (node_data G) with
  | Some (_, a) => option_map snd (find (fun kv => String.eqb (fst kv) key) a)
  | None => None
  end.

(** Block arguments that mix integers with iterables. *)
Definition mixed (block_sizes : list NodeSpec) : bool :=
  existsb isinstance_int block_sizes && negb (forallb isinstance_int block_sizes).

(** ** The Dorogovtsev-Goltsev-Mendes construction *)

(** What every generation of [dorogovtsev_goltsev_mendes_graph] keeps: a
    simple undirected container on the nodes [0..k-1] whose edges join
    distinct nodes. *)
Definition dgm_state (k : Z) (g : Graph) : Prop :=
  directed g = false
  /\ multigraph g = false
  /\ Gr.nodes g = int_nodes (range 0 k)
  /\ forall u v, In (u, v) (edge_list g) ->
                 exists a b, u = NInt a /\ v = NInt b
                             /\ 0 <= a < k /\ 0 <= b < k /\ a <> b.

(** An edge neither end of which has been visited yet. *)
Definition unseen (seen : list node) (e : node * node) : bool :=
  negb (existsb (node_eqb (fst e)) seen) && negb (existsb (node_eqb (snd e)) seen).

(** The container is absent, or an undirected simple graph. *)
Definition simple_container (create_using : option loc) (h : heap) : Prop :=
  match create_using with
  | None => True
  | Some l => directed (fetch h l) = false /\ multigraph (fetch h l) = false
  end.

(** ** Grids of any dimension *)

(** The edges of a graph lie between its nodes. *)
Definition closed (G : Graph) : Prop :=
  forall e, In e (edge_list G) -> In (fst e) (Gr.nodes G) /\ In (snd e) (Gr.nodes G).

(** What [path_graph(d)] leaves in a new container. *)
Definition path_state (d : Z) : Graph :=
  Gr.add_edges_from (pairwise (int_nodes (range 0 d)))
    (Gr.set_name ("path_graph(" ++ str_spec (Count d) ++ ")")%string
       (Gr.add_nodes_from (int_nodes (range 0 d)) []
          (Gr.set_name
             ("empty_graph(" ++ str_spec (Explicit (int_nodes (range 0 d))) ++ ")")%string
             (Gr.blank false false)))).

(** What [cycle_graph(d)] leaves in a new container, for [d >= 1]. *)
Definition cycle_state (d : Z) : Graph :=
  Gr.add_edge (NInt (d - 1)) (NInt 0)
    (Gr.add_edges_from (pairwise (int_nodes (range 0 d)))
       (Gr.set_name ("cycle_graph(" ++ str_int d ++ ")")%string
          (Gr.add_nodes_from (int_nodes (range 0 d)) []
             (Gr.set_name
                ("empty_graph(" ++ str_spec (Explicit (int_nodes (range 0 d))) ++ ")")%string
                (Gr.blank false false))))).

(** The graph that the loop of [grid_graph] builds for the sizes
    [front ++ [last]], before it is relabelled; [factor d] is the graph
    that [func(d)] returns. *)
Definition nested (factor : Z -> Graph) (front : list Z) (last : Z) : Graph :=
  fold_right (fun d g => Gr_cartesian_product (factor d) g)
             (factor last) front.

(** The label that the Cartesian products give to the node with the
    coordinates [cs]: [(c1, (c2, (..., (c_{k-1}, c_k))))]. *)
Fixpoint nest (cs : list Z) : node :=
  match cs with
  | [] => NTup []
  | c :: t =>
      match t with
      | [] => NInt c
      | _ :: _ => NTup [NInt c; nest t]
      end
  end.

(** Coordinates that lie in the grid of the sizes [dims]. *)
Definition in_grid (dims cs : list Z) : Prop :=
  Forall2 (fun c d => 0 <= c < d) cs dims.

(** The sum of the coordinate differences. *)
Fixpoint manhattan (a b : list Z) : Z :=
  match a, b with
  | x :: a', y :: b' => Z.abs (x - y) + manhattan a' b'
  | _, _ => 0
  end.

(** The label of the node with the coordinates [cs] once the nested label
    is flattened: the tuple of the coordinates, and the bare coordinate
    when there is only one. *)
Definition grid_label (cs : list Z) : node :=
  match cs with
  | [c] => NInt c
  | _ => NTup (map NInt cs)
  end.

(** The number of points of the grid of the sizes [dims]. *)
Definition volume (dims : list Z) : Z :=
  fold_right (fun d k => Z.max 0 d * k) 1 dims.

(** Two coordinate lists agree in every place but one, and there
    [step d x y] holds, [d] being the size of that dimension. *)
Fixpoint one_step (step : Z -> Z -> Z -> Prop) (dims a b : list Z) : Prop :=
  match dims, a, b with
  | d :: dims', x :: a', y :: b' =>
      (step d x y /\ a' = b') \/ (x = y /\ one_step step dims' a' b')
  | _, _, _ => False
  end.

(** Neighbours on a path, and on a cycle of [d] nodes. *)
Definition apart (d x y : Z) : Prop := Z.abs (x - y) = 1.

Definition wraps (d x y : Z) : Prop := y = (x + 1) mod d \/ x = (y + 1) mod d.

(* ================================================================== *)
(** * Equality of node identifiers *)

Section NodeInduction.

Variable P : node -> Prop.
Hypothesis P_int : forall z, P (NInt z).
Hypothesis P_tup : forall xs, Forall P xs -> P (NTup xs).

Fixpoint node_ind_nested (v : node) : P v :=
  match v with
  | NInt z => P_int z
  | NTup xs =>
      P_tup xs
        ((fix all (l : list node) : Forall P l :=
            match l with
            | [] => Forall_nil P
            | x :: t => Forall_cons x (node_ind_nested x) (all t)
            end) xs)
  end.

End NodeInduction.

Lemma node_eqb_eq (a b : node) : node_eqb a b = true <-> a = b.
Proof.
  revert b. induction a as [z | xs IH] using node_ind_nested; intros [y | ys]; simpl.
  - rewrite Z.eqb_eq. split; congruence.
  - split; discriminate.
  - split; discriminate.
  - revert ys. induction IH as [| x xs' Hx _ IHxs]; intros [| y ys'].
    + split; reflexivity.
    + split; discriminate.
    + split; discriminate.
    + rewrite andb_true_iff, Hx, IHxs. split.
      * intros [-> E]. congruence.
      * intros E. injection E as -> ->. split; reflexivity.
Qed.

Lemma node_eqb_refl (a : node) : node_eqb a a = true.
Proof. apply node_eqb_eq. reflexivity. Qed.

Lemma node_eqb_neq (a b : node) : node_eqb a b = false <-> a <> b.
Proof.
  rewrite <- node_eqb_eq. destruct (node_eqb a b); split; congruence.
Qed.

Lemma node_eqb_sym (a b : node) : node_eqb a b = node_eqb b a.
Proof.
  destruct (node_eqb a b) eqn:E.
  - apply node_eqb_eq in E. subst. symmetry. apply node_eqb_refl.
  - apply node_eqb_neq in E. symmetry. apply node_eqb_neq. congruence.
Qed.

Lemma node_eq_dec (a b : node) : {a = b} + {a <> b}.
Proof.
  destruct (node_eqb a b) eqn:E.
  - left. apply node_eqb_eq, E.
  - right. apply node_eqb_neq, E.
Defined.

Lemma existsb_node_eqb (v : node) (l : list node) :
  existsb (node_eqb v) l = true <-> In v l.
Proof.
  rewrite existsb_exists. split.
  - intros [x [Hx E]]. apply node_eqb_eq in E. subst. exact Hx.
  - intros H. exists v. split; [exact H | apply node_eqb_refl].
Qed.

Lemma existsb_node_eqb_false (v : node) (l : list node) :
  existsb (node_eqb v) l = false <-> ~ In v l.
Proof.
  rewrite <- existsb_node_eqb. destruct (existsb (node_eqb v) l); split; congruence.
Qed.

(* ================================================================== *)
(** * Properties of the container operations *)

Module GrFacts.

Lemma put_node_fst (v : node) (a : attrs) (l : list (node * attrs)) :
  map fst (Gr.put_node v a l)
  = if existsb (node_eqb v) (map fst l) then map fst l else map fst l ++ [v].
Proof.
  induction l as [| [w b] t IH]; simpl.
  - reflexivity.
  - destruct (node_eqb v w); simpl.
    + reflexivity.
    + rewrite IH. destruct (existsb (node_eqb v) (map fst t)); reflexivity.
Qed.

Lemma nodes_add_node (v : node) (a : attrs) (G : Graph) :
  Gr.nodes (Gr.add_node v a G)
  = if existsb (node_eqb v) (Gr.nodes G) then Gr.nodes G else Gr.nodes G ++ [v].
Proof. unfold Gr.nodes, Gr.add_node. simpl. apply put_node_fst. Qed.

Lemma in_nodes_add_node (v : node) (a : attrs) (G : Graph) (x : node) :
  In x (Gr.nodes (Gr.add_node v a G)) <-> In x (Gr.nodes G) \/ x = v.
Proof.
  rewrite nodes_add_node.
  destruct (existsb (node_eqb v) (Gr.nodes G)) eqn:E.
  - apply existsb_node_eqb in E. split; [tauto | intros [H | ->]; assumption].
  - rewrite in_app_iff. simpl. split; intros [H | H]; auto.
    + destruct H as [H | []]. auto.
Qed.

Lemma nodup_nodes_add_node (v : node) (a : attrs) (G : Graph) :
  NoDup (Gr.nodes G) -> NoDup (Gr.nodes (Gr.add_node v a G)).
Proof.
  intros H. rewrite nodes_add_node.
  destruct (existsb (node_eqb v) (Gr.nodes G)) eqn:E; [exact H |].
  apply existsb_node_eqb_false in E.
  apply NoDup_app; [exact H | constructor; [intros [] | constructor] |].
  intros x Hx [<- | []]. contradiction.
Qed.

Lemma in_nodes_add_nodes_from (vs : list node) (a : attrs) (G : Graph) (x : node) :
  In x (Gr.nodes (Gr.add_nodes_from vs a G)) <-> In x (Gr.nodes G) \/ In x vs.
Proof.
  unfold Gr.add_nodes_from. revert G.
  induction vs as [| v t IH]; intros G; simpl.
  - tauto.
  - rewrite IH, in_nodes_add_node. intuition auto.
Qed.

Lemma nodup_nodes_add_nodes_from (vs : list node) (a : attrs) (G : Graph) :
  NoDup (Gr.nodes G) -> NoDup (Gr.nodes (Gr.add_nodes_from vs a G)).
Proof.
  unfold Gr.add_nodes_from. revert G.
  induction vs as [| v t IH]; intros G H; simpl.
  - exact H.
  - apply IH, nodup_nodes_add_node, H.
Qed.

(** Adding nodes that are new and pairwise distinct appends them. *)
Lemma nodes_add_nodes_from_fresh (vs : list node) (a : attrs) (G : Graph) :
  NoDup (Gr.nodes G ++ vs) ->
  Gr.nodes (Gr.add_nodes_from vs a G) = Gr.nodes G ++ vs.
Proof.
  unfold Gr.add_nodes_from. revert G.
  induction vs as [| v t IH]; intros G H; simpl.
  - symmetry. apply app_nil_r.
  - assert (Hv : ~ In v (Gr.nodes G)).
    { apply NoDup_remove_2 in H. rewrite in_app_iff in H. tauto. }
    apply existsb_node_eqb_false in Hv.
    rewrite IH; rewrite nodes_add_node, Hv.
    + rewrite <- app_assoc. reflexivity.
    + rewrite <- app_assoc. exact H.
Qed.

Lemma edge_list_add_nodes_from (vs : list node) (a : attrs) (G : Graph) :
  edge_list (Gr.add_nodes_from vs a G) = edge_list G.
Proof.
  unfold Gr.add_nodes_from. revert G.
  induction vs as [| v t IH]; intros G; simpl; [reflexivity |].
  rewrite IH. reflexivity.
Qed.

Lemma flags_add_nodes_from (vs : list node) (a : attrs) (G : Graph) :
  directed (Gr.add_nodes_from vs a G) = directed G
  /\ multigraph (Gr.add_nodes_from vs a G) = multigraph G
  /\ name (Gr.add_nodes_from vs a G) = name G.
Proof.
  unfold Gr.add_nodes_from. revert G.
  induction vs as [| v t IH]; intros G; simpl; [auto |].
  destruct (IH (Gr.add_node v a G)) as (H1 & H2 & H3).
  rewrite H1, H2, H3. auto.
Qed.

Lemma flags_add_edge (u v : node) (G : Graph) :
  directed (Gr.add_edge u v G) = directed G
  /\ multigraph (Gr.add_edge u v G) = multigraph G
  /\ name (Gr.add_edge u v G) = name G.
Proof.
  unfold Gr.add_edge.
  destruct (multigraph G || negb (Gr.has_edge G u v)); simpl; auto.
Qed.

Lemma flags_add_edges_from (es : list (node * node)) (G : Graph) :
  directed (Gr.add_edges_from es G) = directed G
  /\ multigraph (Gr.add_edges_from es G) = multigraph G
  /\ name (Gr.add_edges_from es G) = name G.
Proof.
  unfold Gr.add_edges_from. revert G.
  induction es as [| e t IH]; intros G; simpl; [auto |].
  destruct (IH (Gr.add_edge (fst e) (snd e) G)) as (H1 & H2 & H3).
  destruct (flags_add_edge (fst e) (snd e) G) as (K1 & K2 & K3).
  rewrite H1, H2, H3. auto.
Qed.

Lemma nodes_add_edge (u v : node) (G : Graph) :
  Gr.nodes (Gr.add_edge u v G)
  = Gr.nodes (Gr.add_node v [] (Gr.add_node u [] G)).
Proof.
  unfold Gr.add_edge.
  destruct (multigraph G || negb (Gr.has_edge G u v)); reflexivity.
Qed.

Lemma in_nodes_add_edge (u v : node) (G : Graph) (x : node) :
  In x (Gr.nodes (Gr.add_edge u v G)) <-> In x (Gr.nodes G) \/ x = u \/ x = v.
Proof.
  rewrite nodes_add_edge, !in_nodes_add_node. tauto.
Qed.

Lemma nodup_nodes_add_edge (u v : node) (G : Graph) :
  NoDup (Gr.nodes G) -> NoDup (Gr.nodes (Gr.add_edge u v G)).
Proof.
  intros H. rewrite nodes_add_edge. now apply nodup_nodes_add_node, nodup_nodes_add_node.
Qed.

Lemma nodes_add_edge_known (u v : node) (G : Graph) :
  In u (Gr.nodes G) -> In v (Gr.nodes G) ->
  Gr.nodes (Gr.add_edge u v G) = Gr.nodes G.
Proof.
  intros Hu Hv. rewrite nodes_add_edge, nodes_add_node.
  assert (E : Gr.nodes (Gr.add_node u [] G) = Gr.nodes G).
  { rewrite nodes_add_node. apply existsb_node_eqb in Hu. now rewrite Hu. }
  rewrite E. apply existsb_node_eqb in Hv. now rewrite Hv.
Qed.

Lemma in_nodes_add_edges_from (es : list (node * node)) (G : Graph) (x : node) :
  In x (Gr.nodes (Gr.add_edges_from es G))
  <-> In x (Gr.nodes G) \/ In x (endpoints es).
Proof.
  unfold Gr.add_edges_from. revert G.
  induction es as [| e t IH]; intros G; simpl.
  - tauto.
  - rewrite IH, in_nodes_add_edge. intuition auto.
Qed.

Lemma nodup_nodes_add_edges_from (es : list (node * node)) (G : Graph) :
  NoDup (Gr.nodes G) -> NoDup (Gr.nodes (Gr.add_edges_from es G)).
Proof.
  unfold Gr.add_edges_from. revert G.
  induction es as [| e t IH]; intros G H; simpl; [exact H |].
  apply IH, nodup_nodes_add_edge, H.
Qed.

(** Edges between nodes that are all present leave the node list alone. *)
Lemma nodes_add_edges_from_known (es : list (node * node)) (G : Graph) :
  (forall x, In x (endpoints es) -> In x (Gr.nodes G)) ->
  Gr.nodes (Gr.add_edges_from es G) = Gr.nodes G.
Proof.
  unfold Gr.add_edges_from. revert G.
  induction es as [| e t IH]; intros G H; simpl; [reflexivity |].
  assert (E : Gr.nodes (Gr.add_edge (fst e) (snd e) G) = Gr.nodes G).
  { apply nodes_add_edge_known; apply H; simpl; auto. }
  rewrite IH; [exact E |].
  intros x Hx. rewrite E. apply H. simpl. auto.
Qed.

(** ** When does [add_edge] store a new edge? *)

Lemma joins_false (d : bool) (u v : node) (e : node * node) :
  Gr.joins d u v e = false <-> e <> (u, v) /\ (d = false -> e <> (v, u)).
Proof.
  unfold Gr.joins. destruct e as [a b]. simpl.
  rewrite orb_false_iff, !andb_false_iff, !node_eqb_neq.
  destruct d; simpl; split.
  - intros [H _]. split; [| discriminate]. intros E. injection E as -> ->. tauto.
  - intros [H _]. split; [| auto].
    destruct (node_eq_dec u a) as [-> |]; [right | left; assumption].
    intros ->. apply H. reflexivity.
  - intros [H1 [[K | K] | K]]; try discriminate.
    + split; [| intros _]; intros E; injection E as -> ->; tauto.
    + split; [| intros _]; intros E; injection E as -> ->; tauto.
  - intros [H1 H2]. specialize (H2 eq_refl). split.
    + destruct (node_eq_dec u a) as [-> |]; [right | left; assumption].
      intros ->. apply H1. reflexivity.
    + destruct (node_eq_dec v a) as [-> |]; [right | left; right; assumption].
      intros ->. apply H2. reflexivity.
Qed.

Lemma has_edge_false (G : Graph) (u v : node) :
  Gr.has_edge G u v = false
  <-> ~ In (u, v) (edge_list G)
      /\ (directed G = false -> ~ In (v, u) (edge_list G)).
Proof.
  unfold Gr.has_edge. split.
  - intros H. split; [| intros Hd]; intros Hin.
    + assert (K : Gr.joins (directed G) u v (u, v) = false).
      { destruct (Gr.joins (directed G) u v (u, v)) eqn:E; [| reflexivity].
        rewrite <- H. symmetry. apply existsb_exists. eauto. }
      apply joins_false in K. tauto.
    + assert (K : Gr.joins (directed G) u v (v, u) = false).
      { destruct (Gr.joins (directed G) u v (v, u)) eqn:E; [| reflexivity].
        rewrite <- H. symmetry. apply existsb_exists. eauto. }
      apply joins_false in K. tauto.
  - intros [H1 H2].
    destruct (existsb (Gr.joins (directed G) u v) (edge_list G)) eqn:E;
      [| reflexivity].
    apply existsb_exists in E. destruct E as [e [He Hj]].
    assert (K : Gr.joins (directed G) u v e = false).
    { apply joins_false. split.
      - intros ->. contradiction.
      - intros Hd ->. now apply H2. }
    congruence.
Qed.

Lemma edge_list_add_edge (u v : node) (G : Graph) :
  edge_list (Gr.add_edge u v G)
  = if multigraph G || negb (Gr.has_edge G u v)
    then edge_list G ++ [(u, v)] else edge_list G.
Proof.
  unfold Gr.add_edge.
  destruct (multigraph G || negb (Gr.has_edge G u v)); reflexivity.
Qed.

Lemma edge_list_add_edges_from (es : list (node * node)) (G : Graph) :
  multigraph G = true \/ addable (directed G) (edge_list G) es ->
  edge_list (Gr.add_edges_from es G) = edge_list G ++ es.
Proof.
  unfold Gr.add_edges_from. revert G.
  induction es as [| [u v] t IH]; intros G H; simpl.
  - symmetry. apply app_nil_r.
  - assert (E : edge_list (Gr.add_edge u v G) = edge_list G ++ [(u, v)]).
    { rewrite edge_list_add_edge. destruct H as [-> | (H1 & H2 & _)].
      - reflexivity.
      - simpl in H1, H2.
        assert (K : Gr.has_edge G u v = false) by (apply has_edge_false; auto).
        rewrite K, orb_true_r. reflexivity. }
    destruct (flags_add_edge u v G) as (F1 & F2 & _).
    rewrite IH; rewrite E.
    + rewrite <- app_assoc. reflexivity.
    + rewrite F1, F2. destruct H as [H | (_ & _ & H)]; [left | right]; assumption.
Qed.

Lemma simple_edges_addable (d : bool) (E es : list (node * node)) :
  simple_edges (E ++ es) -> addable d E es.
Proof.
  revert E. induction es as [| [u v] t IH]; intros E [Hn Ha]; simpl; [exact I |].
  split; [| split].
  - apply NoDup_remove_2 in Hn. rewrite in_app_iff in Hn. tauto.
  - intros _ Hin. apply (Ha u v).
    + rewrite in_app_iff. right. left. reflexivity.
    + rewrite in_app_iff. left. exact Hin.
  - apply IH. rewrite <- app_assoc. split; assumption.
Qed.

Lemma nodup_addable_directed (E es : list (node * node)) :
  NoDup (E ++ es) -> addable true E es.
Proof.
  revert E. induction es as [| [u v] t IH]; intros E Hn; simpl; [exact I |].
  split; [| split].
  - apply NoDup_remove_2 in Hn. rewrite in_app_iff in Hn. tauto.
  - discriminate.
  - apply IH. rewrite <- app_assoc. exact Hn.
Qed.

Lemma ascending_simple (L : list (node * node)) :
  NoDup L -> Forall ascending L -> simple_edges L.
Proof.
  intros Hn Ha. split; [exact Hn |].
  intros u v H1 H2. rewrite Forall_forall in Ha.
  apply Ha in H1. apply Ha in H2.
  destruct u, v; simpl in *; try contradiction. lia.
Qed.

(** ** Degrees *)

Lemma degree_cnt (G : Graph) (v : node) :
  Gr.degree G v
  = (cnt (fun e => node_eqb v (fst e)) (edge_list G)
     + cnt (fun e => node_eqb v (snd e)) (edge_list G))%nat.
Proof.
  unfold Gr.degree, cnt, Gr.hits.
  induction (edge_list G) as [| e t IH]; simpl; [reflexivity |].
  rewrite IH.
  destruct (node_eqb v (fst e)), (node_eqb v (snd e)); simpl; lia.
Qed.

Lemma cnt_app {A : Type} (P : A -> bool) (l1 l2 : list A) :
  cnt P (l1 ++ l2) = (cnt P l1 + cnt P l2)%nat.
Proof. unfold cnt. rewrite filter_app. apply length_app. Qed.

Lemma cnt_map {A B : Type} (f : A -> B) (P : B -> bool) (l : list A) :
  cnt P (map f l) = cnt (fun x => P (f x)) l.
Proof.
  unfold cnt. induction l as [| x t IH]; simpl; [reflexivity |].
  destruct (P (f x)); simpl; rewrite IH; reflexivity.
Qed.

Lemma cnt_ext {A : Type} (P Q : A -> bool) (l : list A) :
  (forall x, In x l -> P x = Q x) -> cnt P l = cnt Q l.
Proof.
  unfold cnt. induction l as [| x t IH]; intros H; simpl; [reflexivity |].
  rewrite (H x) by (left; reflexivity).
  destruct (Q x); simpl; rewrite IH; auto; intros y Hy; apply H; right; exact Hy.
Qed.

Lemma cnt_none {A : Type} (P : A -> bool) (l : list A) :
  (forall x, In x l -> P x = false) -> cnt P l = 0%nat.
Proof.
  intros H. rewrite (cnt_ext P (fun _ => false)) by exact H.
  clear H. unfold cnt. induction l; simpl; auto.
Qed.

Lemma cnt_all {A : Type} (P : A -> bool) (l : list A) :
  (forall x, In x l -> P x = true) -> cnt P l = length l.
Proof.
  intros H. rewrite (cnt_ext P (fun _ => true)) by exact H.
  clear H. unfold cnt. induction l; simpl; auto.
Qed.

Lemma cnt_flat_map {A B : Type} (f : A -> list B) (P : B -> bool) (l : list A) :
  cnt P (flat_map f l)
  = fold_right (fun x k => (cnt P (f x) + k)%nat) 0%nat l.
Proof.
  induction l as [| x t IH]; simpl; [reflexivity |].
  rewrite cnt_app, IH. reflexivity.
Qed.

End GrFacts.

(* ================================================================== *)
(** * Ranges, pairs and combinations *)

Module ListFacts.

Lemma length_range (a b : Z) : length (range a b) = Z.to_nat (b - a).
Proof. unfold range. now rewrite length_map, length_seq. Qed.

Lemma in_range (a b x : Z) : In x (range a b) <-> a <= x < b.
Proof.
  unfold range. rewrite in_map_iff. split.
  - intros [k [<- Hk]]. apply in_seq in Hk. lia.
  - intros H. exists (Z.to_nat (x - a)). split; [lia |]. apply in_seq. lia.
Qed.

Lemma range_nil (a b : Z) : b <= a -> range a b = [].
Proof.
  intros H. unfold range. replace (Z.to_nat (b - a)) with 0%nat by lia. reflexivity.
Qed.

Lemma range_cons (a b : Z) : a < b -> range a b = a :: range (a + 1) b.
Proof.
  intros H. unfold range.
  replace (Z.to_nat (b - a)) with (S (Z.to_nat (b - (a + 1)))) by lia.
  simpl. f_equal; [lia |].
  rewrite <- seq_shift, map_map. apply map_ext. intros k. lia.
Qed.

Lemma range_snoc (a b : Z) : a <= b -> range a (b + 1) = range a b ++ [b].
Proof.
  intros H. unfold range.
  replace (Z.to_nat (b + 1 - a)) with (Z.to_nat (b - a) + 1)%nat by lia.
  rewrite seq_app, map_app. simpl. do 2 f_equal. lia.
Qed.

Lemma range_sorted (a b : Z) : StronglySorted Z.lt (range a b).
Proof.
  remember (Z.to_nat (b - a)) as k eqn:Hk. revert a Hk.
  induction k as [| k IH]; intros a Hk.
  - rewrite range_nil by lia. constructor.
  - rewrite range_cons by lia. constructor.
    + apply IH. lia.
    + apply Forall_forall. intros x Hx. apply in_range in Hx. lia.
Qed.

Lemma sorted_nodup (l : list Z) : StronglySorted Z.lt l -> NoDup l.
Proof.
  induction 1 as [| x t _ IH Hx]; constructor; [| exact IH].
  intros Hin. rewrite Forall_forall in Hx. apply Hx in Hin. lia.
Qed.

Lemma nodup_range (a b : Z) : NoDup (range a b).
Proof. apply sorted_nodup, range_sorted. Qed.

Lemma NInt_inj (x y : Z) : NInt x = NInt y -> x = y.
Proof. congruence. Qed.

Lemma nodup_int_nodes (l : list Z) : NoDup l -> NoDup (int_nodes l).
Proof.
  unfold int_nodes. intros H. apply Injective_map_NoDup; [| exact H].
  intros x y. apply NInt_inj.
Qed.

Lemma in_int_nodes (l : list Z) (v : node) :
  In v (int_nodes l) <-> exists z, v = NInt z /\ In z l.
Proof.
  unfold int_nodes. rewrite in_map_iff. split; intros [z [H1 H2]]; eauto.
Qed.

Lemma in_int_nodes_NInt (l : list Z) (z : Z) : In (NInt z) (int_nodes l) <-> In z l.
Proof.
  rewrite in_int_nodes. split.
  - intros [y [E H]]. injection E as ->. exact H.
  - eauto.
Qed.

Lemma nodup_int_edges (l : list (Z * Z)) : NoDup l -> NoDup (int_edges l).
Proof.
  unfold int_edges. intros H. apply Injective_map_NoDup; [| exact H].
  intros [a b] [c d]. simpl. congruence.
Qed.

Lemma in_int_edges (l : list (Z * Z)) (a b : Z) :
  In (NInt a, NInt b) (int_edges l) <-> In (a, b) l.
Proof.
  unfold int_edges. rewrite in_map_iff. split.
  - intros [[c d] [E H]]. simpl in E. congruence.
  - intros H. exists (a, b). auto.
Qed.

Lemma ascending_int_edges (l : list (Z * Z)) :
  Forall (fun p => fst p < snd p) l -> Forall ascending (int_edges l).
Proof.
  unfold int_edges. intros H. apply Forall_map.
  eapply Forall_impl; [| exact H]. intros [a b]. simpl. auto.
Qed.

(** ** Combinations and permutations of two elements *)

Lemma combinations2_map {A B : Type} (f : A -> B) (l : list A) :
  combinations2 (map f l)
  = map (fun p => (f (fst p), f (snd p))) (combinations2 l).
Proof.
  induction l as [| x t IH]; simpl; [reflexivity |].
  rewrite map_app, !map_map, IH. reflexivity.
Qed.

Lemma in_combinations2 {A : Type} (l : list A) (x y : A) :
  In (x, y) (combinations2 l) -> In x l /\ In y l.
Proof.
  induction l as [| a t IH]; simpl; [tauto |].
  rewrite in_app_iff, in_map_iff. intros [[z [E H]] | H].
  - injection E as -> ->. auto.
  - apply IH in H. tauto.
Qed.

Lemma nodup_combinations2 {A : Type} (l : list A) :
  NoDup l -> NoDup (combinations2 l).
Proof.
  induction 1 as [| a t Ha Ht IH]; simpl; [constructor |].
  apply NoDup_app.
  - apply Injective_map_NoDup; [| exact Ht]. intros x y. congruence.
  - exact IH.
  - intros [x y] H1 H2. apply in_map_iff in H1. destruct H1 as [z [E _]].
    injection E as -> ->. apply in_combinations2 in H2. tauto.
Qed.

Lemma sorted_combinations2 (l : list Z) :
  StronglySorted Z.lt l -> Forall (fun p => fst p < snd p) (combinations2 l).
Proof.
  induction 1 as [| a t _ IH Ha]; simpl; [constructor |].
  apply Forall_app. split; [| exact IH].
  apply Forall_map. eapply Forall_impl; [| exact Ha]. auto.
Qed.

Lemma length_combinations2 {A : Type} (l : list A) :
  2 * Z.of_nat (length (combinations2 l))
  = Z.of_nat (length l) * (Z.of_nat (length l) - 1).
Proof.
  induction l as [| a t IH]; simpl length; [reflexivity |].
  rewrite length_app, length_map. lia.
Qed.

Lemma picks_fst {A : Type} (l : list A) : map fst (picks l) = l.
Proof.
  induction l as [| a t IH]; simpl; [reflexivity |].
  f_equal. rewrite map_map. simpl.
  etransitivity; [| exact IH]. apply map_ext. reflexivity.
Qed.

Lemma picks_snd {A : Type} (l : list A) (x : A) (r : list A) :
  In (x, r) (picks l) -> exists l1 l2, l = l1 ++ x :: l2 /\ r = l1 ++ l2.
Proof.
  revert x r. induction l as [| a t IH]; intros x r; simpl; [tauto |].
  intros [E | H].
  - injection E as -> ->. exists [], r. auto.
  - apply in_map_iff in H. destruct H as [[y q] [E H]]. simpl in E.
    injection E as E1 E2. subst x r. apply IH in H.
    destruct H as (l1 & l2 & -> & ->).
    exists (a :: l1), l2. auto.
Qed.

Lemma nodup_permutations2 {A : Type} (l : list A) :
  NoDup l -> NoDup (permutations2 l).
Proof.
  intros Hl. unfold permutations2.
  assert (Hf : NoDup (map fst (picks l))) by now rewrite picks_fst.
  assert (Hs : forall p, In p (picks l) -> NoDup (snd p)).
  { intros [x r] H. apply picks_snd in H. destruct H as (l1 & l2 & -> & ->).
    simpl. eapply NoDup_remove_1, Hl. }
  clear Hl. induction (picks l) as [| p ps IH]; simpl; [constructor |].
  inversion Hf as [| ? ? Hp Hps]; subst.
  apply NoDup_app.
  - apply Injective_map_NoDup; [| apply Hs; now left].
    intros x y. congruence.
  - apply IH; [exact Hps | intros q Hq; apply Hs; now right].
  - intros [x y] H1 H2. apply in_map_iff in H1. destruct H1 as [z [E _]].
    injection E as <- _. apply in_flat_map in H2. destruct H2 as [q [Hq H2]].
    apply in_map_iff in H2. destruct H2 as [w [E _]]. injection E as E _.
    apply Hp. rewrite <- E. apply in_map. exact Hq.
Qed.

Lemma length_permutations2 {A : Type} (l : list A) :
  Z.of_nat (length (permutations2 l))
  = Z.of_nat (length l) * (Z.of_nat (length l) - 1).
Proof.
  unfold permutations2.
  assert (Hs : forall p, In p (picks l) -> S (length (snd p)) = length l).
  { intros [x r] H. apply picks_snd in H. destruct H as (l1 & l2 & -> & ->).
    simpl. rewrite !length_app. simpl. lia. }
  assert (Hn : length (picks l) = length l).
  { rewrite <- (picks_fst l) at 2. now rewrite length_map. }
  rewrite <- Hn at 1. clear Hn.
  induction (picks l) as [| p ps IH]; simpl length; [reflexivity |].
  rewrite length_app, length_map.
  specialize (Hs p (or_introl eq_refl)) as Hp.
  rewrite Nat2Z.inj_add, IH by (intros q Hq; apply Hs; now right). lia.
Qed.

Lemma in_permutations2 {A : Type} (l : list A) (x y : A) :
  In (x, y) (permutations2 l) -> In x l /\ In y l.
Proof.
  unfold permutations2. rewrite in_flat_map. intros [[a r] [Hp H]].
  apply in_map_iff in H. destruct H as [z [E Hz]]. simpl in E, Hz.
  injection E as -> ->. apply picks_snd in Hp.
  destruct Hp as (l1 & l2 & -> & ->).
  rewrite in_app_iff in Hz. rewrite !in_app_iff. simpl. tauto.
Qed.

End ListFacts.

(* ================================================================== *)
(** * The heap and the monad *)

Module HeapFacts.

Lemma length_store (h : heap) (l : loc) (g : Graph) :
  length (store h l g) = length h.
Proof.
  revert l. induction h as [| x t IH]; intros [| l]; simpl; auto.
Qed.

Lemma fetch_store_same (h : heap) (l : loc) (g : Graph) :
  (l < length h)%nat -> fetch (store h l g) l = g.
Proof.
  unfold fetch. revert l. induction h as [| x t IH]; intros [| l] H; simpl in *;
    try lia; auto.
  apply IH. lia.
Qed.

Lemma fetch_store_other (h : heap) (l l' : loc) (g : Graph) :
  l' <> l -> fetch (store h l g) l' = fetch h l'.
Proof.
  unfold fetch. revert l l'.
  induction h as [| x t IH]; intros [| l] [| l'] H; simpl; auto; try congruence.
Qed.

Lemma store_store (h : heap) (l : loc) (g1 g2 : Graph) :
  store (store h l g1) l g2 = store h l g2.
Proof.
  revert l. induction h as [| x t IH]; intros [| l]; simpl; auto.
  now rewrite IH.
Qed.

Lemma store_fetch (h : heap) (l : loc) : store h l (fetch h l) = h.
Proof.
  unfold fetch. revert l. induction h as [| x t IH]; intros [| l]; simpl; auto.
  now rewrite IH.
Qed.

Lemma fetch_new (h : heap) (g : Graph) : fetch (h ++ [g]) (length h) = g.
Proof. unfold fetch. rewrite app_nth2, Nat.sub_diag; auto. Qed.

Lemma fetch_old (h : heap) (g : Graph) (l : loc) :
  (l < length h)%nat -> fetch (h ++ [g]) l = fetch h l.
Proof. intros H. unfold fetch. now rewrite app_nth1. Qed.

Lemma store_new (h : heap) (g g' : Graph) :
  store (h ++ [g]) (length h) g' = h ++ [g'].
Proof. induction h as [| x t IH]; simpl; [reflexivity | now rewrite IH]. Qed.

Lemma fetch_place (cu : option loc) (h : heap) (g : Graph) :
  valid cu h -> fetch (place cu h g) (target cu h) = g.
Proof.
  destruct cu as [l |]; simpl; intros H.
  - now apply fetch_store_same.
  - apply fetch_new.
Qed.

Lemma store_place (cu : option loc) (h : heap) (g g' : Graph) :
  store (place cu h g) (target cu h) g' = place cu h g'.
Proof.
  destruct cu as [l |]; simpl.
  - apply store_store.
  - apply store_new.
Qed.

(** ** Running a generator on its container *)

Lemma bind_ret {A B : Type} (a : A) (k : A -> M B) (h : heap) :
  bind (ret a) k h = k a h.
Proof. reflexivity. Qed.

Lemma bind_raise {A B : Type} (e : exn) (k : A -> M B) (h : heap) :
  bind (raise e) k h = (h, Raise e).
Proof. reflexivity. Qed.

Lemma bind_bind {A B C : Type} (m : M A) (k : A -> M B) (k' : B -> M C) (h : heap) :
  bind (bind m k) k' h = bind m (fun a => bind (k a) k') h.
Proof. unfold bind. destruct (m h) as [h1 [a | e]]; reflexivity. Qed.

Lemma bind_update {B : Type} (cu : option loc) (h : heap) (g : Graph)
      (f : Graph -> Graph) (k : unit -> M B) :
  valid cu h ->
  bind (update (target cu h) f) k (place cu h g) = k tt (place cu h (f g)).
Proof.
  intros H. unfold bind, update. now rewrite fetch_place, store_place.
Qed.

Lemma bind_read {A B : Type} (cu : option loc) (h : heap) (g : Graph)
      (f : Graph -> A) (k : A -> M B) :
  valid cu h ->
  bind (read (target cu h) f) k (place cu h g) = k (f g) (place cu h g).
Proof.
  intros H. unfold bind, read. now rewrite fetch_place.
Qed.

Lemma run_empty_graph (n : NodeSpec) (cu : option loc) (h : heap) :
  valid cu h ->
  empty_graph n cu h
  = (place cu h
       (Gr.add_nodes_from (snd (nodes_or_number n)) []
          (Gr.set_name ("empty_graph(" ++ str_spec n ++ ")")%string (start cu h))),
     Ok (target cu h)).
Proof.
  intros H. unfold empty_graph.
  assert (E : forall k : loc -> M loc,
             bind match cu with
                  | Some G => clear G;; ret G
                  | None => new_Graph
                  end k h = k (target cu h) (place cu h (start cu h))).
  { intros k. destruct cu as [l |]; reflexivity. }
  rewrite E.
  assert (N : nodes_or_number n = (n, snd (nodes_or_number n))) by (destruct n; reflexivity).
  rewrite N. simpl snd. unfold set_name, add_nodes_from.
  rewrite !bind_update by exact H. reflexivity.
Qed.

Lemma bind_empty_graph {B : Type} (n : NodeSpec) (cu : option loc) (h : heap)
      (k : loc -> M B) :
  valid cu h ->
  bind (empty_graph n cu) k h
  = k (target cu h)
      (place cu h
         (Gr.add_nodes_from (snd (nodes_or_number n)) []
            (Gr.set_name ("empty_graph(" ++ str_spec n ++ ")")%string (start cu h)))).
Proof. intros H. unfold bind at 1. now rewrite run_empty_graph. Qed.

Lemma nodes_start (cu : option loc) (h : heap) : Gr.nodes (start cu h) = [].
Proof. destruct cu; reflexivity. Qed.

Lemma edge_list_start (cu : option loc) (h : heap) : edge_list (start cu h) = [].
Proof. destruct cu; reflexivity. Qed.

Lemma directed_start (cu : option loc) (h : heap) :
  directed (start cu h)
  = match cu with None => false | Some l => directed (fetch h l) end.
Proof. destruct cu; reflexivity. Qed.

Lemma multigraph_start (cu : option loc) (h : heap) :
  multigraph (start cu h)
  = match cu with None => false | Some l => multigraph (fetch h l) end.
Proof. destruct cu; reflexivity. Qed.

End HeapFacts.

(* ================================================================== *)
(** * The state of a container that has just been emptied and refilled *)

Module FillFacts.

Import GrFacts HeapFacts.

Lemma nodes_fill (vs : list node) (s : string) (cu : option loc) (h : heap) :
  NoDup vs ->
  Gr.nodes (Gr.add_nodes_from vs [] (Gr.set_name s (start cu h))) = vs.
Proof.
  intros H. rewrite nodes_add_nodes_from_fresh.
  - unfold Gr.nodes, Gr.set_name. simpl. fold (Gr.nodes (start cu h)).
    now rewrite nodes_start.
  - unfold Gr.nodes, Gr.set_name. simpl. fold (Gr.nodes (start cu h)).
    now rewrite nodes_start.
Qed.

Lemma edge_list_fill (vs : list node) (s : string) (cu : option loc) (h : heap) :
  edge_list (Gr.add_nodes_from vs [] (Gr.set_name s (start cu h))) = [].
Proof.
  rewrite edge_list_add_nodes_from. simpl. apply edge_list_start.
Qed.

Lemma directed_fill (vs : list node) (s : string) (cu : option loc) (h : heap) :
  directed (Gr.add_nodes_from vs [] (Gr.set_name s (start cu h)))
  = directed (start cu h).
Proof. now destruct (flags_add_nodes_from vs [] (Gr.set_name s (start cu h))). Qed.

Lemma multigraph_fill (vs : list node) (s : string) (cu : option loc) (h : heap) :
  multigraph (Gr.add_nodes_from vs [] (Gr.set_name s (start cu h)))
  = multigraph (start cu h).
Proof.
  now destruct (flags_add_nodes_from vs [] (Gr.set_name s (start cu h))) as (_ & ? & _).
Qed.

Lemma number_of_nodes_length (G : Graph) :
  Gr.number_of_nodes G = length (Gr.nodes G).
Proof. unfold Gr.number_of_nodes, Gr.nodes. now rewrite length_map. Qed.

End FillFacts.

(* ================================================================== *)
(** * complete_graph *)

Module CompleteGraph.

Import GrFacts HeapFacts FillFacts ListFacts.

Lemma complete_graph_run (n : Z) (cu : option loc) (h : heap) :
  valid cu h ->
  complete_graph (Count n) cu h
  = (place cu h (complete_state n cu h), Ok (target cu h)).
Proof.
  intros H. unfold complete_state. set (g1 := Gr.set_name _ _).
  unfold complete_graph.
  change (nodes_or_number (Count n)) with (Count n, int_nodes (range 0 n)).
  cbv iota beta. rewrite bind_empty_graph by exact H.
  change (snd (nodes_or_number (Count n))) with (int_nodes (range 0 n)).
  change (str_spec (Count n)) with (str_int n).
  unfold set_name. rewrite bind_update by exact H. fold g1.
  destruct (1 <? len (int_nodes (range 0 n))); unfold when.
  - rewrite bind_bind. unfold is_directed. rewrite bind_read by exact H.
    unfold add_edges_from. rewrite bind_update by exact H. reflexivity.
  - rewrite bind_ret. reflexivity.
Qed.

Lemma simple_combinations (n : Z) :
  simple_edges (combinations2 (int_nodes (range 0 n))).
Proof.
  unfold int_nodes. rewrite combinations2_map. fold (int_edges (combinations2 (range 0 n))).
  apply ascending_simple.
  - apply nodup_int_edges, nodup_combinations2, nodup_range.
  - apply ascending_int_edges, sorted_combinations2, range_sorted.
Qed.

Lemma length_int_range (n : Z) :
  0 <= n -> Z.of_nat (length (int_nodes (range 0 n))) = n.
Proof.
  intros H. unfold int_nodes. rewrite length_map, length_range. lia.
Qed.

End CompleteGraph.

(** Claim C8.  For every integer [n >= 0], [complete_graph(n)] returns a
    graph with exactly [n] nodes and with [n*(n-1)/2] edges when the
    container is undirected (or absent), [n*(n-1)] edges when it is
    directed.  The call returns for every valid container. *)
Theorem complete_graph_size (n : Z) (create_using : option loc) (h : heap) :
  0 <= n ->
  valid create_using h ->
  exists h' G,
    complete_graph (Count n) create_using h = (h', Ok G)
    /\ G = target create_using h
    /\ directed (fetch h' G)
       = match create_using with
         | None => false
         | Some l => directed (fetch h l)
         end
    /\ Z.of_nat (Gr.number_of_nodes (fetch h' G)) = n
    /\ Z.of_nat (Gr.number_of_edges (fetch h' G))
       = if directed (fetch h' G) then n * (n - 1) else n * (n - 1) / 2.
Proof.
  intros Hn Hv. pose proof (CompleteGraph.complete_graph_run n create_using h Hv) as R.
  unfold complete_state in R. do 2 eexists. split; [exact R |]. split; [reflexivity |].
  rewrite HeapFacts.fetch_place by exact Hv.
  set (g0 := Gr.add_nodes_from (int_nodes (range 0 n)) []
               (Gr.set_name ("empty_graph(" ++ str_int n ++ ")")%string
                  (start create_using h))).
  set (g1 := Gr.set_name ("complete_graph(" ++ str_int n ++ ")")%string g0).
  assert (Hnodes : Gr.nodes g1 = int_nodes (range 0 n)).
  { apply FillFacts.nodes_fill, ListFacts.nodup_int_nodes, ListFacts.nodup_range. }
  assert (Hedges : edge_list g1 = []) by apply FillFacts.edge_list_fill.
  assert (Hdir : directed g1 = directed (start create_using h))
    by apply FillFacts.directed_fill.
  assert (Hlen : Z.of_nat (length (int_nodes (range 0 n))) = n)
    by now apply CompleteGraph.length_int_range.
  set (es := if directed g1 then permutations2 (int_nodes (range 0 n))
             else combinations2 (int_nodes (range 0 n))).
  assert (Hadd : edge_list (Gr.add_edges_from es g1) = es).
  { rewrite GrFacts.edge_list_add_edges_from; [now rewrite Hedges |].
    right. rewrite Hedges. subst es. destruct (directed g1).
    - apply GrFacts.nodup_addable_directed, ListFacts.nodup_permutations2,
        ListFacts.nodup_int_nodes, ListFacts.nodup_range.
    - apply GrFacts.simple_edges_addable, CompleteGraph.simple_combinations. }
  assert (Hkeep : Gr.nodes (Gr.add_edges_from es g1) = Gr.nodes g1).
  { apply GrFacts.nodes_add_edges_from_known. intros x Hx.
    unfold endpoints in Hx. apply in_flat_map in Hx.
    destruct Hx as [[u v] [He Hx]]. rewrite Hnodes. subst es.
    assert (In u (int_nodes (range 0 n)) /\ In v (int_nodes (range 0 n))) as [Hu Hv'].
    { destruct (directed g1).
      - now apply ListFacts.in_permutations2.
      - now apply ListFacts.in_combinations2. }
    simpl in Hx. destruct Hx as [<- | [<- | []]]; assumption. }
  destruct (GrFacts.flags_add_edges_from es g1) as (Fd & _ & _).
  rewrite <- HeapFacts.directed_start, <- Hdir.
  unfold len. rewrite Hlen.
  destruct (1 <? n) eqn:Hbig.
  - rewrite Fd. split; [reflexivity |]. split.
    + rewrite FillFacts.number_of_nodes_length, Hkeep, Hnodes. exact Hlen.
    + unfold Gr.number_of_edges. rewrite Hadd. subst es. destruct (directed g1).
      * rewrite ListFacts.length_permutations2, Hlen. reflexivity.
      * pose proof (ListFacts.length_combinations2 (int_nodes (range 0 n))) as L.
        rewrite Hlen in L. rewrite <- L, Z.mul_comm, Z.div_mul; lia.
  - split; [reflexivity |]. split.
    + rewrite FillFacts.number_of_nodes_length, Hnodes. exact Hlen.
    + unfold Gr.number_of_edges. rewrite Hedges. apply Z.ltb_ge in Hbig.
      assert (n = 0 \/ n = 1) as [-> | ->] by lia; destruct (directed g1); reflexivity.
Qed.

Lemma complete_graph_size_witness :
  exists h' G,
    complete_graph (Count 4) (Some 0%nat) [old_digraph] = (h', Ok G)
    /\ G = target (Some 0%nat) [old_digraph]
    /\ directed (fetch h' G) = directed (fetch [old_digraph] 0%nat)
    /\ Z.of_nat (Gr.number_of_nodes (fetch h' G)) = 4
    /\ Z.of_nat (Gr.number_of_edges (fetch h' G))
       = if directed (fetch h' G) then 4 * (4 - 1) else 4 * (4 - 1) / 2.
Proof.
  apply (complete_graph_size 4 (Some 0%nat) [old_digraph]).
  - lia.
  - simpl. lia.
Defined.

(* ================================================================== *)
(** * star_graph *)

Module StarGraph.

Import GrFacts HeapFacts FillFacts ListFacts.

Lemma nodes_eq (n : Z) :
  0 <= n ->
  (int_nodes (range 0 n) ++ [NInt n]) = NInt 0 :: int_nodes (range 1 (n + 1)).
Proof.
  intros H. change [NInt n] with (int_nodes [n]).
  unfold int_nodes. rewrite <- map_app, <- range_snoc by lia.
  rewrite range_cons by lia. reflexivity.
Qed.

Lemma star_graph_run (n : Z) (cu : option loc) (h : heap) :
  0 <= n -> valid cu h -> undirected cu h ->
  star_graph (Count n) cu h
  = (place cu h
       (Gr.set_name ("star_graph(" ++ str_int n ++ ")")%string
          (Gr.add_edges_from (spokes n)
             (Gr.add_nodes_from (NInt 0 :: int_nodes (range 1 (n + 1))) []
                (Gr.set_name
                   ("empty_graph("
                      ++ str_spec (Explicit (NInt 0 :: int_nodes (range 1 (n + 1))))
                      ++ ")")%string
                   (start cu h))))),
     Ok (target cu h)).
Proof.
  intros Hn H Hu. unfold star_graph.
  change (nodes_or_number (Count n)) with (Count n, int_nodes (range 0 n)).
  cbv iota beta zeta. rewrite nodes_eq by exact Hn.
  change (item (NInt 0 :: int_nodes (range 1 (n + 1))) 0) with (@ret node (NInt 0)).
  rewrite bind_ret, bind_empty_graph by exact H.
  change (snd (nodes_or_number (Explicit (NInt 0 :: int_nodes (range 1 (n + 1))))))
    with (NInt 0 :: int_nodes (range 1 (n + 1))).
  unfold is_directed. rewrite bind_read by exact H.
  rewrite directed_fill.
  assert (D : directed (start cu h) = false).
  { destruct cu; [exact Hu | reflexivity]. }
  rewrite D, bind_ret. unfold add_edges_from, set_name.
  rewrite !bind_update by exact H. reflexivity.
Qed.

Lemma spokes_int (n : Z) : spokes n = int_edges (map (pair 0) (range 1 (n + 1))).
Proof. unfold spokes, int_edges, int_nodes. now rewrite !map_map. Qed.

Lemma spokes_simple (n : Z) : simple_edges (spokes n).
Proof.
  rewrite spokes_int. apply ascending_simple.
  - apply nodup_int_edges, Injective_map_NoDup; [| apply nodup_range].
    intros x y. congruence.
  - apply ascending_int_edges, Forall_map, Forall_forall.
    intros x Hx. apply in_range in Hx. simpl. lia.
Qed.

End StarGraph.

Module CountFacts.

Import GrFacts.

Lemma cnt_unique {A : Type} (P : A -> bool) (x : A) (l : list A) :
  (forall y, In y l -> (P y = true <-> y = x)) ->
  NoDup l -> In x l -> cnt P l = 1%nat.
Proof.
  intros HP Hn. induction Hn as [| a t Ha Ht IH]; intros Hin; [destruct Hin |].
  unfold cnt. simpl. destruct Hin as [-> | Hin].
  - assert (E : P x = true) by (apply HP; [now left | reflexivity]).
    rewrite E. simpl. f_equal. apply (cnt_none P t).
    intros y Hy. destruct (P y) eqn:Ey; [| reflexivity].
    apply HP in Ey; [| now right]. subst. contradiction.
  - assert (E : P a = false).
    { destruct (P a) eqn:Ea; [| reflexivity].
      apply HP in Ea; [| now left]. subst. contradiction. }
    rewrite E. apply IH; [| exact Hin].
    intros y Hy. apply HP. now right.
Qed.

Lemma cnt_int_range (k a b : Z) :
  a <= k < b -> cnt (fun z => node_eqb (NInt k) (NInt z)) (range a b) = 1%nat.
Proof.
  intros H. apply (cnt_unique _ k).
  - intros y _. simpl. rewrite Z.eqb_eq. split; congruence.
  - apply ListFacts.nodup_range.
  - now apply ListFacts.in_range.
Qed.

Lemma has_edge_in (G : Graph) (u v : node) :
  In (u, v) (edge_list G) -> Gr.has_edge G u v = true.
Proof.
  intros H. unfold Gr.has_edge. apply existsb_exists. exists (u, v).
  split; [exact H |]. unfold Gr.joins. simpl.
  now rewrite !node_eqb_refl.
Qed.

End CountFacts.

(** Claim C4 (as amended).  For every integer [n >= 0] and an absent or
    undirected container, [star_graph(n)] returns an undirected graph on
    the [n+1] nodes [0..n] with exactly [n] edges; the center, joined to
    every other node, is node [0] (the first identifier, not the appended
    [n]): node [0] has degree [n] and each of the nodes [1..n] has
    degree 1. *)
Theorem star_graph_shape (n : Z) (create_using : option loc) (h : heap) :
  0 <= n ->
  valid create_using h ->
  undirected create_using h ->
  exists h' G,
    star_graph (Count n) create_using h = (h', Ok G)
    /\ directed (fetch h' G) = false
    /\ Gr.nodes (fetch h' G) = int_nodes (range 0 (n + 1))
    /\ Z.of_nat (Gr.number_of_nodes (fetch h' G)) = n + 1
    /\ Z.of_nat (Gr.number_of_edges (fetch h' G)) = n
    /\ Z.of_nat (Gr.degree (fetch h' G) (NInt 0)) = n
    /\ (forall k, 1 <= k <= n ->
                  Gr.degree (fetch h' G) (NInt k) = 1%nat
                  /\ Gr.has_edge (fetch h' G) (NInt 0) (NInt k) = true).
Proof.
  intros Hn Hv Hu. do 2 eexists. split; [now apply StarGraph.star_graph_run |].
  rewrite HeapFacts.fetch_place by exact Hv.
  set (vs := NInt 0 :: int_nodes (range 1 (n + 1))).
  set (g0 := Gr.add_nodes_from vs [] (Gr.set_name _ (start create_using h))).
  assert (Hvs : vs = int_nodes (range 0 (n + 1))).
  { subst vs. rewrite (ListFacts.range_cons 0) by lia. reflexivity. }
  assert (Hnodes : Gr.nodes g0 = vs).
  { apply FillFacts.nodes_fill. rewrite Hvs.
    apply ListFacts.nodup_int_nodes, ListFacts.nodup_range. }
  assert (Hedges0 : edge_list g0 = []) by apply FillFacts.edge_list_fill.
  assert (Hedges : edge_list (Gr.add_edges_from (spokes n) g0)
                   = spokes n).
  { rewrite GrFacts.edge_list_add_edges_from; [now rewrite Hedges0 |].
    right. rewrite Hedges0. apply GrFacts.simple_edges_addable, StarGraph.spokes_simple. }
  assert (Hkeep : Gr.nodes (Gr.add_edges_from (spokes n) g0) = vs).
  { rewrite GrFacts.nodes_add_edges_from_known; [exact Hnodes |].
    intros x Hx. unfold endpoints in Hx. apply in_flat_map in Hx.
    destruct Hx as [e [He Hx]]. unfold spokes in He.
    apply in_map_iff in He. destruct He as [v [<- Hv']].
    rewrite Hnodes. subst vs. simpl in Hx.
    destruct Hx as [<- | [<- | []]]; [now left | now right]. }
  assert (Hlen : Z.of_nat (length (range 1 (n + 1))) = n).
  { rewrite ListFacts.length_range. lia. }
  split; [| split; [| split; [| split; [| split]]]].
  - destruct (GrFacts.flags_add_edges_from (spokes n) g0) as (Fd & _ & _).
    simpl. rewrite Fd. unfold g0. rewrite FillFacts.directed_fill.
    destruct create_using; [exact Hu | reflexivity].
  - unfold Gr.nodes, Gr.set_name. simpl.
    fold (Gr.nodes (Gr.add_edges_from (spokes n) g0)).
    now rewrite Hkeep.
  - rewrite FillFacts.number_of_nodes_length.
    unfold Gr.nodes, Gr.set_name. simpl.
    fold (Gr.nodes (Gr.add_edges_from (spokes n) g0)).
    rewrite Hkeep. subst vs. simpl length. unfold int_nodes.
    rewrite length_map. lia.
  - unfold Gr.number_of_edges, Gr.set_name. simpl. rewrite Hedges.
    unfold spokes, int_nodes. rewrite !length_map. exact Hlen.
  - rewrite GrFacts.degree_cnt. unfold Gr.set_name. simpl. rewrite Hedges.
    rewrite (GrFacts.cnt_all _ (spokes n)),
      (GrFacts.cnt_none _ (spokes n)).
    + unfold spokes, int_nodes. rewrite !length_map. lia.
    + intros e He. unfold spokes in He. apply in_map_iff in He.
      destruct He as [v [<- Hv']]. apply ListFacts.in_int_nodes in Hv'.
      destruct Hv' as [z [-> Hz]]. apply ListFacts.in_range in Hz.
      change (node_eqb (NInt 0) (NInt z) = false).
      apply node_eqb_neq. intros E. injection E as E. lia.
    + intros e He. unfold spokes in He. apply in_map_iff in He.
      destruct He as [v [<- _]]. reflexivity.
  - intros k Hk. split.
    + rewrite GrFacts.degree_cnt. unfold Gr.set_name. simpl. rewrite Hedges.
      rewrite (GrFacts.cnt_none _ (spokes n)).
      * unfold spokes, int_nodes. rewrite !GrFacts.cnt_map. simpl.
        apply CountFacts.cnt_int_range. lia.
      * intros e He. unfold spokes in He. apply in_map_iff in He.
        destruct He as [v [<- _]].
        change (node_eqb (NInt k) (NInt 0) = false).
        apply node_eqb_neq. intros E. injection E as E. lia.
    + apply CountFacts.has_edge_in. unfold Gr.set_name. simpl. rewrite Hedges.
      unfold spokes. apply in_map.
      apply ListFacts.in_int_nodes_NInt, ListFacts.in_range. lia.
Qed.

Lemma star_graph_shape_witness :
  exists h' G,
    star_graph (Count 3) (Some 0%nat) [old_graph] = (h', Ok G)
    /\ directed (fetch h' G) = false
    /\ Gr.nodes (fetch h' G) = int_nodes (range 0 (3 + 1))
    /\ Z.of_nat (Gr.number_of_nodes (fetch h' G)) = 3 + 1
    /\ Z.of_nat (Gr.number_of_edges (fetch h' G)) = 3
    /\ Z.of_nat (Gr.degree (fetch h' G) (NInt 0)) = 3
    /\ (forall k, 1 <= k <= 3 ->
                  Gr.degree (fetch h' G) (NInt k) = 1%nat
                  /\ Gr.has_edge (fetch h' G) (NInt 0) (NInt k) = true).
Proof.
  apply (star_graph_shape 3 (Some 0%nat) [old_graph]).
  - lia.
  - simpl. lia.
  - reflexivity.
Defined.

(** Claim C4 as stated fails: in [star_graph(2)] the appended node [2] is
    not the center; it has degree 1, not 2, and is not joined to node 1.
    The node of degree 2 is node [0]. *)
Lemma star_graph_center_is_not_last :
  exists h' G,
    star_graph (Count 2) None [] = (h', Ok G)
    /\ Gr.degree (fetch h' G) (NInt 2) = 1%nat
    /\ Gr.has_edge (fetch h' G) (NInt 2) (NInt 1) = false
    /\ Gr.degree (fetch h' G) (NInt 0) = 2%nat.
Proof.
  do 2 eexists. split; [vm_compute; reflexivity |].
  split; [vm_compute; reflexivity |]. split; vm_compute; reflexivity.
Qed.

(* ================================================================== *)
(** * cycle_graph and circulant_graph *)

Module CycleGraph.

Lemma item_last_ok {A : Type} (l : list A) :
  l <> [] -> exists x, item_last l = ret x.
Proof.
  intros H. unfold item_last. destruct (rev l) as [| x t] eqn:E.
  - exfalso. apply H. rewrite <- (rev_involutive l), E. reflexivity.
  - exists x. reflexivity.
Qed.

Lemma has_edge_true (G : Graph) (u v : node) :
  Gr.has_edge G u v = true
  <-> In (u, v) (edge_list G) \/ (directed G = false /\ In (v, u) (edge_list G)).
Proof.
  unfold Gr.has_edge. rewrite existsb_exists. unfold Gr.joins. split.
  - intros [[a b] [Hin H]]. simpl in H.
    rewrite orb_true_iff, !andb_true_iff, !node_eqb_eq, negb_true_iff in H.
    destruct H as [[-> ->] | [[Hd ->] ->]]; auto.
  - intros [H | [Hd H]].
    + exists (u, v). split; [exact H |]. simpl. now rewrite !node_eqb_refl.
    + exists (v, u). split; [exact H |]. simpl.
      rewrite Hd, !node_eqb_refl. simpl. apply orb_true_r.
Qed.

Lemma has_edge_sym (G : Graph) (u v : node) :
  directed G = false -> Gr.has_edge G u v = Gr.has_edge G v u.
Proof.
  intros Hd.
  destruct (Gr.has_edge G u v) eqn:E1, (Gr.has_edge G v u) eqn:E2; try reflexivity.
  - apply has_edge_true in E1. rewrite <- E2. symmetry. apply has_edge_true. tauto.
  - apply has_edge_true in E2. rewrite <- E1. apply has_edge_true. tauto.
Qed.

Lemma included_has_edge (G H : Graph) (u v : node) :
  directed G = false -> directed H = false ->
  edges_included G H = true ->
  Gr.has_edge G u v = true -> Gr.has_edge H u v = true.
Proof.
  intros HG HH Hinc Huv. unfold edges_included in Hinc.
  rewrite forallb_forall in Hinc. apply has_edge_true in Huv.
  destruct Huv as [Hin | [_ Hin]].
  - apply (Hinc (u, v) Hin).
  - rewrite has_edge_sym by exact HH. apply (Hinc (v, u) Hin).
Qed.

Lemma same_edge_set_by_inclusion (G H : Graph) :
  directed G = false -> directed H = false ->
  edges_included G H = true -> edges_included H G = true ->
  same_edge_set G H.
Proof.
  intros HG HH H1 H2 u v.
  destruct (Gr.has_edge G u v) eqn:E1, (Gr.has_edge H u v) eqn:E2; try reflexivity.
  - rewrite <- E2. symmetry. now apply (included_has_edge G H).
  - rewrite <- E1. now apply (included_has_edge H G).
Qed.

End CycleGraph.

(** Claim C10.  [cycle_graph] applied to an empty node specification (the
    integer 0 or an empty iterable) does not return: indexing the last
    element of the empty node sequence raises [IndexError].  For every
    specification that resolves to at least one node the indexing is in
    bounds and the call returns a graph. *)
Theorem cycle_graph_empty_or_total (create_using : option loc) (h : heap) :
  (exists h', cycle_graph (Count 0) create_using h = (h', Raise IndexError))
  /\ (exists h', cycle_graph (Explicit []) create_using h = (h', Raise IndexError))
  /\ (forall n,
         snd (nodes_or_number n) = [] ->
         exists h', cycle_graph n create_using h = (h', Raise IndexError))
  /\ (forall n,
         snd (nodes_or_number n) <> [] ->
         (exists last, item_last (snd (nodes_or_number n)) = ret last)
         /\ exists h' G, cycle_graph n create_using h = (h', Ok G)).
Proof.
  assert (E : forall n, snd (nodes_or_number n) = [] ->
                        exists h', cycle_graph n create_using h = (h', Raise IndexError)).
  { intros n Hn. unfold cycle_graph.
    assert (N : nodes_or_number n = (n, [])).
    { rewrite <- Hn. destruct n; reflexivity. }
    rewrite N. destruct create_using; eexists; reflexivity. }
  split; [apply E; reflexivity |]. split; [apply E; reflexivity |].
  split; [exact E |].
  intros n Hn. destruct (CycleGraph.item_last_ok _ Hn) as [last Hlast].
  split; [exists last; exact Hlast |].
  unfold cycle_graph.
  assert (N : nodes_or_number n = (n, snd (nodes_or_number n))) by (destruct n; reflexivity).
  rewrite N. simpl snd. rewrite Hlast.
  destruct (snd (nodes_or_number n)) as [| first rest]; [congruence |].
  destruct create_using; do 2 eexists; reflexivity.
Qed.

Lemma cycle_graph_empty_or_total_witness :
  (exists h', cycle_graph (Explicit []) None [] = (h', Raise IndexError))
  /\ (exists h' G, cycle_graph (Count 3) None [] = (h', Ok G)).
Proof.
  destruct (cycle_graph_empty_or_total None []) as (_ & _ & He & Ht).
  split.
  - apply (He (Explicit [])). reflexivity.
  - apply (Ht (Count 3)). vm_compute. discriminate.
Defined.

(** Claim C7.  [circulant_graph(10, [1])] returns a graph whose edge set
    is identical to that of [cycle_graph(10)]: both calls return, the two
    graphs join exactly the same pairs of nodes, and each has 10 edges. *)
Theorem circulant_10_1_is_cycle_10 :
  exists h1 G1 h2 G2,
    circulant_graph 10 [1] None [] = (h1, Ok G1)
    /\ cycle_graph (Count 10) None [] = (h2, Ok G2)
    /\ same_edge_set (fetch h1 G1) (fetch h2 G2)
    /\ Gr.number_of_edges (fetch h1 G1) = 10%nat
    /\ Gr.number_of_edges (fetch h2 G2) = 10%nat.
Proof.
  do 4 eexists. split; [vm_compute; reflexivity |].
  split; [vm_compute; reflexivity |].
  split; [| split; reflexivity].
  apply CycleGraph.same_edge_set_by_inclusion; vm_compute; reflexivity.
Qed.

(** Claim C1, evaluated at the failing input.  [star_graph(3)] called with
    a directed container raises, but only after [empty_graph] has cleared
    the container and refilled it with the nodes [0..3]: the caller's
    object is changed.  The sibling generators [barbell_graph] and
    [ladder_graph] test the container first and leave it as it was. *)
Theorem star_graph_directed_changes_container :
  (exists h',
      star_graph (Count 3) (Some 0%nat) [old_digraph]
      = (h', Raise (NetworkXError "Directed Graph not supported"))
      /\ h' <> [old_digraph]
      /\ Gr.nodes (fetch h' 0%nat) = int_nodes [0; 1; 2; 3]
      /\ edge_list (fetch h' 0%nat) = []
      /\ name (fetch h' 0%nat) = "empty_graph([0, 1, 2, 3])"%string)
  /\ barbell_graph 3 0 (Some 0%nat) [old_digraph]
     = ([old_digraph], Raise (NetworkXError "Directed Graph not supported"))
  /\ ladder_graph 3 (Some 0%nat) [old_digraph]
     = ([old_digraph], Raise (NetworkXError "Directed Graph not supported")).
Proof.
  split; [| split; reflexivity].
  eexists. split; [vm_compute; reflexivity |].
  split; [discriminate |]. repeat split.
Qed.

(* ================================================================== *)
(** * barbell_graph *)

Module Barbell.

Import GrFacts HeapFacts FillFacts ListFacts.

Lemma nodes_complete_state (n : Z) (cu : option loc) (h : heap) :
  Gr.nodes (complete_state n cu h) = int_nodes (range 0 n).
Proof.
  unfold complete_state. set (g1 := Gr.set_name _ _).
  assert (Hnodes : Gr.nodes g1 = int_nodes (range 0 n)).
  { apply nodes_fill, nodup_int_nodes, nodup_range. }
  destruct (1 <? len (int_nodes (range 0 n))); [| exact Hnodes].
  rewrite nodes_add_edges_from_known; [exact Hnodes |].
  intros x Hx. unfold endpoints in Hx. apply in_flat_map in Hx.
  destruct Hx as [[u v] [He Hx]]. rewrite Hnodes.
  assert (In u (int_nodes (range 0 n)) /\ In v (int_nodes (range 0 n))) as [Hu Hv].
  { destruct (directed g1).
    - now apply in_permutations2.
    - now apply in_combinations2. }
  simpl in Hx. destruct Hx as [<- | [<- | []]]; assumption.
Qed.

Lemma directed_complete_state (n : Z) (cu : option loc) (h : heap) :
  directed (complete_state n cu h) = directed (start cu h).
Proof.
  unfold complete_state. set (g1 := Gr.set_name _ _).
  assert (D : directed g1 = directed (start cu h)) by apply directed_fill.
  destruct (1 <? len (int_nodes (range 0 n))); [| exact D].
  destruct (flags_add_edges_from
              (if directed g1 then permutations2 (int_nodes (range 0 n))
               else combinations2 (int_nodes (range 0 n))) g1) as (F & _).
  now rewrite F.
Qed.

Lemma reject_directed_ok {B : Type} (cu : option loc) (h : heap) (k : unit -> M B) :
  undirected cu h -> bind (reject_directed cu) k h = k tt h.
Proof.
  destruct cu as [l |]; simpl; intros H; [| reflexivity].
  unfold bind, is_directed, read. now rewrite H.
Qed.

Lemma in_pairwise {A : Type} (l : list A) (a b : A) :
  In (a, b) (pairwise l) -> In a l /\ In b l.
Proof.
  unfold pairwise. intros H. split.
  - eapply in_combine_l, H.
  - apply in_combine_r in H. destruct l; [destruct H | now right].
Qed.

Lemma barbell_graph_run (m1 m2 : Z) (cu : option loc) (h : heap) :
  2 <= m1 -> 0 <= m2 -> valid cu h -> undirected cu h ->
  barbell_graph m1 m2 cu h
  = (place cu h (barbell_state m1 m2 cu h), Ok (target cu h)).
Proof.
  intros H1 H2 Hv Hu. unfold barbell_graph, barbell_state.
  rewrite reject_directed_ok by exact Hu.
  replace (m1 <? 2) with false by (symmetry; apply Z.ltb_ge; lia).
  replace (m2 <? 0) with false by (symmetry; apply Z.ltb_ge; lia).
  rewrite !bind_ret. unfold bind at 1.
  rewrite CompleteGraph.complete_graph_run by exact Hv.
  unfold set_name, add_nodes_from, add_edges_from, add_edge, when.
  rewrite !bind_update by exact Hv. fold (right_bell m1 m2).
  destruct (1 <? m2); [rewrite bind_update by exact Hv | rewrite bind_ret];
    rewrite !bind_update by exact Hv;
    (destruct (0 <? m2); [rewrite bind_update by exact Hv | rewrite bind_ret]);
    reflexivity.
Qed.

(** Every identifier that the construction touches is a canonical one. *)
Lemma in_right_bell (m1 m2 : Z) (x : node) :
  In x (endpoints (right_bell m1 m2)) ->
  exists k, x = NInt k /\ m1 + m2 <= k < 2 * m1 + m2.
Proof.
  unfold endpoints, right_bell, int_edges. rewrite in_flat_map.
  intros [e [He Hx]]. apply in_map_iff in He. destruct He as [[u v] [<- He]].
  apply in_flat_map in He. destruct He as [u' [Hu Hv]].
  apply in_map_iff in Hv. destruct Hv as [v' [E Hv]]. injection E as -> ->.
  apply in_range in Hu, Hv. simpl in Hx.
  destruct Hx as [<- | [<- | []]]; eexists; split; try reflexivity; lia.
Qed.

Lemma right_bell_covers (m1 m2 k : Z) :
  2 <= m1 -> m1 + m2 <= k < 2 * m1 + m2 ->
  In (NInt k) (endpoints (right_bell m1 m2)).
Proof.
  intros H1 Hk. unfold endpoints, right_bell. apply in_flat_map.
  destruct (Z.eq_dec k (m1 + m2)) as [-> | Hne].
  - exists (NInt (m1 + m2), NInt (m1 + m2 + 1)). split; [| now left].
    apply in_int_edges, in_flat_map. exists (m1 + m2). split.
    + apply in_range. lia.
    + apply in_map, in_range. lia.
  - exists (NInt (m1 + m2), NInt k). split; [| right; now left].
    apply in_int_edges, in_flat_map. exists (m1 + m2). split.
    + apply in_range. lia.
    + apply in_map, in_range. lia.
Qed.

Lemma in_path_edges (a b : Z) (x : node) :
  In x (endpoints (int_edges (pairwise (range a b)))) ->
  exists k, x = NInt k /\ a <= k < b.
Proof.
  unfold endpoints, int_edges. rewrite in_flat_map.
  intros [e [He Hx]]. apply in_map_iff in He. destruct He as [[u v] [<- He]].
  apply in_pairwise in He. destruct He as [Hu Hv]. apply in_range in Hu, Hv.
  simpl in Hx. destruct Hx as [<- | [<- | []]]; eexists; split; try reflexivity; lia.
Qed.

Lemma in_nodes_barbell (m1 m2 : Z) (cu : option loc) (h : heap) (x : node) :
  2 <= m1 -> 0 <= m2 ->
  In x (Gr.nodes (barbell_state m1 m2 cu h))
  <-> exists k, x = NInt k /\ 0 <= k < 2 * m1 + m2.
Proof.
  intros H1 H2. unfold barbell_state.
  set (gK := Gr.set_name _ (complete_state m1 cu h)).
  assert (HK : forall y, In y (Gr.nodes gK) <-> exists k, y = NInt k /\ 0 <= k < m1).
  { intros y. unfold gK, Gr.nodes, Gr.set_name. simpl.
    fold (Gr.nodes (complete_state m1 cu h)). rewrite nodes_complete_state.
    rewrite in_int_nodes. split; intros [k [E Hk]]; exists k; (split; [exact E |]).
    - now apply in_range in Hk.
    - now apply in_range. }
  set (g1 := Gr.add_nodes_from _ [] gK).
  assert (H1' : forall y, In y (Gr.nodes g1)
                          <-> exists k, y = NInt k /\ 0 <= k < Z.max m1 (m1 + m2 - 1)).
  { intros y. unfold g1. rewrite in_nodes_add_nodes_from, HK, in_int_nodes. split.
    - intros [[k [E Hk]] | [k [E Hk]]]; exists k; (split; [exact E |]).
      + lia.
      + apply in_range in Hk. lia.
    - intros [k [E Hk]]. destruct (Z_lt_dec k m1).
      + left. exists k. split; [exact E | lia].
      + right. exists k. split; [exact E | apply in_range; lia]. }
  set (g2 := if 1 <? m2 then _ else g1).
  assert (H2' : forall y, In y (Gr.nodes g2)
                          <-> exists k, y = NInt k
                                        /\ 0 <= k < (if 1 <? m2 then m1 + m2 else m1)).
  { intros y. unfold g2. destruct (1 <? m2) eqn:E2.
    - apply Z.ltb_lt in E2. rewrite in_nodes_add_edges_from, H1'. split.
      + intros [[k [E Hk]] | Hy].
        * exists k. split; [exact E | lia].
        * apply in_path_edges in Hy. destruct Hy as [k [E Hk]].
          exists k. split; [exact E | lia].
      + intros [k [E Hk]]. destruct (Z_lt_dec k (m1 + m2 - 1)).
        * left. exists k. split; [exact E | lia].
        * right. subst y. unfold endpoints. apply in_flat_map.
          exists (NInt (k - 1), NInt k). split; [| right; now left].
          apply in_int_edges. unfold pairwise.
          replace (range m1 (m1 + m2))
            with (range m1 (k - 1) ++ (k - 1) :: k :: []).
          2:{ replace (m1 + m2) with (k + 1) by lia.
              rewrite (range_snoc m1 k) by lia.
              replace (range m1 k) with (range m1 (k - 1 + 1)) by (f_equal; lia).
              rewrite (range_snoc m1 (k - 1)) by lia.
              rewrite <- app_assoc. reflexivity. }
          clear. induction (range m1 (k - 1)) as [| a t IH]; simpl; [now left |].
          destruct t; simpl in *; auto.
    - apply Z.ltb_ge in E2. rewrite H1'.
      split; intros [k [E Hk]]; exists k; (split; [exact E | lia]). }
  set (g3 := Gr.add_edge _ _ (Gr.add_edges_from _ g2)).
  assert (H3' : forall y, In y (Gr.nodes g3)
                          <-> exists k, y = NInt k
                                        /\ (0 <= k < (if 1 <? m2 then m1 + m2 else m1)
                                            \/ k = m1
                                            \/ m1 + m2 <= k < 2 * m1 + m2)).
  { intros y. unfold g3. rewrite in_nodes_add_edge, in_nodes_add_edges_from, H2'.
    split.
    - intros [[[k [E Hk]] | Hy] | [-> | ->]].
      + exists k. auto.
      + apply in_right_bell in Hy. destruct Hy as [k [E Hk]]. exists k. auto.
      + exists (m1 - 1). split; [reflexivity |]. left. destruct (1 <? m2); lia.
      + exists m1. auto.
    - intros [k [E [Hk | [-> | Hk]]]].
      + left. left. exists k. auto.
      + auto.
      + left. right. subst y. now apply right_bell_covers. }
  destruct (0 <? m2) eqn:E0.
  - apply Z.ltb_lt in E0. rewrite in_nodes_add_edge, H3'. split.
    + intros [[k [E Hk]] | [-> | ->]].
      * exists k. split; [exact E |]. destruct (1 <? m2); lia.
      * eexists. split; [reflexivity | lia].
      * eexists. split; [reflexivity | lia].
    + intros [k [E Hk]]. destruct (Z.eq_dec k (m1 + m2 - 1)) as [-> | Hne].
      * right. left. exact E.
      * left. exists k. split; [exact E |].
        destruct (1 <? m2) eqn:E2; [apply Z.ltb_lt in E2 | apply Z.ltb_ge in E2]; lia.
  - apply Z.ltb_ge in E0. rewrite H3'. replace (1 <? m2) with false
      by (symmetry; apply Z.ltb_ge; lia).
    split; intros [k [E Hk]]; exists k; (split; [exact E | lia]).
Qed.

Lemma nodup_nodes_barbell (m1 m2 : Z) (cu : option loc) (h : heap) :
  NoDup (Gr.nodes (barbell_state m1 m2 cu h)).
Proof.
  unfold barbell_state.
  assert (HK : NoDup (Gr.nodes (Gr.set_name
            ("barbell_graph(" ++ str_int m1 ++ "," ++ str_int m2 ++ ")")%string
            (complete_state m1 cu h)))).
  { unfold Gr.nodes, Gr.set_name. simpl.
    fold (Gr.nodes (complete_state m1 cu h)). rewrite nodes_complete_state.
    apply nodup_int_nodes, nodup_range. }
  cbv zeta.
  destruct (0 <? m2), (1 <? m2);
    repeat first [ apply nodup_nodes_add_edge
                 | apply nodup_nodes_add_edges_from
                 | apply nodup_nodes_add_nodes_from ];
    exact HK.
Qed.

End Barbell.

(** Claim C5.  For all integers [m1 >= 2] and [m2 >= 0] and an absent or
    undirected container, [barbell_graph(m1, m2)] returns a graph whose
    node set is exactly the set of canonical identifiers
    [0 .. 2*m1+m2-1]; [barbell_graph(3, 0)] has 6 nodes and 7 edges: the
    triangles on [0, 1, 2] and on [3, 4, 5] and the bridge [(2, 3)]. *)
Theorem barbell_graph_nodes :
  (forall (m1 m2 : Z) (create_using : option loc) (h : heap),
      2 <= m1 -> 0 <= m2 ->
      valid create_using h -> undirected create_using h ->
      exists h' G,
        barbell_graph m1 m2 create_using h = (h', Ok G)
        /\ NoDup (Gr.nodes (fetch h' G))
        /\ (forall x, In x (Gr.nodes (fetch h' G))
                      <-> exists k, x = NInt k /\ 0 <= k < 2 * m1 + m2)
        /\ Permutation (Gr.nodes (fetch h' G))
                       (int_nodes (range 0 (2 * m1 + m2)))
        /\ Z.of_nat (Gr.number_of_nodes (fetch h' G)) = 2 * m1 + m2)
  /\ (exists h' G,
         barbell_graph 3 0 None [] = (h', Ok G)
         /\ Gr.number_of_nodes (fetch h' G) = 6%nat
         /\ Gr.number_of_edges (fetch h' G) = 7%nat
         /\ edge_list (fetch h' G)
            = int_edges [(0, 1); (0, 2); (1, 2); (3, 4); (3, 5); (4, 5); (2, 3)]).
Proof.
  split.
  - intros m1 m2 cu h H1 H2 Hv Hu. do 2 eexists.
    split; [now apply Barbell.barbell_graph_run |].
    rewrite HeapFacts.fetch_place by exact Hv.
    pose proof (Barbell.nodup_nodes_barbell m1 m2 cu h) as Hn.
    pose proof (fun x => Barbell.in_nodes_barbell m1 m2 cu h x H1 H2) as Hin.
    assert (Hp : Permutation (Gr.nodes (barbell_state m1 m2 cu h))
                             (int_nodes (range 0 (2 * m1 + m2)))).
    { apply NoDup_Permutation; [exact Hn | |].
      - apply ListFacts.nodup_int_nodes, ListFacts.nodup_range.
      - intros x. rewrite Hin, ListFacts.in_int_nodes.
        split; intros [k [E Hk]]; exists k; (split; [exact E |]).
        + now apply ListFacts.in_range.
        + now apply ListFacts.in_range in Hk. }
    repeat split; try assumption; try (now apply Hin).
    rewrite FillFacts.number_of_nodes_length, (Permutation_length Hp).
    unfold int_nodes. rewrite length_map, ListFacts.length_range. lia.
  - do 2 eexists. split; [vm_compute; reflexivity |]. repeat split.
Qed.

Lemma barbell_graph_nodes_witness :
  exists h' G,
    barbell_graph 2 1 (Some 0%nat) [old_graph] = (h', Ok G)
    /\ NoDup (Gr.nodes (fetch h' G))
    /\ (forall x, In x (Gr.nodes (fetch h' G))
                  <-> exists k, x = NInt k /\ 0 <= k < 2 * 2 + 1)
    /\ Permutation (Gr.nodes (fetch h' G)) (int_nodes (range 0 (2 * 2 + 1)))
    /\ Z.of_nat (Gr.number_of_nodes (fetch h' G)) = 2 * 2 + 1.
Proof.
  apply (proj1 barbell_graph_nodes 2 1 (Some 0%nat) [old_graph]).
  - lia.
  - lia.
  - simpl. lia.
  - reflexivity.
Defined.

(* ================================================================== *)
(** * complete_multipartite_graph and turan_graph *)

Module Multipartite.

Import GrFacts HeapFacts FillFacts ListFacts.

Lemma product_list_prod {A B : Type} (l1 : list A) (l2 : list B) :
  product l1 l2 = list_prod l1 l2.
Proof. symmetry. apply list_prod_as_flat_map. Qed.

Lemma in_product {A B : Type} (l1 : list A) (l2 : list B) (x : A) (y : B) :
  In (x, y) (product l1 l2) <-> In x l1 /\ In y l2.
Proof. rewrite product_list_prod. apply in_prod_iff. Qed.

Lemma length_product {A B : Type} (l1 : list A) (l2 : list B) :
  length (product l1 l2) = (length l1 * length l2)%nat.
Proof. rewrite product_list_prod. apply length_prod. Qed.

Lemma nodup_product {A B : Type} (l1 : list A) (l2 : list B) :
  NoDup l1 -> NoDup l2 -> NoDup (product l1 l2).
Proof.
  intros H1 H2. unfold product. induction H1 as [| a t Ha Ht IH]; simpl; [constructor |].
  apply NoDup_app.
  - apply Injective_map_NoDup; [| exact H2]. intros x y. congruence.
  - exact IH.
  - intros [x y] Hx Hy. apply in_map_iff in Hx. destruct Hx as [z [E _]].
    injection E as -> _. apply (in_product t l2) in Hy. tauto.
Qed.

Lemma product_int (a b : list Z) :
  product (int_nodes a) (int_nodes b) = int_edges (product a b).
Proof.
  unfold product, int_edges, int_nodes. rewrite flat_map_concat_map, map_map.
  rewrite flat_map_concat_map, concat_map, map_map. f_equal.
  apply map_ext. intros x. rewrite !map_map. reflexivity.
Qed.

(** ** Pairs across the blocks of an increasing partition *)

Lemma cross_cons {A : Type} (B : list A) (Bs : list (list A)) :
  cross (B :: Bs) = flat_map (product B) Bs ++ cross Bs.
Proof.
  unfold cross. simpl. rewrite flat_map_app. f_equal.
  rewrite flat_map_concat_map, map_map, <- flat_map_concat_map. reflexivity.
Qed.

Lemma in_flat_product {A : Type} (B : list A) (Bs : list (list A)) (x y : A) :
  In (x, y) (flat_map (product B) Bs) <-> In x B /\ In y (concat Bs).
Proof.
  rewrite in_flat_map, in_concat. split.
  - intros [B' [HB H]]. apply in_product in H. destruct H. split; eauto.
  - intros [Hx [B' [HB Hy]]]. exists B'. split; [exact HB |].
    apply in_product. auto.
Qed.

Lemma in_cross {A : Type} (Bs : list (list A)) (x y : A) :
  In (x, y) (cross Bs) -> In x (concat Bs) /\ In y (concat Bs).
Proof.
  induction Bs as [| B Bs IH]; [intros [] |].
  rewrite cross_cons, in_app_iff, in_flat_product. simpl. rewrite !in_app_iff.
  intros [[Hx Hy] | H]; [auto |]. apply IH in H. tauto.
Qed.

Lemma sorted_app_inv (l1 l2 : list Z) :
  StronglySorted Z.lt (l1 ++ l2) ->
  StronglySorted Z.lt l1 /\ StronglySorted Z.lt l2
  /\ forall x y, In x l1 -> In y l2 -> x < y.
Proof.
  induction l1 as [| a t IH]; simpl; intros H.
  - repeat split; [constructor | exact H | intros x y []].
  - inversion H as [| ? ? Hs Ha]; subst. apply IH in Hs.
    destruct Hs as (H1 & H2 & H3). rewrite Forall_app in Ha. destruct Ha as [Ha1 Ha2].
    repeat split; [now constructor | exact H2 |].
    intros x y [<- | Hx] Hy; [| now apply H3].
    rewrite Forall_forall in Ha2. now apply Ha2.
Qed.

Lemma cross_ascending (Bs : list (list Z)) :
  StronglySorted Z.lt (concat Bs) -> Forall (fun p => fst p < snd p) (cross Bs).
Proof.
  induction Bs as [| B Bs IH]; simpl; intros H; [constructor |].
  apply sorted_app_inv in H. destruct H as (_ & H2 & H3).
  rewrite cross_cons. apply Forall_app. split; [| now apply IH].
  apply Forall_forall. intros [x y] Hxy. apply in_flat_product in Hxy.
  simpl. now apply H3.
Qed.

Lemma nodup_app_disjoint {A : Type} (l1 l2 : list A) (x : A) :
  NoDup (l1 ++ l2) -> In x l1 -> In x l2 -> False.
Proof.
  induction l1 as [| a t IH]; simpl; intros H H1 H2; [destruct H1 |].
  inversion H as [| ? ? Ha Ht]; subst. destruct H1 as [-> | H1].
  - apply Ha. apply in_app_iff. now right.
  - now apply IH.
Qed.

Lemma nodup_flat_product (B : list Z) (Bs : list (list Z)) :
  NoDup B -> NoDup (concat Bs) -> NoDup (flat_map (product B) Bs).
Proof.
  intros HB. induction Bs as [| B' Bs IH]; simpl; intros H; [constructor |].
  apply NoDup_app.
  - apply nodup_product; [exact HB | eapply NoDup_app_remove_r, H].
  - eapply IH, NoDup_app_remove_l, H.
  - intros [x y] H1 H2. apply in_product in H1. apply in_flat_product in H2.
    apply (nodup_app_disjoint _ _ y H); tauto.
Qed.

Lemma cross_nodup (Bs : list (list Z)) :
  NoDup (concat Bs) -> NoDup (cross Bs).
Proof.
  induction Bs as [| B Bs IH]; simpl; intros H; [constructor |].
  rewrite cross_cons. apply NoDup_app.
  - apply nodup_flat_product; [eapply NoDup_app_remove_r | eapply NoDup_app_remove_l]; exact H.
  - eapply IH, NoDup_app_remove_l, H.
  - intros [x y] H1 H2. apply in_flat_product in H1. apply in_cross in H2.
    apply (nodup_app_disjoint _ _ x H); tauto.
Qed.

Lemma length_flat_product {A : Type} (B : list A) (Bs : list (list A)) :
  Z.of_nat (length (flat_map (product B) Bs))
  = Z.of_nat (length B) * sum (map (fun b => Z.of_nat (length b)) Bs).
Proof.
  induction Bs as [| B' Bs IH]; simpl; [lia |].
  rewrite length_app, length_product, Nat2Z.inj_add, Nat2Z.inj_mul, IH.
  unfold sum. simpl. lia.
Qed.

(** Twice the number of cross pairs, plus the squares of the block sizes,
    is the square of the total size. *)
Lemma length_cross {A : Type} (Bs : list (list A)) :
  2 * Z.of_nat (length (cross Bs))
  + sum_squares (map (fun b => Z.of_nat (length b)) Bs)
  = sum (map (fun b => Z.of_nat (length b)) Bs)
    * sum (map (fun b => Z.of_nat (length b)) Bs).
Proof.
  induction Bs as [| B Bs IH]; [reflexivity |].
  rewrite cross_cons, length_app, Nat2Z.inj_add, length_flat_product.
  simpl map. unfold sum, sum_squares in *. simpl fold_right. lia.
Qed.

End Multipartite.

Module Turan.

Import GrFacts HeapFacts FillFacts ListFacts Multipartite.

Lemma range_app (a b c : Z) :
  a <= b -> b <= c -> range a b ++ range b c = range a c.
Proof.
  intros H1 H2. remember (Z.to_nat (b - a)) as k eqn:Hk. revert a H1 Hk.
  induction k as [| k IH]; intros a H1 Hk.
  - assert (a = b) as -> by lia. now rewrite (range_nil b b) by lia.
  - rewrite (range_cons a b), (range_cons a c) by lia. simpl. f_equal.
    apply IH; lia.
Qed.

Lemma blocks_from_nil (acc : Z) : blocks_from acc [] = [].
Proof. reflexivity. Qed.

Lemma blocks_from_cons (acc x : Z) (t : list Z) :
  blocks_from acc (x :: t) = range acc (acc + x) :: blocks_from (acc + x) t.
Proof. reflexivity. Qed.

Lemma concat_blocks_from (sizes : list Z) (acc : Z) :
  Forall (fun x => 0 <= x) sizes ->
  concat (blocks_from acc sizes) = range acc (acc + sum sizes).
Proof.
  intros H. revert acc. induction H as [| x t Hx Ht IH]; intros acc.
  - rewrite blocks_from_nil. simpl. rewrite range_nil; [reflexivity | unfold sum; simpl; lia].
  - rewrite blocks_from_cons. simpl concat. rewrite IH.
    assert (0 <= sum t).
    { clear -Ht. induction Ht; unfold sum in *; simpl; lia. }
    rewrite range_app by lia. f_equal. unfold sum. simpl. lia.
Qed.

Lemma sizes_blocks_from (sizes : list Z) (acc : Z) :
  Forall (fun x => 0 <= x) sizes ->
  map (fun b => Z.of_nat (length b)) (blocks_from acc sizes) = sizes.
Proof.
  intros H. revert acc. induction H as [| x t Hx Ht IH]; intros acc; [reflexivity |].
  rewrite blocks_from_cons. simpl map. rewrite IH, length_range. f_equal. lia.
Qed.

Lemma all_counts_map_Count (sizes : list Z) :
  all_counts (map Count sizes) = Some sizes.
Proof.
  induction sizes as [| x t IH]; simpl; [reflexivity | now rewrite IH].
Qed.

Lemma int_blocks_eq (sizes : list Z) :
  map (fun se => Explicit (int_nodes (range (fst se) (snd se))))
      (pairwise (accumulate (0 :: sizes)))
  = map (fun B => Explicit (int_nodes B)) (blocks_from 0 sizes).
Proof. unfold blocks_from. rewrite map_map. reflexivity. Qed.

(** A loop whose every pass updates the container. *)
Lemma bind_for_update {A B : Type} (cu : option loc) (h : heap) (l : list A)
      (body : A -> M unit) (f : A -> Graph -> Graph) (k : unit -> M B) (g : Graph) :
  valid cu h ->
  (forall x, In x l -> body x = update (target cu h) (f x)) ->
  bind (for_ l body) k (place cu h g)
  = k tt (place cu h (fold_left (fun g x => f x g) l g)).
Proof.
  intros Hv. revert g. induction l as [| x t IH]; intros g Hb; simpl.
  - reflexivity.
  - rewrite bind_bind, (Hb x) by now left.
    rewrite bind_update by exact Hv. apply IH.
    intros y Hy. apply Hb. now right.
Qed.

Lemma in_enumerate_from {A : Type} (l : list A) (i : Z) (ib : Z * A) :
  In ib (enumerate_from i l) -> In (snd ib) l.
Proof.
  revert i. induction l as [| x t IH]; intros i; simpl; [tauto |].
  intros [<- | H]; [now left | right; eapply IH, H].
Qed.

Lemma snd_enumerate_from {A : Type} (l : list A) (i : Z) :
  map snd (enumerate_from i l) = l.
Proof.
  revert i. induction l as [| x t IH]; intros i; simpl; [reflexivity | now rewrite IH].
Qed.

Lemma complete_multipartite_graph_run (x : Z) (t : list Z) (h : heap) :
  complete_multipartite_graph (map Count (x :: t)) h
  = (h ++ [multipartite_state (x :: t)], Ok (length h)).
Proof.
  unfold complete_multipartite_graph, multipartite_state.
  unfold new_Graph. unfold bind at 1, alloc.
  change (h ++ [Gr.blank false false]) with (place None h (Gr.blank false false)).
  change (length h) with (target None h).
  unfold set_name. rewrite bind_update by exact I.
  change (map Count (x :: t)) with (Count x :: map Count t). cbv iota.
  change (Count x :: map Count t) with (map Count (x :: t)).
  rewrite all_counts_map_Count, int_blocks_eq.
  rewrite (bind_for_update None h _ _
             (fun ib => Gr.add_nodes_from (block_items (snd ib))
                                          [("block"%string, fst ib)])) by
    (try exact I; intros ib Hib; apply in_enumerate_from in Hib;
     apply in_map_iff in Hib; destruct Hib as [B [E _]]; rewrite <- E; reflexivity).
  rewrite (bind_for_update None h _ _
             (fun bb => Gr.add_edges_from
                          (product (block_items (fst bb)) (block_items (snd bb)))))
    by (try exact I; intros; reflexivity).
  reflexivity.
Qed.

(** ** The graph built from integer block sizes *)

Lemma add_edges_from_fold {A : Type} (F : A -> list (node * node)) (l : list A)
      (g : Graph) :
  fold_left (fun g x => Gr.add_edges_from (F x) g) l g
  = Gr.add_edges_from (flat_map F l) g.
Proof.
  revert g. induction l as [| x t IH]; intros g; simpl; [reflexivity |].
  rewrite IH. unfold Gr.add_edges_from. now rewrite fold_left_app.
Qed.

Lemma nodes_fold_blocks (ibs : list (Z * NodeSpec)) (g : Graph) :
  NoDup (Gr.nodes g ++ concat (map (fun ib => block_items (snd ib)) ibs)) ->
  let g' := fold_left
              (fun g ib => Gr.add_nodes_from (block_items (snd ib))
                                             [("block"%string, fst ib)] g) ibs g in
  Gr.nodes g' = Gr.nodes g ++ concat (map (fun ib => block_items (snd ib)) ibs)
  /\ edge_list g' = edge_list g
  /\ directed g' = directed g /\ multigraph g' = multigraph g.
Proof.
  revert g. induction ibs as [| ib t IH]; intros g H; simpl.
  - rewrite app_nil_r. auto.
  - simpl in H. rewrite app_assoc in H.
    assert (E : Gr.nodes (Gr.add_nodes_from (block_items (snd ib))
                                            [("block"%string, fst ib)] g)
                = Gr.nodes g ++ block_items (snd ib)).
    { apply nodes_add_nodes_from_fresh. eapply NoDup_app_remove_r, H. }
    rewrite <- E in H. destruct (IH _ H) as (K1 & K2 & K3 & K4).
    rewrite K1, K2, K3, K4, E, edge_list_add_nodes_from, <- app_assoc.
    destruct (flags_add_nodes_from (block_items (snd ib))
                                   [("block"%string, fst ib)] g) as (F1 & F2 & _).
    auto.
Qed.

Lemma cross_edges (Bs : list (list Z)) :
  flat_map (fun bb => product (block_items (fst bb)) (block_items (snd bb)))
           (combinations2 (map (fun B => Explicit (int_nodes B)) Bs))
  = int_edges (cross Bs).
Proof.
  rewrite combinations2_map. unfold cross, int_edges.
  rewrite !flat_map_concat_map, concat_map, !map_map. f_equal.
  apply map_ext. intros [a b]. simpl. apply product_int.
Qed.

Lemma multipartite_state_facts (sizes : list Z) :
  Forall (fun x => 0 <= x) sizes ->
  Gr.nodes (multipartite_state sizes) = int_nodes (range 0 (sum sizes))
  /\ edge_list (multipartite_state sizes) = int_edges (cross (blocks_from 0 sizes))
  /\ directed (multipartite_state sizes) = false
  /\ multigraph (multipartite_state sizes) = false.
Proof.
  intros Hs. unfold multipartite_state. cbv zeta.
  set (g0 := Gr.set_name _ (Gr.blank false false)).
  set (Bs := blocks_from 0 sizes).
  assert (HBs : concat Bs = range 0 (sum sizes)).
  { subst Bs. now rewrite concat_blocks_from. }
  assert (Hc : concat (map (fun ib : Z * NodeSpec => block_items (snd ib))
                           (enumerate (map (fun B => Explicit (int_nodes B)) Bs)))
               = int_nodes (range 0 (sum sizes))).
  { rewrite <- (map_map snd block_items). unfold enumerate.
    rewrite snd_enumerate_from, map_map. simpl.
    unfold int_nodes. rewrite <- concat_map. now rewrite HBs. }
  destruct (nodes_fold_blocks
              (enumerate (map (fun B => Explicit (int_nodes B)) Bs)) g0)
    as (N1 & N2 & N3 & N4).
  { rewrite Hc. simpl. apply nodup_int_nodes, nodup_range. }
  rewrite Hc in N1. simpl in N1, N2, N3, N4.
  rewrite add_edges_from_fold, cross_edges.
  set (g1 := fold_left _ (enumerate _) g0) in *.
  destruct (flags_add_edges_from (int_edges (cross Bs)) g1) as (F1 & F2 & _).
  rewrite F1, F2, N3, N4.
  split; [| split; [| split; reflexivity]].
  - rewrite nodes_add_edges_from_known; [exact N1 |].
    intros x Hx. unfold endpoints in Hx. apply in_flat_map in Hx.
    destruct Hx as [e [He Hx]]. unfold int_edges in He.
    apply in_map_iff in He. destruct He as [[a b] [<- He]].
    apply in_cross in He. rewrite HBs in He. rewrite N1. simpl in Hx.
    destruct Hx as [<- | [<- | []]]; apply in_int_nodes_NInt; tauto.
  - rewrite edge_list_add_edges_from; [now rewrite N2 |].
    right. rewrite N2. apply simple_edges_addable, ascending_simple.
    + apply nodup_int_edges, cross_nodup. rewrite HBs. apply nodup_range.
    + apply ascending_int_edges, cross_ascending. rewrite HBs. apply range_sorted.
Qed.

(** In a graph built from non-negative integer block sizes, twice the
    number of edges plus the squares of the sizes is the square of the
    number of nodes. *)
Lemma multipartite_edges (sizes : list Z) :
  Forall (fun x => 0 <= x) sizes ->
  2 * Z.of_nat (Gr.number_of_edges (multipartite_state sizes))
  + sum_squares sizes = sum sizes * sum sizes.
Proof.
  intros Hs. destruct (multipartite_state_facts sizes Hs) as (_ & E & _).
  unfold Gr.number_of_edges. rewrite E. unfold int_edges. rewrite length_map.
  pose proof (length_cross (blocks_from 0 sizes)) as L.
  now rewrite sizes_blocks_from in L.
Qed.

(** ** The partition sizes of the Turan graph *)

Lemma sum_app (l1 l2 : list Z) : sum (l1 ++ l2) = sum l1 + sum l2.
Proof. unfold sum. induction l1; simpl; lia. Qed.

Lemma sum_squares_app (l1 l2 : list Z) :
  sum_squares (l1 ++ l2) = sum_squares l1 + sum_squares l2.
Proof. unfold sum_squares. induction l1; simpl; lia. Qed.

Lemma sum_repeat (x : Z) (k : nat) : sum (repeat x k) = Z.of_nat k * x.
Proof. unfold sum. induction k; simpl repeat; simpl fold_right; lia. Qed.

Lemma sum_squares_repeat (x : Z) (k : nat) :
  sum_squares (repeat x k) = Z.of_nat k * (x * x).
Proof. unfold sum_squares. induction k; simpl repeat; simpl fold_right; lia. Qed.

Lemma turan_partitions_facts (n r : Z) :
  1 <= r <= n ->
  Z.of_nat (length (turan_partitions n r)) = r
  /\ sum (turan_partitions n r) = n
  /\ sum_squares (turan_partitions n r)
     = (r - n mod r) * (n / r * (n / r)) + n mod r * ((n / r + 1) * (n / r + 1))
  /\ Forall (fun x => x = n / r \/ x = n / r + 1) (turan_partitions n r).
Proof.
  intros H. unfold turan_partitions.
  pose proof (Z.mod_pos_bound n r ltac:(lia)) as Hm.
  pose proof (Z.div_mod n r ltac:(lia)) as Hd.
  rewrite length_app, !repeat_length, sum_app, !sum_repeat,
    sum_squares_app, !sum_squares_repeat.
  rewrite Nat2Z.inj_add, !Z2Nat.id by lia.
  split; [lia |]. split; [nia |]. split; [reflexivity |].
  apply Forall_app. split; apply Forall_forall; intros x Hx;
    apply repeat_spec in Hx; auto.
Qed.

Lemma turan_graph_run (n r : Z) (h : heap) :
  1 <= r <= n ->
  turan_graph n r h
  = (h ++ [Gr.set_name ("turan_graph(" ++ str_int n ++ "," ++ str_int r ++ ")")%string
             (multipartite_state (turan_partitions n r))],
     Ok (length h)).
Proof.
  intros H. unfold turan_graph.
  replace ((1 <=? r) && (r <=? n)) with true
    by (symmetry; apply andb_true_iff; split; apply Z.leb_le; lia).
  simpl negb. cbv iota. rewrite bind_ret. fold (turan_partitions n r).
  destruct (turan_partitions n r) as [| x t] eqn:E.
  { destruct (turan_partitions_facts n r H) as (L & _). rewrite E in L. simpl in L. lia. }
  unfold bind at 1. rewrite complete_multipartite_graph_run.
  change (h ++ [multipartite_state (x :: t)])
    with (place None h (multipartite_state (x :: t))).
  change (length h) with (target None h).
  unfold set_name. rewrite bind_update by exact I. reflexivity.
Qed.

End Turan.

(** Claim C3 (as amended).  For all integers [1 <= r <= n],
    [turan_graph(n, r)] is the graph that [complete_multipartite_graph]
    builds from [r] block sizes that differ by at most 1 and sum to [n],
    renamed; it has [n] nodes and exactly
    [((r-1)*n^2 - s*(r-s)) / (2*r)] edges, where [s = n mod r].  That is at
    most [floor((r-1)*n^2/(2r))], and equal to it whenever
    [s*(r-s) < 2*r]. *)
Theorem turan_graph_edges (n r : Z) (h : heap) :
  1 <= r <= n ->
  Z.of_nat (length (turan_partitions n r)) = r
  /\ sum (turan_partitions n r) = n
  /\ (forall a b, In a (turan_partitions n r) -> In b (turan_partitions n r) ->
                  Z.abs (a - b) <= 1)
  /\ exists h1 h' G,
      complete_multipartite_graph (map Count (turan_partitions n r)) h = (h1, Ok G)
      /\ turan_graph n r h = (h', Ok G)
      /\ h' = store h1 G
                (Gr.set_name ("turan_graph(" ++ str_int n ++ "," ++ str_int r ++ ")")%string
                             (fetch h1 G))
      /\ Z.of_nat (Gr.number_of_nodes (fetch h' G)) = n
      /\ 2 * r * Z.of_nat (Gr.number_of_edges (fetch h' G))
         = (r - 1) * (n * n) - n mod r * (r - n mod r)
      /\ Z.of_nat (Gr.number_of_edges (fetch h' G)) <= (r - 1) * (n * n) / (2 * r)
      /\ (n mod r * (r - n mod r) < 2 * r ->
          Z.of_nat (Gr.number_of_edges (fetch h' G)) = (r - 1) * (n * n) / (2 * r)).
Proof.
  intros H.
  destruct (Turan.turan_partitions_facts n r H) as (L & S & Q & F).
  split; [exact L |]. split; [exact S |]. split.
  { intros a b Ha Hb. rewrite Forall_forall in F.
    apply F in Ha. apply F in Hb. lia. }
  pose proof (Turan.turan_graph_run n r h H) as R.
  destruct (turan_partitions n r) as [| x t] eqn:E; [simpl in L; lia |].
  exists (h ++ [multipartite_state (x :: t)]), (fst (turan_graph n r h)), (length h).
  split; [apply Turan.complete_multipartite_graph_run |].
  rewrite R. simpl fst. split; [reflexivity |].
  rewrite HeapFacts.fetch_new, HeapFacts.store_new. split; [reflexivity |].
  rewrite HeapFacts.fetch_new.
  assert (Hpos : Forall (fun z => 0 <= z) (x :: t)).
  { eapply Forall_impl; [| exact F]. simpl. intros z Hz.
    pose proof (Z.div_pos n r ltac:(lia) ltac:(lia)). lia. }
  destruct (Turan.multipartite_state_facts (x :: t) Hpos) as (N & _).
  pose proof (Turan.multipartite_edges (x :: t) Hpos) as HE.
  rewrite S, Q in HE.
  pose proof (Z.mod_pos_bound n r ltac:(lia)) as Hm.
  pose proof (Z.div_mod n r ltac:(lia)) as Hd.
  set (g := multipartite_state (x :: t)) in *.
  change (Gr.number_of_edges (Gr.set_name _ g)) with (Gr.number_of_edges g).
  set (e := Z.of_nat (Gr.number_of_edges g)) in *.
  set (q := n / r) in *. set (s := n mod r) in *.
  assert (K : 2 * r * e = (r - 1) * (n * n) - s * (r - s)).
  { assert (E2 : 2 * e = n * n - ((r - s) * (q * q) + s * ((q + 1) * (q + 1)))) by lia.
    replace (2 * r * e) with (r * (2 * e)) by ring. rewrite E2.
    rewrite Hd. ring. }
  split; [| split; [exact K | split]].
  - rewrite FillFacts.number_of_nodes_length.
    change (Gr.nodes (Gr.set_name _ g)) with (Gr.nodes g).
    rewrite N, S. unfold int_nodes. rewrite length_map, ListFacts.length_range. lia.
  - apply Z.div_le_lower_bound; [lia |]. nia.
  - intros Hs. apply (Z.div_unique _ _ _ (s * (r - s))); [left; nia | lia].
Qed.

Lemma turan_graph_edges_witness :
  Z.of_nat (length (turan_partitions 5 2)) = 2
  /\ sum (turan_partitions 5 2) = 5
  /\ (forall a b, In a (turan_partitions 5 2) -> In b (turan_partitions 5 2) ->
                  Z.abs (a - b) <= 1)
  /\ exists h1 h' G,
      complete_multipartite_graph (map Count (turan_partitions 5 2)) [] = (h1, Ok G)
      /\ turan_graph 5 2 [] = (h', Ok G)
      /\ h' = store h1 G
                (Gr.set_name ("turan_graph(" ++ str_int 5 ++ "," ++ str_int 2 ++ ")")%string
                             (fetch h1 G))
      /\ Z.of_nat (Gr.number_of_nodes (fetch h' G)) = 5
      /\ 2 * 2 * Z.of_nat (Gr.number_of_edges (fetch h' G))
         = (2 - 1) * (5 * 5) - 5 mod 2 * (2 - 5 mod 2)
      /\ Z.of_nat (Gr.number_of_edges (fetch h' G)) <= (2 - 1) * (5 * 5) / (2 * 2)
      /\ (5 mod 2 * (2 - 5 mod 2) < 2 * 2 ->
          Z.of_nat (Gr.number_of_edges (fetch h' G)) = (2 - 1) * (5 * 5) / (2 * 2)).
Proof. apply (turan_graph_edges 5 2 []). lia. Defined.

(** Claim C3 as stated fails: [turan_graph(12, 8)] has four blocks of one
    node and four blocks of two nodes, hence 62 edges, while
    [floor((8-1)*12^2/(2*8))] is 63. *)
Lemma turan_12_8_has_62_edges :
  exists h' G,
    turan_graph 12 8 [] = (h', Ok G)
    /\ turan_partitions 12 8 = [1; 1; 1; 1; 2; 2; 2; 2]
    /\ Z.of_nat (Gr.number_of_edges (fetch h' G)) = 62
    /\ (8 - 1) * (12 * 12) / (2 * 8) = 63.
Proof.
  do 2 eexists. split; [vm_compute; reflexivity |].
  split; [vm_compute; reflexivity |]. split; vm_compute; reflexivity.
Qed.

(* ================================================================== *)
(** * grid_2d_graph *)

Module Grid.

Import GrFacts HeapFacts FillFacts ListFacts Multipartite CountFacts.

Lemma pairwise_map {A B : Type} (f : A -> B) (l : list A) :
  pairwise (map f l) = map (fun p => (f (fst p), f (snd p))) (pairwise l).
Proof.
  unfold pairwise. destruct l as [| x t]; [reflexivity |]. simpl tl.
  revert x. induction t as [| y t IH]; intros x; [reflexivity |].
  simpl. f_equal. apply IH.
Qed.

Lemma pairwise_range (a b : Z) :
  pairwise (range a b) = map (fun k => (k, k + 1)) (range a (b - 1)).
Proof.
  remember (Z.to_nat (b - a)) as k eqn:Hk. revert a Hk.
  induction k as [| k IH]; intros a Hk.
  - rewrite (range_nil a b), (range_nil a (b - 1)) by lia. reflexivity.
  - rewrite (range_cons a b) by lia.
    destruct (Z.eq_dec (a + 1) b) as [E | E].
    + rewrite (range_nil (a + 1) b), (range_nil a (b - 1)) by lia. reflexivity.
    + rewrite (range_cons a (b - 1)) by lia. simpl map.
      rewrite <- IH by lia. rewrite (range_cons (a + 1) b) by lia. reflexivity.
Qed.

Lemma item_last_range (n : Z) :
  0 < n -> item_last (int_nodes (range 0 n)) = ret (NInt (n - 1)).
Proof.
  intros H. unfold item_last, int_nodes.
  replace n with (n - 1 + 1) at 1 by lia.
  rewrite range_snoc, map_app, rev_app_distr by lia. reflexivity.
Qed.

Lemma item_first_range (n : Z) :
  0 < n -> item (int_nodes (range 0 n)) 0 = ret (NInt 0).
Proof. intros H. rewrite range_cons by lia. reflexivity. Qed.

(** ** The edges of the source, in integer coordinates *)

Lemma rows_edges (m n : Z) :
  flat_map (fun p => map (fun j => (tuple2 (snd p) j, tuple2 (fst p) j))
                         (int_nodes (range 0 n)))
           (pairwise (int_nodes (range 0 m)))
  = map grid_edge (lattice_rows m n).
Proof.
  unfold int_nodes, lattice_rows, product.
  rewrite pairwise_map, pairwise_range, !map_map.
  rewrite !flat_map_concat_map, !concat_map, !map_map. f_equal.
  apply map_ext. intros k. rewrite !map_map. reflexivity.
Qed.

Lemma cols_edges (m n : Z) :
  flat_map (fun i => map (fun p => (tuple2 i (snd p), tuple2 i (fst p)))
                         (pairwise (int_nodes (range 0 n))))
           (int_nodes (range 0 m))
  = map grid_edge (lattice_cols m n).
Proof.
  unfold int_nodes, lattice_cols, product.
  rewrite pairwise_map, pairwise_range, !map_map.
  rewrite !flat_map_concat_map, !concat_map, !map_map. f_equal.
  apply map_ext. intros k. rewrite !map_map. reflexivity.
Qed.

Lemma wrap_cols_edges (m n : Z) :
  map (fun i => (tuple2 i (NInt 0), tuple2 i (NInt (n - 1)))) (int_nodes (range 0 m))
  = map grid_edge (wrap_cols m n).
Proof. unfold int_nodes, wrap_cols. rewrite !map_map. reflexivity. Qed.

Lemma wrap_rows_edges (m n : Z) :
  map (fun j => (tuple2 (NInt 0) j, tuple2 (NInt (m - 1)) j)) (int_nodes (range 0 n))
  = map grid_edge (wrap_rows m n).
Proof. unfold int_nodes, wrap_rows. rewrite !map_map. reflexivity. Qed.

Lemma grid_nodes (m n : Z) :
  flat_map (fun i => map (fun j => tuple2 i j) (int_nodes (range 0 n)))
           (int_nodes (range 0 m))
  = map (fun p => cell (fst p) (snd p)) (product (range 0 m) (range 0 n)).
Proof.
  unfold int_nodes, product.
  rewrite !flat_map_concat_map, !concat_map, !map_map. f_equal.
  apply map_ext. intros k. rewrite !map_map. reflexivity.
Qed.

(** ** Counting the edge ends at a node *)

Lemma cnt_cons {A : Type} (P : A -> bool) (x : A) (t : list A) :
  cnt P (x :: t) = ((if P x then 1 else 0) + cnt P t)%nat.
Proof. unfold cnt. simpl. destruct (P x); reflexivity. Qed.

Lemma cnt_and_const {A : Type} (P : A -> bool) (c : bool) (l : list A) :
  cnt (fun x => P x && c) l = if c then cnt P l else 0%nat.
Proof.
  destruct c.
  - apply cnt_ext. intros x _. apply andb_true_r.
  - apply cnt_none. intros x _. apply andb_false_r.
Qed.

Lemma cnt_const_and {A : Type} (P : A -> bool) (c : bool) (l : list A) :
  cnt (fun x => c && P x) l = if c then cnt P l else 0%nat.
Proof.
  destruct c.
  - apply cnt_ext. intros x _. reflexivity.
  - apply cnt_none. intros x _. reflexivity.
Qed.

Lemma cnt_product {A B : Type} (P : A -> bool) (Q : B -> bool)
      (l1 : list A) (l2 : list B) :
  cnt (fun p => P (fst p) && Q (snd p)) (product l1 l2)
  = (cnt P l1 * cnt Q l2)%nat.
Proof.
  unfold product. induction l1 as [| x t IH]; [reflexivity |].
  simpl flat_map. rewrite cnt_app, IH, cnt_map, cnt_cons. cbn [fst snd].
  rewrite (cnt_const_and Q (P x)). destruct (P x); lia.
Qed.

Lemma cnt_range_point (i c a b : Z) :
  cnt (fun k => i =? k + c) (range a b) = ind (a + c) (b + c) i.
Proof.
  unfold ind.
  destruct ((a + c <=? i) && (i <? b + c)) eqn:E.
  - apply andb_true_iff in E. destruct E as [E1 E2].
    apply Z.leb_le in E1. apply Z.ltb_lt in E2.
    apply (cnt_unique _ (i - c)).
    + intros y _. rewrite Z.eqb_eq. lia.
    + apply nodup_range.
    + apply in_range. lia.
  - apply cnt_none. intros k Hk. apply in_range in Hk. apply Z.eqb_neq.
    apply andb_false_iff in E. destruct E as [E | E];
      [apply Z.leb_gt in E | apply Z.ltb_ge in E]; lia.
Qed.

Lemma cnt_range_plain (i a b : Z) :
  cnt (fun k => i =? k) (range a b) = ind a b i.
Proof.
  rewrite (cnt_ext _ (fun k => i =? k + 0)).
  - rewrite cnt_range_point. now rewrite !Z.add_0_r.
  - intros k _. now rewrite Z.add_0_r.
Qed.

Lemma cell_eqb (i j a b : Z) :
  node_eqb (cell i j) (cell a b) = (i =? a) && (j =? b).
Proof. unfold cell, tuple2. simpl. now rewrite andb_true_r. Qed.

Lemma cell_inj (i j a b : Z) : cell i j = cell a b -> i = a /\ j = b.
Proof. unfold cell, tuple2. intros E. injection E as -> ->. auto. Qed.

Lemma cnt_fst_grid (i j : Z) (L : list ((Z * Z) * (Z * Z))) :
  cnt (fun e => node_eqb (cell i j) (fst e)) (map grid_edge L)
  = cnt (fun e => (i =? fst (fst e)) && (j =? snd (fst e))) L.
Proof. rewrite cnt_map. apply cnt_ext. intros e _. apply cell_eqb. Qed.

Lemma cnt_snd_grid (i j : Z) (L : list ((Z * Z) * (Z * Z))) :
  cnt (fun e => node_eqb (cell i j) (snd e)) (map grid_edge L)
  = cnt (fun e => (i =? fst (snd e)) && (j =? snd (snd e))) L.
Proof. rewrite cnt_map. apply cnt_ext. intros e _. apply cell_eqb. Qed.

Lemma ends_lattice_rows (m n i j : Z) :
  cnt (fun e => node_eqb (cell i j) (fst e)) (map grid_edge (lattice_rows m n))
  = (ind 1 m i * ind 0 n j)%nat
  /\ cnt (fun e => node_eqb (cell i j) (snd e)) (map grid_edge (lattice_rows m n))
     = (ind 0 (m - 1) i * ind 0 n j)%nat.
Proof.
  rewrite cnt_fst_grid, cnt_snd_grid. unfold lattice_rows.
  rewrite !cnt_map. simpl.
  rewrite (cnt_product (fun k => i =? k + 1) (fun k => j =? k)).
  rewrite (cnt_product (fun k => i =? k) (fun k => j =? k)).
  rewrite cnt_range_point, !cnt_range_plain.
  replace (m - 1 + 1) with m by lia. auto.
Qed.

Lemma ends_lattice_cols (m n i j : Z) :
  cnt (fun e => node_eqb (cell i j) (fst e)) (map grid_edge (lattice_cols m n))
  = (ind 0 m i * ind 1 n j)%nat
  /\ cnt (fun e => node_eqb (cell i j) (snd e)) (map grid_edge (lattice_cols m n))
     = (ind 0 m i * ind 0 (n - 1) j)%nat.
Proof.
  rewrite cnt_fst_grid, cnt_snd_grid. unfold lattice_cols.
  rewrite !cnt_map. simpl.
  rewrite (cnt_product (fun k => i =? k) (fun k => j =? k + 1)).
  rewrite (cnt_product (fun k => i =? k) (fun k => j =? k)).
  rewrite cnt_range_point, !cnt_range_plain.
  replace (n - 1 + 1) with n by lia. auto.
Qed.

Lemma ends_wrap_cols (m n i j : Z) :
  cnt (fun e => node_eqb (cell i j) (fst e)) (map grid_edge (wrap_cols m n))
  = (if j =? 0 then ind 0 m i else 0%nat)
  /\ cnt (fun e => node_eqb (cell i j) (snd e)) (map grid_edge (wrap_cols m n))
     = (if j =? n - 1 then ind 0 m i else 0%nat).
Proof.
  rewrite cnt_fst_grid, cnt_snd_grid. unfold wrap_cols.
  rewrite !cnt_map. simpl.
  rewrite (cnt_and_const (fun k => i =? k) (j =? 0)).
  rewrite (cnt_and_const (fun k => i =? k) (j =? n - 1)).
  rewrite !cnt_range_plain. auto.
Qed.

Lemma ends_wrap_rows (m n i j : Z) :
  cnt (fun e => node_eqb (cell i j) (fst e)) (map grid_edge (wrap_rows m n))
  = (if i =? 0 then ind 0 n j else 0%nat)
  /\ cnt (fun e => node_eqb (cell i j) (snd e)) (map grid_edge (wrap_rows m n))
     = (if i =? m - 1 then ind 0 n j else 0%nat).
Proof.
  rewrite cnt_fst_grid, cnt_snd_grid. unfold wrap_rows.
  rewrite !cnt_map. simpl.
  rewrite (cnt_const_and (fun k => j =? k) (i =? 0)).
  rewrite (cnt_const_and (fun k => j =? k) (i =? m - 1)).
  rewrite !cnt_range_plain. auto.
Qed.

(** ** No two grid edges join the same pair of nodes *)

Lemma grid_edge_inj (e1 e2 : (Z * Z) * (Z * Z)) :
  grid_edge e1 = grid_edge e2 -> e1 = e2.
Proof.
  destruct e1 as [[a b] [c d]], e2 as [[a' b'] [c' d']]. unfold grid_edge. simpl.
  intros E. injection E as -> -> -> ->. reflexivity.
Qed.

Lemma in_lattice_rows (m n : Z) (e : (Z * Z) * (Z * Z)) :
  In e (lattice_rows m n) -> diff e = (1, 0) /\ inside m n e.
Proof.
  unfold lattice_rows. rewrite in_map_iff. intros [[k j] [<- H]].
  apply in_product in H. destruct H as [Hk Hj]. apply in_range in Hk, Hj.
  unfold diff, inside. simpl. split; [f_equal; lia | lia].
Qed.

Lemma in_lattice_cols (m n : Z) (e : (Z * Z) * (Z * Z)) :
  In e (lattice_cols m n) -> diff e = (0, 1) /\ inside m n e.
Proof.
  unfold lattice_cols. rewrite in_map_iff. intros [[k j] [<- H]].
  apply in_product in H. destruct H as [Hk Hj]. apply in_range in Hk, Hj.
  unfold diff, inside. simpl. split; [f_equal; lia | lia].
Qed.

Lemma in_wrap_cols (m n : Z) (e : (Z * Z) * (Z * Z)) :
  0 < n -> In e (wrap_cols m n) -> diff e = (0, - (n - 1)) /\ inside m n e.
Proof.
  unfold wrap_cols. rewrite in_map_iff. intros Hn [k [<- Hk]].
  apply in_range in Hk. unfold diff, inside. simpl. split; [f_equal; lia | lia].
Qed.

Lemma in_wrap_rows (m n : Z) (e : (Z * Z) * (Z * Z)) :
  0 < m -> In e (wrap_rows m n) -> diff e = (- (m - 1), 0) /\ inside m n e.
Proof.
  unfold wrap_rows. rewrite in_map_iff. intros Hm [k [<- Hk]].
  apply in_range in Hk. unfold diff, inside. simpl. split; [f_equal; lia | lia].
Qed.

Lemma nodup_families (m n : Z) :
  NoDup (lattice_rows m n) /\ NoDup (lattice_cols m n)
  /\ NoDup (wrap_cols m n) /\ NoDup (wrap_rows m n).
Proof.
  unfold lattice_rows, lattice_cols, wrap_cols, wrap_rows.
  repeat split; apply Injective_map_NoDup;
    try (apply nodup_product; apply nodup_range); try apply nodup_range.
  - intros [a b] [c d]. simpl. intros E. injection E as _ _ -> ->. reflexivity.
  - intros [a b] [c d]. simpl. intros E. injection E as _ _ -> ->. reflexivity.
  - intros a c E. injection E as ->. reflexivity.
  - intros a c E. injection E as ->. reflexivity.
Qed.

Lemma nodup_app_by {A K : Type} (f : A -> K) (l1 l2 : list A) :
  NoDup l1 -> NoDup l2 ->
  (forall x y, In x l1 -> In y l2 -> f x <> f y) -> NoDup (l1 ++ l2).
Proof.
  intros H1 H2 H. apply NoDup_app; [exact H1 | exact H2 |].
  intros x Hx Hy. now apply (H x x).
Qed.

Lemma in_grid_edges (m n : Z) (p : bool) (e : (Z * Z) * (Z * Z)) :
  In e (grid_edges m n p) -> allowed m n (diff e) /\ inside m n e.
Proof.
  unfold grid_edges, allowed. rewrite !in_app_iff. intros [H | [H | [H | H]]].
  - apply in_lattice_rows in H. destruct H as [-> H]. auto.
  - apply in_lattice_cols in H. destruct H as [-> H]. auto.
  - destruct (p && (2 <? n)) eqn:E; [| destruct H].
    apply andb_true_iff in E. destruct E as [_ E]. apply Z.ltb_lt in E.
    apply in_wrap_cols in H; [| lia]. destruct H as [-> H].
    split; [right; right; left; auto | exact H].
  - destruct (p && (2 <? m)) eqn:E; [| destruct H].
    apply andb_true_iff in E. destruct E as [_ E]. apply Z.ltb_lt in E.
    apply in_wrap_rows in H; [| lia]. destruct H as [-> H].
    split; [right; right; right; auto | exact H].
Qed.

Ltac pair_neq :=
  let E := fresh "E" in
  intros E; pose proof (f_equal fst E); pose proof (f_equal snd E);
  simpl in *; lia.

Lemma nodup_grid_edges (m n : Z) (p : bool) : NoDup (grid_edges m n p).
Proof.
  destruct (nodup_families m n) as (N1 & N2 & N3 & N4).
  unfold grid_edges.
  assert (N3' : NoDup (if p && (2 <? n) then wrap_cols m n else []))
    by (destruct (p && (2 <? n)); [exact N3 | constructor]).
  assert (N4' : NoDup (if p && (2 <? m) then wrap_rows m n else []))
    by (destruct (p && (2 <? m)); [exact N4 | constructor]).
  assert (D3 : forall e, In e (if p && (2 <? n) then wrap_cols m n else []) ->
                         2 < n /\ diff e = (0, - (n - 1))).
  { intros e H. destruct (p && (2 <? n)) eqn:E; [| destruct H].
    apply andb_true_iff in E. destruct E as [_ E]. apply Z.ltb_lt in E.
    apply in_wrap_cols in H; [| lia]. tauto. }
  assert (D4 : forall e, In e (if p && (2 <? m) then wrap_rows m n else []) ->
                         2 < m /\ diff e = (- (m - 1), 0)).
  { intros e H. destruct (p && (2 <? m)) eqn:E; [| destruct H].
    apply andb_true_iff in E. destruct E as [_ E]. apply Z.ltb_lt in E.
    apply in_wrap_rows in H; [| lia]. tauto. }
  apply (nodup_app_by diff); [exact N1 | |].
  - apply (nodup_app_by diff); [exact N2 | |].
    + apply (nodup_app_by diff); [exact N3' | exact N4' |].
      intros x y Hx Hy. apply D3 in Hx. apply D4 in Hy.
      destruct Hx as [? ->], Hy as [? ->]. pair_neq.
    + intros x y Hx Hy. apply in_lattice_cols in Hx. destruct Hx as [-> _].
      apply in_app_iff in Hy. destruct Hy as [Hy | Hy];
        [apply D3 in Hy | apply D4 in Hy]; destruct Hy as [? ->];
        pair_neq.
  - intros x y Hx Hy. apply in_lattice_rows in Hx. destruct Hx as [-> _].
    rewrite !in_app_iff in Hy. destruct Hy as [Hy | [Hy | Hy]].
    + apply in_lattice_cols in Hy. destruct Hy as [-> _]. pair_neq.
    + apply D3 in Hy. destruct Hy as [? ->]. pair_neq.
    + apply D4 in Hy. destruct Hy as [? ->]. pair_neq.
Qed.

Lemma simple_grid_edges (m n : Z) (p : bool) :
  simple_edges (map grid_edge (grid_edges m n p)).
Proof.
  split.
  - apply Injective_map_NoDup; [| apply nodup_grid_edges].
    intros x y. apply grid_edge_inj.
  - intros u v H1 H2. apply in_map_iff in H1, H2.
    destruct H1 as [[[a b] [c d]] [E1 H1]], H2 as [[[a' b'] [c' d']] [E2 H2]].
    apply in_grid_edges in H1, H2. destruct H1 as [H1 _], H2 as [H2 _].
    unfold grid_edge in E1, E2. simpl in E1, E2.
    injection E1 as <- <-. injection E2 as -> -> -> ->.
    unfold allowed, diff in H1, H2. simpl in H1, H2.
    destruct H1 as [H1 | [H1 | [[? H1] | [? H1]]]];
      destruct H2 as [H2 | [H2 | [[? H2] | [? H2]]]];
      pose proof (f_equal fst H1); pose proof (f_equal snd H1);
      pose proof (f_equal fst H2); pose proof (f_equal snd H2);
      simpl in *; lia.
Qed.

Lemma simple_edges_prefix (l1 l2 : list (node * node)) :
  simple_edges (l1 ++ l2) -> simple_edges l1.
Proof.
  intros [Hn Ha]. split; [eapply NoDup_app_remove_r, Hn |].
  intros u v H1 H2. apply (Ha u v); apply in_app_iff; now left.
Qed.

(** ** Running [grid_2d_graph] *)

Lemma len_int_range (n : Z) : len (int_nodes (range 0 n)) = Z.max 0 n.
Proof. unfold len, int_nodes. rewrite length_map, length_range. lia. Qed.

Lemma directed_set_name (s : string) (g : Graph) :
  directed (Gr.set_name s g) = directed g.
Proof. reflexivity. Qed.

Lemma directed_add_nodes_from (vs : list node) (a : attrs) (g : Graph) :
  directed (Gr.add_nodes_from vs a g) = directed g.
Proof. now destruct (flags_add_nodes_from vs a g). Qed.

Lemma directed_add_edges_from (es : list (node * node)) (g : Graph) :
  directed (Gr.add_edges_from es g) = directed g.
Proof. now destruct (flags_add_edges_from es g). Qed.

Lemma directed_start_undirected (cu : option loc) (h : heap) :
  undirected cu h -> directed (start cu h) = false.
Proof. destruct cu; simpl; auto. Qed.

Ltac directed_false Hu :=
  repeat first [ rewrite directed_set_name
               | rewrite directed_add_nodes_from
               | rewrite directed_add_edges_from ];
  apply (directed_start_undirected _ _ Hu).

Ltac run_steps Hv :=
  repeat first [ rewrite bind_bind
               | rewrite bind_ret
               | rewrite bind_update by exact Hv
               | rewrite bind_read by exact Hv ].

Ltac skip_directed Hu :=
  match goal with
  | |- context [when (directed ?g)] =>
      let D := fresh "D" in
      assert (D : directed g = false) by directed_false Hu;
      rewrite D; unfold when at 1
  end.

Lemma grid_2d_graph_run (m n : Z) (p : bool) (cu : option loc) (h : heap) :
  valid cu h -> undirected cu h ->
  grid_2d_graph (Count m) (Count n) p cu h
  = (place cu h (grid_state m n p cu h), Ok (target cu h)).
Proof.
  intros Hv Hu. unfold grid_2d_graph, grid_state.
  rewrite bind_empty_graph by exact Hv.
  change (nodes_or_number (Count m)) with (Count m, int_nodes (range 0 m)).
  change (nodes_or_number (Count n)) with (Count n, int_nodes (range 0 n)).
  cbv iota beta zeta.
  change (snd (nodes_or_number (Count 0))) with (@nil node).
  change (str_spec (Count 0)) with "0"%string.
  change (str_spec (Count m)) with (str_int m).
  change (str_spec (Count n)) with (str_int n).
  unfold set_name, add_nodes_from, add_edges_from, is_directed.
  run_steps Hv. skip_directed Hu. run_steps Hv.
  destruct p; unfold when at 1; [| run_steps Hv; reflexivity].
  run_steps Hv.
  destruct (2 <? len (int_nodes (range 0 n))) eqn:Cn; unfold when at 1.
  - rewrite len_int_range in Cn. apply Z.ltb_lt in Cn.
    rewrite item_first_range, item_last_range by lia.
    run_steps Hv. skip_directed Hu. run_steps Hv.
    destruct (2 <? len (int_nodes (range 0 m))) eqn:Cm; unfold when at 1.
    + rewrite len_int_range in Cm. apply Z.ltb_lt in Cm.
      rewrite item_first_range, item_last_range by lia.
      run_steps Hv. skip_directed Hu. run_steps Hv. reflexivity.
    + run_steps Hv. reflexivity.
  - run_steps Hv.
    destruct (2 <? len (int_nodes (range 0 m))) eqn:Cm; unfold when at 1.
    + rewrite len_int_range in Cm. apply Z.ltb_lt in Cm.
      rewrite item_first_range, item_last_range by lia.
      run_steps Hv. skip_directed Hu. run_steps Hv. reflexivity.
    + run_steps Hv. reflexivity.
Qed.

(** ** The graph left in the container *)

Lemma add_simple (es : list (node * node)) (g : Graph) :
  simple_edges (edge_list g ++ es) ->
  (forall x, In x (endpoints es) -> In x (Gr.nodes g)) ->
  edge_list (Gr.add_edges_from es g) = edge_list g ++ es
  /\ Gr.nodes (Gr.add_edges_from es g) = Gr.nodes g.
Proof.
  intros Hs He. split.
  - apply edge_list_add_edges_from. right. now apply simple_edges_addable.
  - now apply nodes_add_edges_from_known.
Qed.

Lemma in_cells (m n a b : Z) :
  0 <= a < m -> 0 <= b < n ->
  In (cell a b) (map (fun q => cell (fst q) (snd q)) (product (range 0 m) (range 0 n))).
Proof.
  intros Ha Hb. apply in_map_iff. exists (a, b). split; [reflexivity |].
  apply in_product. split; now apply in_range.
Qed.

Lemma endpoints_inside (m n : Z) (L : list ((Z * Z) * (Z * Z))) (x : node) :
  (forall e, In e L -> inside m n e) ->
  In x (endpoints (map grid_edge L)) ->
  In x (map (fun q => cell (fst q) (snd q)) (product (range 0 m) (range 0 n))).
Proof.
  intros HL Hx. unfold endpoints in Hx. apply in_flat_map in Hx.
  destruct Hx as [e [He Hx]]. apply in_map_iff in He.
  destruct He as [[[a b] [c d]] [<- He]]. apply HL in He.
  unfold inside in He. simpl in He, Hx.
  destruct Hx as [<- | [<- | []]]; apply in_cells; tauto.
Qed.

Lemma nodup_cells (m n : Z) :
  NoDup (map (fun q => cell (fst q) (snd q)) (product (range 0 m) (range 0 n))).
Proof.
  apply Injective_map_NoDup.
  - intros [a b] [c d] E. simpl in E. apply cell_inj in E. destruct E. congruence.
  - apply nodup_product; apply nodup_range.
Qed.

Lemma ltb_max (n : Z) : (2 <? Z.max 0 n) = (2 <? n).
Proof. destruct (Z.ltb_spec 2 n), (Z.ltb_spec 2 (Z.max 0 n)); auto; lia. Qed.

Lemma nodes_base (s1 s2 : string) (cu : option loc) (h : heap) :
  Gr.nodes (Gr.set_name s1 (Gr.add_nodes_from [] [] (Gr.set_name s2 (start cu h))))
  = [].
Proof. destruct cu; reflexivity. Qed.

Lemma grid_state_facts (m n : Z) (p : bool) (cu : option loc) (h : heap) :
  Gr.nodes (grid_state m n p cu h)
  = map (fun q => cell (fst q) (snd q)) (product (range 0 m) (range 0 n))
  /\ edge_list (grid_state m n p cu h) = map grid_edge (grid_edges m n p).
Proof.
  unfold grid_state. cbv zeta.
  rewrite rows_edges, cols_edges, grid_nodes, !len_int_range, !ltb_max.
  set (cells := map _ (product (range 0 m) (range 0 n))).
  set (g0 := Gr.add_nodes_from cells [] _).
  assert (N0 : Gr.nodes g0 = cells).
  { unfold g0. rewrite nodes_add_nodes_from_fresh; rewrite nodes_base.
    - reflexivity.
    - apply nodup_cells. }
  assert (E0 : edge_list g0 = []).
  { unfold g0. rewrite edge_list_add_nodes_from. simpl. apply edge_list_start. }
  pose proof (simple_grid_edges m n p) as S.
  assert (I : forall e, In e (grid_edges m n p) -> inside m n e).
  { intros e He. now apply in_grid_edges in He. }
  unfold grid_edges in S, I |- *. rewrite !map_app in S |- *.
  set (A := lattice_rows m n) in *. set (B := lattice_cols m n) in *.
  destruct (add_simple (map grid_edge A) g0) as [E1 N1].
  { rewrite E0. simpl. eapply simple_edges_prefix, S. }
  { intros x. rewrite N0. apply endpoints_inside.
    intros e He. apply I. apply in_app_iff. now left. }
  rewrite E0 in E1. simpl in E1. rewrite N0 in N1.
  set (g1 := Gr.add_edges_from (map grid_edge A) g0) in *.
  destruct (add_simple (map grid_edge B) g1) as [E2 N2].
  { rewrite E1. eapply simple_edges_prefix. rewrite <- app_assoc. exact S. }
  { intros x. rewrite N1. apply endpoints_inside.
    intros e He. apply I. rewrite !in_app_iff. auto. }
  rewrite E1 in E2. rewrite N1 in N2.
  set (g2 := Gr.add_edges_from (map grid_edge B) g1) in *.
  destruct p; simpl andb in *; cbv iota.
  2:{ simpl. rewrite !app_nil_r. auto. }
  assert (E3 : edge_list (if 2 <? n
                          then Gr.add_edges_from
                                 (map (fun i => (tuple2 i (NInt 0), tuple2 i (NInt (n - 1))))
                                      (int_nodes (range 0 m))) g2
                          else g2)
               = map grid_edge A ++ map grid_edge B
                 ++ map grid_edge (if 2 <? n then wrap_cols m n else [])
               /\ Gr.nodes (if 2 <? n
                            then Gr.add_edges_from
                                   (map (fun i => (tuple2 i (NInt 0), tuple2 i (NInt (n - 1))))
                                        (int_nodes (range 0 m))) g2
                            else g2) = cells).
  { destruct (2 <? n).
    - rewrite wrap_cols_edges.
      destruct (add_simple (map grid_edge (wrap_cols m n)) g2) as [E3 N3].
      + rewrite E2, <- app_assoc.
        apply (simple_edges_prefix _ (map grid_edge (if 2 <? m then wrap_rows m n else []))).
        rewrite <- !app_assoc. exact S.
      + intros x. rewrite N2. apply endpoints_inside.
        intros e He. apply I. rewrite !in_app_iff. auto.
      + rewrite E3, E2, N3, N2, <- app_assoc. auto.
    - simpl. rewrite app_nil_r. auto. }
  destruct E3 as [E3 N3].
  set (g3 := if 2 <? n then _ else g2) in *.
  change (Gr.nodes (Gr.set_name ?s ?g)) with (Gr.nodes g).
  change (edge_list (Gr.set_name ?s ?g)) with (edge_list g).
  destruct (2 <? m).
  - rewrite wrap_rows_edges.
    destruct (add_simple (map grid_edge (wrap_rows m n)) g3) as [E4 N4].
    + rewrite E3, <- !app_assoc. exact S.
    + intros x. rewrite N3. apply endpoints_inside.
      intros e He. apply I. rewrite !in_app_iff. auto.
    + rewrite E4, E3, N4, N3, <- !app_assoc. auto.
  - simpl. rewrite app_nil_r. auto.
Qed.

(** ** Degrees *)

Ltac bool_cases :=
  repeat match goal with
         | |- context [(?a <=? ?b)] => destruct (Z.leb_spec a b); try lia
         | |- context [(?a <? ?b)] => destruct (Z.ltb_spec a b); try lia
         | |- context [(?a =? ?b)] => destruct (Z.eqb_spec a b); try lia
         end.

Lemma degree_grid_state (m n : Z) (p : bool) (cu : option loc) (h : heap) (i j : Z) :
  0 <= i < m -> 0 <= j < n ->
  Gr.degree (grid_state m n p cu h) (cell i j)
  = (lattice_degree m n i j + wrap_degree p n j + wrap_degree p m i)%nat.
Proof.
  intros Hi Hj. rewrite degree_cnt.
  destruct (grid_state_facts m n p cu h) as [_ E]. rewrite E. clear E.
  unfold grid_edges. rewrite !map_app, !cnt_app.
  destruct (ends_lattice_rows m n i j) as [-> ->].
  destruct (ends_lattice_cols m n i j) as [-> ->].
  assert (C : forall c : bool,
             (cnt (fun e => node_eqb (cell i j) (fst e))
                  (map grid_edge (if c then wrap_cols m n else []))
              + cnt (fun e => node_eqb (cell i j) (snd e))
                    (map grid_edge (if c then wrap_cols m n else [])))%nat
             = if c then ((if (j =? 0)%Z then 1 else 0)
                          + (if (j =? n - 1)%Z then 1 else 0))%nat else 0%nat).
  { intros [|]; [| reflexivity].
    destruct (ends_wrap_cols m n i j) as [-> ->]. unfold ind.
    bool_cases; reflexivity. }
  assert (R : forall c : bool,
             (cnt (fun e => node_eqb (cell i j) (fst e))
                  (map grid_edge (if c then wrap_rows m n else []))
              + cnt (fun e => node_eqb (cell i j) (snd e))
                    (map grid_edge (if c then wrap_rows m n else [])))%nat
             = if c then ((if (i =? 0)%Z then 1 else 0)
                          + (if (i =? m - 1)%Z then 1 else 0))%nat else 0%nat).
  { intros [|]; [| reflexivity].
    destruct (ends_wrap_rows m n i j) as [-> ->]. unfold ind.
    bool_cases; reflexivity. }
  specialize (C (p && (2 <? n))). specialize (R (p && (2 <? m))).
  unfold wrap_degree.
  assert (L : (ind 1 m i * ind 0 n j + ind 0 (m - 1) i * ind 0 n j
               + (ind 0 m i * ind 1 n j + ind 0 m i * ind 0 (n - 1) j))%nat
              = lattice_degree m n i j).
  { unfold lattice_degree, ind. bool_cases; reflexivity. }
  lia.
Qed.

End Grid.

(** Claim C6 (as amended).  For all integers [m >= 1] and [n >= 1] and an
    absent or undirected container, [grid_2d_graph(m, n)] has [m*n] nodes;
    with [periodic=false] the node [(i, j)] has one edge for each of its
    four lattice neighbours that exists, so that for [m >= 2] and [n >= 2]
    corner nodes have degree 2, non-corner boundary nodes degree 3 and
    interior nodes degree 4; with [periodic=true], [m > 2] and [n > 2]
    every node has degree 4.  The periodic graph has the edges of the
    lattice plus the wrap edges of each dimension whose length is greater
    than 2. *)
Theorem grid_2d_graph_degrees (m n : Z) (create_using : option loc) (h : heap) :
  1 <= m -> 1 <= n ->
  valid create_using h -> undirected create_using h ->
  exists h0 G0 h1 G1,
    grid_2d_graph (Count m) (Count n) false create_using h = (h0, Ok G0)
    /\ grid_2d_graph (Count m) (Count n) true create_using h = (h1, Ok G1)
    /\ Z.of_nat (Gr.number_of_nodes (fetch h0 G0)) = m * n
    /\ Z.of_nat (Gr.number_of_nodes (fetch h1 G1)) = m * n
    /\ edge_list (fetch h1 G1)
       = edge_list (fetch h0 G0)
         ++ (if 2 <? n then map grid_edge (wrap_cols m n) else [])
         ++ (if 2 <? m then map grid_edge (wrap_rows m n) else [])
    /\ forall i j,
        0 <= i < m -> 0 <= j < n ->
        In (cell i j) (Gr.nodes (fetch h0 G0))
        /\ Gr.degree (fetch h0 G0) (cell i j) = lattice_degree m n i j
        /\ (2 <= m -> 2 <= n ->
            ((i = 0 \/ i = m - 1) /\ (j = 0 \/ j = n - 1) ->
             Gr.degree (fetch h0 G0) (cell i j) = 2%nat)
            /\ (((i = 0 \/ i = m - 1) /\ 0 < j < n - 1)
                \/ (0 < i < m - 1 /\ (j = 0 \/ j = n - 1)) ->
                Gr.degree (fetch h0 G0) (cell i j) = 3%nat)
            /\ (0 < i < m - 1 /\ 0 < j < n - 1 ->
                Gr.degree (fetch h0 G0) (cell i j) = 4%nat))
        /\ (2 < m -> 2 < n -> Gr.degree (fetch h1 G1) (cell i j) = 4%nat).
Proof.
  intros Hm Hn Hv Hu. do 4 eexists.
  split; [now apply Grid.grid_2d_graph_run |].
  split; [now apply Grid.grid_2d_graph_run |].
  rewrite !HeapFacts.fetch_place by exact Hv.
  destruct (Grid.grid_state_facts m n false create_using h) as [N0 E0].
  destruct (Grid.grid_state_facts m n true create_using h) as [N1 E1].
  assert (Hcount : Z.of_nat (length (map (fun q => cell (fst q) (snd q))
                                         (product (range 0 m) (range 0 n)))) = m * n).
  { rewrite length_map, Multipartite.length_product, !ListFacts.length_range. lia. }
  split; [now rewrite FillFacts.number_of_nodes_length, N0 |].
  split; [now rewrite FillFacts.number_of_nodes_length, N1 |].
  split.
  { rewrite E0, E1. unfold grid_edges. simpl andb.
    rewrite !map_app, !app_nil_r, <- app_assoc.
    destruct (2 <? n), (2 <? m); reflexivity. }
  intros i j Hi Hj. split; [rewrite N0; now apply Grid.in_cells |].
  rewrite !Grid.degree_grid_state by assumption.
  unfold wrap_degree, lattice_degree. simpl andb.
  split; [lia |]. split.
  - intros H2m H2n. repeat split; intros Hc; Grid.bool_cases; simpl; lia.
  - intros H2m H2n. Grid.bool_cases; simpl; lia.
Qed.

Lemma grid_2d_graph_degrees_witness :
  exists h0 G0 h1 G1,
    grid_2d_graph (Count 3) (Count 4) false None [] = (h0, Ok G0)
    /\ grid_2d_graph (Count 3) (Count 4) true None [] = (h1, Ok G1)
    /\ Z.of_nat (Gr.number_of_nodes (fetch h0 G0)) = 3 * 4
    /\ Z.of_nat (Gr.number_of_nodes (fetch h1 G1)) = 3 * 4
    /\ edge_list (fetch h1 G1)
       = edge_list (fetch h0 G0)
         ++ (if 2 <? 4 then map grid_edge (wrap_cols 3 4) else [])
         ++ (if 2 <? 3 then map grid_edge (wrap_rows 3 4) else [])
    /\ forall i j,
        0 <= i < 3 -> 0 <= j < 4 ->
        In (cell i j) (Gr.nodes (fetch h0 G0))
        /\ Gr.degree (fetch h0 G0) (cell i j) = lattice_degree 3 4 i j
        /\ (2 <= 3 -> 2 <= 4 ->
            ((i = 0 \/ i = 3 - 1) /\ (j = 0 \/ j = 4 - 1) ->
             Gr.degree (fetch h0 G0) (cell i j) = 2%nat)
            /\ (((i = 0 \/ i = 3 - 1) /\ 0 < j < 4 - 1)
                \/ (0 < i < 3 - 1 /\ (j = 0 \/ j = 4 - 1)) ->
                Gr.degree (fetch h0 G0) (cell i j) = 3%nat)
            /\ (0 < i < 3 - 1 /\ 0 < j < 4 - 1 ->
                Gr.degree (fetch h0 G0) (cell i j) = 4%nat))
        /\ (2 < 3 -> 2 < 4 -> Gr.degree (fetch h1 G1) (cell i j) = 4%nat).
Proof.
  apply (grid_2d_graph_degrees 3 4 None []).
  - lia.
  - lia.
  - exact I.
  - exact I.
Defined.

(** Claim C6 as stated fails when a dimension has length 1:
    [grid_2d_graph(1, 1)] is a single corner node of degree 0, and in
    [grid_2d_graph(1, 3)] the corner [(0, 0)] has degree 1 and the
    boundary node [(0, 1)] has degree 2. *)
Lemma grid_1_by_n_degrees :
  (exists h' G,
      grid_2d_graph (Count 1) (Count 1) false None [] = (h', Ok G)
      /\ Gr.nodes (fetch h' G) = [cell 0 0]
      /\ Gr.degree (fetch h' G) (cell 0 0) = 0%nat)
  /\ (exists h' G,
         grid_2d_graph (Count 1) (Count 3) false None [] = (h', Ok G)
         /\ Gr.degree (fetch h' G) (cell 0 0) = 1%nat
         /\ Gr.degree (fetch h' G) (cell 0 1) = 2%nat).
Proof.
  split; do 2 eexists; (split; [vm_compute; reflexivity |]);
    split; vm_compute; reflexivity.
Qed.

(* ================================================================== *)
(** * A program logic for the generators *)

Module Logic.

Import GrFacts HeapFacts.

Lemma h_conseq {A : Type} (P P' : heap -> Prop) (Q Q' : A -> heap -> Prop) (m : M A) :
  hoare P' m Q' ->
  (forall h, P h -> P' h) ->
  (forall a h, Q' a h -> Q a h) ->
  hoare P m Q.
Proof. intros H HP HQ h h' a Ph E. eapply HQ, H; eauto. Qed.

Lemma h_ret {A : Type} (P : heap -> Prop) (Q : A -> heap -> Prop) (a : A) :
  (forall h, P h -> Q a h) -> hoare P (ret a) Q.
Proof. intros H h h' x Ph E. injection E as <- <-. auto. Qed.

Lemma h_ret_inv {A : Type} (P : heap -> Prop) (a : A) :
  hoare P (ret a) (fun _ => P).
Proof. now apply h_ret. Qed.

Lemma h_raise {A : Type} (P : heap -> Prop) (Q : A -> heap -> Prop) (e : exn) :
  hoare P (raise e) Q.
Proof. intros h h' x _ E. discriminate. Qed.

Lemma h_bind {A B : Type} (P : heap -> Prop) (R : A -> heap -> Prop)
      (Q : B -> heap -> Prop) (m : M A) (k : A -> M B) :
  hoare P m R -> (forall a, hoare (R a) (k a) Q) -> hoare P (bind m k) Q.
Proof.
  intros Hm Hk h h' b Ph E. unfold bind in E.
  destruct (m h) as [h1 [a | e]] eqn:Em; [| discriminate].
  eapply Hk; [eapply Hm; eauto | exact E].
Qed.

Lemma h_seq {A B : Type} (P R : heap -> Prop) (Q : B -> heap -> Prop)
      (m : M A) (k : A -> M B) :
  hoare P m (fun _ => R) -> (forall a, hoare R (k a) Q) -> hoare P (bind m k) Q.
Proof. intros Hm Hk. eapply h_bind; [exact Hm | exact Hk]. Qed.

Lemma h_pure {A : Type} (phi : Prop) (P : heap -> Prop) (Q : A -> heap -> Prop)
      (m : M A) :
  (phi -> hoare P m Q) -> hoare (fun h => phi /\ P h) m Q.
Proof. intros H h h' a [Hphi Ph] E. eapply H; eauto. Qed.

Lemma h_read {A : Type} (P : heap -> Prop) (G : loc) (f : Graph -> A) :
  hoare P (read G f) (fun _ => P).
Proof. intros h h' a Ph E. injection E as <- _. exact Ph. Qed.

Lemma h_when (P : heap -> Prop) (b : bool) (m : M unit) :
  hoare P m (fun _ => P) -> hoare P (when b m) (fun _ => P).
Proof. intros H. destruct b; [exact H | now apply h_ret]. Qed.

Lemma h_check (P : heap -> Prop) (b : bool) (e : exn) :
  hoare P (if b then raise e else ret tt) (fun _ => P).
Proof. destruct b; [apply h_raise | now apply h_ret]. Qed.

Lemma h_for {A : Type} (P : heap -> Prop) (l : list A) (body : A -> M unit) :
  (forall x, hoare P (body x) (fun _ => P)) -> hoare P (for_ l body) (fun _ => P).
Proof.
  intros H. induction l as [| x t IH]; simpl; [now apply h_ret |].
  eapply h_seq; [apply H | intros _; exact IH].
Qed.

Lemma h_for_acc {A S : Type} (P : heap -> Prop) (l : list A) (s : S)
      (body : A -> S -> M S) :
  (forall x s, hoare P (body x s) (fun _ => P)) ->
  hoare P (for_acc l s body) (fun _ => P).
Proof.
  intros H. revert s. induction l as [| x t IH]; intros s; simpl; [now apply h_ret |].
  eapply h_seq; [apply H | intros s'; apply IH].
Qed.

Lemma h_item {A : Type} (P : heap -> Prop) (l : list A) (i : nat) :
  hoare P (item l i) (fun _ => P).
Proof. unfold item. destruct (nth_error l i); [now apply h_ret | apply h_raise]. Qed.

Lemma h_item_last {A : Type} (P : heap -> Prop) (l : list A) :
  hoare P (item_last l) (fun _ => P).
Proof. unfold item_last. destruct (rev l); [apply h_raise | now apply h_ret]. Qed.

Lemma h_map_int_plus (P : heap -> Prop) (k : Z) (l : list node) :
  hoare P (map_M (int_plus k) l) (fun _ => P).
Proof.
  induction l as [| x t IH]; simpl; [now apply h_ret |].
  apply (h_seq P P).
  - unfold int_plus. destruct x; [now apply h_ret | apply h_raise].
  - intros y. apply (h_seq P P); [exact IH | intros ys; now apply h_ret].
Qed.

(** ** Operations on the generator's own object *)

Lemma holds_store (G : loc) (hb h : heap) (s s' : string) (g : Graph) :
  holds G hb s h ->
  directed g = directed (fetch h G) ->
  multigraph g = multigraph (fetch h G) ->
  name g = s' ->
  holds G hb s' (store h G g).
Proof.
  intros (L & V & O & D & Mu & N) Hd Hm Hn. unfold holds.
  rewrite length_store. repeat split; try assumption.
  - intros l Hl. rewrite fetch_store_other by exact Hl. now apply O.
  - rewrite fetch_store_same by lia. congruence.
  - rewrite fetch_store_same by lia. congruence.
  - rewrite fetch_store_same by lia. exact Hn.
Qed.

Lemma h_update (G : loc) (hb : heap) (s : string) (f : Graph -> Graph) :
  pres f -> hoare (holds G hb s) (update G f) (fun _ => holds G hb s).
Proof.
  intros Hf h h' a Hh E. injection E as <- _.
  destruct (Hf (fetch h G)) as (F1 & F2 & F3).
  apply (holds_store G hb h s); try assumption.
  destruct Hh as (_ & _ & _ & _ & _ & N). congruence.
Qed.

Lemma h_set_name (G : loc) (hb : heap) (s s' : string) :
  hoare (holds G hb s) (set_name G s') (fun _ => holds G hb s').
Proof.
  intros h h' a Hh E. injection E as <- _.
  apply (holds_store G hb h s); auto.
Qed.

Lemma pres_add_nodes_from (vs : list node) (a : attrs) : pres (Gr.add_nodes_from vs a).
Proof. intros g. apply flags_add_nodes_from. Qed.

Lemma pres_add_edges_from (es : list (node * node)) : pres (Gr.add_edges_from es).
Proof. intros g. apply flags_add_edges_from. Qed.

Lemma pres_add_edge (u v : node) : pres (Gr.add_edge u v).
Proof. intros g. apply flags_add_edge. Qed.

Lemma h_add_nodes_from (G : loc) (hb : heap) (s : string) (vs : list node) :
  hoare (holds G hb s) (add_nodes_from G vs) (fun _ => holds G hb s).
Proof. apply h_update, pres_add_nodes_from. Qed.

Lemma h_add_nodes_from_attr (G : loc) (hb : heap) (s : string) (vs : list node)
      (a : attrs) :
  hoare (holds G hb s) (add_nodes_from_attr G vs a) (fun _ => holds G hb s).
Proof. apply h_update, pres_add_nodes_from. Qed.

Lemma h_add_edges_from (G : loc) (hb : heap) (s : string) (es : list (node * node)) :
  hoare (holds G hb s) (add_edges_from G es) (fun _ => holds G hb s).
Proof. apply h_update, pres_add_edges_from. Qed.

Lemma h_add_edge (G : loc) (hb : heap) (s : string) (u v : node) :
  hoare (holds G hb s) (add_edge G u v) (fun _ => holds G hb s).
Proof. apply h_update, pres_add_edge. Qed.

Lemma h_gen_ret (cu : option loc) (h0 : heap) (s : string) (G : loc) :
  G = target cu h0 ->
  hoare (holds G (base cu h0) s) (ret G)
        (fun G' h => G' = target cu h0 /\ holds G' (base cu h0) s h).
Proof. intros ->. apply h_ret. auto. Qed.

End Logic.

(* ================================================================== *)
(** * What every generator does to its container *)

Module Specs.

Import GrFacts HeapFacts Logic.

Ltac hinv :=
  lazymatch goal with
  | |- hoare _ (bind _ _) _ => eapply h_seq; [ hinv | intros; hinv ]
  | |- hoare _ (ret _) _ => apply h_ret_inv
  | |- hoare _ (raise _) _ => apply h_raise
  | |- hoare _ (when _ _) _ => apply h_when; hinv
  | |- hoare _ (for_ _ _) _ => apply h_for; intros; hinv
  | |- hoare _ (for_acc _ _ _) _ => apply h_for_acc; intros; hinv
  | |- hoare _ (if _ then raise _ else ret tt) _ => apply h_check
  | |- hoare _ (add_edges_from _ _) _ => apply h_add_edges_from
  | |- hoare _ (add_nodes_from _ _) _ => apply h_add_nodes_from
  | |- hoare _ (add_nodes_from_attr _ _ _) _ => apply h_add_nodes_from_attr
  | |- hoare _ (add_edge _ _ _) _ => apply h_add_edge
  | |- hoare _ (read _ _) _ => apply h_read
  | |- hoare _ (item _ _) _ => apply h_item
  | |- hoare _ (item_last _) _ => apply h_item_last
  end.

Ltac hstep :=
  lazymatch goal with
  | |- hoare _ (bind (set_name _ _) _) _ =>
      eapply h_seq; [ apply h_set_name | intros ? ]
  | |- hoare _ (bind _ _) _ => eapply h_seq; [ hinv | intros ? ]
  | |- hoare _ (ret _) _ => apply h_gen_ret; reflexivity
  end.

Ltac htop := repeat hstep.

Ltac hcall L :=
  eapply h_bind; [ apply L; assumption | intros ?G; apply h_pure; intros -> ].

Lemma resolved (n : NodeSpec) : nodes_or_number n = (n, snd (nodes_or_number n)).
Proof. destruct n; reflexivity. Qed.

Lemma holds_place (cu : option loc) (h0 : heap) (g : Graph) :
  valid cu h0 ->
  directed g = directed (start cu h0) ->
  multigraph g = multigraph (start cu h0) ->
  holds (target cu h0) (base cu h0) (name g) (place cu h0 g).
Proof.
  intros Hv Hd Hm. destruct cu as [l |]; simpl in *.
  - unfold holds. rewrite length_store. repeat split; auto.
    + intros l' Hl. now apply fetch_store_other.
    + now rewrite fetch_store_same.
    + now rewrite fetch_store_same.
    + now rewrite fetch_store_same.
  - unfold holds. rewrite !length_app, !fetch_new. simpl.
    repeat split; auto; try lia.
    intros l Hl. unfold fetch.
    destruct (Nat.lt_ge_cases l (length h0)).
    + now rewrite !app_nth1.
    + rewrite !nth_overflow; [reflexivity | |]; rewrite length_app; simpl; lia.
Qed.

Lemma empty_graph_spec (n : NodeSpec) (cu : option loc) (h0 : heap) :
  valid cu h0 ->
  gen_spec cu h0 ("empty_graph(" ++ str_spec n ++ ")")%string (empty_graph n cu).
Proof.
  intros Hv h h' G -> E. rewrite run_empty_graph in E by exact Hv.
  injection E as <- <-. split; [reflexivity |].
  set (g := Gr.add_nodes_from _ [] _).
  assert (N : name g = ("empty_graph(" ++ str_spec n ++ ")")%string).
  { unfold g. rewrite (proj2 (proj2 (flags_add_nodes_from _ _ _))). reflexivity. }
  rewrite <- N. apply holds_place; [exact Hv | |].
  - apply FillFacts.directed_fill.
  - apply FillFacts.multigraph_fill.
Qed.

Lemma h_reject_directed (P : heap -> Prop) (cu : option loc) :
  hoare P (reject_directed cu) (fun _ => P).
Proof.
  unfold reject_directed, is_directed. destruct cu; [| now apply h_ret].
  apply (h_seq P P); [apply h_read | intros d; apply h_check].
Qed.

Lemma complete_graph_spec (n : NodeSpec) (cu : option loc) (h0 : heap) :
  valid cu h0 ->
  gen_spec cu h0 ("complete_graph(" ++ str_spec n ++ ")")%string (complete_graph n cu).
Proof.
  intros Hv. unfold gen_spec, complete_graph. rewrite (resolved n).
  hcall empty_graph_spec. unfold is_directed. htop.
Qed.

Lemma cycle_graph_spec (n : NodeSpec) (cu : option loc) (h0 : heap) :
  valid cu h0 ->
  gen_spec cu h0 ("cycle_graph(" ++ str_spec n ++ ")")%string (cycle_graph n cu).
Proof.
  intros Hv. unfold gen_spec, cycle_graph. rewrite (resolved n).
  hcall empty_graph_spec. htop.
Qed.

Lemma path_graph_spec (n : NodeSpec) (cu : option loc) (h0 : heap) :
  valid cu h0 ->
  gen_spec cu h0 ("path_graph(" ++ str_spec n ++ ")")%string (path_graph n cu).
Proof.
  intros Hv. unfold gen_spec, path_graph. rewrite (resolved n).
  hcall empty_graph_spec. htop.
Qed.

Lemma star_graph_spec (n : NodeSpec) (cu : option loc) (h0 : heap) :
  valid cu h0 ->
  gen_spec cu h0 ("star_graph(" ++ str_spec n ++ ")")%string (star_graph n cu).
Proof.
  intros Hv. unfold gen_spec, star_graph. rewrite (resolved n). cbv zeta.
  eapply h_seq; [apply h_item | intros first].
  hcall empty_graph_spec. unfold is_directed. htop.
Qed.

Lemma full_rary_tree_spec (r n : Z) (cu : option loc) (h0 : heap) :
  valid cu h0 ->
  gen_spec cu h0 ("empty_graph(" ++ str_int n ++ ")")%string (full_rary_tree r n cu).
Proof.
  intros Hv. unfold gen_spec, full_rary_tree.
  hcall empty_graph_spec. htop.
Qed.

Lemma ladder_graph_spec (n : Z) (cu : option loc) (h0 : heap) :
  valid cu h0 ->
  gen_spec cu h0 ("ladder_graph_(" ++ str_int n ++ ")")%string (ladder_graph n cu).
Proof.
  intros Hv. unfold gen_spec, ladder_graph.
  eapply h_seq; [apply h_reject_directed | intros _].
  hcall empty_graph_spec. htop.
Qed.

Lemma circular_ladder_graph_spec (n : Z) (cu : option loc) (h0 : heap) :
  valid cu h0 ->
  gen_spec cu h0 ("circular_ladder_graph(" ++ str_int n ++ ")")%string
           (circular_ladder_graph n cu).
Proof.
  intros Hv. unfold gen_spec, circular_ladder_graph.
  hcall ladder_graph_spec. htop.
Qed.

Lemma barbell_graph_spec (m1 m2 : Z) (cu : option loc) (h0 : heap) :
  valid cu h0 ->
  gen_spec cu h0 ("barbell_graph(" ++ str_int m1 ++ "," ++ str_int m2 ++ ")")%string
           (barbell_graph m1 m2 cu).
Proof.
  intros Hv. unfold gen_spec, barbell_graph.
  eapply h_seq; [apply h_reject_directed | intros _].
  eapply h_seq; [apply h_check | intros _].
  eapply h_seq; [apply h_check | intros _].
  hcall complete_graph_spec. htop.
Qed.

Lemma circulant_graph_spec (n : Z) (offsets : list Z) (cu : option loc) (h0 : heap) :
  valid cu h0 ->
  gen_spec cu h0
           ("circulant_graph(" ++ str_int n ++ ", ["
              ++ join ", " (map str_int offsets) ++ "])")%string
           (circulant_graph n offsets cu).
Proof.
  intros Hv. unfold gen_spec, circulant_graph.
  hcall empty_graph_spec. htop.
Qed.

Lemma dorogovtsev_goltsev_mendes_graph_spec (n : Z) (cu : option loc) (h0 : heap) :
  valid cu h0 ->
  gen_spec cu h0 "Dorogovtsev-Goltsev-Mendes Graph"%string
           (dorogovtsev_goltsev_mendes_graph n cu).
Proof.
  intros Hv. unfold gen_spec, dorogovtsev_goltsev_mendes_graph.
  eapply (h_seq _ (fun h => h = h0)).
  { destruct cu; [| now apply h_ret]. unfold is_directed, is_multigraph.
    hinv. }
  intros _. hcall empty_graph_spec.
  eapply h_seq; [apply h_set_name | intros _].
  eapply h_seq; [hinv | intros _].
  destruct (n =? 0); [apply h_gen_ret; reflexivity |].
  unfold edges. htop.
Qed.

Lemma null_graph_spec (cu : option loc) (h0 : heap) :
  valid cu h0 -> gen_spec cu h0 "null_graph()"%string (null_graph cu).
Proof.
  intros Hv. unfold gen_spec, null_graph. hcall empty_graph_spec. htop.
Qed.

Lemma trivial_graph_spec (cu : option loc) (h0 : heap) :
  valid cu h0 -> gen_spec cu h0 "trivial_graph()"%string (trivial_graph cu).
Proof.
  intros Hv. unfold gen_spec, trivial_graph. hcall empty_graph_spec. htop.
Qed.

Lemma wheel_graph_spec (n : NodeSpec) (cu : option loc) (h0 : heap) :
  valid cu h0 ->
  gen_spec cu h0 ("wheel_graph(" ++ str_spec n ++ ")")%string (wheel_graph n cu).
Proof.
  intros Hv. unfold gen_spec, wheel_graph. rewrite (resolved n).
  assert (W : hoare (fun h => h = h0)
                    (G <- star_graph (Explicit (snd (nodes_or_number n))) cu;;
                     set_name G ("wheel_graph(" ++ str_spec n ++ ")");;
                     k <- len_graph G;;
                     when (2 <? k)
                          (add_edges_from G (pairwise (tl (snd (nodes_or_number n))));;
                           last <- item_last (snd (nodes_or_number n));;
                           second <- item (snd (nodes_or_number n)) 1;;
                           add_edge G last second);;
                     ret G)
                    (fun G h => G = target cu h0
                                /\ holds G (base cu h0)
                                         ("wheel_graph(" ++ str_spec n ++ ")")%string h)).
  { hcall star_graph_spec. unfold len_graph. htop. }
  destruct n as [k | l]; [| exact W].
  destruct k; try exact W.
  hcall empty_graph_spec. htop.
Qed.

Lemma balanced_tree_spec (r h : Z) (cu : option loc) (h0 : heap) :
  valid cu h0 ->
  gen_spec cu h0
           ("empty_graph("
              ++ str_int (if (r =? 1)%Z then (h + 1)%Z
                          else ((1 - r ^ (h + 1)) / (1 - r))%Z)
              ++ ")")%string
           (balanced_tree r h cu).
Proof. intros Hv. unfold balanced_tree. now apply full_rary_tree_spec. Qed.

Lemma grid_2d_graph_spec (m n : NodeSpec) (periodic : bool) (cu : option loc)
      (h0 : heap) :
  valid cu h0 ->
  gen_spec cu h0
           (if periodic
            then "periodic_grid_2d_graph(" ++ str_resolved m ++ ","
                   ++ str_resolved n ++ ")"
            else "grid_2d_graph(" ++ str_spec m ++ ", " ++ str_spec n ++ ")")%string
           (grid_2d_graph m n periodic cu).
Proof.
  intros Hv. unfold gen_spec, grid_2d_graph.
  hcall empty_graph_spec. rewrite (resolved m), (resolved n).
  unfold is_directed.
  eapply h_seq; [apply h_set_name | intros _].
  do 5 hstep.
  destruct periodic; unfold when at 1; [| htop].
  eapply h_seq; [| intros _; apply h_gen_ret; reflexivity].
  eapply h_seq; [hinv | intros _].
  eapply h_seq; [hinv | intros _].
  apply h_set_name.
Qed.

Lemma lollipop_graph_spec (m n : NodeSpec) (cu : option loc) (h0 : heap) :
  valid cu h0 ->
  gen_spec cu h0 ("lollipop_graph(" ++ str_spec m ++ ", " ++ str_spec n ++ ")")%string
           (lollipop_graph m n cu).
Proof.
  intros Hv. unfold gen_spec, lollipop_graph. rewrite (resolved m), (resolved n).
  cbv zeta.
  eapply (h_seq _ (fun h => h = h0)).
  { destruct (isinstance_int m); [apply h_map_int_plus | now apply h_ret]. }
  intros n_nodes.
  eapply h_seq; [apply h_reject_directed | intros _].
  eapply h_seq; [apply h_check | intros _].
  eapply h_seq; [apply h_check | intros _].
  hcall complete_graph_spec. htop.
Qed.

Lemma new_Graph_spec (h0 : heap) :
  hoare (fun h => h = h0) new_Graph
        (fun G h => G = target None h0 /\ holds G (base None h0) EmptyString h).
Proof.
  intros h h' G -> E. injection E as <- <-. split; [reflexivity |].
  simpl. unfold holds. rewrite length_app, fetch_new. simpl.
  repeat split; auto. lia.
Qed.

Lemma complete_multipartite_graph_spec (bs : list NodeSpec) (h0 : heap) :
  gen_spec None h0
           ("complete_multiparite_graph" ++ str_tuple (map str_spec bs))%string
           (complete_multipartite_graph bs).
Proof.
  unfold gen_spec, complete_multipartite_graph.
  eapply h_bind; [apply new_Graph_spec | intros G; apply h_pure; intros ->].
  eapply h_seq; [apply h_set_name | intros _].
  destruct bs as [| b bs']; [apply h_gen_ret; reflexivity |].
  eapply h_seq.
  { apply h_for. intros ib. destruct (snd ib); [apply h_raise | hinv]. }
  intros _. htop.
Qed.

Lemma turan_graph_spec (n r : Z) (h0 : heap) :
  gen_spec None h0 ("turan_graph(" ++ str_int n ++ "," ++ str_int r ++ ")")%string
           (turan_graph n r).
Proof.
  unfold gen_spec, turan_graph.
  eapply h_seq; [apply h_check | intros _].
  eapply h_bind; [apply complete_multipartite_graph_spec |
                  intros G; apply h_pure; intros ->].
  htop.
Qed.

(** ** Generators that allocate several graphs *)

Lemma extends_refl (h : heap) : extends h h.
Proof. unfold extends. repeat split; auto; lia. Qed.

Lemma extends_alloc (h0 h : heap) (g : Graph) :
  extends h0 h -> directed g = false -> multigraph g = false ->
  extends h0 (h ++ [g]) /\ fresh h0 (h ++ [g]) (length h).
Proof.
  intros (L & O & F) Hd Hm. unfold extends, fresh. rewrite length_app. simpl.
  repeat split; try lia.
  - intros l Hl. rewrite fetch_old by lia. now apply O.
  - destruct (Nat.eq_dec l (length h)) as [-> | Hne].
    + now rewrite fetch_new.
    + rewrite fetch_old by lia. apply F. lia.
  - destruct (Nat.eq_dec l (length h)) as [-> | Hne].
    + now rewrite fetch_new.
    + rewrite fetch_old by lia. apply F. lia.
Qed.

Lemma extends_holds (h0 h1 h : heap) (G : loc) (s : string) :
  extends h0 h1 -> (length h0 <= G)%nat ->
  (forall l, l <> G -> fetch h1 l = fetch h1 l) ->
  holds G h1 s h ->
  directed (fetch h1 G) = false -> multigraph (fetch h1 G) = false ->
  extends h0 h /\ fresh h0 h G /\ name (fetch h G) = s.
Proof.
  intros (L & O & F) HG _ (L' & V & O' & D & Mu & N) Hd Hm.
  unfold extends, fresh. rewrite L'. repeat split; try lia; try exact N.
  - intros l Hl. rewrite O' by lia. now apply O.
  - destruct (Nat.eq_dec l G) as [-> | Hne]; [congruence |].
    rewrite O' by exact Hne. apply F. lia.
  - destruct (Nat.eq_dec l G) as [-> | Hne]; [congruence |].
    rewrite O' by exact Hne. apply F. lia.
Qed.

(** A generator called without a container allocates one undirected simple
    graph and leaves every other object alone. *)
Lemma fresh_of_gen (h0 : heap) (s : string) (m : M loc) :
  (forall h1, gen_spec None h1 s m) ->
  hoare (extends h0) m
        (fun G h => extends h0 h /\ fresh h0 h G /\ name (fetch h G) = s).
Proof.
  intros Hm h h' G He E. destruct (Hm h h h' G eq_refl E) as [-> Hh].
  simpl in Hh. destruct (extends_alloc h0 h (Gr.blank false false) He eq_refl eq_refl)
    as [He' Hf].
  apply (extends_holds h0 (h ++ [Gr.blank false false]) h' (length h) s); auto.
  - destruct He as (L & _). simpl. exact L.
  - now rewrite fetch_new.
  - now rewrite fetch_new.
Qed.

Lemma fresh_mono (h0 h h' : heap) (G : loc) :
  fresh h0 h G -> (length h <= length h')%nat -> fresh h0 h' G.
Proof. unfold fresh. lia. Qed.

Lemma flags_cartesian_product (G H : Graph) :
  directed (Gr_cartesian_product G H) = directed G
  /\ multigraph (Gr_cartesian_product G H) = multigraph G || multigraph H.
Proof.
  unfold Gr_cartesian_product. simpl.
  rewrite !(proj1 (flags_add_edges_from _ _)),
    !(proj1 (proj2 (flags_add_edges_from _ _))),
    (proj1 (flags_add_nodes_from _ _ _)),
    (proj1 (proj2 (flags_add_nodes_from _ _ _))).
  auto.
Qed.

Lemma flags_relabel_nodes (G : Graph) (f : node -> node) :
  directed (Gr_relabel_nodes G f) = directed G
  /\ multigraph (Gr_relabel_nodes G f) = multigraph G.
Proof.
  unfold Gr_relabel_nodes.
  rewrite (proj1 (flags_add_nodes_from _ _ _)),
    (proj1 (proj2 (flags_add_nodes_from _ _ _))),
    (proj1 (flags_add_edges_from _ _)),
    (proj1 (proj2 (flags_add_edges_from _ _))).
  auto.
Qed.

Lemma func_spec (periodic : bool) (n : NodeSpec) (h0 hA : heap) :
  extends h0 hA ->
  hoare (fun h => h = hA) ((if periodic then cycle_graph else path_graph) n None)
        (fun G h => extends h0 h /\ fresh h0 h G /\ (length hA < length h)%nat).
Proof.
  intros He h h' G -> E.
  assert (S : exists s, gen_spec None hA s
                          ((if periodic then cycle_graph else path_graph) n None)).
  { destruct periodic; eexists;
      [now apply cycle_graph_spec | now apply path_graph_spec]. }
  destruct S as [s S]. destruct (S hA h' G eq_refl E) as [-> Hh].
  simpl in Hh.
  destruct (extends_alloc h0 hA (Gr.blank false false) He eq_refl eq_refl)
    as [He' Hf].
  assert (X : extends h0 h' /\ fresh h0 h' (length hA)
              /\ name (fetch h' (length hA)) = s).
  { apply (extends_holds h0 (hA ++ [Gr.blank false false])).
    - exact He'.
    - destruct He as (L & _). exact L.
    - reflexivity.
    - exact Hh.
    - now rewrite fetch_new.
    - now rewrite fetch_new. }
  destruct X as (A & B & _). split; [exact A |]. split; [exact B |].
  destruct Hh as (L & _). rewrite L, length_app. simpl. lia.
Qed.

Lemma grid_graph_spec (dim : list NodeSpec) (periodic : bool) (h0 : heap) :
  hoare (fun h => h = h0) (grid_graph dim periodic)
        (fun G h => extends h0 h /\ fresh h0 h G
                    /\ name (fetch h G)
                       = ("grid_graph(" ++ repr_list (map str_spec dim) ++ ")")%string).
Proof.
  unfold grid_graph. destruct (rev dim) as [| current_dim rest].
  - eapply h_conseq;
      [| intros h Hh; rewrite Hh; apply extends_refl | intros a h H; exact H].
    apply (fresh_of_gen h0 ("grid_graph(" ++ repr_list (map str_spec dim) ++ ")")%string).
    intros h1. unfold gen_spec.
    eapply h_bind; [apply empty_graph_spec; exact I |
                    intros G; apply h_pure; intros ->].
    htop.
  - eapply (h_bind _ (fun G h => extends h0 h /\ fresh h0 h G)).
    { eapply h_conseq;
        [ apply (func_spec periodic current_dim h0 h0), extends_refl
        | intros h H; exact H
        | intros a h H; cbv beta in H; split; apply H ]. }
    intros G0. cbv beta.
    eapply (h_bind _ (fun G h => extends h0 h /\ fresh h0 h G)).
    { revert G0. induction rest as [| d rest IH]; intros G0; simpl.
      - now apply h_ret.
      - eapply h_bind; [| intros G1; apply IH].
        (* one pass of the loop *)
        intros h h' G1 [He Hf] E. unfold bind, copy, read, alloc in E.
        simpl in E.
        destruct ((if periodic then cycle_graph else path_graph) d None
                    (h ++ [fetch h G0])) as [h1 [Gnew | e]] eqn:Ef; [| discriminate].
        destruct (extends_alloc h0 h (fetch h G0) He) as [He1 Hf1].
        { destruct He as (_ & _ & F). now apply F. }
        { destruct He as (_ & _ & F). now apply F. }
        destruct (func_spec periodic d h0 _ He1 _ _ _ eq_refl Ef) as (He2 & Hf2 & Hlen).
        unfold cartesian_product, bind, read, alloc in E. injection E as <- <-.
        destruct (flags_cartesian_product (fetch h1 Gnew) (fetch h1 (length h)))
          as [D Mu].
        destruct He2 as (L2 & O2 & F2).
        destruct (F2 Gnew Hf2) as [D1 M1].
        destruct (F2 (length h)) as [D2 M2].
        { unfold fresh in Hf1. rewrite length_app in *. simpl in *. lia. }
        apply extends_alloc; [exact (conj L2 (conj O2 F2)) | congruence |].
        rewrite Mu, M1, M2. reflexivity. }
    intros G. cbv beta.
    (* relabel, then name *)
    intros h h' H [He Hf] E. unfold bind, relabel_nodes, read, alloc in E.
    simpl in E. unfold set_name, update in E. injection E as <- <-.
    destruct (flags_relabel_nodes (fetch h G) flatten) as [D Mu].
    destruct He as (L & O & F). destruct (F G Hf) as [D1 M1].
    destruct (extends_alloc h0 h (Gr_relabel_nodes (fetch h G) flatten))
      as [He1 Hf1]; [exact (conj L (conj O F)) | congruence | congruence |].
    rewrite fetch_new, store_new.
    destruct (extends_alloc h0 h
                (Gr.set_name ("grid_graph(" ++ repr_list (map str_spec dim) ++ ")")%string
                             (Gr_relabel_nodes (fetch h G) flatten)))
      as [He2 Hf2];
      [exact (conj L (conj O F)) | simpl; congruence | simpl; congruence |].
    split; [exact He2 |]. split; [exact Hf2 |]. now rewrite fetch_new.
Qed.

Lemma hypercube_graph_spec (n : Z) (h0 : heap) :
  hoare (fun h => h = h0) (hypercube_graph n)
        (fun G h => extends h0 h /\ fresh h0 h G
                    /\ name (fetch h G) = ("hypercube_graph_(" ++ str_int n ++ ")")%string).
Proof.
  unfold hypercube_graph.
  eapply h_bind; [apply grid_graph_spec | intros G].
  intros h h' G' (He & Hf & _) E. unfold bind, set_name, update in E.
  injection E as <- <-.
  destruct He as (L & O & F). unfold fresh in Hf.
  unfold extends, fresh. rewrite length_store.
  repeat split; try lia.
  - intros l Hl. rewrite fetch_store_other by lia. now apply O.
  - destruct (Nat.eq_dec l G) as [-> | Hne].
    + rewrite fetch_store_same by lia. simpl. apply F. lia.
    + rewrite fetch_store_other by exact Hne. apply F. lia.
  - destruct (Nat.eq_dec l G) as [-> | Hne].
    + rewrite fetch_store_same by lia. simpl. apply F. lia.
    + rewrite fetch_store_other by exact Hne. apply F. lia.
  - now rewrite fetch_store_same by lia.
Qed.

End Specs.

(* ================================================================== *)
(** * A container is cleared before it is refilled *)

Module Reuse.

Import HeapFacts.

Lemma store_overflow (h : heap) (l : loc) (g : Graph) :
  (length h <= l)%nat -> store h l g = h.
Proof.
  revert l. induction h as [| x t IH]; intros [| l] H; simpl in *; auto; try lia.
  rewrite IH by lia. reflexivity.
Qed.

Lemma fetch_cleared (l : loc) (h : heap) :
  (l < length h)%nat -> fetch (cleared l h) l = Gr.clear (fetch h l).
Proof. intros H. unfold cleared. now apply fetch_store_same. Qed.

Lemma cleared_overflow (l : loc) (h : heap) :
  (length h <= l)%nat -> cleared l h = h.
Proof. intros H. unfold cleared. now apply store_overflow. Qed.

Lemma flags_cleared (l : loc) (h : heap) :
  directed (fetch (cleared l h) l) = directed (fetch h l)
  /\ multigraph (fetch (cleared l h) l) = multigraph (fetch h l).
Proof.
  destruct (Nat.lt_ge_cases l (length h)) as [H | H].
  - rewrite fetch_cleared by exact H. auto.
  - rewrite cleared_overflow by exact H. auto.
Qed.

Lemma clear_cleared (l : loc) (h : heap) : clear l (cleared l h) = clear l h.
Proof.
  unfold clear, update. f_equal.
  destruct (Nat.lt_ge_cases l (length h)) as [H | H].
  - rewrite fetch_cleared by exact H. unfold cleared. now rewrite store_store.
  - now rewrite cleared_overflow by exact H.
Qed.

(** ** Rules *)

Lemma steady_ret {A : Type} (l : loc) (a : A) : steady l (ret a).
Proof. intros h. eexists. split; reflexivity. Qed.

Lemma steady_raise {A : Type} (l : loc) (e : exn) : steady l (@raise A e).
Proof. intros h. eexists. split; reflexivity. Qed.

Lemma steady_bind {A B : Type} (l : loc) (m : M A) (k : A -> M B) :
  steady l m -> (forall a, steady l (k a)) -> steady l (bind m k).
Proof.
  intros Hm Hk h. destruct (Hm h) as [r [E1 E2]]. unfold bind. rewrite E1, E2.
  destruct r as [a | e]; [apply Hk | eexists; split; reflexivity].
Qed.

Lemma steady_check (l : loc) (b : bool) (e : exn) :
  steady l (if b then raise e else ret tt).
Proof. destruct b; [apply steady_raise | apply steady_ret]. Qed.

Lemma steady_is_directed (l : loc) : steady l (is_directed l).
Proof.
  intros h. eexists. unfold is_directed, read. split; [reflexivity |].
  now rewrite (proj1 (flags_cleared l h)).
Qed.

Lemma steady_is_multigraph (l : loc) : steady l (is_multigraph l).
Proof.
  intros h. eexists. unfold is_multigraph, read. split; [reflexivity |].
  now rewrite (proj2 (flags_cleared l h)).
Qed.

Lemma steady_reject_directed (l : loc) : steady l (reject_directed (Some l)).
Proof.
  unfold reject_directed. apply steady_bind; [apply steady_is_directed |].
  intros d. apply steady_check.
Qed.

Lemma steady_item {A : Type} (l : loc) (xs : list A) (i : nat) : steady l (item xs i).
Proof. unfold item. destruct (nth_error xs i); [apply steady_ret | apply steady_raise]. Qed.

Lemma steady_map_int_plus (l : loc) (k : Z) (xs : list node) :
  steady l (map_M (int_plus k) xs).
Proof.
  induction xs as [| x t IH]; simpl; [apply steady_ret |].
  apply steady_bind.
  - unfold int_plus. destruct x; [apply steady_ret | apply steady_raise].
  - intros y. apply steady_bind; [exact IH | intros ys; apply steady_ret].
Qed.

Lemma resets_bind {A B : Type} (l : loc) (m : M A) (k : A -> M B) :
  resets l m -> resets l (bind m k).
Proof. intros H h. unfold bind. now rewrite H. Qed.

Lemma resets_ok {A : Type} (l : loc) (m : M A) : resets l m -> cleared_ok l m.
Proof. intros H h h' a E. now rewrite H. Qed.

Lemma ok_bind {A B : Type} (l : loc) (m : M A) (k : A -> M B) :
  cleared_ok l m -> cleared_ok l (bind m k).
Proof.
  intros H h h' b E. unfold bind in *.
  destruct (m h) as [h1 [a | e]] eqn:Em; [| discriminate].
  now rewrite (H h h1 a Em).
Qed.

Lemma ok_after {A B : Type} (l : loc) (m : M A) (k : A -> M B) :
  steady l m -> (forall a, cleared_ok l (k a)) -> cleared_ok l (bind m k).
Proof.
  intros Hm Hk h h' b E. unfold bind in *. destruct (Hm h) as [r [E1 E2]].
  rewrite E1 in E. rewrite E2. destruct r as [a | e]; [| discriminate].
  now apply Hk.
Qed.

(** ** The generators *)

Lemma resets_empty_graph (n : NodeSpec) (l : loc) : resets l (empty_graph n (Some l)).
Proof.
  unfold empty_graph. cbv iota. apply resets_bind, resets_bind.
  intros h. apply clear_cleared.
Qed.

Ltac from_empty := apply resets_ok, resets_bind, resets_empty_graph.

Lemma empty_graph_ok (n : NodeSpec) (l : loc) : cleared_ok l (empty_graph n (Some l)).
Proof. apply resets_ok, resets_empty_graph. Qed.

Lemma complete_graph_ok (n : NodeSpec) (l : loc) :
  cleared_ok l (complete_graph n (Some l)).
Proof. unfold complete_graph. rewrite (Specs.resolved n). from_empty. Qed.

Lemma cycle_graph_ok (n : NodeSpec) (l : loc) : cleared_ok l (cycle_graph n (Some l)).
Proof. unfold cycle_graph. rewrite (Specs.resolved n). from_empty. Qed.

Lemma path_graph_ok (n : NodeSpec) (l : loc) : cleared_ok l (path_graph n (Some l)).
Proof. unfold path_graph. rewrite (Specs.resolved n). from_empty. Qed.

Lemma star_graph_ok (n : NodeSpec) (l : loc) : cleared_ok l (star_graph n (Some l)).
Proof.
  unfold star_graph. rewrite (Specs.resolved n). cbv zeta.
  apply ok_after; [apply steady_item | intros first; from_empty].
Qed.

Lemma full_rary_tree_ok (r n : Z) (l : loc) :
  cleared_ok l (full_rary_tree r n (Some l)).
Proof. unfold full_rary_tree. from_empty. Qed.

Lemma balanced_tree_ok (r h : Z) (l : loc) :
  cleared_ok l (balanced_tree r h (Some l)).
Proof. unfold balanced_tree. apply full_rary_tree_ok. Qed.

Lemma barbell_graph_ok (m1 m2 : Z) (l : loc) :
  cleared_ok l (barbell_graph m1 m2 (Some l)).
Proof.
  unfold barbell_graph.
  apply ok_after; [apply steady_reject_directed | intros _].
  apply ok_after; [apply steady_check | intros _].
  apply ok_after; [apply steady_check | intros _].
  apply ok_bind, complete_graph_ok.
Qed.

Lemma ladder_graph_ok (n : Z) (l : loc) : cleared_ok l (ladder_graph n (Some l)).
Proof.
  unfold ladder_graph.
  apply ok_after; [apply steady_reject_directed | intros _]. from_empty.
Qed.

Lemma circular_ladder_graph_ok (n : Z) (l : loc) :
  cleared_ok l (circular_ladder_graph n (Some l)).
Proof. unfold circular_ladder_graph. apply ok_bind, ladder_graph_ok. Qed.

Lemma circulant_graph_ok (n : Z) (offsets : list Z) (l : loc) :
  cleared_ok l (circulant_graph n offsets (Some l)).
Proof. unfold circulant_graph. from_empty. Qed.

Lemma dorogovtsev_goltsev_mendes_graph_ok (n : Z) (l : loc) :
  cleared_ok l (dorogovtsev_goltsev_mendes_graph n (Some l)).
Proof.
  unfold dorogovtsev_goltsev_mendes_graph.
  apply ok_after; [| intros _; from_empty].
  apply steady_bind; [apply steady_is_directed | intros d].
  apply steady_bind; [apply steady_check | intros _].
  apply steady_bind; [apply steady_is_multigraph | intros m]. apply steady_check.
Qed.

Lemma grid_2d_graph_ok (m n : NodeSpec) (periodic : bool) (l : loc) :
  cleared_ok l (grid_2d_graph m n periodic (Some l)).
Proof. unfold grid_2d_graph. from_empty. Qed.

Lemma lollipop_graph_ok (m n : NodeSpec) (l : loc) :
  cleared_ok l (lollipop_graph m n (Some l)).
Proof.
  unfold lollipop_graph. rewrite (Specs.resolved m), (Specs.resolved n). cbv zeta.
  apply ok_after.
  { destruct (isinstance_int m); [apply steady_map_int_plus | apply steady_ret]. }
  intros n_nodes.
  apply ok_after; [apply steady_reject_directed | intros _].
  apply ok_after; [apply steady_check | intros _].
  apply ok_after; [apply steady_check | intros _].
  apply ok_bind, complete_graph_ok.
Qed.

Lemma null_graph_ok (l : loc) : cleared_ok l (null_graph (Some l)).
Proof. unfold null_graph. from_empty. Qed.

Lemma trivial_graph_ok (l : loc) : cleared_ok l (trivial_graph (Some l)).
Proof. unfold trivial_graph. from_empty. Qed.

Lemma wheel_graph_ok (n : NodeSpec) (l : loc) : cleared_ok l (wheel_graph n (Some l)).
Proof.
  unfold wheel_graph. rewrite (Specs.resolved n).
  destruct n as [k | xs]; [destruct k |]; try from_empty;
    apply ok_bind, star_graph_ok.
Qed.

(** ** What the caller sees *)

Lemma reuse_some (s : string) (m : M loc) (l : loc) (h h' : heap) (G : loc) :
  gen_spec (Some l) h s m -> cleared_ok l m ->
  m h = (h', Ok G) ->
  G = l /\ length h' = length h
  /\ (forall l', l' <> l -> fetch h' l' = fetch h l')
  /\ directed (fetch h' l) = directed (fetch h l)
  /\ multigraph (fetch h' l) = multigraph (fetch h l)
  /\ name (fetch h' G) = s
  /\ m (cleared l h) = (h', Ok G).
Proof.
  intros Hs Hok E. destruct (Hs h h' G eq_refl E) as [-> (L & _ & O & D & Mu & N)].
  simpl in *. repeat split; auto.
Qed.

Lemma reuse_none (s : string) (m : M loc) (h h' : heap) (G : loc) :
  gen_spec None h s m ->
  m h = (h', Ok G) ->
  fresh h h' G
  /\ (forall l', (l' < length h)%nat -> fetch h' l' = fetch h l')
  /\ directed (fetch h' G) = false /\ multigraph (fetch h' G) = false
  /\ name (fetch h' G) = s.
Proof.
  intros Hs E. destruct (Hs h h' G eq_refl E) as [-> Hh]. simpl in Hh.
  destruct (Specs.extends_alloc h h (Gr.blank false false)
              (Specs.extends_refl h) eq_refl eq_refl) as [He Hf].
  destruct (Specs.extends_holds h (h ++ [Gr.blank false false]) h' (length h) s)
    as ((L & O & F) & Hf' & N); auto.
  - now rewrite fetch_new.
  - now rewrite fetch_new.
  - destruct (F (length h) Hf'). repeat split; auto; apply Hf'.
Qed.

Lemma reuse_ext (s : string) (h h' : heap) (G : loc) :
  extends h h' /\ fresh h h' G /\ name (fetch h' G) = s ->
  fresh h h' G
  /\ (forall l', (l' < length h)%nat -> fetch h' l' = fetch h l')
  /\ directed (fetch h' G) = false /\ multigraph (fetch h' G) = false
  /\ name (fetch h' G) = s.
Proof.
  intros ((L & O & F) & Hf & N). destruct (F G Hf). repeat split; auto; apply Hf.
Qed.

(** Every generator with a [create_using] parameter, called at a valid
    container or without one. *)
Lemma reuse_gen (m : option loc -> M loc) (s : string) (cu : option loc)
      (h h' : heap) (G : loc) :
  gen_spec cu h s (m cu) ->
  (forall l, cleared_ok l (m (Some l))) ->
  m cu h = (h', Ok G) ->
  name (fetch h' G) = s
  /\ match cu with
     | Some l =>
         G = l /\ length h' = length h
         /\ (forall l', l' <> l -> fetch h' l' = fetch h l')
         /\ directed (fetch h' l) = directed (fetch h l)
         /\ multigraph (fetch h' l) = multigraph (fetch h l)
         /\ m cu (cleared l h) = (h', Ok G)
     | None =>
         fresh h h' G
         /\ (forall l', (l' < length h)%nat -> fetch h' l' = fetch h l')
         /\ directed (fetch h' G) = false /\ multigraph (fetch h' G) = false
     end.
Proof.
  intros Hs Hok E. destruct cu as [l |].
  - destruct (reuse_some s (m (Some l)) l h h' G Hs (Hok l) E)
      as (A & B & C & D & F & N & K). auto 10.
  - destruct (reuse_none s (m None) h h' G Hs E) as (A & B & C & D & N). auto.
Qed.

End Reuse.

(* ================================================================== *)
(** * Every call of the public surface *)

Module Surface.

Import Reuse.

Lemma string_app_assoc (a b c : string) :
  ((a ++ b) ++ c = a ++ (b ++ c))%string.
Proof. induction a as [| x a IH]; simpl; [reflexivity | now rewrite IH]. Qed.

Lemma label_code (c : call) (s : string) : label c = Some s -> s = code_name c.
Proof.
  destruct c; simpl; try discriminate;
    try (intros E; injection E as <-; unfold spec_label, repr_list; simpl;
         rewrite ?string_app_assoc; simpl; rewrite ?string_app_assoc; reflexivity).
  destruct periodic; [discriminate |].
  intros E. injection E as <-. unfold spec_label. simpl.
  rewrite ?string_app_assoc. reflexivity.
Qed.

Ltac by_gen m SPEC OK :=
  match goal with
  | Hv : valid ?cu ?h, E : _ = (?h', Ok ?G) |- _ =>
      let R := fresh "R" in
      pose proof (reuse_gen m _ cu h h' G (SPEC cu h Hv) OK E) as R;
      destruct R as [N R]; split; [exact N |];
      destruct cu; simpl; [split; [reflexivity | exact R] | exact R]
  end.

Ltac by_fresh :=
  match goal with
  | E : raise _ _ = (_, Ok _) |- _ => discriminate E
  end.

Lemma invoke_spec (c : call) (cu : option loc) (h h' : heap) (G : loc) :
  valid cu h -> invoke c cu h = (h', Ok G) ->
  name (fetch h' G) = code_name c /\ observed c cu h h' G.
Proof.
  intros Hv E. unfold observed. destruct c; simpl in E; simpl code_name.
  - by_gen (full_rary_tree r n) (Specs.full_rary_tree_spec r n)
           (full_rary_tree_ok r n).
  - by_gen (balanced_tree r h0) (Specs.balanced_tree_spec r h0)
           (balanced_tree_ok r h0).
  - by_gen (barbell_graph m1 m2) (Specs.barbell_graph_spec m1 m2)
           (barbell_graph_ok m1 m2).
  - by_gen (complete_graph n) (Specs.complete_graph_spec n) (complete_graph_ok n).
  - by_gen (circular_ladder_graph n) (Specs.circular_ladder_graph_spec n)
           (circular_ladder_graph_ok n).
  - by_gen (circulant_graph n offsets) (Specs.circulant_graph_spec n offsets)
           (circulant_graph_ok n offsets).
  - by_gen (cycle_graph n) (Specs.cycle_graph_spec n) (cycle_graph_ok n).
  - by_gen (dorogovtsev_goltsev_mendes_graph n)
           (Specs.dorogovtsev_goltsev_mendes_graph_spec n)
           (dorogovtsev_goltsev_mendes_graph_ok n).
  - by_gen (empty_graph n) (Specs.empty_graph_spec n) (empty_graph_ok n).
  - by_gen (grid_2d_graph m n periodic) (Specs.grid_2d_graph_spec m n periodic)
           (grid_2d_graph_ok m n periodic).
  - destruct cu; [by_fresh |].
    pose proof (Specs.grid_graph_spec dim periodic h h h' G eq_refl E) as X.
    apply reuse_ext in X. destruct X as (A & B & C & D & N). auto.
  - destruct cu; [by_fresh |].
    pose proof (Specs.hypercube_graph_spec n h h h' G eq_refl E) as X.
    apply reuse_ext in X. destruct X as (A & B & C & D & N). auto.
  - by_gen (ladder_graph n) (Specs.ladder_graph_spec n) (ladder_graph_ok n).
  - by_gen (lollipop_graph m n) (Specs.lollipop_graph_spec m n)
           (lollipop_graph_ok m n).
  - by_gen null_graph Specs.null_graph_spec null_graph_ok.
  - by_gen (path_graph n) (Specs.path_graph_spec n) (path_graph_ok n).
  - by_gen (star_graph n) (Specs.star_graph_spec n) (star_graph_ok n).
  - by_gen trivial_graph Specs.trivial_graph_spec trivial_graph_ok.
  - destruct cu; [by_fresh |].
    destruct (reuse_none _ _ h h' G (Specs.turan_graph_spec n r h) E)
      as (A & B & C & D & N). auto.
  - by_gen (wheel_graph n) (Specs.wheel_graph_spec n) (wheel_graph_ok n).
  - destruct cu; [by_fresh |].
    destruct (reuse_none _ _ h h' G
                (Specs.complete_multipartite_graph_spec block_sizes h) E)
      as (A & B & C & D & N). auto.
Qed.

Lemma invoke_without_parameter (c : call) (l : loc) (h : heap) :
  takes_create_using c = false -> invoke c (Some l) h = (h, Raise TypeError).
Proof. destruct c; simpl; try discriminate; reflexivity. Qed.

End Surface.

(** Claim C2 (as amended).  Every public generator except
    [complete_multipartite_graph], [turan_graph], [grid_graph] and
    [hypercube_graph] accepts an optional caller-supplied graph container;
    when one is supplied and the call returns, the same instance is
    returned, with its directed/multigraph variant preserved, no other
    object touched, and holding what the call leaves in a container that
    was cleared beforehand; when none is supplied, the graph returned is a
    newly allocated simple undirected one.  The four generators named
    above have no container parameter (a call that passes one is rejected
    and the container is left as it was); they always return a newly
    allocated simple undirected graph. *)
Theorem create_using_is_cleared_and_reused :
  (forall (c : call) (create_using : option loc) (h h' : heap) (G : loc),
      valid create_using h ->
      invoke c create_using h = (h', Ok G) ->
      match create_using with
      | Some l =>
          takes_create_using c = true
          /\ G = l /\ length h' = length h
          /\ (forall l', l' <> l -> fetch h' l' = fetch h l')
          /\ directed (fetch h' l) = directed (fetch h l)
          /\ multigraph (fetch h' l) = multigraph (fetch h l)
          /\ invoke c create_using (cleared l h) = (h', Ok G)
      | None =>
          fresh h h' G
          /\ (forall l', (l' < length h)%nat -> fetch h' l' = fetch h l')
          /\ directed (fetch h' G) = false /\ multigraph (fetch h' G) = false
      end)
  /\ (forall (c : call) (l : loc) (h : heap),
         takes_create_using c = false ->
         invoke c (Some l) h = (h, Raise TypeError)).
Proof.
  split.
  - intros c cu h h' G Hv E.
    destruct (Surface.invoke_spec c cu h h' G Hv E) as [_ H]. exact H.
  - apply Surface.invoke_without_parameter.
Qed.

Lemma create_using_is_cleared_and_reused_witness :
  let c := Call_complete_graph (Count 3) in
  let h := [old_digraph] in
  let h' := fst (invoke c (Some 0%nat) h) in
  takes_create_using c = true
  /\ 0%nat = 0%nat /\ length h' = length h
  /\ (forall l', l' <> 0%nat -> fetch h' l' = fetch h l')
  /\ directed (fetch h' 0%nat) = directed (fetch h 0%nat)
  /\ multigraph (fetch h' 0%nat) = multigraph (fetch h 0%nat)
  /\ invoke c (Some 0%nat) (cleared 0%nat h) = (h', Ok 0%nat).
Proof.
  intros c h h'.
  apply (proj1 create_using_is_cleared_and_reused c (Some 0%nat) h h' 0%nat).
  - simpl. lia.
  - vm_compute. reflexivity.
Defined.

(** Claim C2 as stated fails for the generators without a container
    parameter: [turan_graph(4, 2)] cannot be given a container (the call is
    rejected and the container keeps its contents), and called as it is
    defined it returns a new object and leaves the caller's graph alone. *)
Lemma turan_graph_takes_no_container :
  invoke (Call_turan_graph 4 2) (Some 0%nat) [old_graph]
  = ([old_graph], Raise TypeError)
  /\ exists h',
      invoke (Call_turan_graph 4 2) None [old_graph] = (h', Ok 1%nat)
      /\ fetch h' 0%nat = old_graph.
Proof.
  split; [reflexivity |]. eexists. split; [vm_compute; reflexivity |].
  reflexivity.
Qed.

(** Claim C9 (as amended).  Every generator other than the two tree
    generators, the periodic 2d grid and [complete_multipartite_graph]
    gives the returned graph the label listed in [label]: the format
    ["<family_name>(<param1>, <param2>, ...)"] with the parameters rendered
    as given for complete, cycle, path, star, wheel, empty, null, trivial,
    circular ladder, circulant, lollipop, grid and non-periodic 2d grid
    graphs; ["ladder_graph_(n)"] and ["hypercube_graph_(n)"] for ladder
    and hypercube graphs; a fixed title for the
    Dorogovtsev-Goltsev-Mendes graph; ["barbell_graph(m1,m2)"] and
    ["turan_graph(n,r)"], without a space, for barbell and Turan graphs. *)
Theorem generator_labels (c : call) (create_using : option loc) (h h' : heap)
        (G : loc) (s : string) :
  valid create_using h ->
  invoke c create_using h = (h', Ok G) ->
  label c = Some s ->
  name (fetch h' G) = s.
Proof.
  intros Hv E L. destruct (Surface.invoke_spec c create_using h h' G Hv E) as [N _].
  rewrite N. symmetry. now apply Surface.label_code.
Qed.

Lemma generator_labels_witness :
  name (fetch (fst (invoke (Call_circulant_graph 10 [1; 2]) None [])) 0%nat)
  = "circulant_graph(10, [1, 2])"%string.
Proof.
  apply (generator_labels (Call_circulant_graph 10 [1; 2]) None []
                          (fst (invoke (Call_circulant_graph 10 [1; 2]) None []))
                          0%nat "circulant_graph(10, [1, 2])"%string).
  - exact I.
  - vm_compute. reflexivity.
  - vm_compute. reflexivity.
Defined.

(** Claim C9 as stated fails for the four generators it names: their
    labels are not of the format ["<family_name>(<params>)"]. *)
Lemma labels_not_in_spec_format :
  (exists h' G,
      ladder_graph 3 None [] = (h', Ok G)
      /\ name (fetch h' G) = "ladder_graph_(3)"%string
      /\ name (fetch h' G) <> spec_label "ladder_graph" [str_int 3])
  /\ (exists h' G,
         hypercube_graph 2 [] = (h', Ok G)
         /\ name (fetch h' G) = "hypercube_graph_(2)"%string
         /\ name (fetch h' G) <> spec_label "hypercube_graph" [str_int 2])
  /\ (exists h' G,
         dorogovtsev_goltsev_mendes_graph 1 None [] = (h', Ok G)
         /\ name (fetch h' G) = "Dorogovtsev-Goltsev-Mendes Graph"%string
         /\ name (fetch h' G)
            <> spec_label "dorogovtsev_goltsev_mendes_graph" [str_int 1])
  /\ (exists h' G,
         complete_multipartite_graph [Count 1; Count 2; Count 3] [] = (h', Ok G)
         /\ name (fetch h' G) = "complete_multiparite_graph(1, 2, 3)"%string
         /\ name (fetch h' G)
            <> spec_label "complete_multipartite_graph"
                          [str_int 1; str_int 2; str_int 3]).
Proof.
  repeat split; do 2 eexists;
    (split; [vm_compute; reflexivity |]);
    (split; [vm_compute; reflexivity | vm_compute; discriminate]).
Qed.

(* ================================================================== *)
(** * Adjacency after an insertion *)

Module Adjacency.

Import GrFacts.

Lemma has_edge_add_edge (a b u v : node) (G : Graph) :
  Gr.has_edge (Gr.add_edge a b G) u v
  = Gr.has_edge G u v || Gr.joins (directed G) u v (a, b).
Proof.
  unfold Gr.has_edge at 1. destruct (flags_add_edge a b G) as (Fd & _ & _).
  rewrite Fd, edge_list_add_edge.
  destruct (multigraph G || negb (Gr.has_edge G a b)) eqn:E.
  - rewrite existsb_app. simpl. now rewrite orb_false_r.
  - fold (Gr.has_edge G u v).
    destruct (Gr.joins (directed G) u v (a, b)) eqn:J; [| now rewrite orb_false_r].
    rewrite orb_true_r. apply orb_false_iff in E. destruct E as [_ E].
    apply negb_false_iff in E.
    unfold Gr.joins in J. simpl in J.
    rewrite orb_true_iff, !andb_true_iff, !node_eqb_eq, negb_true_iff in J.
    destruct J as [[-> ->] | [[Hd ->] ->]]; [exact E |].
    rewrite CycleGraph.has_edge_sym by exact Hd. exact E.
Qed.

Lemma has_edge_add_edges_from (es : list (node * node)) (G : Graph) (u v : node) :
  Gr.has_edge (Gr.add_edges_from es G) u v
  = Gr.has_edge G u v || existsb (Gr.joins (directed G) u v) es.
Proof.
  unfold Gr.add_edges_from. revert G.
  induction es as [| e t IH]; intros G; simpl.
  - now rewrite orb_false_r.
  - rewrite IH, has_edge_add_edge.
    destruct (flags_add_edge (fst e) (snd e) G) as (Fd & _ & _). rewrite Fd.
    destruct e as [a b]. simpl. now rewrite orb_assoc.
Qed.

Lemma has_edge_add_nodes_from (vs : list node) (a : attrs) (G : Graph) (u v : node) :
  Gr.has_edge (Gr.add_nodes_from vs a G) u v = Gr.has_edge G u v.
Proof.
  unfold Gr.has_edge. rewrite edge_list_add_nodes_from.
  now destruct (flags_add_nodes_from vs a G) as (-> & _).
Qed.

Lemma joins_int (d : bool) (a b x y : Z) :
  Gr.joins d (NInt a) (NInt b) (NInt x, NInt y)
  = ((a =? x) && (b =? y)) || (negb d && (b =? x) && (a =? y)).
Proof. reflexivity. Qed.

End Adjacency.

(* ================================================================== *)
(** * empty_graph, path_graph and cycle_graph *)

Module Lines.

Import GrFacts HeapFacts FillFacts ListFacts CountFacts.

Lemma path_graph_run (n : NodeSpec) (cu : option loc) (h : heap) :
  valid cu h ->
  path_graph n cu h
  = (place cu h
       (Gr.add_edges_from (pairwise (snd (nodes_or_number n)))
          (Gr.set_name ("path_graph(" ++ str_spec n ++ ")")%string
             (Gr.add_nodes_from (snd (nodes_or_number n)) []
                (Gr.set_name
                   ("empty_graph("
                      ++ str_spec (Explicit (snd (nodes_or_number n))) ++ ")")%string
                   (start cu h))))),
     Ok (target cu h)).
Proof.
  intros Hv. unfold path_graph.
  assert (N : nodes_or_number n = (n, snd (nodes_or_number n))) by (destruct n; reflexivity).
  rewrite N. cbv iota beta. simpl snd.
  rewrite bind_empty_graph by exact Hv.
  unfold set_name, add_edges_from. rewrite !bind_update by exact Hv. reflexivity.
Qed.

(** The edges [(k, k+1)] for [a <= k < b]. *)
Lemma steps_simple (a b : Z) :
  simple_edges (int_edges (map (fun k => (k, k + 1)) (range a b))).
Proof.
  apply ascending_simple.
  - apply nodup_int_edges, Injective_map_NoDup; [| apply nodup_range].
    intros x y E. congruence.
  - apply ascending_int_edges, Forall_map, Forall_forall. intros x _. simpl. lia.
Qed.

Lemma pairwise_int_range (a b : Z) :
  pairwise (int_nodes (range a b))
  = int_edges (map (fun k => (k, k + 1)) (range a (b - 1))).
Proof.
  unfold int_nodes. rewrite Grid.pairwise_map, Grid.pairwise_range.
  unfold int_edges. rewrite !map_map. reflexivity.
Qed.

Lemma endpoints_steps (a b : Z) (x : node) :
  In x (endpoints (int_edges (map (fun k => (k, k + 1)) (range a b)))) ->
  exists z, x = NInt z /\ a <= z <= b /\ a < b.
Proof.
  unfold endpoints, int_edges. rewrite map_map, in_flat_map.
  intros [e [He Hx]]. apply in_map_iff in He. destruct He as [k [<- Hk]].
  apply in_range in Hk. simpl in Hx.
  destruct Hx as [<- | [<- | []]]; eexists; (split; [reflexivity | lia]).
Qed.

(** Edge ends at an integer node, counted over integer edges. *)
Lemma cnt_fst_int (k : Z) (L : list (Z * Z)) :
  cnt (fun e => node_eqb (NInt k) (fst e)) (int_edges L)
  = cnt (fun p => k =? fst p) L.
Proof. unfold int_edges. now rewrite cnt_map. Qed.

Lemma cnt_snd_int (k : Z) (L : list (Z * Z)) :
  cnt (fun e => node_eqb (NInt k) (snd e)) (int_edges L)
  = cnt (fun p => k =? snd p) L.
Proof. unfold int_edges. now rewrite cnt_map. Qed.

Lemma degree_int (G : Graph) (L : list (Z * Z)) (k : Z) :
  edge_list G = int_edges L ->
  Gr.degree G (NInt k)
  = (cnt (fun p => (k =? fst p)%Z) L + cnt (fun p => (k =? snd p)%Z) L)%nat.
Proof.
  intros E. now rewrite degree_cnt, E, cnt_fst_int, cnt_snd_int.
Qed.

Lemma cnt_steps (k a b : Z) :
  (cnt (fun p => (k =? fst p)%Z) (map (fun i => (i, i + 1)%Z) (range a b))
   + cnt (fun p => (k =? snd p)%Z) (map (fun i => (i, i + 1)%Z) (range a b)))%nat
  = (ind a b k + ind (a + 1) (b + 1) k)%nat.
Proof.
  rewrite !cnt_map. cbn [fst snd].
  now rewrite Grid.cnt_range_plain, Grid.cnt_range_point.
Qed.

End Lines.





Module Cycles.

Import GrFacts HeapFacts FillFacts ListFacts CountFacts.

Lemma simple_int_edges (L : list (Z * Z)) :
  NoDup L -> (forall a b, In (a, b) L -> ~ In (b, a) L) ->
  simple_edges (int_edges L).
Proof.
  intros Hn Hr. split; [now apply nodup_int_edges |].
  intros u v H1 H2. unfold int_edges in H1, H2.
  apply in_map_iff in H1. destruct H1 as [[a b] [E1 H1]].
  apply in_map_iff in H2. destruct H2 as [[c d] [E2 H2]].
  simpl in E1, E2. injection E1 as <- <-. injection E2 as E3 E4. subst c d.
  now apply (Hr a b).
Qed.

Ltac split_pair E :=
  apply pair_equal_spec in E; destruct E as [? ?]; subst.

Lemma int_edges_app (L1 L2 : list (Z * Z)) :
  int_edges (L1 ++ L2) = (int_edges L1 ++ int_edges L2)%list.
Proof. unfold int_edges. apply map_app. Qed.

Lemma in_steps (a b x y : Z) :
  In (x, y) (map (fun k => (k, k + 1)) (range a b)) <-> a <= x < b /\ y = x + 1.
Proof.
  rewrite in_map_iff. split.
  - intros [k [E Hk]]. injection E as <- <-. apply in_range in Hk. lia.
  - intros [H ->]. exists x. split; [reflexivity | now apply in_range].
Qed.

Lemma nodup_steps (a b : Z) : NoDup (map (fun k => (k, k + 1)) (range a b)).
Proof.
  apply Injective_map_NoDup; [| apply nodup_range]. intros x y E. congruence.
Qed.

Lemma cycle_graph_run (n : Z) (cu : option loc) (h : heap) :
  0 < n -> valid cu h ->
  cycle_graph (Count n) cu h
  = (place cu h
       (Gr.add_edge (NInt (n - 1)) (NInt 0)
          (Gr.add_edges_from (pairwise (int_nodes (range 0 n)))
             (Gr.set_name ("cycle_graph(" ++ str_int n ++ ")")%string
                (Gr.add_nodes_from (int_nodes (range 0 n)) []
                   (Gr.set_name
                      ("empty_graph("
                         ++ str_spec (Explicit (int_nodes (range 0 n))) ++ ")")%string
                      (start cu h)))))),
     Ok (target cu h)).
Proof.
  intros Hn Hv. unfold cycle_graph.
  change (nodes_or_number (Count n)) with (Count n, int_nodes (range 0 n)).
  cbv iota beta. rewrite bind_empty_graph by exact Hv.
  change (snd (nodes_or_number (Explicit (int_nodes (range 0 n)))))
    with (int_nodes (range 0 n)).
  change (str_spec (Count n)) with (str_int n).
  unfold set_name, add_edges_from, add_edge.
  rewrite !bind_update by exact Hv.
  rewrite Grid.item_last_range, bind_ret, Grid.item_first_range, bind_ret by lia.
  rewrite bind_update by exact Hv. reflexivity.
Qed.

(** The edges of the cycle on [0..n-1]. *)
Lemma cycle_simple (n : Z) :
  3 <= n ->
  simple_edges (int_edges (map (fun k => (k, k + 1)) (range 0 (n - 1))
                           ++ [(n - 1, 0)])).
Proof.
  intros Hn. apply simple_int_edges.
  - apply NoDup_app; [apply nodup_steps | repeat constructor; intros [] |].
    intros [x y] H1 [E | []]. injection E as <- <-. apply in_steps in H1. lia.
  - intros a b H1 H2. rewrite in_app_iff in H1, H2. simpl in H1, H2.
    rewrite !in_steps in *.
    destruct H1 as [H1 | [E | []]], H2 as [H2 | [E' | []]];
      try (injection E as <- <-); try (injection E' as E1 E2); lia.
Qed.

(** Integer edges added to a container that holds the nodes [0..N-1] and
    the integer edges [L1]. *)
Lemma extend_int_edges (L1 L2 : list (Z * Z)) (N : Z) (g : Graph) :
  Gr.nodes g = int_nodes (range 0 N) ->
  edge_list g = int_edges L1 ->
  simple_edges (int_edges (L1 ++ L2)) ->
  (forall a b, In (a, b) L2 -> 0 <= a < N /\ 0 <= b < N) ->
  edge_list (Gr.add_edges_from (int_edges L2) g) = int_edges (L1 ++ L2)
  /\ Gr.nodes (Gr.add_edges_from (int_edges L2) g) = int_nodes (range 0 N).
Proof.
  intros Hn He Hs Hb. rewrite int_edges_app in *.
  destruct (Grid.add_simple (int_edges L2) g) as [E N'].
  - now rewrite He.
  - intros x Hx. unfold endpoints in Hx.
    apply in_flat_map in Hx. destruct Hx as [e [Hin Hx]].
    unfold int_edges in Hin. apply in_map_iff in Hin.
    destruct Hin as [[a b] [<- Hin]]. apply Hb in Hin. rewrite Hn. simpl in Hx.
    destruct Hx as [<- | [<- | []]]; apply in_int_nodes_NInt, in_range; lia.
  - rewrite He in E. split; [exact E | now rewrite N'].
Qed.

Lemma fill_int_edges (L : list (Z * Z)) (N : Z) (g0 : Graph) :
  Gr.nodes g0 = int_nodes (range 0 N) ->
  edge_list g0 = [] ->
  simple_edges (int_edges L) ->
  (forall a b, In (a, b) L -> 0 <= a < N /\ 0 <= b < N) ->
  edge_list (Gr.add_edges_from (int_edges L) g0) = int_edges L
  /\ Gr.nodes (Gr.add_edges_from (int_edges L) g0) = int_nodes (range 0 N).
Proof.
  intros Hn He Hs Hb. now apply (extend_int_edges [] L N g0).
Qed.

Lemma add_edges_from_app (es1 es2 : list (node * node)) (g : Graph) :
  Gr.add_edges_from es2 (Gr.add_edges_from es1 g)
  = Gr.add_edges_from (es1 ++ es2) g.
Proof. unfold Gr.add_edges_from. now rewrite fold_left_app. Qed.

Lemma add_edge_as_list (u v : node) (g : Graph) :
  Gr.add_edge u v g = Gr.add_edges_from [(u, v)] g.
Proof. reflexivity. Qed.

Lemma ascending_simple_int (L : list (Z * Z)) :
  NoDup L -> (forall a b, In (a, b) L -> a < b) -> simple_edges (int_edges L).
Proof.
  intros Hn Ha. apply simple_int_edges; [exact Hn |].
  intros a b H1 H2. apply Ha in H1. apply Ha in H2. lia.
Qed.

End Cycles.

(** [cycle_graph(n)] for an integer [n >= 3], in any container: the nodes
    are [0..n-1], the edges are [(k, k+1)] for [0 <= k < n-1] followed by
    the closing edge [(n-1, 0)] (in a directed container every edge points
    to the next node of the cycle), there are exactly [n] edges, and every
    node has degree 2. *)
Theorem cycle_graph_regular (n : Z) (create_using : option loc) (h : heap) :
  3 <= n ->
  valid create_using h ->
  exists h' G,
    cycle_graph (Count n) create_using h = (h', Ok G)
    /\ G = target create_using h
    /\ Gr.nodes (fetch h' G) = int_nodes (range 0 n)
    /\ edge_list (fetch h' G)
       = int_edges (map (fun k => (k, k + 1)) (range 0 (n - 1)) ++ [(n - 1, 0)])
    /\ Z.of_nat (Gr.number_of_edges (fetch h' G)) = n
    /\ (forall k, 0 <= k < n -> Gr.degree (fetch h' G) (NInt k) = 2%nat).
Proof.
  intros Hn Hv. do 2 eexists. split; [apply Cycles.cycle_graph_run; [lia | exact Hv] |].
  split; [reflexivity |]. rewrite HeapFacts.fetch_place by exact Hv.
  set (g0 := Gr.set_name _ (Gr.add_nodes_from _ _ _)).
  assert (Hnodes : Gr.nodes g0 = int_nodes (range 0 n)).
  { apply FillFacts.nodes_fill, ListFacts.nodup_int_nodes, ListFacts.nodup_range. }
  assert (He : edge_list g0 = []) by apply FillFacts.edge_list_fill.
  rewrite Lines.pairwise_int_range.
  change (Gr.add_edge (NInt (n - 1)) (NInt 0)
            (Gr.add_edges_from
               (int_edges (map (fun k => (k, k + 1)) (range 0 (n - 1)))) g0))
    with (Gr.add_edges_from (int_edges [(n - 1, 0)])
            (Gr.add_edges_from
               (int_edges (map (fun k => (k, k + 1)) (range 0 (n - 1)))) g0)).
  pose proof (Cycles.cycle_simple n Hn) as S. rewrite Cycles.int_edges_app in S.
  destruct (Grid.add_simple
              (int_edges (map (fun k => (k, k + 1)) (range 0 (n - 1)))) g0)
    as [E1 N1].
  { rewrite He. simpl. eapply Grid.simple_edges_prefix, S. }
  { intros x Hx. apply Lines.endpoints_steps in Hx. destruct Hx as (z & -> & Hz).
    rewrite Hnodes. apply ListFacts.in_int_nodes_NInt, ListFacts.in_range. lia. }
  rewrite He in E1. simpl in E1.
  destruct (Grid.add_simple (int_edges [(n - 1, 0)])
              (Gr.add_edges_from
                 (int_edges (map (fun k => (k, k + 1)) (range 0 (n - 1)))) g0))
    as [E2 N2].
  { rewrite E1. exact S. }
  { intros x Hx. rewrite N1, Hnodes. simpl in Hx.
    destruct Hx as [<- | [<- | []]];
      apply ListFacts.in_int_nodes_NInt, ListFacts.in_range; lia. }
  rewrite E1, <- Cycles.int_edges_app in E2.
  split; [now rewrite N2, N1 |]. split; [exact E2 |]. split.
  - unfold Gr.number_of_edges. rewrite E2. unfold int_edges.
    rewrite length_map, length_app, length_map, ListFacts.length_range. simpl. lia.
  - intros k Hk. rewrite (Lines.degree_int _ _ k E2).
    rewrite !GrFacts.cnt_app, Nat.add_shuffle1, Lines.cnt_steps.
    rewrite !Grid.cnt_cons. cbn [fst snd]. unfold cnt. simpl length.
    replace (n - 1 + 1) with n by lia. unfold ind.
    destruct (Z.eqb_spec k (n - 1)), (Z.eqb_spec k 0),
      (Z.leb_spec 0 k), (Z.ltb_spec k (n - 1)),
      (Z.leb_spec (0 + 1) k), (Z.ltb_spec k n); simpl; lia.
Qed.

Lemma cycle_graph_regular_witness :
  exists h' G,
    cycle_graph (Count 5) (Some 0%nat) [old_digraph] = (h', Ok G)
    /\ G = 0%nat
    /\ Gr.nodes (fetch h' G) = int_nodes (range 0 5)
    /\ edge_list (fetch h' G)
       = int_edges (map (fun k => (k, k + 1)) (range 0 (5 - 1)) ++ [(5 - 1, 0)])
    /\ Z.of_nat (Gr.number_of_edges (fetch h' G)) = 5
    /\ (forall k, 0 <= k < 5 -> Gr.degree (fetch h' G) (NInt k) = 2%nat).
Proof.
  apply (cycle_graph_regular 5 (Some 0%nat) [old_digraph]).
  - lia.
  - simpl. lia.
Defined.

Module Ladders.

Import GrFacts HeapFacts FillFacts ListFacts CountFacts.

Lemma ladder_graph_run (n : Z) (cu : option loc) (h : heap) :
  valid cu h -> undirected cu h ->
  ladder_graph n cu h
  = (place cu h
       (Gr.add_edges_from
          (int_edges (map (fun v => (v, v + n)) (range 0 n)))
          (Gr.add_edges_from (int_edges (pairwise (range n (2 * n))))
             (Gr.add_edges_from (int_edges (pairwise (range 0 n)))
                (Gr.set_name ("ladder_graph_(" ++ str_int n ++ ")")%string
                   (Gr.add_nodes_from (int_nodes (range 0 (2 * n))) []
                      (Gr.set_name
                         ("empty_graph(" ++ str_int (2 * n) ++ ")")%string
                         (start cu h))))))),
     Ok (target cu h)).
Proof.
  intros Hv Hu. unfold ladder_graph.
  rewrite Barbell.reject_directed_ok by exact Hu.
  rewrite bind_empty_graph by exact Hv.
  unfold set_name, add_edges_from. rewrite !bind_update by exact Hv. reflexivity.
Qed.

Lemma in_rungs (n x y : Z) :
  In (x, y) (map (fun v => (v, v + n)) (range 0 n)) <-> 0 <= x < n /\ y = x + n.
Proof.
  rewrite in_map_iff. split.
  - intros [k [E Hk]]. injection E as <- <-. apply in_range in Hk. lia.
  - intros [H ->]. exists x. split; [reflexivity | now apply in_range].
Qed.

Lemma in_ladder_edges (n x y : Z) :
  In (x, y) (ladder_edges n)
  <-> (0 <= x < n - 1 /\ y = x + 1) \/ (n <= x < 2 * n - 1 /\ y = x + 1)
      \/ (0 <= x < n /\ y = x + n).
Proof.
  unfold ladder_edges. rewrite !in_app_iff, !Cycles.in_steps, in_rungs. tauto.
Qed.

Lemma nodup_ladder_edges (n : Z) : NoDup (ladder_edges n).
Proof.
  unfold ladder_edges. apply NoDup_app; [apply Cycles.nodup_steps | |].
  - apply NoDup_app; [apply Cycles.nodup_steps | |].
    + apply Injective_map_NoDup; [| apply nodup_range]. intros x y E. congruence.
    + intros [x y] H1 H2. apply Cycles.in_steps in H1. apply in_rungs in H2. lia.
  - intros [x y] H1 H2. apply Cycles.in_steps in H1.
    rewrite in_app_iff, Cycles.in_steps, in_rungs in H2. lia.
Qed.

Lemma ind_cases (a b k : Z) :
  (a <= k < b /\ ind a b k = 1%nat) \/ ((k < a \/ b <= k) /\ ind a b k = 0%nat).
Proof.
  unfold ind. destruct (Z.leb_spec a k), (Z.ltb_spec k b); simpl; [left | right ..];
    split; (lia || reflexivity).
Qed.

End Ladders.



Module CircularLadder.

Import GrFacts HeapFacts FillFacts ListFacts CountFacts.

Lemma circular_ladder_graph_run (n : Z) (cu : option loc) (h : heap) :
  valid cu h -> undirected cu h ->
  circular_ladder_graph n cu h
  = (place cu h
       (Gr.add_edge (NInt n) (NInt (2 * n - 1))
          (Gr.add_edge (NInt 0) (NInt (n - 1))
             (Gr.set_name ("circular_ladder_graph(" ++ str_int n ++ ")")%string
                (Gr.add_edges_from
                   (int_edges (map (fun v => (v, v + n)) (range 0 n)))
                   (Gr.add_edges_from (int_edges (pairwise (range n (2 * n))))
                      (Gr.add_edges_from (int_edges (pairwise (range 0 n)))
                         (Gr.set_name ("ladder_graph_(" ++ str_int n ++ ")")%string
                            (Gr.add_nodes_from (int_nodes (range 0 (2 * n))) []
                               (Gr.set_name
                                  ("empty_graph(" ++ str_int (2 * n) ++ ")")%string
                                  (start cu h)))))))))),
     Ok (target cu h)).
Proof.
  intros Hv Hu. unfold circular_ladder_graph. unfold bind at 1.
  rewrite Ladders.ladder_graph_run by assumption.
  unfold set_name, add_edge. rewrite !bind_update by exact Hv. reflexivity.
Qed.

End CircularLadder.

(** [circular_ladder_graph(n)] for [n >= 3], with an absent or undirected
    container: the ladder on the nodes [0..2n-1] with the two rails closed
    by the edges [(0, n-1)] and [(n, 2n-1)]; the graph has [3n] edges and
    every node has degree 3. *)
Theorem circular_ladder_graph_cubic (n : Z) (create_using : option loc) (h : heap) :
  3 <= n ->
  valid create_using h ->
  undirected create_using h ->
  exists h' G,
    circular_ladder_graph n create_using h = (h', Ok G)
    /\ G = target create_using h
    /\ Gr.nodes (fetch h' G) = int_nodes (range 0 (2 * n))
    /\ edge_list (fetch h' G)
       = int_edges (ladder_edges n ++ [(0, n - 1); (n, 2 * n - 1)])
    /\ Z.of_nat (Gr.number_of_edges (fetch h' G)) = 3 * n
    /\ (forall k, 0 <= k < 2 * n -> Gr.degree (fetch h' G) (NInt k) = 3%nat).
Proof.
  intros Hn Hv Hu. do 2 eexists.
  split; [now apply CircularLadder.circular_ladder_graph_run |].
  split; [reflexivity |]. rewrite HeapFacts.fetch_place by exact Hv.
  set (g0 := Gr.set_name _ (Gr.add_nodes_from _ _ _)).
  rewrite !Grid.pairwise_range, !Cycles.add_edges_from_app.
  rewrite <- !Cycles.int_edges_app. fold (ladder_edges n).
  set (L := ladder_edges n ++ [(0, n - 1); (n, 2 * n - 1)]).
  assert (S : simple_edges (int_edges L)).
  { apply Cycles.ascending_simple_int.
    - apply NoDup_app; [apply Ladders.nodup_ladder_edges | |].
      + constructor; [| repeat constructor; intros []].
        intros [E | []]. Cycles.split_pair E. lia.
      + intros [x y] H1 H2. apply Ladders.in_ladder_edges in H1.
        destruct H2 as [E | [E | []]]; Cycles.split_pair E; lia.
    - intros a b H. apply in_app_iff in H. destruct H as [H | H].
      + apply Ladders.in_ladder_edges in H. lia.
      + destruct H as [E | [E | []]]; Cycles.split_pair E; lia. }
  destruct (Cycles.fill_int_edges (ladder_edges n) (2 * n) g0) as [E1 N1].
  { apply FillFacts.nodes_fill, ListFacts.nodup_int_nodes, ListFacts.nodup_range. }
  { apply FillFacts.edge_list_fill. }
  { unfold L in S. rewrite Cycles.int_edges_app in S.
    eapply Grid.simple_edges_prefix, S. }
  { intros a b H. apply Ladders.in_ladder_edges in H. lia. }
  set (g2 := Gr.set_name _ (Gr.add_edges_from (int_edges (ladder_edges n)) g0)).
  change (Gr.add_edge (NInt n) (NInt (2 * n - 1))
            (Gr.add_edge (NInt 0) (NInt (n - 1)) g2))
    with (Gr.add_edges_from (int_edges [(0, n - 1); (n, 2 * n - 1)]) g2).
  destruct (Cycles.extend_int_edges
              (ladder_edges n) [(0, n - 1); (n, 2 * n - 1)] (2 * n) g2 N1 E1 S)
    as [E N].
  { intros a b H. destruct H as [H | [H | []]]; Cycles.split_pair H; lia. }
  fold L in E.
  split; [exact N |]. split; [exact E |]. split.
  - unfold Gr.number_of_edges. rewrite E.
    unfold int_edges, L, ladder_edges.
    rewrite length_map, !length_app, !length_map, !ListFacts.length_range.
    simpl length. lia.
  - intros k Hk.
    rewrite (Lines.degree_int _ L k E). unfold L, ladder_edges.
    rewrite !GrFacts.cnt_app, !GrFacts.cnt_map, !Grid.cnt_cons. cbn [fst snd].
    rewrite !Grid.cnt_range_plain, !Grid.cnt_range_point. unfold cnt. simpl length.
    repeat match goal with
           | |- context [ind ?a ?b ?c] =>
               destruct (Ladders.ind_cases a b c) as [[? ->] | [? ->]]
           end;
      try lia;
      destruct (Z.eqb_spec k 0); try lia;
      destruct (Z.eqb_spec k n); try lia;
      destruct (Z.eqb_spec k (n - 1)); try lia;
      destruct (Z.eqb_spec k (2 * n - 1)); simpl; lia.
Qed.

Lemma circular_ladder_graph_cubic_witness :
  exists h' G,
    circular_ladder_graph 4 None [] = (h', Ok G)
    /\ G = 0%nat
    /\ Gr.nodes (fetch h' G) = int_nodes (range 0 (2 * 4))
    /\ edge_list (fetch h' G)
       = int_edges (ladder_edges 4 ++ [(0, 4 - 1); (4, 2 * 4 - 1)])
    /\ Z.of_nat (Gr.number_of_edges (fetch h' G)) = 3 * 4
    /\ (forall k, 0 <= k < 2 * 4 -> Gr.degree (fetch h' G) (NInt k) = 3%nat).
Proof.
  apply (circular_ladder_graph_cubic 4 None []).
  - lia.
  - exact I.
  - exact I.
Defined.

Module Wheel.

Import GrFacts HeapFacts FillFacts ListFacts CountFacts.

Lemma wheel_graph_unfold (n : Z) (cu : option loc) :
  n <> 0 ->
  wheel_graph (Count n) cu
  = (G <- star_graph (Explicit (int_nodes (range 0 n))) cu ;;
     set_name G ("wheel_graph(" ++ str_int n ++ ")")%string ;;
     k <- len_graph G ;;
     when (2 <? k)
          (add_edges_from G (pairwise (tl (int_nodes (range 0 n)))) ;;
           last <- item_last (int_nodes (range 0 n)) ;;
           second <- item (int_nodes (range 0 n)) 1 ;;
           add_edge G last second) ;;
     ret G).
Proof. intros H. destruct n; [congruence | reflexivity | reflexivity]. Qed.

Lemma tl_range (n : Z) :
  0 < n -> tl (int_nodes (range 0 n)) = int_nodes (range 1 n).
Proof. intros H. rewrite (range_cons 0) by lia. reflexivity. Qed.

Lemma item_second_range (n : Z) :
  1 < n -> item (int_nodes (range 0 n)) 1 = ret (NInt 1).
Proof.
  intros H. rewrite (range_cons 0), (range_cons (0 + 1)) by lia. reflexivity.
Qed.

Lemma in_spokes (n x y : Z) :
  In (x, y) (map (pair 0) (range 1 n)) <-> x = 0 /\ 1 <= y < n.
Proof.
  rewrite in_map_iff. split.
  - intros [k [E Hk]]. Cycles.split_pair E. apply in_range in Hk. lia.
  - intros [-> H]. exists y. split; [reflexivity | now apply in_range].
Qed.

Lemma in_wheel_edges (n x y : Z) :
  In (x, y) (wheel_edges n)
  <-> (x = 0 /\ 1 <= y < n) \/ (1 <= x < n - 1 /\ y = x + 1)
      \/ (x = n - 1 /\ y = 1).
Proof.
  unfold wheel_edges. rewrite !in_app_iff, in_spokes, Cycles.in_steps. simpl.
  rewrite pair_equal_spec. intuition lia.
Qed.

Lemma nodup_wheel_edges (n : Z) : 4 <= n -> NoDup (wheel_edges n).
Proof.
  intros Hn. unfold wheel_edges. apply NoDup_app.
  - apply Injective_map_NoDup; [| apply nodup_range]. intros x y E. congruence.
  - apply NoDup_app; [apply Cycles.nodup_steps | repeat constructor; intros [] |].
    intros [x y] H1 [E | []]. Cycles.split_pair E. apply Cycles.in_steps in H1. lia.
  - intros [x y] H1 H2. apply in_spokes in H1.
    rewrite in_app_iff, Cycles.in_steps in H2. simpl in H2.
    rewrite pair_equal_spec in H2. lia.
Qed.

Lemma simple_wheel_edges (n : Z) : 4 <= n -> simple_edges (int_edges (wheel_edges n)).
Proof.
  intros Hn. apply Cycles.simple_int_edges; [now apply nodup_wheel_edges |].
  intros a b H1 H2. apply in_wheel_edges in H1. apply in_wheel_edges in H2. lia.
Qed.

Lemma wheel_graph_run (n : Z) (cu : option loc) (h : heap) :
  3 <= n -> valid cu h -> undirected cu h ->
  wheel_graph (Count n) cu h
  = (place cu h
       (Gr.add_edges_from (int_edges [(n - 1, 1)])
          (Gr.add_edges_from
             (int_edges (map (fun k => (k, k + 1)) (range 1 (n - 1))))
             (Gr.set_name ("wheel_graph(" ++ str_int n ++ ")")%string
                (Gr.set_name
                   ("star_graph(" ++ str_spec (Explicit (int_nodes (range 0 n)))
                                  ++ ")")%string
                   (Gr.add_edges_from (int_edges (map (pair 0) (range 1 n)))
                      (Gr.add_nodes_from (int_nodes (range 0 n)) []
                         (Gr.set_name
                            ("empty_graph("
                               ++ str_spec (Explicit (int_nodes (range 0 n)))
                               ++ ")")%string
                            (start cu h)))))))),
     Ok (target cu h)).
Proof.
  intros Hn Hv Hu. rewrite wheel_graph_unfold by lia.
  unfold star_graph.
  change (nodes_or_number (Explicit (int_nodes (range 0 n))))
    with (Explicit (int_nodes (range 0 n)), int_nodes (range 0 n)).
  cbv iota beta zeta.
  rewrite Grid.item_first_range by lia.
  rewrite !bind_bind, bind_ret, bind_bind, bind_empty_graph by exact Hv.
  change (snd (nodes_or_number (Explicit (int_nodes (range 0 n)))))
    with (int_nodes (range 0 n)).
  unfold is_directed. rewrite bind_bind, bind_read by exact Hv.
  rewrite directed_fill, (Grid.directed_start_undirected _ _ Hu).
  rewrite !bind_bind, bind_ret.
  unfold add_edges_from, set_name, len_graph, add_edge.
  Grid.run_steps Hv.
  set (g := Gr.set_name _ (Gr.set_name _ _)).
  assert (K : Z.of_nat (Gr.number_of_nodes g) = n).
  { rewrite number_of_nodes_length. unfold g.
    change (Gr.nodes (Gr.set_name ?s (Gr.set_name ?s' ?x))) with (Gr.nodes x).
    rewrite nodes_add_edges_from_known.
    - rewrite nodes_fill by apply nodup_int_nodes, nodup_range.
      unfold int_nodes. rewrite length_map, length_range. lia.
    - intros x Hx. rewrite nodes_fill by apply nodup_int_nodes, nodup_range.
      unfold endpoints in Hx. apply in_flat_map in Hx. destruct Hx as [e [He Hx]].
      rewrite tl_range in He by lia. apply in_map_iff in He.
      destruct He as [v [<- Hv']]. simpl in Hx.
      destruct Hx as [<- | [<- | []]].
      + apply in_int_nodes_NInt, in_range. lia.
      + apply in_int_nodes in Hv'. destruct Hv' as [z [-> Hz]].
        apply in_range in Hz. apply in_int_nodes_NInt, in_range. lia. }
  rewrite K. replace (2 <? n) with true by (symmetry; apply Z.ltb_lt; lia).
  unfold when. rewrite Grid.item_last_range, item_second_range by lia.
  Grid.run_steps Hv. unfold g. rewrite !tl_range by lia.
  rewrite Lines.pairwise_int_range.
  replace (map (pair (NInt 0)) (int_nodes (range 1 n)))
    with (int_edges (map (pair 0) (range 1 n)))
    by (unfold int_edges, int_nodes; now rewrite !map_map).
  reflexivity.
Qed.

End Wheel.

(** [wheel_graph(n)] for an integer [n >= 4], with an absent or undirected
    container: the nodes are [0..n-1]; the hub [0] is joined to every other
    node and the nodes [1..n-1] form a cycle, which makes [2(n-1)] edges;
    the hub has degree [n-1] and every rim node has degree 3. *)
Theorem wheel_graph_shape (n : Z) (create_using : option loc) (h : heap) :
  4 <= n ->
  valid create_using h ->
  undirected create_using h ->
  exists h' G,
    wheel_graph (Count n) create_using h = (h', Ok G)
    /\ G = target create_using h
    /\ Gr.nodes (fetch h' G) = int_nodes (range 0 n)
    /\ edge_list (fetch h' G) = int_edges (wheel_edges n)
    /\ Z.of_nat (Gr.number_of_edges (fetch h' G)) = 2 * (n - 1)
    /\ Z.of_nat (Gr.degree (fetch h' G) (NInt 0)) = n - 1
    /\ (forall k, 1 <= k < n -> Gr.degree (fetch h' G) (NInt k) = 3%nat).
Proof.
  intros Hn Hv Hu. do 2 eexists.
  split; [apply Wheel.wheel_graph_run; [lia | assumption ..] |].
  split; [reflexivity |]. rewrite HeapFacts.fetch_place by exact Hv.
  set (g0 := Gr.add_nodes_from _ _ _).
  pose proof (Wheel.simple_wheel_edges n Hn) as S. unfold wheel_edges in S.
  assert (B : forall a b, In (a, b) (wheel_edges n) -> 0 <= a < n /\ 0 <= b < n).
  { intros a b H. apply Wheel.in_wheel_edges in H. lia. }
  unfold wheel_edges in B.
  destruct (Cycles.fill_int_edges (map (pair 0) (range 1 n)) n g0) as [E1 N1].
  { apply FillFacts.nodes_fill, ListFacts.nodup_int_nodes, ListFacts.nodup_range. }
  { apply FillFacts.edge_list_fill. }
  { rewrite Cycles.int_edges_app in S. eapply Grid.simple_edges_prefix, S. }
  { intros a b H. apply B. apply in_app_iff. now left. }
  set (g2 := Gr.set_name _ (Gr.set_name _ _)).
  destruct (Cycles.extend_int_edges
              (map (pair 0) (range 1 n))
              (map (fun k => (k, k + 1)) (range 1 (n - 1))) n g2 N1 E1)
    as [E2 N2].
  { rewrite app_assoc, Cycles.int_edges_app in S.
    eapply Grid.simple_edges_prefix, S. }
  { intros a b H. apply B. rewrite !in_app_iff. auto. }
  destruct (Cycles.extend_int_edges _ [(n - 1, 1)] n _ N2 E2) as [E N].
  { rewrite <- app_assoc. exact S. }
  { intros a b H. apply B. rewrite !in_app_iff. auto. }
  rewrite <- app_assoc in E. fold (wheel_edges n) in E.
  split; [exact N |]. split; [exact E |]. split; [| split].
  - unfold Gr.number_of_edges. rewrite E. unfold int_edges, wheel_edges.
    rewrite length_map, !length_app, !length_map, !ListFacts.length_range.
    simpl length. lia.
  - rewrite (Lines.degree_int _ _ 0 E). unfold wheel_edges.
    rewrite !GrFacts.cnt_app, !GrFacts.cnt_map, !Grid.cnt_cons. cbn [fst snd].
    rewrite !Grid.cnt_range_plain, !Grid.cnt_range_point.
    rewrite (GrFacts.cnt_all (fun _ => 0 =? 0)) by reflexivity.
    rewrite ListFacts.length_range. unfold cnt. simpl length.
    repeat match goal with
           | |- context [ind ?a ?b ?c] =>
               destruct (Ladders.ind_cases a b c) as [[? ->] | [? ->]]
           end;
      try lia;
      destruct (Z.eqb_spec 0 (n - 1)); try lia. simpl. lia.
  - intros k Hk. rewrite (Lines.degree_int _ _ k E). unfold wheel_edges.
    rewrite !GrFacts.cnt_app, !GrFacts.cnt_map, !Grid.cnt_cons. cbn [fst snd].
    rewrite !Grid.cnt_range_plain, !Grid.cnt_range_point.
    rewrite (GrFacts.cnt_none (fun _ => k =? 0))
      by (intros; apply Z.eqb_neq; lia).
    unfold cnt. simpl length.
    repeat match goal with
           | |- context [ind ?a ?b ?c] =>
               destruct (Ladders.ind_cases a b c) as [[? ->] | [? ->]]
           end;
      try lia;
      destruct (Z.eqb_spec k (n - 1)); try lia;
      destruct (Z.eqb_spec k 1); simpl; lia.
Qed.

Lemma wheel_graph_shape_witness :
  exists h' G,
    wheel_graph (Count 5) (Some 0%nat) [old_graph] = (h', Ok G)
    /\ G = 0%nat
    /\ Gr.nodes (fetch h' G) = int_nodes (range 0 5)
    /\ edge_list (fetch h' G) = int_edges (wheel_edges 5)
    /\ Z.of_nat (Gr.number_of_edges (fetch h' G)) = 2 * (5 - 1)
    /\ Z.of_nat (Gr.degree (fetch h' G) (NInt 0)) = 5 - 1
    /\ (forall k, 1 <= k < 5 -> Gr.degree (fetch h' G) (NInt k) = 3%nat).
Proof.
  apply (wheel_graph_shape 5 (Some 0%nat) [old_graph]).
  - lia.
  - simpl. lia.
  - reflexivity.
Defined.

Module Lollipop.

Import GrFacts HeapFacts FillFacts ListFacts CountFacts.

Lemma map_M_int_plus (k : Z) (l : list Z) (h : heap) :
  map_M (int_plus k) (int_nodes l) h = (h, Ok (int_nodes (map (Z.add k) l))).
Proof.
  induction l as [| x t IH]; [reflexivity |].
  simpl. unfold bind at 1. simpl. unfold bind at 1. rewrite IH. reflexivity.
Qed.

Lemma map_add_range (k a b : Z) : map (Z.add k) (range a b) = range (k + a) (k + b).
Proof.
  unfold range. rewrite map_map. replace (k + b - (k + a)) with (b - a) by lia.
  apply map_ext. intros i. lia.
Qed.

Lemma complete_graph_explicit_run (l : list node) (cu : option loc) (h : heap) :
  valid cu h ->
  complete_graph (Explicit l) cu h
  = (place cu h
       (let g1 := Gr.set_name ("complete_graph(" ++ str_spec (Explicit l) ++ ")")%string
                    (Gr.add_nodes_from l []
                       (Gr.set_name
                          ("empty_graph(" ++ str_spec (Explicit l) ++ ")")%string
                          (start cu h))) in
        if 1 <? len l
        then Gr.add_edges_from
               (if directed g1 then permutations2 l else combinations2 l) g1
        else g1),
     Ok (target cu h)).
Proof.
  intros Hv. unfold complete_graph.
  change (nodes_or_number (Explicit l)) with (Explicit l, l).
  cbv iota beta zeta. rewrite bind_empty_graph by exact Hv.
  change (snd (nodes_or_number (Explicit l))) with l.
  unfold set_name. rewrite bind_update by exact Hv.
  destruct (1 <? len l); unfold when.
  - rewrite bind_bind. unfold is_directed. rewrite bind_read by exact Hv.
    unfold add_edges_from. rewrite bind_update by exact Hv. reflexivity.
  - rewrite bind_ret. reflexivity.
Qed.

Lemma in_combinations2_range (a b x y : Z) :
  In (x, y) (combinations2 (range a b)) -> a <= x < y /\ y < b.
Proof.
  intros H. pose proof (sorted_combinations2 _ (range_sorted a b)) as S.
  rewrite Forall_forall in S. specialize (S _ H). simpl in S.
  apply in_combinations2 in H. rewrite !in_range in H. lia.
Qed.

Lemma in_lollipop_edges (m n x y : Z) :
  In (x, y) (lollipop_edges m n) ->
  (0 <= x < y /\ y < m) \/ (m <= x < m + n - 1 /\ y = x + 1)
  \/ (0 < n /\ x = m - 1 /\ y = m).
Proof.
  unfold lollipop_edges. rewrite !in_app_iff, Cycles.in_steps.
  intros [H | [H | H]]; [left; now apply in_combinations2_range | tauto |].
  destruct (Z.ltb_spec 0 n); [| destruct H].
  destruct H as [E | []]. Cycles.split_pair E. lia.
Qed.

Lemma nodup_lollipop_edges (m n : Z) : NoDup (lollipop_edges m n).
Proof.
  unfold lollipop_edges. apply NoDup_app.
  - apply nodup_combinations2, nodup_range.
  - apply NoDup_app; [apply Cycles.nodup_steps | |].
    + destruct (0 <? n); repeat constructor. intros [].
    + intros [x y] H1 H2. apply Cycles.in_steps in H1.
      destruct (0 <? n); [| destruct H2].
      destruct H2 as [E | []]. Cycles.split_pair E. lia.
  - intros [x y] H1 H2. apply in_combinations2_range in H1.
    rewrite in_app_iff, Cycles.in_steps in H2. destruct H2 as [H2 | H2]; [lia |].
    destruct (0 <? n); [| destruct H2].
    destruct H2 as [E | []]. Cycles.split_pair E. lia.
Qed.

Lemma item_first_from (a b : Z) :
  a < b -> item (int_nodes (range a b)) 0 = ret (NInt a).
Proof. intros H. rewrite range_cons by lia. reflexivity. Qed.

Lemma lollipop_graph_run (m n : Z) (cu : option loc) (h : heap) :
  2 <= m -> valid cu h -> undirected cu h ->
  lollipop_graph (Count m) (Count n) cu h
  = (place cu h
       (Gr.set_name ("lollipop_graph(" ++ str_int m ++ ", " ++ str_int n ++ ")")%string
          (Gr.add_edges_from
             (int_edges (if 0 <? n then [(m - 1, m)] else []))
             (Gr.add_edges_from
                (int_edges (map (fun k => (k, k + 1)) (range m (m + n - 1))))
                (Gr.add_nodes_from (int_nodes (range m (m + n))) []
                   (Gr.add_edges_from (int_edges (combinations2 (range 0 m)))
                      (Gr.set_name
                         ("complete_graph("
                            ++ str_spec (Explicit (int_nodes (range 0 m))) ++ ")")%string
                         (Gr.add_nodes_from (int_nodes (range 0 m)) []
                            (Gr.set_name
                               ("empty_graph("
                                  ++ str_spec (Explicit (int_nodes (range 0 m)))
                                  ++ ")")%string
                               (start cu h))))))))),
     Ok (target cu h)).
Proof.
  intros Hm Hv Hu. unfold lollipop_graph.
  change (nodes_or_number (Count m)) with (Count m, int_nodes (range 0 m)).
  change (nodes_or_number (Count n)) with (Count n, int_nodes (range 0 n)).
  cbv iota beta zeta. change (isinstance_int (Count m)) with true. cbv iota.
  unfold bind at 1. rewrite map_M_int_plus.
  rewrite Grid.len_int_range, map_add_range.
  replace (Z.max 0 m + 0) with m by lia. replace (Z.max 0 m + n) with (m + n) by lia.
  rewrite Barbell.reject_directed_ok by exact Hu.
  rewrite !Grid.len_int_range.
  replace (Z.max 0 m <? 2) with false by (symmetry; apply Z.ltb_ge; lia).
  replace (Z.max 0 n <? 0) with false by (symmetry; apply Z.ltb_ge; lia).
  rewrite !bind_ret. unfold bind at 1.
  rewrite complete_graph_explicit_run by exact Hv. cbv zeta.
  rewrite Grid.len_int_range.
  replace (1 <? Z.max 0 m) with true by (symmetry; apply Z.ltb_lt; lia).
  match goal with
  | |- context [if directed ?g then _ else _] =>
      let D := fresh "D" in
      assert (D : directed g = false) by Grid.directed_false Hu; rewrite D
  end.
  unfold add_nodes_from, add_edges_from, add_edge, set_name.
  rewrite bind_update by exact Hv.
  replace (0 <? Z.max 0 m) with true by (symmetry; apply Z.ltb_lt; lia).
  replace (1 <? Z.max 0 n) with (1 <? n)
    by (destruct (Z.ltb_spec 1 n), (Z.ltb_spec 1 (Z.max 0 n)); auto; lia).
  replace (0 <? Z.max 0 n) with (0 <? n)
    by (destruct (Z.ltb_spec 0 n), (Z.ltb_spec 0 (Z.max 0 n)); auto; lia).
  cbn [andb].
  replace (combinations2 (int_nodes (range 0 m)))
    with (int_edges (combinations2 (range 0 m)))
    by (unfold int_nodes; now rewrite combinations2_map).
  rewrite Lines.pairwise_int_range.
  destruct (Z.ltb_spec 1 n) as [H1 | H1]; unfold when at 1.
  - rewrite bind_update by exact Hv.
    replace (0 <? n) with true by (symmetry; apply Z.ltb_lt; lia).
    unfold when. rewrite Grid.item_last_range, item_first_from by lia.
    Grid.run_steps Hv. reflexivity.
  - rewrite bind_ret. rewrite (range_nil m (m + n - 1)) by lia.
    destruct (Z.ltb_spec 0 n) as [H0 | H0]; unfold when.
    + rewrite Grid.item_last_range, item_first_from by lia.
      Grid.run_steps Hv. reflexivity.
    + Grid.run_steps Hv. reflexivity.
Qed.

End Lollipop.



Module BarbellEdges.

Import GrFacts HeapFacts FillFacts ListFacts CountFacts.

Lemma combinations2_range (a b : Z) :
  flat_map (fun u => map (pair u) (range (u + 1) b)) (range a b)
  = combinations2 (range a b).
Proof.
  remember (Z.to_nat (b - a)) as k eqn:Hk. revert a Hk.
  induction k as [| k IH]; intros a Hk.
  - rewrite (range_nil a b) by lia. reflexivity.
  - rewrite (range_cons a b) by lia. simpl. f_equal. apply IH. lia.
Qed.

Lemma edge_list_extend (L1 L2 : list (Z * Z)) (g : Graph) :
  edge_list g = int_edges L1 ->
  simple_edges (int_edges (L1 ++ L2)) ->
  edge_list (Gr.add_edges_from (int_edges L2) g) = int_edges (L1 ++ L2).
Proof.
  intros E S. rewrite Cycles.int_edges_app in *.
  rewrite edge_list_add_edges_from; [now rewrite E |].
  right. rewrite E. now apply simple_edges_addable.
Qed.

Lemma in_barbell_edges (m1 m2 x y : Z) :
  In (x, y) (barbell_edges m1 m2) ->
  (0 <= x < y /\ y < m1)
  \/ (m1 <= x < m1 + m2 - 1 /\ y = x + 1)
  \/ (m1 + m2 <= x < y /\ y < 2 * m1 + m2)
  \/ (x = m1 - 1 /\ y = m1)
  \/ (0 < m2 /\ x = m1 + m2 - 1 /\ y = m1 + m2).
Proof.
  unfold barbell_edges. rewrite !in_app_iff, Cycles.in_steps.
  intros [H | [H | [H | [H | H]]]].
  - left. now apply Lollipop.in_combinations2_range.
  - tauto.
  - right. right. left. now apply Lollipop.in_combinations2_range.
  - destruct H as [E | []]. Cycles.split_pair E. tauto.
  - destruct (Z.ltb_spec 0 m2); [| destruct H].
    destruct H as [E | []]. Cycles.split_pair E. tauto.
Qed.

Lemma nodup_barbell_edges (m1 m2 : Z) :
  2 <= m1 -> 0 <= m2 -> NoDup (barbell_edges m1 m2).
Proof.
  intros Hm Hm2. unfold barbell_edges.
  assert (T : NoDup ([(m1 - 1, m1)]
                     ++ (if 0 <? m2 then [(m1 + m2 - 1, m1 + m2)] else []))).
  { destruct (Z.ltb_spec 0 m2); simpl; repeat constructor; simpl; try tauto.
    intros [E | []]. Cycles.split_pair E. lia. }
  assert (I : forall x y,
             In (x, y) ([(m1 - 1, m1)]
                        ++ (if 0 <? m2 then [(m1 + m2 - 1, m1 + m2)] else [])) ->
             (x = m1 - 1 /\ y = m1) \/ (0 < m2 /\ x = m1 + m2 - 1 /\ y = m1 + m2)).
  { intros x y H. apply in_app_iff in H. destruct H as [[E | []] | H].
    - Cycles.split_pair E. tauto.
    - destruct (Z.ltb_spec 0 m2); [| destruct H].
      destruct H as [E | []]. Cycles.split_pair E. tauto. }
  apply NoDup_app; [apply nodup_combinations2, nodup_range | |].
  - apply NoDup_app; [apply Cycles.nodup_steps | |].
    + apply NoDup_app; [apply nodup_combinations2, nodup_range | exact T |].
      intros [x y] H1 H2. apply Lollipop.in_combinations2_range in H1.
      apply I in H2. lia.
    + intros [x y] H1 H2. apply Cycles.in_steps in H1.
      apply in_app_iff in H2. destruct H2 as [H2 | H2].
      * apply Lollipop.in_combinations2_range in H2. lia.
      * apply I in H2. lia.
  - intros [x y] H1 H2. apply Lollipop.in_combinations2_range in H1.
    rewrite in_app_iff, Cycles.in_steps in H2. destruct H2 as [H2 | H2]; [lia |].
    apply in_app_iff in H2. destruct H2 as [H2 | H2].
    + apply Lollipop.in_combinations2_range in H2. lia.
    + apply I in H2. lia.
Qed.

Lemma edge_list_complete_state (n : Z) (cu : option loc) (h : heap) :
  undirected cu h ->
  edge_list (complete_state n cu h) = int_edges (combinations2 (range 0 n)).
Proof.
  intros Hu. unfold complete_state. set (g1 := Gr.set_name _ _).
  assert (D : directed g1 = false) by (unfold g1; Grid.directed_false Hu).
  assert (E : edge_list g1 = []) by apply edge_list_fill.
  replace (combinations2 (int_nodes (range 0 n)))
    with (int_edges (combinations2 (range 0 n)))
    by (unfold int_nodes; now rewrite combinations2_map).
  rewrite D, Grid.len_int_range.
  destruct (Z.ltb_spec 1 (Z.max 0 n)).
  - apply (edge_list_extend [] _ g1 E). simpl.
    apply Cycles.ascending_simple_int; [apply nodup_combinations2, nodup_range |].
    intros a b H'. apply Lollipop.in_combinations2_range in H'. lia.
  - rewrite E. destruct (combinations2 (range 0 n)) as [| [a b] t] eqn:C;
      [reflexivity |].
    assert (In (a, b) (combinations2 (range 0 n))) as H' by (rewrite C; now left).
    apply Lollipop.in_combinations2_range in H'. lia.
Qed.

End BarbellEdges.

(** [barbell_graph(m1, m2)] for [m1 >= 2] and [m2 >= 0], with an absent or
    undirected container: the edges are those of the complete graph on
    [0..m1-1], the path [m1 - ... - (m1+m2-1)], the complete graph on
    [m1+m2..2*m1+m2-1], the edge [(m1-1, m1)] and, when [m2 > 0], the edge
    [(m1+m2-1, m1+m2)]; that makes [m1(m1-1) + m2 + 1] edges. *)
Theorem barbell_graph_edges (m1 m2 : Z) (create_using : option loc) (h : heap) :
  2 <= m1 -> 0 <= m2 ->
  valid create_using h ->
  undirected create_using h ->
  exists h' G,
    barbell_graph m1 m2 create_using h = (h', Ok G)
    /\ G = target create_using h
    /\ edge_list (fetch h' G) = int_edges (barbell_edges m1 m2)
    /\ Z.of_nat (Gr.number_of_edges (fetch h' G)) = m1 * (m1 - 1) + m2 + 1.
Proof.
  intros H1 H2 Hv Hu. do 2 eexists.
  split; [now apply Barbell.barbell_graph_run |].
  split; [reflexivity |]. rewrite HeapFacts.fetch_place by exact Hv.
  assert (S : simple_edges (int_edges (barbell_edges m1 m2))).
  { apply Cycles.ascending_simple_int; [now apply BarbellEdges.nodup_barbell_edges |].
    intros a b H. apply BarbellEdges.in_barbell_edges in H. lia. }
  unfold barbell_state, right_bell. rewrite BarbellEdges.combinations2_range.
  rewrite Grid.pairwise_range.
  set (g1 := Gr.add_nodes_from _ _ (Gr.set_name _ (complete_state m1 create_using h))).
  assert (E1 : edge_list g1 = int_edges (combinations2 (range 0 m1))).
  { unfold g1. rewrite GrFacts.edge_list_add_nodes_from. simpl.
    now apply BarbellEdges.edge_list_complete_state. }
  set (g2 := if 1 <? m2 then _ else g1).
  unfold barbell_edges in S.
  assert (E2 : edge_list g2
               = int_edges (combinations2 (range 0 m1)
                            ++ map (fun k => (k, k + 1)) (range m1 (m1 + m2 - 1)))).
  { unfold g2. destruct (Z.ltb_spec 1 m2).
    - apply (BarbellEdges.edge_list_extend _ _ _ E1).
      rewrite app_assoc, Cycles.int_edges_app in S.
      eapply Grid.simple_edges_prefix, S.
    - rewrite (ListFacts.range_nil m1 (m1 + m2 - 1)) by lia.
      simpl. now rewrite app_nil_r. }
  rewrite !Cycles.add_edge_as_list.
  change [(NInt (m1 - 1), NInt m1)] with (int_edges [(m1 - 1, m1)]).
  change [(NInt (m1 + m2 - 1), NInt (m1 + m2))]
    with (int_edges [(m1 + m2 - 1, m1 + m2)]).
  pose proof (BarbellEdges.edge_list_extend _
                (combinations2 (range (m1 + m2) (2 * m1 + m2))) _ E2) as E3.
  rewrite <- app_assoc in E3.
  assert (S3 : simple_edges
                 (int_edges
                    (combinations2 (range 0 m1)
                     ++ map (fun k => (k, k + 1)) (range m1 (m1 + m2 - 1))
                     ++ combinations2 (range (m1 + m2) (2 * m1 + m2))))).
  { rewrite !app_assoc in S. rewrite Cycles.int_edges_app in S.
    apply Grid.simple_edges_prefix in S. rewrite Cycles.int_edges_app in S.
    apply Grid.simple_edges_prefix in S. now rewrite <- app_assoc in S. }
  specialize (E3 S3).
  pose proof (BarbellEdges.edge_list_extend _ [(m1 - 1, m1)] _ E3) as E4.
  rewrite <- !app_assoc in E4.
  assert (S4 : simple_edges
                 (int_edges
                    (combinations2 (range 0 m1)
                     ++ map (fun k => (k, k + 1)) (range m1 (m1 + m2 - 1))
                     ++ combinations2 (range (m1 + m2) (2 * m1 + m2))
                     ++ [(m1 - 1, m1)]))).
  { rewrite !app_assoc in S. rewrite Cycles.int_edges_app in S.
    apply Grid.simple_edges_prefix in S. now rewrite <- !app_assoc in S. }
  specialize (E4 S4).
  assert (E : edge_list
                (if 0 <? m2
                 then Gr.add_edges_from (int_edges [(m1 + m2 - 1, m1 + m2)])
                        (Gr.add_edges_from (int_edges [(m1 - 1, m1)])
                           (Gr.add_edges_from
                              (int_edges (combinations2 (range (m1 + m2) (2 * m1 + m2))))
                              g2))
                 else Gr.add_edges_from (int_edges [(m1 - 1, m1)])
                        (Gr.add_edges_from
                           (int_edges (combinations2 (range (m1 + m2) (2 * m1 + m2))))
                           g2))
              = int_edges (barbell_edges m1 m2)).
  { unfold barbell_edges. destruct (Z.ltb_spec 0 m2) as [P | P].
    - pose proof (BarbellEdges.edge_list_extend _ [(m1 + m2 - 1, m1 + m2)] _ E4) as E5.
      rewrite <- !app_assoc in E5. apply E5.
      replace (0 <? m2) with true in S by (symmetry; apply Z.ltb_lt; lia).
      exact S.
    - rewrite app_nil_r. exact E4. }
  split; [exact E |].
  unfold Gr.number_of_edges. rewrite E. unfold int_edges, barbell_edges.
  rewrite length_map, !length_app, length_map, ListFacts.length_range.
  pose proof (ListFacts.length_combinations2 (range 0 m1)) as C1.
  pose proof (ListFacts.length_combinations2 (range (m1 + m2) (2 * m1 + m2))) as C2.
  rewrite ListFacts.length_range in C1, C2.
  replace (Z.of_nat (Z.to_nat (2 * m1 + m2 - (m1 + m2)))) with m1 in C2 by lia.
  replace (Z.of_nat (Z.to_nat (m1 - 0))) with m1 in C1 by lia.
  destruct (Z.ltb_spec 0 m2); cbn [length]; lia.
Qed.

Lemma barbell_graph_edges_witness :
  exists h' G,
    barbell_graph 3 2 (Some 0%nat) [old_graph] = (h', Ok G)
    /\ G = 0%nat
    /\ edge_list (fetch h' G) = int_edges (barbell_edges 3 2)
    /\ Z.of_nat (Gr.number_of_edges (fetch h' G)) = 3 * (3 - 1) + 2 + 1.
Proof.
  apply (barbell_graph_edges 3 2 (Some 0%nat) [old_graph]).
  - lia.
  - lia.
  - simpl. lia.
  - reflexivity.
Defined.

(* ================================================================== *)
(** * Trees *)

Module Trees.

Import GrFacts HeapFacts FillFacts ListFacts CountFacts.

(** The inner loop hands out the next identifiers, at most [iters] of
    them, to the node [source]. *)
Lemma tree_children_spec (iters : nat) (n next source : Z) (parents : list Z) :
  next <= n ->
  tree_children iters n next source parents
  = (Z.min n (next + Z.of_nat iters),
     parents ++ range next (Z.min n (next + Z.of_nat iters)),
     map (pair source) (range next (Z.min n (next + Z.of_nat iters)))).
Proof.
  revert next parents. induction iters as [| k IH]; intros next parents Hn.
  - simpl tree_children. change (Z.of_nat 0) with 0.
    replace (Z.min n (next + 0)) with next by lia.
    rewrite range_nil by lia. now rewrite app_nil_r.
  - simpl tree_children. destruct (Z.ltb_spec next n) as [Hlt | Hge].
    + rewrite IH by lia.
      replace (next + 1 + Z.of_nat k) with (next + Z.of_nat (S k)) by lia.
      rewrite (range_cons next (Z.min n (next + Z.of_nat (S k)))) by lia.
      rewrite <- app_assoc. reflexivity.
    + replace (Z.min n (next + Z.of_nat (S k))) with next by lia.
      rewrite range_nil by lia. now rewrite app_nil_r.
Qed.

(** The outer loop, entered with the parents [p..next-1] still to serve:
    it yields the edge [((k-1)/r, k)] for every remaining identifier [k]. *)
Lemma tree_loop_spec (fuel : nat) (n r p next : Z) :
  1 <= r -> 0 <= p <= next -> next <= n ->
  next = Z.min n (r * p + 1) ->
  n - p <= Z.of_nat fuel ->
  tree_loop fuel n r next (range p next)
  = map (fun k => ((k - 1) / r, k)) (range next n).
Proof.
  intros Hr. revert p next. induction fuel as [| f IH]; intros p next Hp Hn Hnext Hf.
  - rewrite (range_nil next n) by lia. reflexivity.
  - simpl tree_loop. destruct (Z.eq_dec p next) as [-> | Hne].
    + rewrite (range_nil next next) by lia.
      rewrite (range_nil next n) by nia. reflexivity.
    + rewrite (range_cons p next) by lia.
      rewrite tree_children_spec by lia.
      rewrite Z2Nat.id by lia.
      set (next' := Z.min n (next + r)).
      rewrite (Turan.range_app (p + 1) next next') by (unfold next'; lia).
      rewrite IH by (unfold next'; lia).
      rewrite <- (Turan.range_app next next' n) by (unfold next'; lia).
      rewrite map_app. f_equal. apply map_ext_in. intros k Hk.
      apply in_range in Hk. f_equal.
      apply (Z.div_unique _ _ _ (k - 1 - r * p)); unfold next' in Hk; lia.
Qed.

Lemma tree_edges_spec (n r : Z) :
  1 <= r -> _tree_edges n r = map (fun k => ((k - 1) / r, k)) (range 1 n).
Proof.
  intros Hr. unfold _tree_edges. destruct (Z.ltb_spec 0 n) as [Hn | Hn].
  - change [0] with (map (fun k => 0 + Z.of_nat k) (seq 0 1)).
    change (map (fun k => 0 + Z.of_nat k) (seq 0 1)) with (range 0 1).
    apply tree_loop_spec; lia.
  - rewrite range_nil by lia. reflexivity.
Qed.

Lemma in_tree_edges (n r x y : Z) :
  1 <= r ->
  In (x, y) (map (fun k => ((k - 1) / r, k)) (range 1 n))
  <-> 1 <= y < n /\ x = (y - 1) / r.
Proof.
  intros Hr. rewrite in_map_iff. split.
  - intros [k [E Hk]]. Cycles.split_pair E. apply in_range in Hk. lia.
  - intros [H ->]. exists y. split; [reflexivity | now apply in_range].
Qed.

Lemma parent_bounds (r k : Z) : 1 <= r -> 1 <= k -> 0 <= (k - 1) / r < k.
Proof.
  intros Hr Hk. split.
  - apply Z.div_pos; lia.
  - apply Z.le_lt_trans with (k - 1); [| lia].
    apply Z.div_le_upper_bound; nia.
Qed.

Lemma full_rary_tree_run (r n : Z) (cu : option loc) (h : heap) :
  valid cu h ->
  full_rary_tree r n cu h
  = (place cu h
       (Gr.add_edges_from (int_edges (_tree_edges n r))
          (Gr.add_nodes_from (int_nodes (range 0 n)) []
             (Gr.set_name ("empty_graph(" ++ str_int n ++ ")")%string
                (start cu h)))),
     Ok (target cu h)).
Proof.
  intros Hv. unfold full_rary_tree. rewrite bind_empty_graph by exact Hv.
  unfold add_edges_from. rewrite bind_update by exact Hv. reflexivity.
Qed.

Lemma tree_shape (r n : Z) (cu : option loc) (h : heap) :
  1 <= r ->
  let g := Gr.add_edges_from (int_edges (_tree_edges n r))
             (Gr.add_nodes_from (int_nodes (range 0 n)) []
                (Gr.set_name ("empty_graph(" ++ str_int n ++ ")")%string
                   (start cu h))) in
  edge_list g = int_edges (map (fun k => ((k - 1) / r, k)) (range 1 n))
  /\ Gr.nodes g = int_nodes (range 0 n).
Proof.
  intros Hr g. unfold g. rewrite tree_edges_spec by exact Hr.
  apply Cycles.fill_int_edges.
  - apply nodes_fill, nodup_int_nodes, nodup_range.
  - apply edge_list_fill.
  - apply Cycles.ascending_simple_int.
    + apply (NoDup_map_inv snd). rewrite map_map. simpl. rewrite map_id.
      apply nodup_range.
    + intros a b H. apply in_tree_edges in H; [| exact Hr].
      destruct H as [H ->]. apply parent_bounds; lia.
  - intros a b H. apply in_tree_edges in H; [| exact Hr].
    destruct H as [H ->]. pose proof (parent_bounds r b Hr). lia.
Qed.

(** The geometric sum [1 + r + ... + r^h]. *)
Lemma geometric_sum (r : Z) (h : nat) :
  (r - 1) * sum (map (Z.pow r) (range 0 (Z.of_nat h + 1)))
  = r ^ (Z.of_nat h + 1) - 1.
Proof.
  induction h as [| h IH].
  - simpl. lia.
  - replace (Z.of_nat (S h) + 1) with (Z.of_nat h + 1 + 1) by lia.
    rewrite range_snoc, map_app, Turan.sum_app by lia.
    simpl sum. rewrite Z.mul_add_distr_l, IH.
    replace (Z.of_nat h + 1 + 1) with (Z.succ (Z.of_nat h + 1)) by lia.
    rewrite (Z.pow_succ_r r (Z.of_nat h + 1)) by lia. lia.
Qed.

Lemma balanced_size (r h : Z) :
  1 <= r -> 0 <= h ->
  (if r =? 1 then h + 1 else (1 - r ^ (h + 1)) / (1 - r))
  = sum (map (Z.pow r) (range 0 (h + 1))).
Proof.
  intros Hr Hh. pose proof (geometric_sum r (Z.to_nat h)) as G.
  rewrite Z2Nat.id in G by lia.
  destruct (Z.eqb_spec r 1) as [-> | Hne].
  - clear G. replace h with (Z.of_nat (Z.to_nat h)) by lia.
    induction (Z.to_nat h) as [| k IH]; [reflexivity |].
    replace (Z.of_nat (S k) + 1) with (Z.of_nat k + 1 + 1) by lia.
    rewrite range_snoc, map_app, Turan.sum_app, <- IH by lia.
    simpl. rewrite Z.pow_1_l by lia. lia.
  - symmetry. apply Z.div_unique_exact; lia.
Qed.

End Trees.



(** [balanced_tree(r, h)] for [r >= 1] and [h >= 0], in any container:
    the tree has [1 + r + ... + r^h] nodes, the identifiers from 0 up, one
    edge fewer than nodes, and the parent of node [k] is node
    [(k-1) div r]. *)
Theorem balanced_tree_size (r ht : Z) (create_using : option loc) (h : heap) :
  1 <= r -> 0 <= ht ->
  valid create_using h ->
  exists h' G,
    balanced_tree r ht create_using h = (h', Ok G)
    /\ G = target create_using h
    /\ Z.of_nat (Gr.number_of_nodes (fetch h' G))
       = sum (map (Z.pow r) (range 0 (ht + 1)))
    /\ Gr.nodes (fetch h' G)
       = int_nodes (range 0 (sum (map (Z.pow r) (range 0 (ht + 1)))))
    /\ edge_list (fetch h' G)
       = int_edges (map (fun k => ((k - 1) / r, k))
                        (range 1 (sum (map (Z.pow r) (range 0 (ht + 1))))))
    /\ Z.of_nat (Gr.number_of_edges (fetch h' G))
       = sum (map (Z.pow r) (range 0 (ht + 1))) - 1.
Proof.
  intros Hr Hh Hv. unfold balanced_tree.
  rewrite Trees.balanced_size by assumption.
  set (n := sum (map (Z.pow r) (range 0 (ht + 1)))).
  assert (Hn : 1 <= n).
  { unfold n. rewrite (ListFacts.range_cons 0) by lia.
    change (sum (map (Z.pow r) (0 :: range (0 + 1) (ht + 1))))
      with (r ^ 0 + sum (map (Z.pow r) (range (0 + 1) (ht + 1)))).
    rewrite Z.pow_0_r.
    assert (P : forall l, (forall x, In x l -> 0 <= x) -> 0 <= sum (map (Z.pow r) l)).
    { induction l as [| x t IH]; intros Hl; simpl; [lia |].
      assert (0 <= r ^ x) by (apply Z.pow_nonneg; lia).
      specialize (IH (fun y Hy => Hl y (or_intror Hy))). lia. }
    specialize (P (range (0 + 1) (ht + 1))).
    assert (0 <= sum (map (Z.pow r) (range (0 + 1) (ht + 1)))).
    { apply P. intros x Hx. apply ListFacts.in_range in Hx. lia. }
    lia. }
  do 2 eexists. split; [now apply Trees.full_rary_tree_run |].
  split; [reflexivity |]. rewrite HeapFacts.fetch_place by exact Hv.
  destruct (Trees.tree_shape r n create_using h Hr) as [E N].
  split; [| split; [exact N | split; [exact E |]]].
  - rewrite FillFacts.number_of_nodes_length, N. unfold int_nodes.
    rewrite length_map, ListFacts.length_range. lia.
  - unfold Gr.number_of_edges. rewrite E. unfold int_edges.
    rewrite !length_map, ListFacts.length_range. lia.
Qed.

Lemma balanced_tree_size_witness :
  exists h' G,
    balanced_tree 2 2 None [] = (h', Ok G)
    /\ G = 0%nat
    /\ Z.of_nat (Gr.number_of_nodes (fetch h' G))
       = sum (map (Z.pow 2) (range 0 (2 + 1)))
    /\ Gr.nodes (fetch h' G)
       = int_nodes (range 0 (sum (map (Z.pow 2) (range 0 (2 + 1)))))
    /\ edge_list (fetch h' G)
       = int_edges (map (fun k => ((k - 1) / 2, k))
                        (range 1 (sum (map (Z.pow 2) (range 0 (2 + 1))))))
    /\ Z.of_nat (Gr.number_of_edges (fetch h' G))
       = sum (map (Z.pow 2) (range 0 (2 + 1))) - 1.
Proof.
  apply (balanced_tree_size 2 2 None []).
  - lia.
  - lia.
  - exact I.
Defined.

(* ================================================================== *)
(** * circulant_graph *)

Module Circulant.

Import GrFacts HeapFacts FillFacts ListFacts CountFacts.

(** A loop whose every pass is a fixed change of the container. *)
Lemma bind_for_run {A B : Type} (cu : option loc) (h : heap) (l : list A)
      (body : A -> M unit) (f : A -> Graph -> Graph) :
  (forall x g (k : unit -> M B),
      In x l -> bind (body x) k (place cu h g) = k tt (place cu h (f x g))) ->
  forall (k : unit -> M B) (g : Graph),
    bind (for_ l body) k (place cu h g)
    = k tt (place cu h (fold_left (fun g x => f x g) l g)).
Proof.
  induction l as [| x t IH]; intros Hb k g; simpl.
  - reflexivity.
  - rewrite bind_bind, Hb by now left. apply IH.
    intros y g' k' Hy. apply Hb. now right.
Qed.

Lemma fold_left_flat_map {A B C : Type} (f : C -> B -> C) (F : A -> list B)
      (l : list A) (c : C) :
  fold_left f (flat_map F l) c = fold_left (fun c x => fold_left f (F x) c) l c.
Proof.
  revert c. induction l as [| x t IH]; intros c; simpl; [reflexivity |].
  now rewrite fold_left_app, IH.
Qed.

Lemma fold_offsets (n i : Z) (offsets : list Z) (g : Graph) :
  fold_left (fun g j => Gr.add_edge (NInt i) (NInt ((i + j) mod n))
                          (Gr.add_edge (NInt i) (NInt ((i - j) mod n)) g))
            offsets g
  = Gr.add_edges_from
      (int_edges (flat_map (fun j => [(i, (i - j) mod n); (i, (i + j) mod n)])
                           offsets)) g.
Proof.
  revert g. induction offsets as [| j t IH]; intros g; [reflexivity |].
  simpl. rewrite IH. reflexivity.
Qed.

Lemma fold_circulant (n : Z) (offsets l : list Z) (g : Graph) :
  fold_left
    (fun g i =>
       fold_left (fun g j => Gr.add_edge (NInt i) (NInt ((i + j) mod n))
                               (Gr.add_edge (NInt i) (NInt ((i - j) mod n)) g))
                 offsets g) l g
  = Gr.add_edges_from
      (int_edges
         (flat_map (fun i => flat_map (fun j => [(i, (i - j) mod n);
                                                 (i, (i + j) mod n)]) offsets) l))
      g.
Proof.
  revert g. induction l as [| i t IH]; intros g; [reflexivity |].
  simpl. rewrite IH, fold_offsets, Cycles.int_edges_app.
  now rewrite Cycles.add_edges_from_app.
Qed.

Lemma circulant_graph_run (n : Z) (offsets : list Z) (cu : option loc) (h : heap) :
  valid cu h ->
  circulant_graph n offsets cu h
  = (place cu h
       (Gr.add_edges_from (int_edges (circulant_edges n offsets))
          (Gr.set_name
             ("circulant_graph(" ++ str_int n ++ ", ["
                ++ join ", " (map str_int offsets) ++ "])")%string
             (Gr.add_nodes_from (int_nodes (range 0 n)) []
                (Gr.set_name ("empty_graph(" ++ str_int n ++ ")")%string
                   (start cu h))))),
     Ok (target cu h)).
Proof.
  intros Hv. unfold circulant_graph. rewrite bind_empty_graph by exact Hv.
  unfold set_name. rewrite bind_update by exact Hv.
  rewrite (bind_for_run cu h (range 0 n) _
             (fun i g =>
                fold_left
                  (fun g j => Gr.add_edge (NInt i) (NInt ((i + j) mod n))
                                (Gr.add_edge (NInt i) (NInt ((i - j) mod n)) g))
                  offsets g)).
  - rewrite fold_circulant. reflexivity.
  - intros i g k _.
    apply (bind_for_run cu h offsets _
             (fun j g => Gr.add_edge (NInt i) (NInt ((i + j) mod n))
                           (Gr.add_edge (NInt i) (NInt ((i - j) mod n)) g))).
    intros j g' k' _. unfold add_edge.
    rewrite bind_bind, !bind_update by exact Hv. reflexivity.
Qed.

Lemma in_circulant_edges (n : Z) (offsets : list Z) (x y : Z) :
  In (x, y) (circulant_edges n offsets)
  <-> 0 <= x < n
      /\ exists j, In j offsets /\ (y = (x - j) mod n \/ y = (x + j) mod n).
Proof.
  unfold circulant_edges. rewrite in_flat_map. split.
  - intros [i [Hi H]]. apply in_range in Hi. apply in_flat_map in H.
    destruct H as [j [Hj H]]. simpl in H.
    destruct H as [E | [E | []]]; Cycles.split_pair E; (split; [lia |]);
      exists j; auto.
  - intros [Hx [j [Hj H]]]. exists x. split; [now apply in_range |].
    apply in_flat_map. exists j. split; [exact Hj |]. simpl.
    destruct H as [-> | ->]; auto.
Qed.

(** [b] is [(a + j) mod n] exactly when it is a residue and differs from
    [a + j] by a multiple of [n]. *)
Lemma mod_step (n a b j : Z) :
  0 < n -> (b = (a + j) mod n <-> 0 <= b < n /\ (b - a - j) mod n = 0).
Proof.
  intros Hn. split.
  - intros ->. split; [apply Z.mod_pos_bound; lia |].
    pose proof (Z.div_mod (a + j) n) as D.
    replace ((a + j) mod n - a - j) with (- ((a + j) / n) * n) by lia.
    apply Z_mod_mult.
  - intros [Hb H]. apply Z.mod_divide in H; [| lia]. destruct H as [q Hq].
    replace (a + j) with (b + (- q) * n) by lia.
    rewrite Z.mod_add by lia. symmetry. now apply Z.mod_small.
Qed.

Lemma has_edge_empty (G : Graph) (u v : node) :
  edge_list G = [] -> Gr.has_edge G u v = false.
Proof. intros E. unfold Gr.has_edge. now rewrite E. Qed.

End Circulant.

(** [circulant_graph(n, offsets)] for [n >= 1], in any container: the
    nodes are [0..n-1], and the node [a] is joined to the node [b] exactly
    when both are in range and [b] is congruent modulo [n] to [a + j] or
    to [a - j] for one of the offsets [j]. *)
Theorem circulant_graph_adjacency (n : Z) (offsets : list Z)
        (create_using : option loc) (h : heap) :
  1 <= n ->
  valid create_using h ->
  exists h' G,
    circulant_graph n offsets create_using h = (h', Ok G)
    /\ G = target create_using h
    /\ Gr.nodes (fetch h' G) = int_nodes (range 0 n)
    /\ (forall a b,
           Gr.has_edge (fetch h' G) (NInt a) (NInt b) = true
           <-> 0 <= a < n /\ 0 <= b < n
               /\ exists j, In j offsets
                            /\ ((b - a - j) mod n = 0 \/ (b - a + j) mod n = 0)).
Proof.
  intros Hn Hv. do 2 eexists.
  split; [now apply Circulant.circulant_graph_run |].
  split; [reflexivity |]. rewrite HeapFacts.fetch_place by exact Hv.
  set (g0 := Gr.set_name _ (Gr.add_nodes_from _ _ _)).
  assert (N0 : Gr.nodes g0 = int_nodes (range 0 n)).
  { apply FillFacts.nodes_fill, ListFacts.nodup_int_nodes, ListFacts.nodup_range. }
  assert (E0 : edge_list g0 = []) by apply FillFacts.edge_list_fill.
  split.
  - rewrite GrFacts.nodes_add_edges_from_known; [exact N0 |].
    intros x Hx. unfold endpoints in Hx. apply in_flat_map in Hx.
    destruct Hx as [e [He Hx]]. unfold int_edges in He. apply in_map_iff in He.
    destruct He as [[a b] [<- He]]. apply Circulant.in_circulant_edges in He.
    destruct He as [Ha [j [_ Hb]]]. rewrite N0. simpl in Hx.
    destruct Hx as [<- | [<- | []]];
      apply ListFacts.in_int_nodes_NInt, ListFacts.in_range; [lia |].
    destruct Hb as [-> | ->]; apply Z.mod_pos_bound; lia.
  - intros a b. rewrite Adjacency.has_edge_add_edges_from.
    rewrite (Circulant.has_edge_empty g0) by exact E0. simpl orb.
    rewrite existsb_exists. split.
    + intros [e [He J]]. unfold int_edges in He. apply in_map_iff in He.
      destruct He as [[x y] [<- He]]. apply Circulant.in_circulant_edges in He.
      destruct He as [Hx [j [Hj Hy]]].
      cbn [fst snd] in J. rewrite Adjacency.joins_int in J.
      assert (Y : 0 <= y < n /\ ((y - x - j) mod n = 0 \/ (y - x + j) mod n = 0)).
      { destruct Hy as [Hy | Hy].
        - replace (x - j) with (x + - j) in Hy by lia.
          apply Circulant.mod_step in Hy; [| lia].
          replace (y - x - - j) with (y - x + j) in Hy by lia. tauto.
        - apply Circulant.mod_step in Hy; [| lia]. tauto. }
      destruct Y as [Yb Y].
      rewrite orb_true_iff, !andb_true_iff, !Z.eqb_eq in J.
      destruct J as [[-> ->] | [[_ ->] ->]].
      * split; [lia |]. split; [lia |]. exists j. tauto.
      * split; [lia |]. split; [lia |]. exists j. split; [exact Hj |].
        destruct Y as [Y | Y]; [right | left].
        -- replace (x - y + j) with (- (y - x - j)) by lia.
           apply Z.mod_divide; [lia |]. apply Z.divide_opp_r.
           apply Z.mod_divide; [lia | exact Y].
        -- replace (x - y - j) with (- (y - x + j)) by lia.
           apply Z.mod_divide; [lia |]. apply Z.divide_opp_r.
           apply Z.mod_divide; [lia | exact Y].
    + intros (Ha & Hb & j & Hj & H).
      exists (NInt a, NInt ((if Z.eq_dec ((b - a - j) mod n) 0
                             then a + j else a - j) mod n)).
      split.
      * unfold int_edges. apply in_map_iff.
        exists (a, (if Z.eq_dec ((b - a - j) mod n) 0 then a + j else a - j) mod n).
        split; [reflexivity |]. apply Circulant.in_circulant_edges.
        split; [exact Ha |]. exists j. split; [exact Hj |].
        destruct (Z.eq_dec ((b - a - j) mod n) 0); auto.
      * rewrite Adjacency.joins_int, Z.eqb_refl. simpl andb.
        apply orb_true_iff. left. apply Z.eqb_eq.
        destruct (Z.eq_dec ((b - a - j) mod n) 0) as [Z0 | Z0].
        -- apply Circulant.mod_step; [lia | tauto].
        -- replace (a - j) with (a + - j) by lia.
           apply Circulant.mod_step; [lia |]. split; [exact Hb |].
           replace (b - a - - j) with (b - a + j) by lia. tauto.
Qed.

Lemma circulant_graph_adjacency_witness :
  exists h' G,
    circulant_graph 7 [1; 3] (Some 0%nat) [old_digraph] = (h', Ok G)
    /\ G = 0%nat
    /\ Gr.nodes (fetch h' G) = int_nodes (range 0 7)
    /\ (forall a b,
           Gr.has_edge (fetch h' G) (NInt a) (NInt b) = true
           <-> 0 <= a < 7 /\ 0 <= b < 7
               /\ exists j, In j [1; 3]
                            /\ ((b - a - j) mod 7 = 0 \/ (b - a + j) mod 7 = 0)).
Proof.
  apply (circulant_graph_adjacency 7 [1; 3] (Some 0%nat) [old_digraph]).
  - lia.
  - simpl. lia.
Defined.

(* ================================================================== *)
(** * The blocks of complete_multipartite_graph *)

Module Blocks.

Import GrFacts HeapFacts FillFacts ListFacts CountFacts Multipartite Turan.

Lemma sum_nonneg (sizes : list Z) :
  Forall (fun x => 0 <= x) sizes -> 0 <= sum sizes.
Proof. induction 1; unfold sum in *; simpl; lia. Qed.

Lemma block_index_range (sizes : list Z) (acc k a j : Z) :
  block_index acc k sizes a = Some j -> k <= j < k + Z.of_nat (length sizes).
Proof.
  revert acc k. induction sizes as [| s t IH]; intros acc k; simpl block_index.
  - discriminate.
  - destruct ((acc <=? a) && (a <? acc + s)).
    + intros E. injection E as <-. simpl length. lia.
    + intros E. apply IH in E. simpl length. lia.
Qed.

Lemma block_index_bounds (sizes : list Z) (acc k a j : Z) :
  Forall (fun x => 0 <= x) sizes ->
  block_index acc k sizes a = Some j -> acc <= a < acc + sum sizes.
Proof.
  intros H. revert acc k. induction H as [| s t Hs Ht IH]; intros acc k;
    simpl block_index.
  - discriminate.
  - pose proof (sum_nonneg t Ht) as P.
    change (sum (s :: t)) with (s + sum t).
    destruct (Z.leb_spec acc a), (Z.ltb_spec a (acc + s)); simpl andb;
      try (intros E; apply IH in E; lia); intros _; lia.
Qed.

Lemma block_index_in (sizes : list Z) (acc k a : Z) :
  Forall (fun x => 0 <= x) sizes ->
  acc <= a < acc + sum sizes -> exists j, block_index acc k sizes a = Some j.
Proof.
  intros H. revert acc k. induction H as [| s t Hs Ht IH]; intros acc k;
    simpl block_index.
  - unfold sum. simpl. lia.
  - change (sum (s :: t)) with (s + sum t). intros Ha.
    destruct (Z.leb_spec acc a), (Z.ltb_spec a (acc + s)); simpl andb;
      try lia; [eexists; reflexivity |].
    apply IH. lia.
Qed.

(** The pairs across the blocks are the pairs of integers whose blocks
    come in that order. *)
Lemma in_cross_blocks (sizes : list Z) (acc k a b : Z) :
  Forall (fun x => 0 <= x) sizes ->
  In (a, b) (cross (blocks_from acc sizes))
  <-> exists i j, block_index acc k sizes a = Some i
                  /\ block_index acc k sizes b = Some j /\ i < j.
Proof.
  intros H. revert acc k. induction H as [| s t Hs Ht IH]; intros acc k.
  - rewrite blocks_from_nil. simpl. split; [intros [] |].
    intros (i & j & E & _). discriminate.
  - rewrite blocks_from_cons, cross_cons, in_app_iff, in_flat_product.
    rewrite concat_blocks_from by exact Ht. rewrite !in_range.
    rewrite (IH (acc + s) (k + 1)). simpl block_index. split.
    + intros [[Ha Hb] | (i & j & Ei & Ej & Hij)].
      * destruct (block_index_in t (acc + s) (k + 1) b Ht Hb) as [j Ej].
        exists k, j.
        replace ((acc <=? a) && (a <? acc + s)) with true
          by (symmetry; apply andb_true_iff; split;
              [apply Z.leb_le | apply Z.ltb_lt]; lia).
        replace ((acc <=? b) && (b <? acc + s)) with false
          by (symmetry; apply andb_false_iff; right; apply Z.ltb_ge; lia).
        apply block_index_range in Ej as R. split; [reflexivity |].
        split; [exact Ej | lia].
      * exists i, j.
        apply block_index_bounds in Ei as Bi; [| exact Ht].
        apply block_index_bounds in Ej as Bj; [| exact Ht].
        replace ((acc <=? a) && (a <? acc + s)) with false
          by (symmetry; apply andb_false_iff; right; apply Z.ltb_ge; lia).
        replace ((acc <=? b) && (b <? acc + s)) with false
          by (symmetry; apply andb_false_iff; right; apply Z.ltb_ge; lia).
        auto.
    + intros (i & j & Ei & Ej & Hij).
      destruct ((acc <=? a) && (a <? acc + s)) eqn:Ca;
        destruct ((acc <=? b) && (b <? acc + s)) eqn:Cb.
      * injection Ei as <-. injection Ej as <-. lia.
      * left. apply andb_true_iff in Ca. destruct Ca as [C1 C2].
        apply Z.leb_le in C1. apply Z.ltb_lt in C2.
        apply block_index_bounds in Ej; [| exact Ht]. split; [lia | exact Ej].
      * injection Ej as <-. apply block_index_range in Ei. lia.
      * right. exists i, j. auto.
Qed.

(** ** Node attributes *)

Lemma find_app {A : Type} (f : A -> bool) (l1 l2 : list A) :
  find f (l1 ++ l2)
  = match find f l1 with Some x => Some x | None => find f l2 end.
Proof.
  induction l1 as [| x t IH]; simpl; [reflexivity |].
  destruct (f x); [reflexivity | exact IH].
Qed.

Lemma put_node_fresh (v : node) (a : attrs) (l : list (node * attrs)) :
  ~ In v (map fst l) -> Gr.put_node v a l = l ++ [(v, a)].
Proof.
  induction l as [| [w b] t IH]; simpl; intros H; [reflexivity |].
  destruct (node_eqb v w) eqn:E.
  - apply node_eqb_eq in E. subst. tauto.
  - rewrite IH by tauto. reflexivity.
Qed.

Lemma put_node_known (v : node) (l : list (node * attrs)) :
  In v (map fst l) -> Gr.put_node v [] l = l.
Proof.
  induction l as [| [w b] t IH]; simpl; intros H; [destruct H |].
  destruct (node_eqb v w) eqn:E.
  - unfold Gr.attrs_update. simpl. rewrite app_nil_r.
    f_equal. f_equal. clear. induction b as [| x b IH]; simpl; [reflexivity |].
    now rewrite IH.
  - f_equal. apply IH. destruct H as [-> | H]; [| exact H].
    rewrite node_eqb_refl in E. discriminate.
Qed.

Lemma node_data_add_nodes_from_fresh (vs : list node) (a : attrs) (G : Graph) :
  NoDup (Gr.nodes G ++ vs) ->
  node_data (Gr.add_nodes_from vs a G)
  = node_data G ++ map (fun v => (v, a)) vs.
Proof.
  unfold Gr.add_nodes_from. revert G.
  induction vs as [| v t IH]; intros G H; simpl.
  - symmetry. apply app_nil_r.
  - assert (Hv : ~ In v (Gr.nodes G)).
    { apply NoDup_remove_2 in H. rewrite in_app_iff in H. tauto. }
    rewrite IH.
    + unfold Gr.add_node. simpl. rewrite put_node_fresh by exact Hv.
      now rewrite <- app_assoc.
    + rewrite nodes_add_node.
      apply existsb_node_eqb_false in Hv. rewrite Hv, <- app_assoc. exact H.
Qed.

Lemma node_data_add_edge_known (u v : node) (G : Graph) :
  In u (Gr.nodes G) -> In v (Gr.nodes G) ->
  node_data (Gr.add_edge u v G) = node_data G.
Proof.
  intros Hu Hv. unfold Gr.add_edge.
  assert (E : node_data (Gr.add_node v [] (Gr.add_node u [] G)) = node_data G).
  { unfold Gr.add_node. simpl. rewrite (put_node_known u) by exact Hu.
    now apply put_node_known. }
  destruct (multigraph G || negb (Gr.has_edge G u v)); simpl; exact E.
Qed.

Lemma node_data_add_edges_from_known (es : list (node * node)) (G : Graph) :
  (forall x, In x (endpoints es) -> In x (Gr.nodes G)) ->
  node_data (Gr.add_edges_from es G) = node_data G.
Proof.
  unfold Gr.add_edges_from. revert G.
  induction es as [| e t IH]; intros G H; simpl; [reflexivity |].
  assert (E : node_data (Gr.add_edge (fst e) (snd e) G) = node_data G).
  { apply node_data_add_edge_known; apply H; simpl; auto. }
  rewrite IH; [exact E |].
  intros x Hx. unfold Gr.nodes. rewrite E. apply H. simpl. auto.
Qed.

Lemma node_data_fold_blocks (ibs : list (Z * NodeSpec)) (g : Graph) :
  NoDup (Gr.nodes g ++ concat (map (fun ib => block_items (snd ib)) ibs)) ->
  node_data
    (fold_left
       (fun g ib => Gr.add_nodes_from (block_items (snd ib))
                                      [("block"%string, fst ib)] g) ibs g)
  = node_data g
    ++ flat_map (fun ib => map (fun v => (v, [("block"%string, fst ib)]))
                               (block_items (snd ib))) ibs.
Proof.
  revert g. induction ibs as [| ib t IH]; intros g H; simpl.
  - symmetry. apply app_nil_r.
  - simpl in H. rewrite app_assoc in H.
    assert (E : Gr.nodes (Gr.add_nodes_from (block_items (snd ib))
                                            [("block"%string, fst ib)] g)
                = Gr.nodes g ++ block_items (snd ib)).
    { apply nodes_add_nodes_from_fresh. eapply NoDup_app_remove_r, H. }
    rewrite IH by (rewrite E; exact H).
    rewrite node_data_add_nodes_from_fresh by (eapply NoDup_app_remove_r, H).
    now rewrite <- app_assoc.
Qed.

Lemma find_in_range (a lo hi : Z) (at_ : attrs) :
  find (fun p => node_eqb (NInt a) (fst p))
       (map (fun v => (v, at_)) (int_nodes (range lo hi)))
  = if (lo <=? a) && (a <? hi) then Some (NInt a, at_) else None.
Proof.
  remember (Z.to_nat (hi - lo)) as k eqn:Hk. revert lo Hk.
  induction k as [| k IH]; intros lo Hk.
  - rewrite range_nil by lia. simpl.
    destruct (Z.leb_spec lo a), (Z.ltb_spec a hi); simpl; auto; lia.
  - rewrite range_cons by lia. simpl find. destruct (Z.eqb_spec a lo) as [-> | Hne].
    + replace ((lo <=? lo) && (lo <? hi)) with true; [reflexivity |].
      symmetry. apply andb_true_iff. split; [apply Z.leb_le | apply Z.ltb_lt]; lia.
    + fold (int_nodes (range (lo + 1) hi)). rewrite IH by lia.
      destruct (Z.leb_spec lo a), (Z.leb_spec (lo + 1) a), (Z.ltb_spec a hi);
        simpl; auto; lia.
Qed.

Lemma find_blocks (sizes : list Z) (acc k a : Z) :
  find (fun p => node_eqb (NInt a) (fst p))
       (flat_map (fun ib : Z * NodeSpec =>
                    map (fun v => (v, [("block"%string, fst ib)]))
                        (block_items (snd ib)))
                 (enumerate_from k
                    (map (fun B => Explicit (int_nodes B)) (blocks_from acc sizes))))
  = option_map (fun i => (NInt a, [("block"%string, i)]))
               (block_index acc k sizes a).
Proof.
  revert acc k. induction sizes as [| s t IH]; intros acc k; [reflexivity |].
  rewrite blocks_from_cons. simpl flat_map. rewrite find_app, find_in_range.
  simpl block_index. destruct ((acc <=? a) && (a <? acc + s)); [reflexivity |].
  apply IH.
Qed.

Lemma multipartite_node_data (sizes : list Z) :
  Forall (fun x => 0 <= x) sizes ->
  node_data (multipartite_state sizes)
  = flat_map (fun ib : Z * NodeSpec =>
                map (fun v => (v, [("block"%string, fst ib)]))
                    (block_items (snd ib)))
             (enumerate
                (map (fun B => Explicit (int_nodes B)) (blocks_from 0 sizes))).
Proof.
  intros Hs. unfold multipartite_state. cbv zeta.
  set (g0 := Gr.set_name _ (Gr.blank false false)).
  set (Bs := blocks_from 0 sizes).
  assert (HBs : concat Bs = range 0 (sum sizes)).
  { subst Bs. now rewrite concat_blocks_from. }
  assert (Hc : concat (map (fun ib : Z * NodeSpec => block_items (snd ib))
                           (enumerate (map (fun B => Explicit (int_nodes B)) Bs)))
               = int_nodes (range 0 (sum sizes))).
  { rewrite <- (map_map snd block_items). unfold enumerate.
    rewrite snd_enumerate_from, map_map. simpl.
    unfold int_nodes. rewrite <- concat_map. now rewrite HBs. }
  assert (ND : NoDup (Gr.nodes g0
                      ++ concat (map (fun ib : Z * NodeSpec => block_items (snd ib))
                                     (enumerate
                                        (map (fun B => Explicit (int_nodes B)) Bs))))).
  { rewrite Hc. simpl. apply nodup_int_nodes, nodup_range. }
  destruct (nodes_fold_blocks _ g0 ND) as (N1 & _).
  rewrite Hc in N1. simpl in N1.
  rewrite add_edges_from_fold, cross_edges.
  rewrite node_data_add_edges_from_known.
  - now rewrite (node_data_fold_blocks _ g0 ND).
  - intros x Hx. unfold endpoints in Hx. apply in_flat_map in Hx.
    destruct Hx as [e [He Hx]]. unfold int_edges in He.
    apply in_map_iff in He. destruct He as [[a b] [<- He]].
    apply in_cross in He. rewrite HBs in He. rewrite N1. simpl in Hx.
    destruct Hx as [<- | [<- | []]]; apply in_int_nodes_NInt; tauto.
Qed.

Lemma complete_multipartite_graph_ints (sizes : list Z) (h : heap) :
  complete_multipartite_graph (map Count sizes) h
  = (h ++ [multipartite_state sizes], Ok (length h)).
Proof.
  destruct sizes as [| x t]; [| apply complete_multipartite_graph_run].
  unfold complete_multipartite_graph, multipartite_state.
  unfold new_Graph. unfold bind at 1, alloc.
  change (h ++ [Gr.blank false false]) with (place None h (Gr.blank false false)).
  change (length h) with (target None h).
  unfold set_name. rewrite bind_update by exact I. reflexivity.
Qed.

End Blocks.

(** [complete_multipartite_graph] given non-negative integer block sizes:
    it returns a new simple undirected graph and leaves every other object
    alone; the nodes are [0..n-1] for [n] the sum of the sizes, cut into
    consecutive blocks; the node attribute ['block'] of a node is the
    position of its block; two nodes are joined exactly when they lie in
    different blocks. *)
Theorem complete_multipartite_graph_blocks (sizes : list Z) (h : heap) :
  Forall (fun s => 0 <= s) sizes ->
  exists h' G,
    complete_multipartite_graph (map Count sizes) h = (h', Ok G)
    /\ G = length h
    /\ (forall l, (l < length h)%nat -> fetch h' l = fetch h l)
    /\ directed (fetch h' G) = false
    /\ multigraph (fetch h' G) = false
    /\ Gr.nodes (fetch h' G) = int_nodes (range 0 (sum sizes))
    /\ (forall a, node_attr (fetch h' G) (NInt a) "block"
                  = block_index 0 0 sizes a)
    /\ (forall a b,
           Gr.has_edge (fetch h' G) (NInt a) (NInt b) = true
           <-> exists i j, block_index 0 0 sizes a = Some i
                           /\ block_index 0 0 sizes b = Some j /\ i <> j).
Proof.
  intros Hs. do 2 eexists.
  split; [apply Blocks.complete_multipartite_graph_ints |].
  split; [reflexivity |].
  split; [intros l Hl; now apply HeapFacts.fetch_old |].
  rewrite HeapFacts.fetch_new.
  destruct (Turan.multipartite_state_facts sizes Hs) as (N & E & D & Mu).
  split; [exact D |]. split; [exact Mu |]. split; [exact N |]. split.
  - intros a. unfold node_attr.
    rewrite (Blocks.multipartite_node_data sizes Hs). unfold enumerate.
    rewrite Blocks.find_blocks.
    destruct (block_index 0 0 sizes a); reflexivity.
  - intros a b. rewrite CycleGraph.has_edge_true, D, E.
    rewrite !ListFacts.in_int_edges.
    rewrite !(Blocks.in_cross_blocks sizes 0 0) by exact Hs. split.
    + intros [(i & j & Ei & Ej & Hij) | [_ (i & j & Ei & Ej & Hij)]].
      * exists i, j. repeat split; try assumption. lia.
      * exists j, i. repeat split; try assumption. lia.
    + intros (i & j & Ei & Ej & Hij).
      destruct (Z.lt_total i j) as [Lt | [Eq | Gt]]; [| contradiction |].
      * left. exists i, j. auto.
      * right. split; [reflexivity |]. exists j, i. auto.
Qed.

Lemma complete_multipartite_graph_blocks_witness :
  exists h' G,
    complete_multipartite_graph (map Count [1; 2; 3]) [old_graph] = (h', Ok G)
    /\ G = 1%nat
    /\ (forall l, (l < 1)%nat -> fetch h' l = fetch [old_graph] l)
    /\ directed (fetch h' G) = false
    /\ multigraph (fetch h' G) = false
    /\ Gr.nodes (fetch h' G) = int_nodes (range 0 (sum [1; 2; 3]))
    /\ (forall a, node_attr (fetch h' G) (NInt a) "block"
                  = block_index 0 0 [1; 2; 3] a)
    /\ (forall a b,
           Gr.has_edge (fetch h' G) (NInt a) (NInt b) = true
           <-> exists i j, block_index 0 0 [1; 2; 3] a = Some i
                           /\ block_index 0 0 [1; 2; 3] b = Some j /\ i <> j).
Proof.
  apply (complete_multipartite_graph_blocks [1; 2; 3] [old_graph]).
  repeat constructor; lia.
Defined.

Module MixedBlocks.

Import GrFacts HeapFacts FillFacts ListFacts Turan.

Lemma all_counts_some (bs : list NodeSpec) (sizes : list Z) :
  all_counts bs = Some sizes ->
  bs = map Count sizes /\ forallb isinstance_int bs = true.
Proof.
  revert sizes. induction bs as [| [k | l] t IH]; intros sizes; simpl.
  - intros E. injection E as <-. auto.
  - destruct (all_counts t) as [ks |]; [| discriminate].
    intros E. injection E as <-. destruct (IH ks eq_refl) as [-> F].
    simpl. auto.
  - discriminate.
Qed.

Lemma all_counts_none (bs : list NodeSpec) :
  all_counts bs = None -> forallb isinstance_int bs = false.
Proof.
  induction bs as [| [k | l] t IH]; simpl; [discriminate | | reflexivity].
  destruct (all_counts t); [discriminate | auto].
Qed.

(** The loop that adds the nodes stops at the first integer block. *)
Lemma node_loop (G : loc) (bs : list NodeSpec) (k : Z) (h : heap) :
  exists h',
    for_ (enumerate_from k bs)
         (fun ib =>
            match snd ib with
            | Explicit block =>
                add_nodes_from_attr G block [("block"%string, fst ib)]
            | Count _ =>
                raise (NetworkXError "Arguments must be all ints or all iterables")
            end) h
    = (h', if existsb isinstance_int bs
           then Raise (NetworkXError "Arguments must be all ints or all iterables")
           else Ok tt).
Proof.
  revert k h. induction bs as [| [c | l] t IH]; intros k h; simpl.
  - eexists. reflexivity.
  - eexists. reflexivity.
  - unfold bind, add_nodes_from_attr, update. apply IH.
Qed.

Lemma edge_loop {A : Type} (G : loc) (l : list A) (F : A -> list (node * node))
      (h : heap) :
  exists h', for_ l (fun x => add_edges_from G (F x)) h = (h', Ok tt).
Proof.
  revert h. induction l as [| x t IH]; intros h; simpl.
  - eexists. reflexivity.
  - unfold bind, add_edges_from, update. apply IH.
Qed.

End MixedBlocks.

(** [complete_multipartite_graph] raises [NetworkXError] exactly when its
    arguments mix integers with iterables of nodes; given only integers,
    only iterables, or nothing, it returns a newly allocated graph. *)
Theorem complete_multipartite_graph_mixed (block_sizes : list NodeSpec) (h : heap) :
  exists h',
    complete_multipartite_graph block_sizes h
    = (h', if mixed block_sizes
           then Raise (NetworkXError "Arguments must be all ints or all iterables")
           else Ok (length h)).
Proof.
  unfold mixed. destruct (all_counts block_sizes) as [sizes |] eqn:A.
  - apply MixedBlocks.all_counts_some in A. destruct A as [-> F].
    rewrite F, andb_false_r. eexists. apply Blocks.complete_multipartite_graph_ints.
  - pose proof (MixedBlocks.all_counts_none _ A) as F. rewrite F, andb_true_r.
    unfold complete_multipartite_graph. rewrite A.
    destruct block_sizes as [| b t]; [discriminate A |].
    unfold new_Graph, alloc, set_name, update. unfold bind at 1 2.
    set (h1 := store _ _ _).
    destruct (MixedBlocks.node_loop (length h) (b :: t) 0 h1) as [h2 E].
    unfold enumerate. unfold bind at 1. rewrite E.
    destruct (existsb isinstance_int (b :: t)); [eexists; reflexivity |].
    destruct (MixedBlocks.edge_loop (length h) (combinations2 (b :: t))
                (fun bb => product (block_items (fst bb)) (block_items (snd bb))) h2)
      as [h3 E3].
    unfold bind. rewrite E3. eexists. reflexivity.
Qed.

(** The special cases of [complete_multipartite_graph] for non-negative
    integer sizes: a single block of size [n] gives [n] nodes and no edge;
    two blocks of sizes [m] and [n] give the complete bipartite graph,
    with [m + n] nodes and [m * n] edges; blocks of sizes [1] and [n] give
    the nodes and the edges of [star_graph(n)], in the same order. *)
Theorem complete_multipartite_graph_special_cases (m n : Z) (h : heap) :
  0 <= m -> 0 <= n ->
  (exists h' G,
      complete_multipartite_graph [Count n] h = (h', Ok G)
      /\ Gr.nodes (fetch h' G) = int_nodes (range 0 n)
      /\ edge_list (fetch h' G) = [])
  /\ (exists h' G,
         complete_multipartite_graph [Count m; Count n] h = (h', Ok G)
         /\ Gr.nodes (fetch h' G) = int_nodes (range 0 (m + n))
         /\ Z.of_nat (Gr.number_of_edges (fetch h' G)) = m * n)
  /\ (exists h1 G1 h2 G2,
         complete_multipartite_graph [Count 1; Count n] h = (h1, Ok G1)
         /\ star_graph (Count n) None h = (h2, Ok G2)
         /\ Gr.nodes (fetch h1 G1) = Gr.nodes (fetch h2 G2)
         /\ edge_list (fetch h1 G1) = edge_list (fetch h2 G2)).
Proof.
  intros Hm Hn. split; [| split].
  - do 2 eexists. split; [apply (Blocks.complete_multipartite_graph_ints [n]) |].
    rewrite HeapFacts.fetch_new.
    assert (Hs : Forall (fun x => 0 <= x) [n]) by (repeat constructor; lia).
    destruct (Turan.multipartite_state_facts [n] Hs) as (N & E & _).
    change (sum [n]) with (n + 0) in N. rewrite Z.add_0_r in N.
    split; [exact N |]. rewrite E. reflexivity.
  - do 2 eexists. split; [apply (Blocks.complete_multipartite_graph_ints [m; n]) |].
    rewrite HeapFacts.fetch_new.
    assert (Hs : Forall (fun x => 0 <= x) [m; n]) by (repeat constructor; lia).
    destruct (Turan.multipartite_state_facts [m; n] Hs) as (N & _).
    pose proof (Turan.multipartite_edges [m; n] Hs) as C.
    change (sum [m; n]) with (m + (n + 0)) in *.
    change (sum_squares [m; n]) with (m * m + (n * n + 0)) in *.
    split; [rewrite N; f_equal; f_equal; lia | nia].
  - do 4 eexists.
    split; [apply (Blocks.complete_multipartite_graph_ints [1; n]) |].
    split; [apply (StarGraph.star_graph_run n None h Hn I I) |].
    rewrite HeapFacts.fetch_new.
    change (h ++ [?g]) with (place None h g).
    rewrite (HeapFacts.fetch_place None) by exact I.
    assert (Hs : Forall (fun x => 0 <= x) [1; n]) by (repeat constructor; lia).
    destruct (Turan.multipartite_state_facts [1; n] Hs) as (N & E & _).
    set (vs := NInt 0 :: int_nodes (range 1 (n + 1))).
    set (g0 := Gr.add_nodes_from vs [] (Gr.set_name _ (start None h))).
    assert (Hvs : vs = int_nodes (range 0 (n + 1))).
    { subst vs. rewrite (ListFacts.range_cons 0) by lia. reflexivity. }
    assert (N0 : Gr.nodes g0 = vs).
    { apply FillFacts.nodes_fill. rewrite Hvs.
      apply ListFacts.nodup_int_nodes, ListFacts.nodup_range. }
    assert (E0 : edge_list g0 = []) by apply FillFacts.edge_list_fill.
    destruct (Grid.add_simple (spokes n) g0) as [E1 N1].
    { rewrite E0. apply StarGraph.spokes_simple. }
    { intros x Hx. unfold endpoints in Hx. apply in_flat_map in Hx.
      destruct Hx as [e [He Hx]]. unfold spokes in He.
      apply in_map_iff in He. destruct He as [v [<- Hv']].
      rewrite N0. subst vs. simpl in Hx.
      destruct Hx as [<- | [<- | []]]; [now left | now right]. }
    split.
    + rewrite N.
      change (Gr.nodes (Gr.set_name ?s ?g)) with (Gr.nodes g).
      rewrite N1, N0, Hvs.
      change (sum [1; n]) with (1 + (n + 0)). f_equal. f_equal. lia.
    + rewrite E.
      change (edge_list (Gr.set_name ?s ?g)) with (edge_list g).
      rewrite E1, E0. simpl app. rewrite StarGraph.spokes_int.
      f_equal. rewrite !Turan.blocks_from_cons, Turan.blocks_from_nil.
      rewrite !Multipartite.cross_cons. simpl flat_map.
      unfold cross. simpl. rewrite !app_nil_r.
      change (map (pair 0) (range 1 (1 + n)) = map (pair 0) (range 1 (n + 1))).
      f_equal. f_equal. lia.
Qed.

Lemma complete_multipartite_graph_special_cases_witness :
  (exists h' G,
      complete_multipartite_graph [Count 4] [] = (h', Ok G)
      /\ Gr.nodes (fetch h' G) = int_nodes (range 0 4)
      /\ edge_list (fetch h' G) = [])
  /\ (exists h' G,
         complete_multipartite_graph [Count 3; Count 4] [] = (h', Ok G)
         /\ Gr.nodes (fetch h' G) = int_nodes (range 0 (3 + 4))
         /\ Z.of_nat (Gr.number_of_edges (fetch h' G)) = 3 * 4)
  /\ (exists h1 G1 h2 G2,
         complete_multipartite_graph [Count 1; Count 4] [] = (h1, Ok G1)
         /\ star_graph (Count 4) None [] = (h2, Ok G2)
         /\ Gr.nodes (fetch h1 G1) = Gr.nodes (fetch h2 G2)
         /\ edge_list (fetch h1 G1) = edge_list (fetch h2 G2)).
Proof.
  apply (complete_multipartite_graph_special_cases 3 4 []); lia.
Defined.

(* ================================================================== *)
(** * Arguments that are turned down *)

Module Rejections.

Import HeapFacts.

Lemma reject_directed_raises {B : Type} (l : loc) (h : heap) (k : unit -> M B) :
  directed (fetch h l) = true ->
  bind (reject_directed (Some l)) k h
  = (h, Raise (NetworkXError "Directed Graph not supported")).
Proof.
  intros H. unfold reject_directed, bind, is_directed, read. now rewrite H.
Qed.

End Rejections.





(** [turan_graph(n, r)] raises [NetworkXError] exactly when [1 <= r <= n]
    fails, and then it allocates nothing; otherwise it returns a newly
    allocated graph. *)
Theorem turan_graph_domain (n r : Z) (h : heap) :
  (~ (1 <= r <= n) ->
   turan_graph n r h = (h, Raise (NetworkXError "Must satisfy 1 <= r <= n")))
  /\ (1 <= r <= n -> exists h', turan_graph n r h = (h', Ok (length h))).
Proof.
  split.
  - intros H. unfold turan_graph.
    replace ((1 <=? r) && (r <=? n)) with false; [reflexivity |].
    symmetry. apply andb_false_iff.
    destruct (Z.leb_spec 1 r); [right; apply Z.leb_gt; lia | now left].
  - intros H. eexists. now apply Turan.turan_graph_run.
Qed.

Lemma turan_graph_domain_witness :
  turan_graph 3 5 [old_graph]
  = ([old_graph], Raise (NetworkXError "Must satisfy 1 <= r <= n"))
  /\ exists h', turan_graph 5 3 [old_graph] = (h', Ok 1%nat).
Proof.
  split.
  - apply (proj1 (turan_graph_domain 3 5 [old_graph])). lia.
  - apply (proj2 (turan_graph_domain 5 3 [old_graph])). lia.
Defined.

(* ================================================================== *)
(** * The edge view and the Dorogovtsev-Goltsev-Mendes graph *)

Module EdgeView.

Import GrFacts HeapFacts FillFacts ListFacts CountFacts.

(** Every reported edge starts at a node still to visit and is a stored
    edge, in one orientation or the other. *)
Lemma in_edges_from (G : Graph) (seen todo : list node) (u w : node) :
  In (u, w) (Gr.edges_from G seen todo) ->
  In u todo /\ (In (u, w) (edge_list G) \/ In (w, u) (edge_list G)).
Proof.
  revert seen. induction todo as [| v rest IH]; intros seen; simpl; [tauto |].
  rewrite in_app_iff, in_map_iff. intros [[x [E H]] | H].
  - Cycles.split_pair E. apply filter_In in H. destruct H as [H _].
    unfold Gr.neighbors in H. apply in_flat_map in H.
    destruct H as [[a b] [He H]]. simpl in H. split; [now left |].
    destruct (node_eqb u a) eqn:Ea.
    + apply node_eqb_eq in Ea. subst a. destruct H as [<- | []]. now left.
    + destruct (negb (directed G) && node_eqb u b) eqn:Eb; [| destruct H].
      apply andb_true_iff in Eb. destruct Eb as [_ Eb].
      apply node_eqb_eq in Eb. subst b. destruct H as [<- | []]. now right.
  - apply IH in H. tauto.
Qed.

(** The edges reported from the node [v], all the nodes of [seen] having
    been visited. *)
Lemma visit_count (v : node) (seen : list node) (E : list (node * node)) :
  ~ In v seen ->
  cnt (unseen seen) E
  = (length
       (filter (fun w => false || negb (existsb (node_eqb w) seen))
               (flat_map (fun e => if node_eqb v (fst e) then [snd e]
                                   else if negb false && node_eqb v (snd e)
                                        then [fst e] else []) E))
     + cnt (unseen (v :: seen)) E)%nat.
Proof.
  intros Hv. apply existsb_node_eqb_false in Hv.
  induction E as [| [a b] t IH]; [reflexivity |].
  rewrite !Grid.cnt_cons. cbn [flat_map fst snd]. rewrite filter_app, length_app, IH.
  unfold unseen. cbn [fst snd existsb].
  destruct (node_eqb v a) eqn:Ea.
  - apply node_eqb_eq in Ea. subst a. rewrite Hv, node_eqb_refl. simpl.
    destruct (existsb (node_eqb b) seen); simpl; lia.
  - rewrite (node_eqb_sym a v), Ea. simpl orb.
    destruct (node_eqb v b) eqn:Eb.
    + apply node_eqb_eq in Eb. subst b. rewrite Hv, node_eqb_refl. simpl.
      destruct (existsb (node_eqb a) seen); simpl; lia.
    + rewrite (node_eqb_sym b v), Eb. simpl. lia.
Qed.

Lemma length_edges_from (G : Graph) (seen todo : list node) :
  directed G = false ->
  NoDup (seen ++ todo) ->
  (forall e, In e (edge_list G) ->
             In (fst e) (seen ++ todo) /\ In (snd e) (seen ++ todo)) ->
  length (Gr.edges_from G seen todo) = cnt (unseen seen) (edge_list G).
Proof.
  intros D. revert seen. induction todo as [| v rest IH]; intros seen Hn He.
  - simpl. symmetry. apply cnt_none. intros e Hin. apply He in Hin.
    rewrite app_nil_r in Hin. destruct Hin as [H1 _].
    apply existsb_node_eqb in H1. unfold unseen. now rewrite H1.
  - simpl Gr.edges_from. rewrite length_app, length_map.
    assert (Hv : ~ In v seen).
    { apply NoDup_remove_2 in Hn. rewrite in_app_iff in Hn. tauto. }
    rewrite (visit_count v seen (edge_list G) Hv).
    unfold Gr.neighbors. rewrite D. f_equal.
    apply IH.
    + simpl. constructor.
      * apply NoDup_remove_2 in Hn. exact Hn.
      * apply NoDup_remove_1 in Hn. exact Hn.
    + intros e Hin. apply He in Hin. rewrite !in_app_iff in Hin. simpl in *.
      rewrite !in_app_iff. tauto.
Qed.

Lemma length_edges (G : Graph) :
  directed G = false ->
  NoDup (Gr.nodes G) ->
  (forall e, In e (edge_list G) ->
             In (fst e) (Gr.nodes G) /\ In (snd e) (Gr.nodes G)) ->
  length (Gr.edges G) = length (edge_list G).
Proof.
  intros D Hn He. unfold Gr.edges.
  rewrite length_edges_from; [| exact D | exact Hn | exact He].
  apply cnt_all. reflexivity.
Qed.

End EdgeView.

Module DGM.

Import GrFacts HeapFacts FillFacts ListFacts CountFacts.

Lemma range_snoc_nodes (k : Z) :
  0 <= k -> (int_nodes (range 0 k) ++ [NInt k])%list = int_nodes (range 0 (k + 1)).
Proof.
  intros H. rewrite range_snoc by lia. unfold int_nodes. now rewrite map_app.
Qed.

(** One new node joined to the two ends of an old edge. *)
Lemma dgm_step (k a b : Z) (g : Graph) :
  dgm_state k g -> 0 <= a < k -> 0 <= b < k -> a <> b ->
  let g' := Gr.add_edge (NInt k) (NInt b) (Gr.add_edge (NInt k) (NInt a) g) in
  dgm_state (k + 1) g'
  /\ edge_list g' = (edge_list g ++ [(NInt k, NInt a); (NInt k, NInt b)])%list.
Proof.
  intros (D & Mu & N & E) Ha Hb Hab g'.
  assert (Fresh : forall x, ~ In (NInt k, x) (edge_list g)
                            /\ ~ In (x, NInt k) (edge_list g)).
  { intros x. split; intros H; apply E in H;
      destruct H as (p & q & H1 & H2 & Hp & Hq & _).
    - injection H1 as <-. lia.
    - injection H2 as <-. lia. }
  set (g1 := Gr.add_edge (NInt k) (NInt a) g).
  assert (E1 : edge_list g1 = (edge_list g ++ [(NInt k, NInt a)])%list).
  { unfold g1. rewrite edge_list_add_edge.
    assert (H : Gr.has_edge g (NInt k) (NInt a) = false).
    { apply has_edge_false. split; [apply Fresh | intros _; apply Fresh]. }
    now rewrite H, orb_true_r. }
  assert (N1 : Gr.nodes g1 = int_nodes (range 0 (k + 1))).
  { unfold g1. rewrite nodes_add_edge, !nodes_add_node, N.
    assert (H1 : existsb (node_eqb (NInt k)) (int_nodes (range 0 k)) = false).
    { apply existsb_node_eqb_false. rewrite in_int_nodes_NInt, in_range. lia. }
    rewrite H1, range_snoc_nodes by lia.
    assert (H2 : existsb (node_eqb (NInt a)) (int_nodes (range 0 (k + 1))) = true).
    { apply existsb_node_eqb. rewrite in_int_nodes_NInt, in_range. lia. }
    now rewrite H2. }
  destruct (flags_add_edge (NInt k) (NInt a) g) as (F1 & F2 & _). fold g1 in F1, F2.
  assert (E2 : edge_list g' = (edge_list g1 ++ [(NInt k, NInt b)])%list).
  { unfold g'. fold g1. rewrite edge_list_add_edge.
    assert (H : Gr.has_edge g1 (NInt k) (NInt b) = false).
    { apply has_edge_false. rewrite E1. split; [| intros _]; rewrite in_app_iff;
        intros [H | [H | []]]; try (now apply (Fresh (NInt b)) in H).
      - injection H as H. congruence.
      - injection H as H _. lia. }
    now rewrite H, orb_true_r. }
  assert (N2 : Gr.nodes g' = int_nodes (range 0 (k + 1))).
  { unfold g'. fold g1. apply eq_trans with (Gr.nodes g1); [| exact N1].
    apply nodes_add_edge_known; rewrite N1, in_int_nodes_NInt, in_range; lia. }
  destruct (flags_add_edge (NInt k) (NInt b) g1) as (G1 & G2 & _).
  split.
  - split; [| split; [| split]].
    + unfold g'. fold g1. now rewrite G1, F1.
    + unfold g'. fold g1. now rewrite G2, F2.
    + exact N2.
    + intros u v H. rewrite E2, E1, <- app_assoc in H. simpl in H.
      rewrite in_app_iff in H. simpl in H. destruct H as [H | [H | [H | []]]].
      * apply E in H. destruct H as (p & q & -> & -> & Hp & Hq & Hpq).
        exists p, q. repeat split; auto; lia.
      * Cycles.split_pair H. exists k, a. repeat split; auto; lia.
      * Cycles.split_pair H. exists k, b. repeat split; auto; lia.
  - rewrite E2, E1, <- app_assoc. reflexivity.
Qed.

(** The inner loop: one pass over the edges of the last generation. *)
Lemma dgm_inner (cu : option loc) (h : heap) (L : list (node * node)) :
  valid cu h ->
  forall (k : Z) (g : Graph),
    0 <= k -> dgm_state k g ->
    (forall u v, In (u, v) L ->
                 exists a b, u = NInt a /\ v = NInt b
                             /\ 0 <= a < k /\ 0 <= b < k /\ a <> b) ->
    exists g',
      for_acc L k
              (fun e new_node =>
                 add_edge (target cu h) (NInt new_node) (fst e) ;;
                 add_edge (target cu h) (NInt new_node) (snd e) ;;
                 ret (new_node + 1)) (place cu h g)
      = (place cu h g', Ok (k + len L))
      /\ dgm_state (k + len L) g'
      /\ length (edge_list g') = (length (edge_list g) + 2 * length L)%nat.
Proof.
  intros Hv. induction L as [| [u v] t IH]; intros k g Hk St HL.
  - exists g. unfold len. simpl. rewrite Z.add_0_r.
    split; [reflexivity |]. split; [exact St | lia].
  - destruct (HL u v (or_introl eq_refl)) as (a & b & -> & -> & Ha & Hb & Hab).
    destruct (dgm_step k a b g St Ha Hb Hab) as [S' E'].
    destruct (IH (k + 1) _ ltac:(lia) S') as (g' & R & S'' & C).
    { intros u v H. destruct (HL u v (or_intror H)) as (p & q & -> & -> & Hp & Hq & Hpq).
      exists p, q. repeat split; auto; lia. }
    exists g'. simpl for_acc. cbn [fst snd]. unfold add_edge.
    rewrite !bind_bind, bind_update by exact Hv.
    rewrite bind_bind, bind_update by exact Hv.
    rewrite bind_ret. unfold add_edge in R. rewrite R.
    unfold len in *. simpl length.
    replace (k + Z.of_nat (S (length t))) with (k + 1 + Z.of_nat (length t)) by lia.
    split; [reflexivity |]. split; [exact S'' |].
    rewrite C, E', length_app. simpl. lia.
Qed.

(** The edge view of a generation: as many pairs as stored edges, each
    between two distinct nodes of the generation. *)
Lemma dgm_view (k : Z) (g : Graph) :
  dgm_state k g ->
  length (Gr.edges g) = length (edge_list g)
  /\ forall u v, In (u, v) (Gr.edges g) ->
                 exists a b, u = NInt a /\ v = NInt b
                             /\ 0 <= a < k /\ 0 <= b < k /\ a <> b.
Proof.
  intros (D & Mu & N & E). split.
  - apply EdgeView.length_edges; [exact D | |].
    + rewrite N. apply nodup_int_nodes, nodup_range.
    + intros [u v] H. apply E in H.
      destruct H as (a & b & -> & -> & Ha & Hb & _). simpl.
      rewrite N, !in_int_nodes_NInt, !in_range. lia.
  - intros u v H. unfold Gr.edges in H. apply EdgeView.in_edges_from in H.
    destruct H as [_ [H | H]]; apply E in H;
      destruct H as (a & b & -> & -> & Ha & Hb & Hab).
    + exists a, b. auto.
    + exists b, a. repeat split; auto; lia.
Qed.

(** The outer loop: each generation triples the edges and adds one node
    for each edge of the generation before. *)
Lemma dgm_outer (cu : option loc) (h : heap) (gens : list Z) :
  valid cu h ->
  forall (k : Z) (g : Graph),
    0 <= k -> dgm_state k g ->
    exists g' k',
      for_acc gens k
              (fun _ new_node =>
                 last_generation_edges <- edges (target cu h) ;;
                 for_acc last_generation_edges new_node
                         (fun e new_node =>
                            add_edge (target cu h) (NInt new_node) (fst e) ;;
                            add_edge (target cu h) (NInt new_node) (snd e) ;;
                            ret (new_node + 1))) (place cu h g)
      = (place cu h g', Ok k')
      /\ dgm_state k' g'
      /\ Z.of_nat (length (edge_list g'))
         = 3 ^ len gens * Z.of_nat (length (edge_list g))
      /\ 2 * (k' - k) = (3 ^ len gens - 1) * Z.of_nat (length (edge_list g)).
Proof.
  intros Hv. induction gens as [| x t IH]; intros k g Hk St.
  - exists g, k. split; [reflexivity |]. split; [exact St |].
    change (len (@nil Z)) with 0. rewrite Z.pow_0_r. lia.
  - destruct (dgm_view k g St) as [VL VE].
    destruct (dgm_inner cu h (Gr.edges g) Hv k g Hk St VE) as (g1 & R1 & S1 & C1).
    destruct (IH (k + len (Gr.edges g)) g1) as (g' & k' & R & S' & C & K).
    { unfold len. lia. }
    { exact S1. }
    exists g', k'. simpl for_acc. unfold edges at 1.
    rewrite bind_bind, bind_read by exact Hv.
    unfold bind at 1. rewrite R1. rewrite R.
    split; [reflexivity |]. split; [exact S' |].
    unfold len in *. rewrite VL in *. simpl length.
    replace (Z.of_nat (S (length t))) with (Z.succ (Z.of_nat (length t))) by lia.
    rewrite Z.pow_succ_r by lia.
    rewrite C1, Nat2Z.inj_add, Nat2Z.inj_mul in C. nia.
Qed.

Lemma dgm_check (cu : option loc) (h : heap) :
  simple_container cu h ->
  match cu with
  | None => ret tt
  | Some C =>
      d <- is_directed C ;;
      (if d then raise (NetworkXError "Directed Graph not supported")
       else ret tt) ;;
      m <- is_multigraph C ;;
      (if m then raise (NetworkXError "Multigraph not supported")
       else ret tt)
  end h = (h, Ok tt).
Proof.
  destruct cu as [l |]; [| reflexivity]. intros [D Mu].
  unfold bind at 1. unfold is_directed, read. rewrite D.
  unfold bind at 1. unfold ret at 1. unfold bind at 1.
  unfold is_multigraph, read. now rewrite Mu.
Qed.

End DGM.

(** [dorogovtsev_goltsev_mendes_graph(n)] for a generation [n >= 0], with
    an absent or undirected simple container: the call returns a graph on
    the nodes [0..k-1] with [3^n] edges and [k = (3^n + 3) / 2] nodes, and
    no edge joins a node to itself. *)
Theorem dorogovtsev_goltsev_mendes_graph_size (n : Z) (create_using : option loc)
        (h : heap) :
  0 <= n ->
  valid create_using h ->
  simple_container create_using h ->
  exists h' G,
    dorogovtsev_goltsev_mendes_graph n create_using h = (h', Ok G)
    /\ G = target create_using h
    /\ Z.of_nat (Gr.number_of_edges (fetch h' G)) = 3 ^ n
    /\ 2 * Z.of_nat (Gr.number_of_nodes (fetch h' G)) = 3 ^ n + 3
    /\ Gr.nodes (fetch h' G) = int_nodes (range 0 ((3 ^ n + 3) / 2))
    /\ (forall u v, In (u, v) (edge_list (fetch h' G)) -> u <> v).
Proof.
  intros Hn Hv Hs.
  set (g1 := Gr.add_edge (NInt 0) (NInt 1)
               (Gr.set_name "Dorogovtsev-Goltsev-Mendes Graph"
                  (Gr.add_nodes_from [] []
                     (Gr.set_name ("empty_graph(" ++ "0" ++ ")")%string
                                  (start create_using h))))).
  assert (S1 : dgm_state 2 g1 /\ length (edge_list g1) = 1%nat).
  { unfold g1, dgm_state. destruct create_using as [l |]; simpl start.
    - destruct Hs as [D Mu]. destruct (fetch h l) as [d m nm nd el].
      simpl in D, Mu. subst d m. simpl. repeat split.
      intros u v [E | []]. Cycles.split_pair E. exists 0, 1. repeat split; lia.
    - simpl. repeat split.
      intros u v [E | []]. Cycles.split_pair E. exists 0, 1. repeat split; lia. }
  destruct S1 as [S1 L1].
  assert (Fin : forall k g,
             dgm_state k g -> 0 <= k ->
             Z.of_nat (length (edge_list g)) = 3 ^ n ->
             2 * k = 3 ^ n + 3 ->
             Z.of_nat (Gr.number_of_edges g) = 3 ^ n
             /\ 2 * Z.of_nat (Gr.number_of_nodes g) = 3 ^ n + 3
             /\ Gr.nodes g = int_nodes (range 0 ((3 ^ n + 3) / 2))
             /\ (forall u v, In (u, v) (edge_list g) -> u <> v)).
  { intros k g (D & Mu & N & E) Hk C K.
    assert (K' : (3 ^ n + 3) / 2 = k) by (symmetry; apply Z.div_unique_exact; lia).
    split; [exact C |]. split; [| split].
    - rewrite FillFacts.number_of_nodes_length, N. unfold int_nodes.
      rewrite length_map, ListFacts.length_range. lia.
    - now rewrite K'.
    - intros u v H. apply E in H. destruct H as (a & b & -> & -> & _ & _ & Hab).
      congruence. }
  unfold dorogovtsev_goltsev_mendes_graph.
  unfold bind at 1. rewrite DGM.dgm_check by exact Hs.
  rewrite HeapFacts.bind_empty_graph by exact Hv.
  unfold set_name at 1. rewrite HeapFacts.bind_update by exact Hv.
  unfold add_edge at 1. rewrite HeapFacts.bind_update by exact Hv.
  change (snd (nodes_or_number (Count 0))) with (@nil node).
  change (str_spec (Count 0)) with "0"%string.
  fold g1.
  destruct (Z.eqb_spec n 0) as [-> | Hne].
  - do 2 eexists. split; [reflexivity |]. split; [reflexivity |].
    rewrite HeapFacts.fetch_place by exact Hv.
    apply (Fin 2 g1 S1); [lia | rewrite L1; reflexivity | reflexivity].
  - destruct (DGM.dgm_outer create_using h (range 1 (n + 1)) Hv 2 g1 ltac:(lia) S1)
      as (g' & k' & R & S' & C & K).
    do 2 eexists. split; [unfold bind at 1; rewrite R; reflexivity |].
    split; [reflexivity |].
    rewrite HeapFacts.fetch_place by exact Hv.
    assert (Len : len (range 1 (n + 1)) = n).
    { unfold len. rewrite ListFacts.length_range. lia. }
    rewrite Len, L1 in C, K.
    assert (P : 0 < 3 ^ n) by (apply Z.pow_pos_nonneg; lia).
    apply (Fin k' g' S'); lia.
Qed.

Lemma dorogovtsev_goltsev_mendes_graph_size_witness :
  exists h' G,
    dorogovtsev_goltsev_mendes_graph 2 (Some 0%nat) [old_graph] = (h', Ok G)
    /\ G = 0%nat
    /\ Z.of_nat (Gr.number_of_edges (fetch h' G)) = 3 ^ 2
    /\ 2 * Z.of_nat (Gr.number_of_nodes (fetch h' G)) = 3 ^ 2 + 3
    /\ Gr.nodes (fetch h' G) = int_nodes (range 0 ((3 ^ 2 + 3) / 2))
    /\ (forall u v, In (u, v) (edge_list (fetch h' G)) -> u <> v).
Proof.
  apply (dorogovtsev_goltsev_mendes_graph_size 2 (Some 0%nat) [old_graph]).
  - lia.
  - simpl. lia.
  - split; reflexivity.
Defined.

(* ================================================================== *)
(** * Adjacency in the 2d grid *)

Module GridAdjacency.

Import GrFacts HeapFacts FillFacts ListFacts CountFacts Multipartite.

Lemma in_lattice_rows_iff (m n a b c d : Z) :
  In ((a, b), (c, d)) (lattice_rows m n)
  <-> 0 <= c < m - 1 /\ 0 <= d < n /\ a = c + 1 /\ b = d.
Proof.
  unfold lattice_rows. rewrite in_map_iff. split.
  - intros [[k j] [E H]]. apply in_product in H. destruct H as [Hk Hj].
    apply in_range in Hk, Hj. simpl in E.
    apply pair_equal_spec in E. destruct E as [E1 E2].
    apply pair_equal_spec in E1, E2. lia.
  - intros (Hc & Hd & -> & ->). exists (c, d). split; [reflexivity |].
    apply in_product. rewrite !in_range. lia.
Qed.

Lemma in_lattice_cols_iff (m n a b c d : Z) :
  In ((a, b), (c, d)) (lattice_cols m n)
  <-> 0 <= c < m /\ 0 <= d < n - 1 /\ a = c /\ b = d + 1.
Proof.
  unfold lattice_cols. rewrite in_map_iff. split.
  - intros [[k j] [E H]]. apply in_product in H. destruct H as [Hk Hj].
    apply in_range in Hk, Hj. simpl in E.
    apply pair_equal_spec in E. destruct E as [E1 E2].
    apply pair_equal_spec in E1, E2. lia.
  - intros (Hc & Hd & -> & ->). exists (c, d). split; [reflexivity |].
    apply in_product. rewrite !in_range. lia.
Qed.

Lemma in_map_grid_edge (L : list ((Z * Z) * (Z * Z))) (a b c d : Z) :
  In (cell a b, cell c d) (map grid_edge L) <-> In ((a, b), (c, d)) L.
Proof.
  rewrite in_map_iff. split.
  - intros [e [E H]]. change (cell a b, cell c d) with (grid_edge ((a, b), (c, d))) in E.
    apply Grid.grid_edge_inj in E. now subst.
  - intros H. exists ((a, b), (c, d)). auto.
Qed.

Lemma in_wrap_cols_iff (m n a b c d : Z) :
  In ((a, b), (c, d)) (wrap_cols m n)
  <-> 0 <= a < m /\ c = a /\ b = 0 /\ d = n - 1.
Proof.
  unfold wrap_cols. rewrite in_map_iff. split.
  - intros [k [E H]]. apply in_range in H.
    apply pair_equal_spec in E. destruct E as [E1 E2].
    apply pair_equal_spec in E1, E2. lia.
  - intros (Ha & -> & -> & ->). exists a. split; [reflexivity |].
    apply in_range. lia.
Qed.

Lemma in_wrap_rows_iff (m n a b c d : Z) :
  In ((a, b), (c, d)) (wrap_rows m n)
  <-> 0 <= b < n /\ d = b /\ a = 0 /\ c = m - 1.
Proof.
  unfold wrap_rows. rewrite in_map_iff. split.
  - intros [k [E H]]. apply in_range in H.
    apply pair_equal_spec in E. destruct E as [E1 E2].
    apply pair_equal_spec in E1, E2. lia.
  - intros (Ha & -> & -> & ->). exists b. split; [reflexivity |].
    apply in_range. lia.
Qed.

End GridAdjacency.

(** [grid_2d_graph(m, n)] without [periodic], for integers [m >= 1] and
    [n >= 1] and an absent or undirected container: there are
    [(m-1)*n + m*(n-1)] edges, and the nodes [(i, j)] and [(i', j')] are
    joined exactly when both lie in the grid and they differ by one in
    exactly one coordinate. *)
Theorem grid_2d_graph_lattice (m n : Z) (create_using : option loc) (h : heap) :
  1 <= m -> 1 <= n ->
  valid create_using h -> undirected create_using h ->
  exists h' G,
    grid_2d_graph (Count m) (Count n) false create_using h = (h', Ok G)
    /\ G = target create_using h
    /\ Z.of_nat (Gr.number_of_edges (fetch h' G)) = (m - 1) * n + m * (n - 1)
    /\ (forall i j i' j',
           Gr.has_edge (fetch h' G) (cell i j) (cell i' j') = true
           <-> (0 <= i < m /\ 0 <= j < n) /\ (0 <= i' < m /\ 0 <= j' < n)
               /\ Z.abs (i - i') + Z.abs (j - j') = 1).
Proof.
  intros Hm Hn Hv Hu. do 2 eexists.
  split; [now apply Grid.grid_2d_graph_run |].
  split; [reflexivity |]. rewrite HeapFacts.fetch_place by exact Hv.
  destruct (Grid.grid_state_facts m n false create_using h) as [_ E].
  unfold grid_edges in E. simpl andb in E. cbv iota in E.
  rewrite !app_nil_r in E.
  assert (D : directed (grid_state m n false create_using h) = false).
  { unfold grid_state. cbv zeta iota. Grid.directed_false Hu. }
  split.
  - unfold Gr.number_of_edges. rewrite E, length_map, length_app.
    unfold lattice_rows, lattice_cols.
    rewrite !length_map, !Multipartite.length_product, !ListFacts.length_range.
    rewrite Nat2Z.inj_add, !Nat2Z.inj_mul, !Z2Nat.id by lia. lia.
  - intros i j i' j'. rewrite CycleGraph.has_edge_true, D, E.
    rewrite !GridAdjacency.in_map_grid_edge, !in_app_iff.
    rewrite !GridAdjacency.in_lattice_rows_iff, !GridAdjacency.in_lattice_cols_iff.
    split.
    + intros H. lia.
    + intros H. destruct (Z.eq_dec i (i' + 1)); [left; left; lia |].
      destruct (Z.eq_dec j (j' + 1)); [left; right; lia |].
      right. split; [reflexivity |].
      destruct (Z.eq_dec i' (i + 1)); [left; lia | right; lia].
Qed.

Lemma grid_2d_graph_lattice_witness :
  exists h' G,
    grid_2d_graph (Count 3) (Count 4) false (Some 0%nat) [old_graph] = (h', Ok G)
    /\ G = 0%nat
    /\ Z.of_nat (Gr.number_of_edges (fetch h' G)) = (3 - 1) * 4 + 3 * (4 - 1)
    /\ (forall i j i' j',
           Gr.has_edge (fetch h' G) (cell i j) (cell i' j') = true
           <-> (0 <= i < 3 /\ 0 <= j < 4) /\ (0 <= i' < 3 /\ 0 <= j' < 4)
               /\ Z.abs (i - i') + Z.abs (j - j') = 1).
Proof.
  apply (grid_2d_graph_lattice 3 4 (Some 0%nat) [old_graph]).
  - lia.
  - lia.
  - simpl. lia.
  - reflexivity.
Defined.

(* ================================================================== *)
(** * Adjacency in complete_graph *)

Module CompleteAdjacency.

Import GrFacts HeapFacts FillFacts ListFacts CountFacts.

Lemma complete_graph_any_run (n : NodeSpec) (cu : option loc) (h : heap) :
  valid cu h ->
  complete_graph n cu h
  = (place cu h
       (let nodes := snd (nodes_or_number n) in
        let g1 := Gr.set_name ("complete_graph(" ++ str_spec n ++ ")")%string
                    (Gr.add_nodes_from nodes []
                       (Gr.set_name ("empty_graph(" ++ str_spec n ++ ")")%string
                          (start cu h))) in
        if 1 <? len nodes
        then Gr.add_edges_from
               (if directed g1 then permutations2 nodes else combinations2 nodes) g1
        else g1),
     Ok (target cu h)).
Proof.
  intros Hv. unfold complete_graph.
  assert (N : nodes_or_number n = (n, snd (nodes_or_number n)))
    by (destruct n; reflexivity).
  rewrite N. cbv iota beta zeta. simpl snd.
  rewrite bind_empty_graph by exact Hv.
  unfold set_name. rewrite bind_update by exact Hv.
  destruct (1 <? len (snd (nodes_or_number n))); unfold when.
  - rewrite bind_bind. unfold is_directed. rewrite bind_read by exact Hv.
    unfold add_edges_from. rewrite bind_update by exact Hv. reflexivity.
  - rewrite bind_ret. reflexivity.
Qed.

Lemma in_combinations2_distinct {A : Type} (l : list A) (x y : A) :
  NoDup l -> In (x, y) (combinations2 l) -> x <> y.
Proof.
  induction 1 as [| a t Ha Ht IH]; simpl; [tauto |].
  rewrite in_app_iff, in_map_iff. intros [[z [E Hz]] | H]; [| now apply IH].
  apply pair_equal_spec in E. destruct E as [-> ->]. intros ->. contradiction.
Qed.

Lemma combinations2_covers {A : Type} (l : list A) (x y : A) :
  In x l -> In y l -> x <> y ->
  In (x, y) (combinations2 l) \/ In (y, x) (combinations2 l).
Proof.
  induction l as [| a t IH]; simpl; [tauto |].
  rewrite !in_app_iff, !in_map_iff.
  intros [-> | Hx] [-> | Hy] Hne.
  - congruence.
  - left. left. exists y. auto.
  - right. left. exists x. auto.
  - destruct (IH Hx Hy Hne); auto.
Qed.

Lemma in_picks {A : Type} (l : list A) (x : A) :
  In x l -> exists r, In (x, r) (picks l).
Proof.
  intros H. rewrite <- (picks_fst l) in H. apply in_map_iff in H.
  destruct H as [[a r] [E H]]. simpl in E. subst a. eauto.
Qed.

Lemma in_permutations2_iff {A : Type} (l : list A) (x y : A) :
  NoDup l ->
  (In (x, y) (permutations2 l) <-> In x l /\ In y l /\ x <> y).
Proof.
  intros Hn. unfold permutations2. rewrite in_flat_map. split.
  - intros [[a r] [Hp H]]. apply in_map_iff in H. destruct H as [z [E Hz]].
    simpl in E, Hz. apply pair_equal_spec in E. destruct E as [-> ->].
    apply picks_snd in Hp. destruct Hp as (l1 & l2 & -> & ->).
    rewrite in_app_iff in Hz. rewrite !in_app_iff. simpl.
    split; [tauto |]. split; [tauto |]. intros ->.
    apply NoDup_remove_2 in Hn. rewrite in_app_iff in Hn. tauto.
  - intros (Hx & Hy & Hne). destruct (in_picks l x Hx) as [r Hr].
    exists (x, r). split; [exact Hr |]. apply in_map_iff. exists y.
    split; [reflexivity |]. simpl. apply picks_snd in Hr.
    destruct Hr as (l1 & l2 & -> & ->). rewrite in_app_iff in *. simpl in Hy.
    destruct Hy as [H | [H | H]]; auto. congruence.
Qed.

Lemma existsb_joins (d : bool) (u v : node) (es : list (node * node)) :
  existsb (Gr.joins d u v) es = true
  <-> In (u, v) es \/ (d = false /\ In (v, u) es).
Proof.
  rewrite existsb_exists. unfold Gr.joins. split.
  - intros [[a b] [Hin H]]. simpl in H.
    rewrite orb_true_iff, !andb_true_iff, !node_eqb_eq, negb_true_iff in H.
    destruct H as [[-> ->] | [[Hd ->] ->]]; auto.
  - intros [H | [Hd H]].
    + exists (u, v). split; [exact H |]. simpl. now rewrite !node_eqb_refl.
    + exists (v, u). split; [exact H |]. simpl.
      rewrite Hd, !node_eqb_refl. simpl. apply orb_true_r.
Qed.

End CompleteAdjacency.



(* ================================================================== *)
(** * star_graph and wheel_graph at the edges of their domain *)

Module StarEdges.

Import GrFacts HeapFacts FillFacts ListFacts CountFacts.

Lemma directed_valid (l : loc) (h : heap) :
  directed (fetch h l) = true -> (l < length h)%nat.
Proof.
  intros D. destruct (Nat.lt_ge_cases l (length h)) as [H | H]; [exact H |].
  unfold fetch in D. rewrite nth_overflow in D by exact H. discriminate.
Qed.

(** [star_graph] on a node list that is not empty, up to the test of the
    container. *)
Lemma star_graph_explicit_run (n : NodeSpec) (v0 : node) (rest : list node)
      (cu : option loc) (h : heap) :
  valid cu h ->
  (match n with
   | Count k => (snd (nodes_or_number n) ++ [NInt k])%list
   | Explicit _ => snd (nodes_or_number n)
   end) = v0 :: rest ->
  let g0 := Gr.add_nodes_from (v0 :: rest) []
              (Gr.set_name
                 ("empty_graph(" ++ str_spec (Explicit (v0 :: rest)) ++ ")")%string
                 (start cu h)) in
  star_graph n cu h
  = if directed (start cu h)
    then (place cu h g0, Raise (NetworkXError "Directed Graph not supported"))
    else (place cu h
            (Gr.set_name ("star_graph(" ++ str_spec n ++ ")")%string
               (Gr.add_edges_from (map (pair v0) rest) g0)),
          Ok (target cu h)).
Proof.
  intros Hv E g0. unfold star_graph.
  assert (N : nodes_or_number n = (n, snd (nodes_or_number n)))
    by (destruct n; reflexivity).
  rewrite N. cbv iota beta zeta. simpl snd.
  assert (E' : match n with
               | Count k => (snd (nodes_or_number n) ++ [NInt k])%list
               | Explicit _ => snd (nodes_or_number n)
               end = v0 :: rest) by exact E.
  rewrite E'. change (item (v0 :: rest) 0) with (@ret node v0).
  rewrite bind_ret, bind_empty_graph by exact Hv.
  change (snd (nodes_or_number (Explicit (v0 :: rest)))) with (v0 :: rest).
  unfold is_directed. rewrite bind_read by exact Hv.
  rewrite directed_fill. destruct (directed (start cu h)).
  - reflexivity.
  - rewrite bind_ret. unfold add_edges_from, set_name.
    rewrite !bind_update by exact Hv. reflexivity.
Qed.

End StarEdges.



(** With a directed container, [star_graph(n)] for [n >= 0] and
    [wheel_graph(n)] for [n >= 1] raise [NetworkXError] only after the
    container has been emptied and refilled: it is left holding the nodes
    of the star and no edge, and no other object is touched.
    [wheel_graph(0)] does not test the container: it returns it, directed
    as it was, with no node and no edge. *)
Theorem star_and_wheel_directed_container (l : loc) (h : heap) :
  directed (fetch h l) = true ->
  (forall n,
      0 <= n ->
      exists h',
        star_graph (Count n) (Some l) h
        = (h', Raise (NetworkXError "Directed Graph not supported"))
        /\ Gr.nodes (fetch h' l) = int_nodes (range 0 (n + 1))
        /\ edge_list (fetch h' l) = []
        /\ (forall l', l' <> l -> fetch h' l' = fetch h l'))
  /\ (forall n,
         1 <= n ->
         exists h',
           wheel_graph (Count n) (Some l) h
           = (h', Raise (NetworkXError "Directed Graph not supported"))
           /\ Gr.nodes (fetch h' l) = int_nodes (range 0 n)
           /\ edge_list (fetch h' l) = []
           /\ (forall l', l' <> l -> fetch h' l' = fetch h l'))
  /\ (exists h',
         wheel_graph (Count 0) (Some l) h = (h', Ok l)
         /\ Gr.nodes (fetch h' l) = []
         /\ edge_list (fetch h' l) = []
         /\ directed (fetch h' l) = true).
Proof.
  intros D. pose proof (StarEdges.directed_valid l h D) as Hl.
  assert (Hv : valid (Some l) h) by exact Hl.
  assert (Ds : directed (start (Some l) h) = true) by exact D.
  split; [| split].
  - intros n Hn.
    assert (E : (snd (nodes_or_number (Count n)) ++ [NInt n])%list
                = NInt 0 :: int_nodes (range 1 (n + 1))).
    { apply StarGraph.nodes_eq. exact Hn. }
    pose proof (StarEdges.star_graph_explicit_run
                  (Count n) (NInt 0) (int_nodes (range 1 (n + 1)))
                  (Some l) h Hv E) as R.
    cbv zeta in R. rewrite Ds in R. eexists. split; [exact R |].
    rewrite (HeapFacts.fetch_place (Some l)) by exact Hv.
    split; [| split].
    + rewrite (ListFacts.range_cons 0 (n + 1)) by lia.
      apply FillFacts.nodes_fill.
      change (NoDup (int_nodes (0 :: range (0 + 1) (n + 1)))).
      rewrite <- ListFacts.range_cons by lia.
      apply ListFacts.nodup_int_nodes, ListFacts.nodup_range.
    + apply FillFacts.edge_list_fill.
    + intros l' Hne. simpl place. now apply HeapFacts.fetch_store_other.
  - intros n Hn. rewrite Wheel.wheel_graph_unfold by lia.
    assert (E : snd (nodes_or_number (Explicit (int_nodes (range 0 n))))
                = NInt 0 :: int_nodes (range (0 + 1) n)).
    { simpl snd. rewrite (ListFacts.range_cons 0 n) by lia. reflexivity. }
    pose proof (StarEdges.star_graph_explicit_run
                  (Explicit (int_nodes (range 0 n))) (NInt 0)
                  (int_nodes (range (0 + 1) n)) (Some l) h Hv E) as R.
    cbv zeta in R. rewrite Ds in R. unfold bind at 1. rewrite R.
    eexists. split; [reflexivity |].
    rewrite (HeapFacts.fetch_place (Some l)) by exact Hv.
    split; [| split].
    + rewrite (ListFacts.range_cons 0 n) by lia.
      apply FillFacts.nodes_fill.
      change (NoDup (int_nodes (0 :: range (0 + 1) n))).
      rewrite <- ListFacts.range_cons by lia.
      apply ListFacts.nodup_int_nodes, ListFacts.nodup_range.
    + apply FillFacts.edge_list_fill.
    + intros l' Hne. simpl place. now apply HeapFacts.fetch_store_other.
  - eexists. split.
    + change (wheel_graph (Count 0) (Some l))
        with (G <- empty_graph (Count 0) (Some l) ;;
              set_name G "wheel_graph(0)" ;; ret G).
      rewrite HeapFacts.bind_empty_graph by exact Hv.
      unfold set_name. rewrite HeapFacts.bind_update by exact Hv. reflexivity.
    + rewrite (HeapFacts.fetch_place (Some l)) by exact Hv.
      repeat split. exact D.
Qed.

Lemma star_and_wheel_directed_container_witness :
  exists h',
    wheel_graph (Count 4) (Some 0%nat) [old_digraph]
    = (h', Raise (NetworkXError "Directed Graph not supported"))
    /\ Gr.nodes (fetch h' 0%nat) = int_nodes (range 0 4)
    /\ edge_list (fetch h' 0%nat) = []
    /\ (forall l', l' <> 0%nat -> fetch h' l' = fetch [old_digraph] l').
Proof.
  destruct (star_and_wheel_directed_container 0%nat [old_digraph] eq_refl)
    as (_ & W & _).
  apply W. lia.
Defined.

(** [grid_2d_graph(m, n, periodic=True)] for integers [m >= 3] and
    [n >= 3] and an absent or undirected container: there are [2*m*n]
    edges, and the nodes [(i, j)] and [(i', j')] are joined exactly when
    both lie in the grid, they agree in one coordinate and, in the other,
    they are next to each other or at the two ends. *)
Theorem grid_2d_graph_torus (m n : Z) (create_using : option loc) (h : heap) :
  3 <= m -> 3 <= n ->
  valid create_using h -> undirected create_using h ->
  exists h' G,
    grid_2d_graph (Count m) (Count n) true create_using h = (h', Ok G)
    /\ G = target create_using h
    /\ Z.of_nat (Gr.number_of_edges (fetch h' G)) = 2 * m * n
    /\ (forall i j i' j',
           Gr.has_edge (fetch h' G) (cell i j) (cell i' j') = true
           <-> (0 <= i < m /\ 0 <= j < n) /\ (0 <= i' < m /\ 0 <= j' < n)
               /\ ((j = j' /\ (Z.abs (i - i') = 1 \/ Z.abs (i - i') = m - 1))
                   \/ (i = i' /\ (Z.abs (j - j') = 1 \/ Z.abs (j - j') = n - 1)))).
Proof.
  intros Hm Hn Hv Hu. do 2 eexists.
  split; [now apply Grid.grid_2d_graph_run |].
  split; [reflexivity |]. rewrite HeapFacts.fetch_place by exact Hv.
  destruct (Grid.grid_state_facts m n true create_using h) as [_ E].
  unfold grid_edges in E. simpl andb in E.
  replace (2 <? n) with true in E by (symmetry; apply Z.ltb_lt; lia).
  replace (2 <? m) with true in E by (symmetry; apply Z.ltb_lt; lia).
  assert (D : directed (grid_state m n true create_using h) = false).
  { unfold grid_state. cbv zeta iota.
    change (directed (Gr.set_name ?s ?g)) with (directed g).
    destruct (2 <? len (int_nodes (range 0 m))),
      (2 <? len (int_nodes (range 0 n))); Grid.directed_false Hu. }
  split.
  - unfold Gr.number_of_edges. rewrite E, length_map, !length_app.
    unfold lattice_rows, lattice_cols, wrap_cols, wrap_rows.
    rewrite !length_map, !Multipartite.length_product, !ListFacts.length_range.
    rewrite !Nat2Z.inj_add, !Nat2Z.inj_mul, !Z2Nat.id by lia. lia.
  - intros i j i' j'. rewrite CycleGraph.has_edge_true, D, E.
    rewrite !GridAdjacency.in_map_grid_edge, !in_app_iff.
    rewrite !GridAdjacency.in_lattice_rows_iff, !GridAdjacency.in_lattice_cols_iff,
      !GridAdjacency.in_wrap_cols_iff, !GridAdjacency.in_wrap_rows_iff.
    split.
    + intros H. lia.
    + intros (Hi & Hi' & [[Hj A] | [Hi2 A]]).
      * assert (C : i = i' + 1 \/ i' = i + 1
                    \/ (i = 0 /\ i' = m - 1) \/ (i' = 0 /\ i = m - 1)) by lia.
        destruct C as [C | [C | [C | C]]].
        -- left. left. lia.
        -- right. split; [reflexivity |]. left. lia.
        -- left. right. right. right. lia.
        -- right. split; [reflexivity |]. right. right. right. lia.
      * assert (C : j = j' + 1 \/ j' = j + 1
                    \/ (j = 0 /\ j' = n - 1) \/ (j' = 0 /\ j = n - 1)) by lia.
        destruct C as [C | [C | [C | C]]].
        -- left. right. left. lia.
        -- right. split; [reflexivity |]. right. left. lia.
        -- left. right. right. left. lia.
        -- right. split; [reflexivity |]. right. right. left. lia.
Qed.

Lemma grid_2d_graph_torus_witness :
  exists h' G,
    grid_2d_graph (Count 3) (Count 4) true (Some 0%nat) [old_graph] = (h', Ok G)
    /\ G = 0%nat
    /\ Z.of_nat (Gr.number_of_edges (fetch h' G)) = 2 * 3 * 4
    /\ (forall i j i' j',
           Gr.has_edge (fetch h' G) (cell i j) (cell i' j') = true
           <-> (0 <= i < 3 /\ 0 <= j < 4) /\ (0 <= i' < 3 /\ 0 <= j' < 4)
               /\ ((j = j' /\ (Z.abs (i - i') = 1 \/ Z.abs (i - i') = 3 - 1))
                   \/ (i = i' /\ (Z.abs (j - j') = 1 \/ Z.abs (j - j') = 4 - 1)))).
Proof.
  apply (grid_2d_graph_torus 3 4 (Some 0%nat) [old_graph]).
  - lia.
  - lia.
  - simpl. lia.
  - reflexivity.
Defined.

(* ================================================================== *)
(** * grid_graph and hypercube_graph *)

Module WellFormed.

Import GrFacts HeapFacts FillFacts ListFacts CountFacts.

Lemma closed_add_node (v : node) (a : attrs) (G : Graph) :
  closed G -> closed (Gr.add_node v a G).
Proof.
  intros H e He. change (edge_list (Gr.add_node v a G)) with (edge_list G) in He.
  apply H in He. rewrite !in_nodes_add_node. tauto.
Qed.

Lemma closed_add_nodes_from (vs : list node) (a : attrs) (G : Graph) :
  closed G -> closed (Gr.add_nodes_from vs a G).
Proof.
  unfold Gr.add_nodes_from. revert G.
  induction vs as [| v t IH]; intros G H; simpl; [exact H |].
  now apply IH, closed_add_node.
Qed.

Lemma closed_add_edge (u v : node) (G : Graph) :
  closed G -> closed (Gr.add_edge u v G).
Proof.
  intros H e He. rewrite !in_nodes_add_edge. rewrite edge_list_add_edge in He.
  destruct (multigraph G || negb (Gr.has_edge G u v)).
  - apply in_app_iff in He. destruct He as [He | [<- | []]].
    + apply H in He. tauto.
    + simpl. tauto.
  - apply H in He. tauto.
Qed.

Lemma closed_add_edges_from (es : list (node * node)) (G : Graph) :
  closed G -> closed (Gr.add_edges_from es G).
Proof.
  unfold Gr.add_edges_from. revert G.
  induction es as [| e t IH]; intros G H; simpl; [exact H |].
  now apply IH, closed_add_edge.
Qed.

Lemma closed_blank (d m : bool) : closed (Gr.blank d m).
Proof. intros e []. Qed.

Lemma has_edge_nodes (G : Graph) (u v : node) :
  closed G -> Gr.has_edge G u v = true ->
  In u (Gr.nodes G) /\ In v (Gr.nodes G).
Proof.
  intros C H. apply CycleGraph.has_edge_true in H.
  destruct H as [H | [_ H]]; apply C in H; simpl in H; tauto.
Qed.

(** ** The edge view reports every stored edge, in one orientation *)

Lemma edges_from_covers (G : Graph) (seen todo : list node) (a b : node) :
  directed G = false ->
  In (a, b) (edge_list G) ->
  ~ In a seen -> ~ In b seen ->
  In a (seen ++ todo) -> In b (seen ++ todo) ->
  In (a, b) (Gr.edges_from G seen todo) \/ In (b, a) (Gr.edges_from G seen todo).
Proof.
  intros D He. revert seen. induction todo as [| v rest IH]; intros seen Ha Hb Ia Ib.
  - rewrite app_nil_r in Ia. contradiction.
  - simpl Gr.edges_from. rewrite !in_app_iff, !in_map_iff.
    destruct (node_eq_dec v a) as [-> | Hva].
    + left. left. exists b. split; [reflexivity |]. apply filter_In. split.
      * unfold Gr.neighbors. apply in_flat_map. exists (a, b).
        split; [exact He |]. simpl. rewrite node_eqb_refl. now left.
      * rewrite D. simpl. apply negb_true_iff. now apply existsb_node_eqb_false.
    + destruct (node_eq_dec v b) as [-> | Hvb].
      * right. left. exists a. split; [reflexivity |]. apply filter_In. split.
        -- unfold Gr.neighbors. apply in_flat_map. exists (a, b).
           split; [exact He |]. simpl.
           assert (E : node_eqb b a = false) by (apply node_eqb_neq; exact Hva).
           rewrite E, D, node_eqb_refl. simpl. now left.
        -- rewrite D. simpl. apply negb_true_iff. now apply existsb_node_eqb_false.
      * assert (Ia' : In a ((v :: seen) ++ rest)).
        { rewrite in_app_iff in Ia. simpl in Ia. simpl. rewrite in_app_iff.
          destruct Ia as [? | [? | ?]]; [tauto | congruence | tauto]. }
        assert (Ib' : In b ((v :: seen) ++ rest)).
        { rewrite in_app_iff in Ib. simpl in Ib. simpl. rewrite in_app_iff.
          destruct Ib as [? | [? | ?]]; [tauto | congruence | tauto]. }
        destruct (IH (v :: seen)) as [H | H]; try assumption.
        -- simpl. intros [? | ?]; [congruence | contradiction].
        -- simpl. intros [? | ?]; [congruence | contradiction].
        -- left. now right.
        -- right. now right.
Qed.

(** Two nodes are adjacent exactly when the edge view reports them, in
    one order or the other. *)
Lemma view_adjacent (G : Graph) (u v : node) :
  directed G = false -> closed G ->
  (In (u, v) (Gr.edges G) \/ In (v, u) (Gr.edges G)
   <-> Gr.has_edge G u v = true).
Proof.
  intros D C. rewrite CycleGraph.has_edge_true. split.
  - intros [H | H]; apply EdgeView.in_edges_from in H; destruct H as [_ H]; tauto.
  - intros [H | [_ H]].
    + destruct (C _ H) as [Hu Hv]. simpl in Hu, Hv.
      apply (edges_from_covers G [] (Gr.nodes G) u v D H); simpl; tauto.
    + destruct (C _ H) as [Hv Hu]. simpl in Hu, Hv.
      destruct (edges_from_covers G [] (Gr.nodes G) v u D H); simpl; tauto.
Qed.

Lemma view_nodes (G : Graph) (u v : node) :
  closed G -> In (u, v) (Gr.edges G) ->
  In u (Gr.nodes G) /\ In v (Gr.nodes G).
Proof.
  intros C H. apply EdgeView.in_edges_from in H. destruct H as [Hu [H | H]];
    apply C in H; simpl in H; tauto.
Qed.

End WellFormed.

Module GridRun.

Import GrFacts HeapFacts FillFacts ListFacts CountFacts.

Lemma path_graph_new (d : Z) (h : heap) :
  path_graph (Count d) None h = (h ++ [path_state d], Ok (length h)).
Proof. rewrite Lines.path_graph_run by exact I. reflexivity. Qed.

Lemma cycle_graph_new (d : Z) (h : heap) :
  1 <= d ->
  cycle_graph (Count d) None h = (h ++ [cycle_state d], Ok (length h)).
Proof.
  intros Hd. rewrite Cycles.cycle_graph_run by (try exact I; lia). reflexivity.
Qed.

Section Loop.

Variable func : NodeSpec -> option loc -> M loc.
Variable factor : Z -> Graph.
Variable ok : Z -> Prop.
Hypothesis func_new :
  forall d h, ok d -> func (Count d) None h = (h ++ [factor d], Ok (length h)).

(** One round of the loop: three new objects, the last one the product. *)
Lemma grid_step (d : Z) (h : heap) (G : loc) :
  ok d ->
  (Gold <- copy G ;;
   Gnew <- func (Count d) None ;;
   cartesian_product Gnew Gold) h
  = (h ++ [fetch h G] ++ [factor d]
       ++ [Gr_cartesian_product (factor d) (fetch h G)],
     Ok (length h + 2)%nat).
Proof.
  intros Hd. unfold copy, cartesian_product, read, alloc, bind.
  rewrite func_new by exact Hd.
  rewrite fetch_new.
  rewrite (fetch_old (h ++ [fetch h G]) (factor d) (length h))
    by (rewrite length_app; simpl; lia).
  rewrite fetch_new.
  rewrite <- !app_assoc. f_equal. f_equal.
  rewrite !length_app. simpl. lia.
Qed.

Lemma grid_loop (rest : list Z) (h : heap) (G : loc) :
  Forall ok rest ->
  (G < length h)%nat ->
  exists h2 G',
    for_acc (map Count rest) G
      (fun current_dim G =>
         Gold <- copy G ;;
         Gnew <- func current_dim None ;;
         cartesian_product Gnew Gold) h
    = (h ++ h2, Ok G')
    /\ (G' < length (h ++ h2))%nat
    /\ fetch (h ++ h2) G'
       = fold_left (fun g d => Gr_cartesian_product (factor d) g) rest (fetch h G).
Proof.
  intros Hok. revert h G. induction Hok as [| d rest Hd Hrest IH]; intros h G HG.
  - exists [], G. rewrite app_nil_r. simpl. auto.
  - simpl map. simpl for_acc. unfold bind at 1. rewrite grid_step by exact Hd.
    set (g1 := Gr_cartesian_product (factor d) (fetch h G)).
    set (h1 := h ++ [fetch h G] ++ [factor d] ++ [g1]).
    assert (F1 : fetch h1 (length h + 2)%nat = g1).
    { unfold h1. rewrite !app_assoc.
      replace (length h + 2)%nat with (length ((h ++ [fetch h G]) ++ [factor d]))
        by (rewrite !length_app; simpl; lia).
      apply fetch_new. }
    destruct (IH h1 (length h + 2)%nat) as [h2 [G' [R [N F]]]].
    { unfold h1. rewrite !length_app. simpl. lia. }
    exists (([fetch h G] ++ [factor d] ++ [g1]) ++ h2), G'.
    rewrite app_assoc. fold h1. split; [exact R |]. split; [exact N |].
    simpl fold_left. fold g1. rewrite <- F1. exact F.
Qed.

(** The whole body after the first factor: the loop, the relabelling and
    the new name. *)
Lemma grid_body (front : list Z) (last : Z) (s : string) (h : heap) :
  Forall ok (front ++ [last]) ->
  exists h2,
    (G <- func (Count last) None ;;
     G <- for_acc (map Count (rev front)) G
            (fun current_dim G =>
               Gold <- copy G ;;
               Gnew <- func current_dim None ;;
               cartesian_product Gnew Gold) ;;
     H <- relabel_nodes G flatten ;;
     set_name H s ;;
     ret H) h
    = ((h ++ h2) ++ [Gr.set_name s (Gr_relabel_nodes (nested factor front last) flatten)],
       Ok (length (h ++ h2))).
Proof.
  intros Hok. apply Forall_app in Hok. destruct Hok as [Hf Hl].
  inversion Hl as [| ? ? Hlast _]; subst.
  destruct (grid_loop (rev front) (h ++ [factor last]) (length h))
    as [h2 [G' [R [N F]]]].
  { now apply Forall_rev. }
  { rewrite length_app. simpl. lia. }
  rewrite fetch_new in F.
  exists ([factor last] ++ h2).
  unfold bind at 1. rewrite func_new by exact Hlast.
  unfold bind at 1. rewrite R.
  rewrite app_assoc.
  set (hh := (h ++ [factor last]) ++ h2) in *.
  unfold relabel_nodes, read, alloc, set_name, update, bind, ret.
  rewrite fetch_new, store_new. rewrite F.
  unfold nested. rewrite <- (rev_involutive front) at 2.
  rewrite fold_left_rev_right. reflexivity.
Qed.

End Loop.

Lemma grid_graph_unfold (periodic : bool) (front : list Z) (last : Z) (h : heap) :
  grid_graph (map Count (front ++ [last])) periodic h
  = (G <- (if periodic then cycle_graph else path_graph) (Count last) None ;;
     G <- for_acc (map Count (rev front)) G
            (fun current_dim G =>
               Gold <- copy G ;;
               Gnew <- (if periodic then cycle_graph else path_graph)
                         current_dim None ;;
               cartesian_product Gnew Gold) ;;
     H <- relabel_nodes G flatten ;;
     set_name H
       ("grid_graph(" ++ repr_list (map str_spec (map Count (front ++ [last]))) ++ ")")%string ;;
     ret H) h.
Proof.
  unfold grid_graph.
  set (s := ("grid_graph(" ++ repr_list (map str_spec (map Count (front ++ [last]))) ++ ")")%string).
  rewrite map_app, rev_app_distr.
  change (rev (map Count [last]) ++ rev (map Count front))
    with (Count last :: rev (map Count front)).
  cbv iota. now rewrite <- map_rev.
Qed.

Lemma grid_graph_run (periodic : bool) (front : list Z) (last : Z) (h : heap) :
  (periodic = true -> Forall (fun d => 1 <= d) (front ++ [last])) ->
  exists h2 s,
    grid_graph (map Count (front ++ [last])) periodic h
    = ((h ++ h2)
         ++ [Gr.set_name s
               (Gr_relabel_nodes
                  (nested (if periodic then cycle_state else path_state) front last)
                  flatten)],
       Ok (length (h ++ h2))).
Proof.
  intros Hp. rewrite grid_graph_unfold.
  set (s := ("grid_graph(" ++ repr_list (map str_spec (map Count (front ++ [last]))) ++ ")")%string).
  destruct periodic.
  - destruct (grid_body cycle_graph cycle_state (fun d => 1 <= d)
                (fun d h Hd => cycle_graph_new d h Hd) front last s h (Hp eq_refl))
      as [h2 R].
    exists h2, s. exact R.
  - destruct (grid_body path_graph path_state (fun _ => True)
                (fun d h _ => path_graph_new d h) front last s h)
      as [h2 R].
    { apply Forall_forall. auto. }
    exists h2, s. exact R.
Qed.

(** ** A periodic grid with an empty dimension *)

Lemma cycle_graph_none (d : Z) (h : heap) :
  d <= 0 -> exists g, cycle_graph (Count d) None h = (h ++ [g], Raise IndexError).
Proof.
  intros Hd. unfold cycle_graph.
  change (nodes_or_number (Count d)) with (Count d, int_nodes (range 0 d)).
  rewrite range_nil by lia. cbv iota beta.
  rewrite bind_empty_graph by exact I.
  unfold set_name, add_edges_from. rewrite !bind_update by exact I.
  change (@item_last node (int_nodes [])) with (@raise node IndexError).
  rewrite bind_raise. eexists. reflexivity.
Qed.

Lemma for_acc_app {A S : Type} (l1 l2 : list A) (s : S) (body : A -> S -> M S)
      (h : heap) :
  for_acc (l1 ++ l2) s body h
  = (s' <- for_acc l1 s body ;; for_acc l2 s' body) h.
Proof.
  revert s h. induction l1 as [| x l1 IH]; intros s h; [reflexivity |].
  simpl app. simpl for_acc. unfold bind.
  destruct (body x s h) as [h1 [s1 | e]]; [| reflexivity].
  rewrite IH. reflexivity.
Qed.

Lemma bad_step (d : Z) (G : loc) (h : heap) :
  d <= 0 ->
  exists h2,
    (Gold <- copy G ;;
     Gnew <- cycle_graph (Count d) None ;;
     cartesian_product Gnew Gold) h
    = (h ++ h2, Raise IndexError).
Proof.
  intros Hd. unfold copy, read, alloc. unfold bind at 1 2 3.
  destruct (cycle_graph_none d (h ++ [fetch h G]) Hd) as [g R].
  rewrite R. exists ([fetch h G] ++ [g]). now rewrite app_assoc.
Qed.

Lemma split_last_bad (dims : list Z) :
  Exists (fun d => d <= 0) dims ->
  exists pre bad good,
    dims = pre ++ bad :: good /\ bad <= 0 /\ Forall (fun d => 1 <= d) good.
Proof.
  induction dims as [| x t IH]; intros H; [inversion H |].
  destruct (Exists_dec (fun d => d <= 0) t (fun d => Z_le_dec d 0)) as [E | E].
  - destruct (IH E) as [pre [bad [good [-> [Hb Hg]]]]].
    exists (x :: pre), bad, good. auto.
  - inversion H as [? ? Hx | ? ? Ht]; subst; [| contradiction].
    exists [], x, t. split; [reflexivity |]. split; [exact Hx |].
    apply Forall_forall. intros d Hd.
    destruct (Z_le_dec d 0) as [L | L]; [| lia].
    exfalso. apply E. apply Exists_exists. eauto.
Qed.

Lemma grid_graph_periodic_raises (dims : list Z) (h : heap) :
  Exists (fun d => d <= 0) dims ->
  exists h2,
    grid_graph (map Count dims) true h = (h ++ h2, Raise IndexError)
    /\ h2 <> [].
Proof.
  intros H. destruct (split_last_bad dims H) as [pre [bad [good [-> [Hb Hg]]]]].
  destruct good as [| g1 gt].
  - rewrite grid_graph_unfold. unfold bind at 1.
    destruct (cycle_graph_none bad h Hb) as [g R]. rewrite R.
    exists [g]. split; [reflexivity | discriminate].
  - destruct (@exists_last _ (g1 :: gt)) as [good' [g0 E]]; [discriminate |].
    rewrite E in *. clear E g1 gt.
    apply Forall_app in Hg. destruct Hg as [Hg Hl].
    inversion Hl as [| ? ? Hlast _]; subst.
    replace (pre ++ bad :: good' ++ [g0]) with ((pre ++ bad :: good') ++ [g0])
      by (rewrite <- app_assoc; reflexivity).
    rewrite grid_graph_unfold. unfold bind at 1.
    rewrite cycle_graph_new by exact Hlast.
    replace (rev (pre ++ bad :: good')) with (rev good' ++ bad :: rev pre)
      by (rewrite rev_app_distr; simpl; now rewrite <- app_assoc).
    rewrite map_app. unfold bind at 1. rewrite for_acc_app. unfold bind at 1.
    destruct (grid_loop cycle_graph cycle_state (fun d => 1 <= d)
                (fun d h Hd => cycle_graph_new d h Hd)
                (rev good') (h ++ [cycle_state g0]) (length h))
      as [h2 [G' [R [N F]]]].
    { now apply Forall_rev. }
    { rewrite length_app. simpl. lia. }
    rewrite R. simpl map. simpl for_acc. unfold bind at 1.
    destruct (bad_step bad G' ((h ++ [cycle_state g0]) ++ h2) Hb) as [h3 R3].
    rewrite R3. exists (([cycle_state g0] ++ h2) ++ h3).
    split; [now rewrite !app_assoc |].
    intros E. apply (f_equal (@length Graph)) in E.
    rewrite !length_app in E. simpl in E. lia.
Qed.

End GridRun.

Module Products.

Import GrFacts HeapFacts FillFacts ListFacts CountFacts WellFormed Multipartite.

Lemma existsb_joins_undirected (u v : node) (es : list (node * node)) :
  existsb (Gr.joins false u v) es = true <-> In (u, v) es \/ In (v, u) es.
Proof.
  rewrite existsb_exists. unfold Gr.joins. split.
  - intros [[a b] [Hin H]]. simpl in H.
    rewrite orb_true_iff, !andb_true_iff, !node_eqb_eq in H.
    destruct H as [[-> ->] | [-> ->]]; auto.
  - intros [H | H].
    + exists (u, v). split; [exact H |]. simpl. now rewrite !node_eqb_refl.
    + exists (v, u). split; [exact H |]. simpl. rewrite !node_eqb_refl. apply orb_true_r.
Qed.

(** ** The Cartesian product *)

Section Product.

Variables G H : Graph.
Hypothesis DG : directed G = false.
Hypothesis CG : closed G.
Hypothesis DH : directed H = false.
Hypothesis CH : closed H.

Lemma product_directed : directed (Gr_cartesian_product G H) = false.
Proof. now rewrite (proj1 (Specs.flags_cartesian_product G H)). Qed.

Lemma product_closed : closed (Gr_cartesian_product G H).
Proof.
  unfold Gr_cartesian_product.
  match goal with |- closed (Gr.set_name ?s ?X) => change (closed X) end.
  apply closed_add_edges_from, closed_add_edges_from, closed_add_nodes_from, closed_blank.
Qed.

Lemma product_nodup : NoDup (Gr.nodes (Gr_cartesian_product G H)).
Proof.
  unfold Gr_cartesian_product.
  match goal with |- NoDup (Gr.nodes (Gr.set_name ?s ?X)) => change (NoDup (Gr.nodes X)) end.
  apply nodup_nodes_add_edges_from, nodup_nodes_add_edges_from,
    nodup_nodes_add_nodes_from. constructor.
Qed.

Lemma product_nodes (v : node) :
  In v (Gr.nodes (Gr_cartesian_product G H))
  <-> exists u x, In u (Gr.nodes G) /\ In x (Gr.nodes H) /\ v = NTup [u; x].
Proof.
  unfold Gr_cartesian_product.
  match goal with |- In v (Gr.nodes (Gr.set_name ?s ?X)) <-> _ =>
    change (In v (Gr.nodes X) <-> exists u x, In u (Gr.nodes G) /\ In x (Gr.nodes H) /\ v = NTup [u; x])
  end.
  rewrite !in_nodes_add_edges_from, in_nodes_add_nodes_from.
  change (Gr.nodes (Gr.blank (directed G) (multigraph G || multigraph H))) with (@nil node).
  unfold endpoints. rewrite !in_flat_map, in_map_iff.
  split.
  - intros [[[[] | [[u x] [<- Hp]]] | [e [He Hv]]] | [e [He Hv]]].
    + apply in_product in Hp. exists u, x. simpl. tauto.
    + apply in_flat_map in He. destruct He as [[a b] [Hab He]].
      apply in_map_iff in He. destruct He as [x [<- Hx]].
      apply view_nodes in Hab; [| exact CG]. simpl in Hv.
      destruct Hv as [<- | [<- | []]]; eexists; eexists; (split; [| split; [| reflexivity]]); tauto.
    + apply in_flat_map in He. destruct He as [x [Hx He]].
      apply in_map_iff in He. destruct He as [[a b] [<- Hab]].
      apply view_nodes in Hab; [| exact CH]. simpl in Hv.
      destruct Hv as [<- | [<- | []]]; eexists; eexists; (split; [| split; [| reflexivity]]); tauto.
  - intros [u [x [Hu [Hx ->]]]]. left. left. right. exists (u, x).
    split; [reflexivity |]. now apply in_product.
Qed.

Lemma product_has_edge (p q : node) :
  Gr.has_edge (Gr_cartesian_product G H) p q = true
  <-> exists u v x y,
        p = NTup [u; x] /\ q = NTup [v; y]
        /\ ((x = y /\ In x (Gr.nodes H) /\ Gr.has_edge G u v = true)
            \/ (u = v /\ In u (Gr.nodes G) /\ Gr.has_edge H x y = true)).
Proof.
  unfold Gr_cartesian_product.
  match goal with |- Gr.has_edge (Gr.set_name ?s ?X) p q = true <-> ?R =>
    change (Gr.has_edge X p q = true <-> R)
  end.
  rewrite !Adjacency.has_edge_add_edges_from, Adjacency.has_edge_add_nodes_from.
  rewrite (proj1 (flags_add_edges_from _ _)), (proj1 (flags_add_nodes_from _ _ _)).
  change (directed (Gr.blank (directed G) (multigraph G || multigraph H))) with (directed G).
  rewrite DG.
  change (Gr.has_edge (Gr.blank false (multigraph G || multigraph H)) p q) with false.
  rewrite orb_false_l, orb_true_iff, !existsb_joins_undirected, !in_flat_map.
  split.
  - intros [[[[a b] [Hab He]] | [[a b] [Hab He]]] | [[x [Hx He]] | [x [Hx He]]]];
      apply in_map_iff in He.
    + destruct He as [x [E Hx]]. simpl in E. injection E as <- <-.
      exists a, b, x, x. split; [reflexivity |]. split; [reflexivity |]. left.
      split; [reflexivity |]. split; [exact Hx |].
      apply view_adjacent; auto.
    + destruct He as [x [E Hx]]. simpl in E. injection E as <- <-.
      exists b, a, x, x. split; [reflexivity |]. split; [reflexivity |]. left.
      split; [reflexivity |]. split; [exact Hx |].
      apply view_adjacent; auto.
    + destruct He as [[a b] [E Hab]]. simpl in E. injection E as <- <-.
      exists x, x, a, b. split; [reflexivity |]. split; [reflexivity |]. right.
      split; [reflexivity |]. split; [exact Hx |].
      apply view_adjacent; auto.
    + destruct He as [[a b] [E Hab]]. simpl in E. injection E as <- <-.
      exists x, x, b, a. split; [reflexivity |]. split; [reflexivity |]. right.
      split; [reflexivity |]. split; [exact Hx |].
      apply view_adjacent; auto.
  - intros [u [v [x [y [-> [-> [[<- [Hx A]] | [<- [Hu A]]]]]]]]].
    + left. apply view_adjacent in A; auto. destruct A as [A | A].
      * left. exists (u, v). split; [exact A |]. apply in_map_iff. now exists x.
      * right. exists (v, u). split; [exact A |]. apply in_map_iff. now exists x.
    + right. apply view_adjacent in A; auto. destruct A as [A | A].
      * left. exists u. split; [exact Hu |]. apply in_map_iff. now exists (x, y).
      * right. exists u. split; [exact Hu |]. apply in_map_iff. now exists (y, x).
Qed.

Lemma product_count :
  NoDup (Gr.nodes G) -> NoDup (Gr.nodes H) ->
  length (Gr.nodes (Gr_cartesian_product G H))
  = (length (Gr.nodes G) * length (Gr.nodes H))%nat.
Proof.
  intros NG NH. unfold Gr_cartesian_product.
  match goal with |- length (Gr.nodes (Gr.set_name ?s ?X)) = _ =>
    change (length (Gr.nodes X) = (length (Gr.nodes G) * length (Gr.nodes H))%nat)
  end.
  set (V := map (fun p : node * node => NTup [fst p; snd p])
                (product (Gr.nodes G) (Gr.nodes H))).
  assert (NV : Gr.nodes (Gr.add_nodes_from V []
                 (Gr.blank (directed G) (multigraph G || multigraph H))) = V).
  { rewrite nodes_add_nodes_from_fresh; [reflexivity |]. simpl.
    apply Injective_map_NoDup; [| now apply nodup_product].
    intros [a b] [c d] E. simpl in E. congruence. }
  assert (IV : forall u x, In u (Gr.nodes G) -> In x (Gr.nodes H) -> In (NTup [u; x]) V).
  { intros u x Hu Hx. apply in_map_iff. exists (u, x). split; [reflexivity |].
    now apply in_product. }
  rewrite nodes_add_edges_from_known.
  - rewrite nodes_add_edges_from_known.
    + rewrite NV. unfold V. now rewrite length_map, length_product.
    + rewrite NV. intros v Hv. unfold endpoints in Hv.
      apply in_flat_map in Hv. destruct Hv as [e [He Hv]].
      apply in_flat_map in He. destruct He as [[a b] [Hab He]].
      apply in_map_iff in He. destruct He as [x [<- Hx]].
      apply view_nodes in Hab; [| exact CG]. simpl in Hv.
      destruct Hv as [<- | [<- | []]]; apply IV; tauto.
  - rewrite nodes_add_edges_from_known.
    + rewrite NV. intros v Hv. unfold endpoints in Hv.
      apply in_flat_map in Hv. destruct Hv as [e [He Hv]].
      apply in_flat_map in He. destruct He as [x [Hx He]].
      apply in_map_iff in He. destruct He as [[a b] [<- Hab]].
      apply view_nodes in Hab; [| exact CH]. simpl in Hv.
      destruct Hv as [<- | [<- | []]]; apply IV; tauto.
    + rewrite NV. intros v Hv. unfold endpoints in Hv.
      apply in_flat_map in Hv. destruct Hv as [e [He Hv]].
      apply in_flat_map in He. destruct He as [[a b] [Hab He]].
      apply in_map_iff in He. destruct He as [x [<- Hx]].
      apply view_nodes in Hab; [| exact CG]. simpl in Hv.
      destruct Hv as [<- | [<- | []]]; apply IV; tauto.
Qed.

End Product.

(** ** Relabelling *)

Section Relabel.

Variable G : Graph.
Variable f : node -> node.
Hypothesis DG : directed G = false.
Hypothesis CG : closed G.

Lemma relabel_nodup : NoDup (Gr.nodes (Gr_relabel_nodes G f)).
Proof.
  unfold Gr_relabel_nodes.
  apply nodup_nodes_add_nodes_from, nodup_nodes_add_edges_from. constructor.
Qed.

Lemma relabel_nodes_iff (v : node) :
  In v (Gr.nodes (Gr_relabel_nodes G f))
  <-> exists u, In u (Gr.nodes G) /\ v = f u.
Proof.
  unfold Gr_relabel_nodes.
  rewrite in_nodes_add_nodes_from, in_nodes_add_edges_from, in_map_iff.
  match goal with |- (In v (Gr.nodes (Gr.set_name ?s ?X)) \/ _) \/ _ <-> _ =>
    change (Gr.nodes (Gr.set_name s X)) with (@nil node)
  end.
  unfold endpoints. rewrite in_flat_map. split.
  - intros [[[] | [e [He Hv]]] | [u [<- Hu]]]; [| eauto].
    apply in_map_iff in He. destruct He as [[a b] [<- Hab]].
    apply view_nodes in Hab; [| exact CG]. simpl in Hv.
    destruct Hv as [<- | [<- | []]]; eexists; (split; [| reflexivity]); tauto.
  - intros [u [Hu ->]]. right. eauto.
Qed.

Lemma relabel_has_edge (p q : node) :
  Gr.has_edge (Gr_relabel_nodes G f) p q = true
  <-> exists u v, Gr.has_edge G u v = true /\ p = f u /\ q = f v.
Proof.
  unfold Gr_relabel_nodes.
  rewrite Adjacency.has_edge_add_nodes_from, Adjacency.has_edge_add_edges_from.
  match goal with |- Gr.has_edge (Gr.set_name ?s ?X) p q || existsb (Gr.joins ?d p q) ?L = true <-> _ =>
    change (Gr.has_edge (Gr.set_name s X) p q) with false;
    change d with (directed G)
  end.
  rewrite DG, orb_false_l, existsb_joins_undirected, !in_map_iff. split.
  - intros [[[a b] [E Hab]] | [[a b] [E Hab]]]; simpl in E; injection E as <- <-.
    + exists a, b. split; [| auto]. apply view_adjacent; auto.
    + exists b, a. split; [| auto]. apply view_adjacent; auto.
  - intros [u [v [A [-> ->]]]]. apply view_adjacent in A; auto.
    destruct A as [A | A]; [left; now exists (u, v) | right; now exists (v, u)].
Qed.

Lemma relabel_count :
  NoDup (Gr.nodes G) ->
  (forall u v, In u (Gr.nodes G) -> In v (Gr.nodes G) -> f u = f v -> u = v) ->
  length (Gr.nodes (Gr_relabel_nodes G f)) = length (Gr.nodes G).
Proof.
  intros N Inj. rewrite <- (length_map f (Gr.nodes G)).
  apply Permutation_length, NoDup_Permutation.
  - apply relabel_nodup.
  - clear CG. induction (Gr.nodes G) as [| x t IH]; simpl; [constructor |].
    inversion N as [| ? ? Hx Ht]; subst. constructor.
    + intros Hin. apply in_map_iff in Hin. destruct Hin as [y [E Hy]].
      apply Inj in E; simpl; auto. subst. contradiction.
    + apply IH; [exact Ht |]. intros u v Hu Hv. apply Inj; simpl; auto.
  - intros v. rewrite relabel_nodes_iff, in_map_iff. split; intros [u [A B]]; eauto.
Qed.

End Relabel.

End Products.

Module GridShape.

Import GrFacts HeapFacts FillFacts ListFacts CountFacts WellFormed Multipartite.

(** ** One factor *)

Lemma path_directed (d : Z) : directed (path_state d) = false.
Proof.
  unfold path_state. rewrite (proj1 (flags_add_edges_from _ _)).
  match goal with |- directed (Gr.set_name ?s ?X) = false => change (directed X = false) end.
  now rewrite (proj1 (flags_add_nodes_from _ _ _)).
Qed.

Lemma path_closed (d : Z) : closed (path_state d).
Proof.
  unfold path_state. apply closed_add_edges_from.
  match goal with |- closed (Gr.set_name ?s ?X) => change (closed X) end.
  apply closed_add_nodes_from. intros e [].
Qed.

(** The path on [range(d)], under any two names. *)
Lemma line_nodes (s1 s2 : string) (d : Z) :
  Gr.nodes (Gr.add_edges_from (pairwise (int_nodes (range 0 d)))
              (Gr.set_name s1
                 (Gr.add_nodes_from (int_nodes (range 0 d)) []
                    (Gr.set_name s2 (Gr.blank false false)))))
  = int_nodes (range 0 d).
Proof.
  assert (N : Gr.nodes (Gr.add_nodes_from (int_nodes (range 0 d)) []
                (Gr.set_name s2 (Gr.blank false false))) = int_nodes (range 0 d)).
  { rewrite nodes_add_nodes_from_fresh; [reflexivity |].
    simpl. apply nodup_int_nodes, nodup_range. }
  rewrite nodes_add_edges_from_known.
  - exact N.
  - match goal with |- forall x, _ -> In x (Gr.nodes (Gr.set_name ?s ?X)) =>
      change (Gr.nodes (Gr.set_name s X)) with (Gr.nodes X)
    end.
    rewrite N, Lines.pairwise_int_range. intros x Hx.
    apply Lines.endpoints_steps in Hx. destruct Hx as [z [-> Hz]].
    apply in_int_nodes_NInt, in_range. lia.
Qed.

Lemma line_has_edge (s1 s2 : string) (d : Z) (u v : node) :
  Gr.has_edge (Gr.add_edges_from (pairwise (int_nodes (range 0 d)))
                 (Gr.set_name s1
                    (Gr.add_nodes_from (int_nodes (range 0 d)) []
                       (Gr.set_name s2 (Gr.blank false false))))) u v = true
  <-> exists a b, u = NInt a /\ v = NInt b
        /\ 0 <= a < d /\ 0 <= b < d /\ apart d a b.
Proof.
  unfold apart. rewrite Adjacency.has_edge_add_edges_from.
  match goal with
  |- Gr.has_edge (Gr.set_name ?s ?X) u v
     || existsb (Gr.joins (directed (Gr.set_name ?s ?X)) u v) ?L = true <-> _ =>
    change (Gr.has_edge (Gr.set_name s X) u v) with (Gr.has_edge X u v);
    change (directed (Gr.set_name s X)) with (directed X)
  end.
  rewrite Adjacency.has_edge_add_nodes_from, (proj1 (flags_add_nodes_from _ _ _)).
  match goal with
  |- Gr.has_edge ?X u v || existsb (Gr.joins (directed ?X) u v) ?L = true <-> _ =>
    change (Gr.has_edge X u v) with false;
    change (directed X) with false
  end.
  rewrite orb_false_l, Products.existsb_joins_undirected, Lines.pairwise_int_range.
  unfold int_edges. rewrite map_map, !in_map_iff. split.
  - intros [[k [E Hk]] | [k [E Hk]]]; simpl in E; injection E as <- <-;
      apply in_range in Hk; eexists; eexists;
      (split; [reflexivity |]); (split; [reflexivity |]); lia.
  - intros [a [b [-> [-> [Ha [Hb Hab]]]]]].
    destruct (Z.eq_dec b (a + 1)) as [-> | Hne].
    + left. exists a. split; [reflexivity |]. apply in_range. lia.
    + right. exists b. assert (a = b + 1) by lia. subst a.
      split; [reflexivity |]. apply in_range. lia.
Qed.

Lemma path_nodes (d : Z) : Gr.nodes (path_state d) = int_nodes (range 0 d).
Proof. apply line_nodes. Qed.

Lemma path_has_edge (d : Z) (u v : node) :
  Gr.has_edge (path_state d) u v = true
  <-> exists a b, u = NInt a /\ v = NInt b
        /\ 0 <= a < d /\ 0 <= b < d /\ apart d a b.
Proof. apply line_has_edge. Qed.

(** ** Coordinates *)

Lemma nest_cons (a : Z) (cs : list Z) :
  cs <> [] -> nest (a :: cs) = NTup [NInt a; nest cs].
Proof. destruct cs; [congruence | reflexivity]. Qed.

Lemma in_grid_cons (d : Z) (dims cs : list Z) :
  in_grid (d :: dims) cs
  <-> exists a t, cs = a :: t /\ 0 <= a < d /\ in_grid dims t.
Proof.
  unfold in_grid. split.
  - intros H. inversion H; subst. eauto.
  - intros [a [t [-> [Ha Ht]]]]. now constructor.
Qed.

Lemma in_grid_nil (cs : list Z) : in_grid [] cs <-> cs = [].
Proof.
  unfold in_grid. split.
  - intros H. now inversion H.
  - intros ->. constructor.
Qed.

Lemma in_grid_length (dims cs : list Z) :
  in_grid dims cs -> length cs = length dims.
Proof. apply Forall2_length. Qed.

Lemma in_grid_nonempty (dims cs : list Z) :
  dims <> [] -> in_grid dims cs -> cs <> [].
Proof.
  intros N H ->. apply in_grid_length in H. destruct dims; [congruence | discriminate].
Qed.

Lemma manhattan_nonneg (a b : list Z) : 0 <= manhattan a b.
Proof.
  revert b. induction a as [| x a IH]; intros [| y b]; simpl; try lia.
  specialize (IH b). lia.
Qed.

Lemma manhattan_refl (a : list Z) : manhattan a a = 0.
Proof. induction a as [| x a IH]; simpl; [reflexivity |]. rewrite IH. lia. Qed.

Lemma manhattan_zero (a b : list Z) :
  length a = length b -> manhattan a b = 0 -> a = b.
Proof.
  revert b. induction a as [| x a IH]; intros [| y b] L M; simpl in *;
    try discriminate; [reflexivity |].
  pose proof (manhattan_nonneg a b).
  assert (x = y) by lia. subst. f_equal. apply IH; lia.
Qed.

Lemma leaves_nest (cs : list Z) :
  cs <> [] -> leaves (nest cs) = map NInt cs.
Proof.
  induction cs as [| c t IH]; [congruence |]. intros _.
  destruct t as [| c' t']; [reflexivity |].
  rewrite nest_cons by discriminate.
  change (leaves (NTup [NInt c; nest (c' :: t')]))
    with (NInt c :: (leaves (nest (c' :: t')) ++ [])).
  rewrite app_nil_r, IH by discriminate. reflexivity.
Qed.

Lemma flatten_nest (cs : list Z) :
  cs <> [] -> flatten (nest cs) = grid_label cs.
Proof.
  destruct cs as [| c [| c' t]]; [congruence | reflexivity |]. intros _.
  rewrite nest_cons by discriminate.
  change (flatten (NTup [NInt c; nest (c' :: t)]))
    with (NTup (NInt c :: (leaves (nest (c' :: t)) ++ []))).
  rewrite app_nil_r, leaves_nest by discriminate. reflexivity.
Qed.

Lemma map_NInt_inj (a b : list Z) : map NInt a = map NInt b -> a = b.
Proof.
  revert b. induction a as [| x a IH]; intros [| y b] E; simpl in E;
    try discriminate; [reflexivity |].
  injection E as -> E. f_equal. now apply IH.
Qed.

Lemma grid_label_inj (a b : list Z) : grid_label a = grid_label b -> a = b.
Proof.
  destruct a as [| x [| x' a]]; destruct b as [| y [| y' b]]; simpl;
    intros E; try discriminate; try reflexivity.
  - congruence.
  - apply (map_NInt_inj (x :: x' :: a) (y :: y' :: b)). simpl. congruence.
Qed.

Lemma nest_inj (a b : list Z) :
  a <> [] -> b <> [] -> nest a = nest b -> a = b.
Proof.
  intros Ha Hb E. apply grid_label_inj. rewrite <- !flatten_nest by assumption.
  now rewrite E.
Qed.

(** ** The cycle factor *)

Lemma cycle_directed (d : Z) : directed (cycle_state d) = false.
Proof.
  unfold cycle_state.
  rewrite (proj1 (flags_add_edge _ _ _)), (proj1 (flags_add_edges_from _ _)).
  match goal with |- directed (Gr.set_name ?s ?X) = false => change (directed X = false) end.
  now rewrite (proj1 (flags_add_nodes_from _ _ _)).
Qed.

Lemma cycle_closed (d : Z) : closed (cycle_state d).
Proof.
  unfold cycle_state. apply closed_add_edge, closed_add_edges_from.
  match goal with |- closed (Gr.set_name ?s ?X) => change (closed X) end.
  apply closed_add_nodes_from. intros e [].
Qed.

Lemma cycle_nodes (d : Z) :
  1 <= d -> Gr.nodes (cycle_state d) = int_nodes (range 0 d).
Proof.
  intros Hd. unfold cycle_state.
  rewrite nodes_add_edge_known; rewrite line_nodes;
    [reflexivity | |]; apply in_int_nodes_NInt, in_range; lia.
Qed.

Lemma wraps_cases (d a b : Z) :
  1 <= d -> 0 <= a < d -> 0 <= b < d ->
  (wraps d a b
   <-> Z.abs (a - b) = 1 \/ (a = d - 1 /\ b = 0) \/ (b = d - 1 /\ a = 0)).
Proof.
  intros Hd Ha Hb. unfold wraps.
  assert (S1 : forall x, 0 <= x < d ->
                 (x + 1) mod d = if x + 1 <? d then x + 1 else 0).
  { intros x Hx. destruct (x + 1 <? d) eqn:E.
    - apply Z.ltb_lt in E. apply Z.mod_small. lia.
    - apply Z.ltb_ge in E. replace (x + 1) with d by lia. apply Z.mod_same. lia. }
  rewrite (S1 a Ha), (S1 b Hb).
  destruct (a + 1 <? d) eqn:Ea; destruct (b + 1 <? d) eqn:Eb;
    try apply Z.ltb_lt in Ea; try apply Z.ltb_ge in Ea;
    try apply Z.ltb_lt in Eb; try apply Z.ltb_ge in Eb; lia.
Qed.

Lemma cycle_has_edge (d : Z) (u v : node) :
  1 <= d ->
  (Gr.has_edge (cycle_state d) u v = true
   <-> exists a b, u = NInt a /\ v = NInt b
         /\ 0 <= a < d /\ 0 <= b < d /\ wraps d a b).
Proof.
  intros Hd. unfold cycle_state. rewrite Adjacency.has_edge_add_edge.
  rewrite (proj1 (flags_add_edges_from _ _)).
  match goal with
  |- _ || Gr.joins (directed (Gr.set_name ?s ?X)) u v _ = true <-> _ =>
    change (directed (Gr.set_name s X)) with (directed X)
  end.
  rewrite (proj1 (flags_add_nodes_from _ _ _)).
  match goal with
  |- _ || Gr.joins (directed ?X) u v _ = true <-> _ =>
    change (directed X) with false
  end.
  rewrite orb_true_iff, line_has_edge. unfold apart.
  unfold Gr.joins. cbn [fst snd negb andb].
  rewrite orb_true_iff, !andb_true_iff, !node_eqb_eq. split.
  - intros [[a [b [-> [-> [Ha [Hb Hab]]]]]] | [[-> ->] | [-> ->]]].
    + exists a, b. repeat split; try lia. apply wraps_cases; lia.
    + exists (d - 1), 0. repeat split; try lia. apply wraps_cases; lia.
    + exists 0, (d - 1). repeat split; try lia. apply wraps_cases; lia.
  - intros [a [b [-> [-> [Ha [Hb W]]]]]]. apply wraps_cases in W; try lia.
    destruct W as [W | [[-> ->] | [-> ->]]].
    + left. exists a, b. repeat split; try lia.
    + right. left. auto.
    + right. right. auto.
Qed.

(** ** The nested grid *)

Lemma in_grid_one (d c : Z) : in_grid [d] [c] <-> 0 <= c < d.
Proof.
  rewrite in_grid_cons. split.
  - intros [a [t [E [Ha _]]]]. injection E as -> _. exact Ha.
  - intros H. exists c, []. split; [reflexivity |]. split; [exact H |].
    now apply in_grid_nil.
Qed.

Section Nested.

Variable factor : Z -> Graph.
Variable ok : Z -> Prop.
Variable step : Z -> Z -> Z -> Prop.
Hypothesis factor_directed : forall d, ok d -> directed (factor d) = false.
Hypothesis factor_closed : forall d, ok d -> closed (factor d).
Hypothesis factor_nodes :
  forall d, ok d -> Gr.nodes (factor d) = int_nodes (range 0 d).
Hypothesis factor_has_edge :
  forall d u v, ok d ->
    (Gr.has_edge (factor d) u v = true
     <-> exists a b, u = NInt a /\ v = NInt b
           /\ 0 <= a < d /\ 0 <= b < d /\ step d a b).

Lemma nested_ok (front : list Z) (last : Z) :
  Forall ok (front ++ [last]) ->
  let G := nested factor front last in
  let dims := front ++ [last] in
  directed G = false /\ closed G /\ NoDup (Gr.nodes G)
  /\ (forall v, In v (Gr.nodes G) <-> exists cs, in_grid dims cs /\ v = nest cs)
  /\ (forall p q, Gr.has_edge G p q = true
        <-> exists a b, in_grid dims a /\ in_grid dims b /\ one_step step dims a b
              /\ p = nest a /\ q = nest b)
  /\ Z.of_nat (length (Gr.nodes G)) = volume dims.
Proof.
  induction front as [| d front IH]; intros Hok; cbn zeta.
  - unfold nested. simpl fold_right. simpl app.
    assert (Hl : ok last) by (simpl in Hok; now inversion Hok).
    split; [now apply factor_directed |]. split; [now apply factor_closed |].
    rewrite factor_nodes by exact Hl. split; [apply nodup_int_nodes, nodup_range |].
    split; [| split].
    + intros v. rewrite in_int_nodes. split.
      * intros [z [-> Hz]]. apply in_range in Hz. exists [z]. split; [| reflexivity].
        now apply in_grid_one.
      * intros [cs [Hcs ->]]. apply in_grid_cons in Hcs.
        destruct Hcs as [a [t [-> [Ha Ht]]]]. apply in_grid_nil in Ht. subst t.
        exists a. split; [reflexivity |]. apply in_range. lia.
    + intros p q. rewrite factor_has_edge by exact Hl. split.
      * intros [a [b [-> [-> [Ha [Hb Hab]]]]]]. exists [a], [b].
        split; [now apply in_grid_one |]. split; [now apply in_grid_one |].
        split; [| split; reflexivity]. simpl. left. auto.
      * intros [a [b [Ha [Hb [M [-> ->]]]]]].
        apply in_grid_cons in Ha. destruct Ha as [x [t [-> [Hx Ht]]]].
        apply in_grid_nil in Ht. subst t.
        apply in_grid_cons in Hb. destruct Hb as [y [t [-> [Hy Ht]]]].
        apply in_grid_nil in Ht. subst t.
        exists x, y. simpl in M. destruct M as [[M _] | [_ []]].
        repeat split; try lia. exact M.
    + unfold int_nodes. rewrite length_map, length_range. unfold volume. simpl. lia.
  - change ((d :: front) ++ [last]) with (d :: (front ++ [last])) in Hok.
    inversion Hok as [| ? ? Hd Hrest]; subst.
    specialize (IH Hrest). cbn zeta in IH. destruct IH as [D [C [N [V [A L]]]]].
    change (nested factor (d :: front) last)
      with (Gr_cartesian_product (factor d) (nested factor front last)).
    set (H := nested factor front last) in *.
    change ((d :: front) ++ [last]) with (d :: (front ++ [last])).
    set (dims := front ++ [last]) in *.
    assert (Ne : dims <> []) by (unfold dims; destruct front; discriminate).
    pose proof (factor_directed d Hd) as DP. pose proof (factor_closed d Hd) as CP.
    pose proof (factor_nodes d Hd) as NP.
    split; [now apply Products.product_directed |].
    split; [apply Products.product_closed |].
    split; [apply Products.product_nodup |].
    split; [| split].
    + intros v. rewrite Products.product_nodes by assumption. split.
      * intros [u [x [Hu [Hx ->]]]]. rewrite NP in Hu.
        apply in_int_nodes in Hu. destruct Hu as [a [-> Ha]]. apply in_range in Ha.
        apply V in Hx. destruct Hx as [cs [Hcs ->]].
        exists (a :: cs). split.
        -- apply in_grid_cons. exists a, cs. auto.
        -- symmetry. apply nest_cons. now apply (in_grid_nonempty dims).
      * intros [cs [Hcs ->]]. apply in_grid_cons in Hcs.
        destruct Hcs as [a [t [-> [Ha Ht]]]].
        exists (NInt a), (nest t). split; [| split].
        -- rewrite NP. apply in_int_nodes_NInt, in_range. lia.
        -- apply V. eauto.
        -- apply nest_cons. now apply (in_grid_nonempty dims).
    + intros p q. rewrite Products.product_has_edge by assumption. split.
      * intros [u [v [x [y [-> [-> [[<- [Hx E]] | [<- [Hu E]]]]]]]]].
        -- apply factor_has_edge in E; [| exact Hd].
           destruct E as [a [b [-> [-> [Ha [Hb Hab]]]]]].
           apply V in Hx. destruct Hx as [cs [Hcs ->]].
           pose proof (in_grid_nonempty dims cs Ne Hcs) as Nc.
           exists (a :: cs), (b :: cs).
           split; [apply in_grid_cons; exists a, cs; auto |].
           split; [apply in_grid_cons; exists b, cs; auto |].
           split; [simpl; left; auto |].
           now rewrite !nest_cons.
        -- rewrite NP in Hu. apply in_int_nodes in Hu.
           destruct Hu as [a [-> Ha]]. apply in_range in Ha.
           apply A in E. destruct E as [cs [ds [Hcs [Hds [M [-> ->]]]]]].
           pose proof (in_grid_nonempty dims cs Ne Hcs) as Nc.
           pose proof (in_grid_nonempty dims ds Ne Hds) as Nd.
           exists (a :: cs), (a :: ds).
           split; [apply in_grid_cons; exists a, cs; auto |].
           split; [apply in_grid_cons; exists a, ds; auto |].
           split; [simpl; right; auto |].
           now rewrite !nest_cons.
      * intros [a [b [Ha [Hb [M [-> ->]]]]]].
        apply in_grid_cons in Ha. destruct Ha as [x [cs [-> [Hx Hcs]]]].
        apply in_grid_cons in Hb. destruct Hb as [y [ds [-> [Hy Hds]]]].
        pose proof (in_grid_nonempty dims cs Ne Hcs) as Nc.
        pose proof (in_grid_nonempty dims ds Ne Hds) as Nd.
        rewrite !nest_cons by assumption.
        exists (NInt x), (NInt y), (nest cs), (nest ds).
        split; [reflexivity |]. split; [reflexivity |].
        simpl in M. destruct M as [[M <-] | [<- M]].
        -- left. split; [reflexivity |]. split; [apply V; eauto |].
           apply factor_has_edge; [exact Hd |]. exists x, y. auto.
        -- right. split; [reflexivity |]. split.
           ++ rewrite NP. apply in_int_nodes_NInt, in_range. lia.
           ++ apply A. exists cs, ds. auto.
    + rewrite Products.product_count; try assumption.
      * rewrite NP. unfold int_nodes. rewrite length_map, length_range.
        unfold volume in *. simpl fold_right. rewrite <- L. lia.
      * rewrite NP. apply nodup_int_nodes, nodup_range.
Qed.

(** What the graph built for the sizes [dims] looks like, under any name. *)
Lemma relabelled_shape (front : list Z) (last : Z) (s : string) :
  Forall ok (front ++ [last]) ->
  let dims := front ++ [last] in
  let G := Gr.set_name s (Gr_relabel_nodes (nested factor front last) flatten) in
  directed G = false
  /\ (forall v, In v (Gr.nodes G) <-> exists cs, in_grid dims cs /\ v = grid_label cs)
  /\ Z.of_nat (Gr.number_of_nodes G) = volume dims
  /\ (forall p q, Gr.has_edge G p q = true
        <-> exists a b, in_grid dims a /\ in_grid dims b /\ one_step step dims a b
              /\ p = grid_label a /\ q = grid_label b).
Proof.
  intros Hok. cbn zeta.
  destruct (nested_ok front last Hok) as [D [C [N [V [A L]]]]]. cbn zeta in *.
  set (g := nested factor front last) in *. set (dims := front ++ [last]) in *.
  assert (Ne : dims <> []) by (unfold dims; destruct front; discriminate).
  change (directed (Gr.set_name s (Gr_relabel_nodes g flatten)))
    with (directed (Gr_relabel_nodes g flatten)).
  change (Gr.nodes (Gr.set_name s (Gr_relabel_nodes g flatten)))
    with (Gr.nodes (Gr_relabel_nodes g flatten)).
  change (Gr.number_of_nodes (Gr.set_name s (Gr_relabel_nodes g flatten)))
    with (length (node_data (Gr_relabel_nodes g flatten))).
  split; [| split; [| split]].
  - now rewrite (proj1 (Specs.flags_relabel_nodes g flatten)).
  - intros v. rewrite Products.relabel_nodes_iff by assumption. split.
    + intros [u [Hu ->]]. apply V in Hu. destruct Hu as [cs [Hcs ->]].
      exists cs. split; [exact Hcs |]. apply flatten_nest.
      now apply (in_grid_nonempty dims).
    + intros [cs [Hcs ->]]. exists (nest cs). split; [apply V; eauto |].
      symmetry. apply flatten_nest. now apply (in_grid_nonempty dims).
  - rewrite <- L. f_equal.
    rewrite <- (Products.relabel_count g flatten C N).
    + unfold Gr.nodes. now rewrite length_map.
    + intros u v Hu Hv E. apply V in Hu, Hv.
      destruct Hu as [cs [Hcs ->]]. destruct Hv as [ds [Hds ->]].
      pose proof (in_grid_nonempty dims cs Ne Hcs).
      pose proof (in_grid_nonempty dims ds Ne Hds).
      rewrite !flatten_nest in E by assumption. f_equal. now apply grid_label_inj.
  - intros p q.
    change (Gr.has_edge (Gr.set_name s (Gr_relabel_nodes g flatten)) p q)
      with (Gr.has_edge (Gr_relabel_nodes g flatten) p q).
    rewrite Products.relabel_has_edge by assumption. split.
    + intros [u [v [E [-> ->]]]]. apply A in E.
      destruct E as [a [b [Ha [Hb [M [-> ->]]]]]]. exists a, b.
      pose proof (in_grid_nonempty dims a Ne Ha).
      pose proof (in_grid_nonempty dims b Ne Hb).
      rewrite !flatten_nest by assumption. auto.
    + intros [a [b [Ha [Hb [M [-> ->]]]]]]. exists (nest a), (nest b).
      pose proof (in_grid_nonempty dims a Ne Ha).
      pose proof (in_grid_nonempty dims b Ne Hb).
      rewrite !flatten_nest by assumption. split; [| auto].
      apply A. exists a, b. auto.
Qed.

End Nested.

(** On a grid without wrap-around, one step is a distance of one. *)
Lemma one_step_apart (dims a b : list Z) :
  length a = length dims -> length b = length dims ->
  (one_step apart dims a b <-> manhattan a b = 1).
Proof.
  revert a b. induction dims as [| d dims IH]; intros [| x a] [| y b] La Lb;
    simpl in La, Lb; try discriminate; simpl.
  - split; [tauto | lia].
  - pose proof (manhattan_nonneg a b) as M0. unfold apart at 1.
    rewrite IH by lia. split.
    + intros [[E <-] | [<- E]].
      * rewrite manhattan_refl. lia.
      * lia.
    + intros E. destruct (Z.eq_dec x y) as [<- | Hxy].
      * right. split; [reflexivity | lia].
      * left. assert (M1 : manhattan a b = 0) by lia.
        apply manhattan_zero in M1; [| lia]. split; [lia | exact M1].
Qed.

Lemma path_shape (front : list Z) (last : Z) (s : string) :
  let dims := front ++ [last] in
  let G := Gr.set_name s (Gr_relabel_nodes (nested path_state front last) flatten) in
  directed G = false
  /\ (forall v, In v (Gr.nodes G) <-> exists cs, in_grid dims cs /\ v = grid_label cs)
  /\ Z.of_nat (Gr.number_of_nodes G) = volume dims
  /\ (forall p q, Gr.has_edge G p q = true
        <-> exists a b, in_grid dims a /\ in_grid dims b /\ manhattan a b = 1
              /\ p = grid_label a /\ q = grid_label b).
Proof.
  cbn zeta.
  destruct (relabelled_shape path_state (fun _ => True) apart
              (fun d _ => path_directed d) (fun d _ => path_closed d)
              (fun d _ => path_nodes d) (fun d u v _ => path_has_edge d u v)
              front last s) as [D [V [L A]]].
  { apply Forall_forall. auto. }
  cbn zeta in *. split; [exact D |]. split; [exact V |]. split; [exact L |].
  intros p q. rewrite A. split.
  - intros [a [b [Ha [Hb [M E]]]]]. exists a, b.
    split; [exact Ha |]. split; [exact Hb |]. split; [| exact E].
    apply (one_step_apart (front ++ [last]) a b); auto using in_grid_length.
  - intros [a [b [Ha [Hb [M E]]]]]. exists a, b.
    split; [exact Ha |]. split; [exact Hb |]. split; [| exact E].
    apply (one_step_apart (front ++ [last]) a b); auto using in_grid_length.
Qed.

Lemma cycle_shape (front : list Z) (last : Z) (s : string) :
  Forall (fun d => 1 <= d) (front ++ [last]) ->
  let dims := front ++ [last] in
  let G := Gr.set_name s (Gr_relabel_nodes (nested cycle_state front last) flatten) in
  directed G = false
  /\ (forall v, In v (Gr.nodes G) <-> exists cs, in_grid dims cs /\ v = grid_label cs)
  /\ Z.of_nat (Gr.number_of_nodes G) = volume dims
  /\ (forall p q, Gr.has_edge G p q = true
        <-> exists a b, in_grid dims a /\ in_grid dims b /\ one_step wraps dims a b
              /\ p = grid_label a /\ q = grid_label b).
Proof.
  intros Hok.
  exact (relabelled_shape cycle_state (fun d => 1 <= d) wraps
           (fun d _ => cycle_directed d) (fun d _ => cycle_closed d)
           cycle_nodes (fun d u v Hd => cycle_has_edge d u v Hd)
           front last s Hok).
Qed.

Lemma volume_repeat (k : nat) : volume (repeat 2 k) = 2 ^ Z.of_nat k.
Proof.
  unfold volume. induction k as [| k IH]; [reflexivity |].
  cbn [repeat fold_right]. rewrite IH, Nat2Z.inj_succ, Z.pow_succ_r by lia.
  change (Z.max 0 2) with 2. reflexivity.
Qed.

Lemma fetch_below (h h2 : heap) (g : Graph) (l : loc) :
  (l < length h)%nat -> fetch ((h ++ h2) ++ [g]) l = fetch h l.
Proof.
  intros H. rewrite fetch_old by (rewrite length_app; lia).
  unfold fetch. now rewrite app_nth1.
Qed.

Lemma fetch_prefix (h h2 : heap) (l : loc) :
  (l < length h)%nat -> fetch (h ++ h2) l = fetch h l.
Proof. intros H. unfold fetch. now rewrite app_nth1. Qed.

Lemma volume_zero (dims : list Z) :
  Exists (fun d => d <= 0) dims -> volume dims = 0.
Proof.
  unfold volume. induction 1 as [d t Hd | d t _ IH]; simpl fold_right.
  - rewrite Z.max_l by lia. reflexivity.
  - rewrite IH. lia.
Qed.

End GridShape.



(** [grid_graph(dims, periodic=True)]: for a non-empty list of sizes that
    are all at least one, the periodic grid is a new undirected graph on
    the same nodes as the plain grid, and two nodes are adjacent exactly when they agree in
    every coordinate but one, where one is the other plus one modulo the
    size of that dimension.  So a dimension of size one puts a loop on
    every node, and a dimension of size two adds nothing to the plain
    grid. *)
Theorem grid_graph_periodic (dims : list Z) (h : heap) :
  dims <> [] ->
  Forall (fun d => 1 <= d) dims ->
  exists h' G,
    grid_graph (map Count dims) true h = (h', Ok G)
    /\ (length h <= G < length h')%nat
    /\ (forall l, (l < length h)%nat -> fetch h' l = fetch h l)
    /\ directed (fetch h' G) = false
    /\ (forall v, In v (Gr.nodes (fetch h' G))
          <-> exists cs, in_grid dims cs /\ v = grid_label cs)
    /\ Z.of_nat (Gr.number_of_nodes (fetch h' G)) = volume dims
    /\ (forall p q, Gr.has_edge (fetch h' G) p q = true
          <-> exists a b, in_grid dims a /\ in_grid dims b /\ one_step wraps dims a b
                /\ p = grid_label a /\ q = grid_label b).
Proof.
  intros Ne Hok. destruct (exists_last Ne) as [front [last ->]].
  destruct (GridRun.grid_graph_run true front last h) as [h2 [s R]];
    [intros _; exact Hok |].
  eexists. eexists. split; [exact R |].
  rewrite HeapFacts.fetch_new. split; [| split].
  - rewrite !length_app. simpl. lia.
  - intros l Hl. now apply GridShape.fetch_below.
  - now apply GridShape.cycle_shape.
Qed.

Lemma grid_graph_periodic_witness :
  exists h' G,
    grid_graph [Count 1; Count 4] true [] = (h', Ok G)
    /\ (0 <= G < length h')%nat
    /\ (forall l, (l < 0)%nat -> fetch h' l = fetch [] l)
    /\ directed (fetch h' G) = false
    /\ (forall v, In v (Gr.nodes (fetch h' G))
          <-> exists cs, in_grid [1; 4] cs /\ v = grid_label cs)
    /\ Z.of_nat (Gr.number_of_nodes (fetch h' G)) = 4
    /\ (forall p q, Gr.has_edge (fetch h' G) p q = true
          <-> exists a b, in_grid [1; 4] a /\ in_grid [1; 4] b
                /\ one_step wraps [1; 4] a b
                /\ p = grid_label a /\ q = grid_label b).
Proof.
  apply (grid_graph_periodic [1; 4] []).
  - discriminate.
  - repeat constructor; lia.
Defined.



Module Hypercube.

Import GrFacts HeapFacts FillFacts ListFacts CountFacts.

Lemma grid_graph_nil (periodic : bool) (h : heap) :
  exists g,
    grid_graph [] periodic h = (h ++ [g], Ok (length h))
    /\ Gr.nodes g = [] /\ edge_list g = [].
Proof.
  eexists. split; [| split].
  - unfold grid_graph. change (@rev NodeSpec []) with (@nil NodeSpec). cbv iota.
    rewrite (bind_empty_graph (Count 0) None h) by exact I.
    unfold set_name. rewrite (bind_update None h) by exact I.
    unfold ret. reflexivity.
  - reflexivity.
  - reflexivity.
Qed.

Lemma repeat_last {A : Type} (x : A) (k : nat) :
  repeat x (S k) = repeat x k ++ [x].
Proof. induction k as [| k IH]; [reflexivity |]. simpl in *. now rewrite <- IH. Qed.

End Hypercube.

(** [hypercube_graph(n)] returns a new graph and leaves every older object
    alone.  For [n <= 0] the graph has no node and no edge.  For [n >= 1]
    its nodes are the [2^n] lists of [n] bits, labelled by the tuple of the
    bits (by the bare bit, [0] or [1], when [n = 1]), and two nodes are
    adjacent exactly when their bits differ in one place. *)
Theorem hypercube_graph_cube (n : Z) (h : heap) :
  exists h' G,
    hypercube_graph n h = (h', Ok G)
    /\ (length h <= G < length h')%nat
    /\ (forall l, (l < length h)%nat -> fetch h' l = fetch h l)
    /\ (n <= 0 -> Gr.nodes (fetch h' G) = [] /\ edge_list (fetch h' G) = [])
    /\ (1 <= n ->
        let dims := repeat 2 (Z.to_nat n) in
        (forall v, In v (Gr.nodes (fetch h' G))
           <-> exists cs, in_grid dims cs /\ v = grid_label cs)
        /\ Z.of_nat (Gr.number_of_nodes (fetch h' G)) = 2 ^ n
        /\ (forall p q, Gr.has_edge (fetch h' G) p q = true
              <-> exists a b, in_grid dims a /\ in_grid dims b /\ manhattan a b = 1
                    /\ p = grid_label a /\ q = grid_label b)).
Proof.
  unfold hypercube_graph.
  set (s := ("hypercube_graph_(" ++ str_int n ++ ")")%string).
  destruct (Z_le_gt_dec n 0) as [Hn | Hn].
  - replace (Z.to_nat n) with 0%nat by lia. simpl repeat.
    destruct (Hypercube.grid_graph_nil false h) as [g [R [Ng Eg]]].
    exists (h ++ [Gr.set_name s g]), (length h).
    split; [| split; [| split; [| split]]].
    + unfold bind at 1. rewrite R. unfold set_name, update, bind, ret.
      now rewrite HeapFacts.fetch_new, HeapFacts.store_new.
    + rewrite length_app. simpl. lia.
    + intros l Hl. now apply HeapFacts.fetch_old.
    + intros _. rewrite HeapFacts.fetch_new. split; [exact Ng | exact Eg].
    + intros Hn'. lia.
  - destruct (Z.to_nat n) as [| k] eqn:Ek; [lia |].
    assert (En : n = Z.of_nat (S k)) by lia.
    rewrite <- map_repeat, Hypercube.repeat_last.
    destruct (GridRun.grid_graph_run false (repeat 2 k) 2 h) as [h2 [s0 R]];
      [discriminate |].
    set (g := Gr_relabel_nodes (nested path_state (repeat 2 k) 2) flatten) in *.
    exists ((h ++ h2) ++ [Gr.set_name s g]), (length (h ++ h2)).
    split; [| split; [| split; [| split]]].
    + unfold bind at 1. rewrite R. unfold set_name, update, bind, ret.
      now rewrite HeapFacts.fetch_new, HeapFacts.store_new.
    + rewrite !length_app. simpl. lia.
    + intros l Hl. now apply GridShape.fetch_below.
    + intros Hn'. lia.
    + intros _. cbn zeta. rewrite HeapFacts.fetch_new.
      destruct (GridShape.path_shape (repeat 2 k) 2 s) as [_ [V [L A]]].
      cbn zeta in V, L, A. fold g in V, L, A.
      split; [exact V |]. split; [| exact A].
      rewrite L, <- Hypercube.repeat_last, GridShape.volume_repeat. now rewrite En.
Qed.

Lemma hypercube_graph_cube_witness :
  exists h' G,
    hypercube_graph 3 [] = (h', Ok G)
    /\ Z.of_nat (Gr.number_of_nodes (fetch h' G)) = 8
    /\ (forall p q, Gr.has_edge (fetch h' G) p q = true
          <-> exists a b, in_grid [2; 2; 2] a /\ in_grid [2; 2; 2] b
                /\ manhattan a b = 1
                /\ p = grid_label a /\ q = grid_label b).
Proof.
  destruct (hypercube_graph_cube 3 []) as [h' [G [R [_ [_ [_ P]]]]]].
  exists h', G. split; [exact R |].
  destruct P as [_ [L A]]; [lia |]. split; [exact L | exact A].
Defined.
